(** * canto-curses: screen layout, focus, input arbitration and text scrolling

    A shallow embedding of [canto_curses/screen.py] (class [Screen]), of
    [canto_curses/text.py] (class [TextBox]) and of [canto_curses/tag.py]
    (class [Tag]), with the properties of the design document and further
    properties of the code stated and proved over it.

    Conventions of the embedding:
    - Python integers are [Z]; the Python 2 operator [/] on integers is floor
      division, which is [Z.div], and raises [ZeroDivisionError] on a zero
      divisor.
    - A Python exception is a value [Raise e] of the [result] type.
    - A window object is a record carrying its identity ([wid]); the
      attributes that [init] stores on it ([pad], [callbacks]) live in a heap
      indexed by that identity, so that two occurrences of one object share
      them.
    - A curses pad is represented by the dimensions it was created with,
      which is what [getmaxyx] returns.  The calls on pads fail as those of
      the curses library do: [newpad] on less than one line or column,
      [move] to a position outside the pad and [overwrite] on a rectangle
      that is empty or does not fit raise [curses.error].
    - The variables behind [callbacks["get_var"]] and
      [callbacks["set_var"]] are one store: the offsets of the text boxes
      and [needs_redraw] live in it side by side.
    - The option store behind [callbacks["get_opt"]] is read through one
      typed accessor per key.
    - The input thread and the main thread are a transition system over the
      attributes they share; the keys the terminal holds for [getch] are
      part of its state.
    - A tag is the list of its stories with its attributes; the tag objects
      live in a store indexed by their identity, and the list of all tags
      holds identities.  The places [sync] sorts the stories by are
      rationals ([Q]): indices and indices and a half.

    The file has three parts: the embedding, the vocabulary and the examples
    the statements use, and the properties. *)

From stdpp Require Import gmap strings list pretty.
From Stdlib Require Import ZArith QArith Qminmax Sorted Lia.

Local Open Scope Z_scope.

(** ** Python values and exceptions *)

Module Py.

Inductive exn : Set :=
  | ZeroDivisionError
  | ValueError
  | AttributeError
  | KeyError
  | NameError
  | IndexError
  | UnknownDim
  | RecursionLimit
  | curses_error        (* curses.error *)
  | OutOfBoundsRead.    (* no exception: the curses library reads outside a
                           pad, and what happens then is not defined *)

Inductive result (A : Type) : Type :=
  | Ok (a : A)
  | Raise (e : exn).

Arguments Ok {A} a.
Arguments Raise {A} e.

#[global] Instance result_ret : MRet result := @Ok.

#[global] Instance result_bind : MBind result := λ A B k m,
  match m with
  | Ok a => k a
  | Raise e => Raise e
  end.

(** [a / b] on Python 2 integers. *)
Definition floordiv (a b : Z) : result Z :=
  if b =? 0 then Raise ZeroDivisionError else Ok (a / b).

(** [max(l)] of a list: [ValueError] on the empty list. *)
Definition max (l : list Z) : result Z :=
  match l with
  | [] => Raise ValueError
  | x :: l' => Ok (foldl Z.max x l')
  end.

(** [sum(l)]. *)
Definition sum (l : list Z) : Z := foldr Z.add 0 l.

(** [min(a, b, c)]. *)
Definition min3 (a b c : Z) : Z := Z.min (Z.min a b) c.

(** [enumerate(l)]. *)
Fixpoint enumerate_from {A} (i : nat) (l : list A) : list (nat * A) :=
  match l with
  | [] => []
  | x :: l' => (i, x) :: enumerate_from (S i) l'
  end.

Definition enumerate {A} (l : list A) : list (nat * A) := enumerate_from 0 l.

(** [l[i]] for a signed index that the caller has checked to be in range:
    a negative index counts from the end. *)
Definition index {A} (l : list A) (i : Z) : option A :=
  if 0 <=? i then l !! Z.to_nat i
  else l !! Z.to_nat (Z.of_nat (length l) + i).

(** [s.startswith(p)], [s.endswith(p)] and [p in s] on strings. *)
Definition startswith (s p : string) : bool := String.prefix p s.

Fixpoint endswith (s p : string) : bool :=
  String.eqb s p ||
  match s with
  | EmptyString => false
  | String _ s' => endswith s' p
  end.

Fixpoint contains (s p : string) : bool :=
  String.prefix p s ||
  match s with
  | EmptyString => false
  | String _ s' => contains s' p
  end.

End Py.

Import Py.

(** ** Windows, configuration, pads *)

(** The capability contract of a window, as far as the layout uses it. *)
Record Window := {
  wid : nat;                 (* identity of the Python object *)
  get_opt_name : string;
  get_height : Z → Z;
  get_width : Z → Z;
  is_input : bool;
}.

(** [callbacks["get_opt"]], typed per configuration key: the string argument
    is the window's option name, the field is the key's suffix.  An absent
    integer option is [None]. *)
Record Config := {
  opt_maxheight : string → option Z;
  opt_maxwidth : string → option Z;
  opt_float : string → bool;
  opt_align : string → string;
  opt_border : string → string;
}.

(** Truth value of an integer option: [None] and [0] are false. *)
Definition truthy (v : option Z) : bool :=
  match v with
  | Some z => negb (z =? 0)
  | None => false
  end.

(** The value an option denotes once [truthy]. *)
Definition int_of (v : option Z) : Z := default 0 v.

Record Pad := { maxy : Z; maxx : Z }.

(** [curses.newpad(nlines, ncols)]: the library gives no pad of less than
    one line or less than one column, and [curses.error] is raised. *)
Definition newpad (nlines ncols : Z) : result Pad :=
  if (nlines <? 1) || (ncols <? 1) then Raise curses_error
  else Ok {| maxy := nlines; maxx := ncols |}.

(** [pad.getmaxyx()[idx]]. *)
Definition getmaxyx (p : Pad) (idx : nat) : Z :=
  match idx with
  | O => maxy p
  | _ => maxx p
  end.

(** The callbacks [_subw_init] closes over for a window: [refresh] keeps
    [(top, left, bottom, right)], [border] keeps the four flags in the order
    [(top, left, bottom, right)] and raises [NameError] when the border mode
    bound none of them, [floating] is the membership in the floats. *)
Record WinCallbacks := {
  cb_refresh : Z * Z * Z * Z;
  cb_border : result (bool * bool * bool * bool);
  cb_floating : bool;
}.

(** What [ci.init(pad, callbacks)] leaves on the window object. *)
Record WinAttrs := {
  pad : Pad;
  callbacks : WinCallbacks;
}.

(** A unit of a layout: a window, or a nested list (an iterable). *)
Local Unset Elimination Schemes.
Inductive LayoutUnit :=
  | Win (w : Window)
  | Sub (l : list LayoutUnit).
Local Set Elimination Schemes.

(** [ci in l], by object identity. *)
Definition window_in (ci : Window) (l : list Window) : bool :=
  existsb (λ f, Nat.eqb (wid f) (wid ci)) l.

(** ** The screen *)

Module Screen.

(** The attributes of a [Screen] object that layout, focus and dispatch
    read and write.  [heap] holds, per window identity, what [init] stored
    on the window; [debug_log] is the output of [log.debug]. *)
Inductive LogMsg :=
  | Focusing_window (idx : Z) (w : Window)
  | Couldnt_find_window (idx : Z).

Record t := {
  get_opt : Config;
  layout : string;
  window_types : list Window;
  height : Z;
  width : Z;
  input_box : option Window;
  floats : list Window;
  tiles : list Window;
  windows : list Window;
  focused : option Window;
  heap : gmap nat WinAttrs;
  debug_log : list LogMsg;
}.

Definition set_heap (self : t) (h : gmap nat WinAttrs) : t :=
  {| get_opt := get_opt self; layout := layout self;
     window_types := window_types self; height := height self;
     width := width self; input_box := input_box self;
     floats := floats self; tiles := tiles self; windows := windows self;
     focused := focused self; heap := h; debug_log := debug_log self |}.

Definition set_focused (self : t) (f : option Window) : t :=
  {| get_opt := get_opt self; layout := layout self;
     window_types := window_types self; height := height self;
     width := width self; input_box := input_box self;
     floats := floats self; tiles := tiles self; windows := windows self;
     focused := f; heap := heap self; debug_log := debug_log self |}.

Definition set_input_box (self : t) (b : option Window) : t :=
  {| get_opt := get_opt self; layout := layout self;
     window_types := window_types self; height := height self;
     width := width self; input_box := b;
     floats := floats self; tiles := tiles self; windows := windows self;
     focused := focused self; heap := heap self; debug_log := debug_log self |}.

Definition set_windows (self : t) (fl ti ws : list Window) : t :=
  {| get_opt := get_opt self; layout := layout self;
     window_types := window_types self; height := height self;
     width := width self; input_box := input_box self;
     floats := fl; tiles := ti; windows := ws;
     focused := focused self; heap := heap self; debug_log := debug_log self |}.

Definition log_debug (self : t) (msg : LogMsg) : t :=
  {| get_opt := get_opt self; layout := layout self;
     window_types := window_types self; height := height self;
     width := width self; input_box := input_box self;
     floats := floats self; tiles := tiles self; windows := windows self;
     focused := focused self; heap := heap self;
     debug_log := debug_log self ++ [msg] |}.

(** [_subw_size_height]: the minimum of the maximum size given by the
    layout, the configured size and the requested size. *)
Definition _subw_size_height (self : t) (ci : Window) (height : Z) : Z :=
  let optname := get_opt_name ci in
  let cfg_height := opt_maxheight (get_opt self) optname in
  let cfg_height := if negb (truthy cfg_height) then height else int_of cfg_height in
  let req_height := get_height ci height in
  min3 height cfg_height req_height.

Definition _subw_size_width (self : t) (ci : Window) (width : Z) : Z :=
  let optname := get_opt_name ci in
  let cfg_width := opt_maxwidth (get_opt self) optname in
  let cfg_width := if negb (truthy cfg_width) then width else int_of cfg_width in
  let req_width := get_width ci width in
  min3 width cfg_width req_width.

(** [_subw_layout_size], one unit at a time: a window contributes
    [x.pad.getmaxyx()[idx] - 1], a sublist the maximum over its units. *)
Fixpoint _subw_layout_size_unit (self : t) (idx : nat) (x : LayoutUnit)
    {struct x} : result Z :=
  match x with
  | Win w =>
      match heap self !! wid w with
      | Some a => Ok (getmaxyx (pad a) idx - 1)
      | None => Raise AttributeError
      end
  | Sub layout =>
      sizes ← (fix each (l : list LayoutUnit) : result (list Z) :=
                 match l with
                 | [] => Ok []
                 | y :: l' =>
                     s ← _subw_layout_size_unit self idx y;
                     ss ← each l';
                     Ok (s :: ss)
                 end) layout;
      Py.max sizes
  end.

Definition _subw_layout_size (self : t) (layout : list LayoutUnit)
    (dim : string) : result Z :=
  idx ← (if String.eqb dim "width" then Ok 1%nat
         else if String.eqb dim "height" then Ok 0%nat
         else Raise UnknownDim);
  _subw_layout_size_unit self idx (Sub layout).

(** The border flags [_subw_init] computes, in the order of the [border]
    callback: [(top_border, left_border, bottom_border, right_border)]. *)
Definition _subw_init_border (self : t) (ci : Window)
    (top left bottom right : Z) : result (bool * bool * bool * bool) :=
  let border := opt_border (get_opt self) (get_opt_name ci) in
  if String.eqb border "smart" then
    let top_border := negb (top =? 0) in
    let bottom_border := negb (bottom =? height self - 1) in
    let left_border := negb (left =? 0) in
    let right_border := negb (right =? width self - 1) in
    let '(top_border, bottom_border) :=
      if window_in ci (floats self) then
        let align := opt_align (get_opt self) (get_opt_name ci) in
        let bottom_border :=
          if contains align "top" then true else bottom_border in
        let top_border :=
          if contains align "bottom" then true else top_border in
        (top_border, bottom_border)
      else (top_border, bottom_border) in
    Ok (top_border, left_border, bottom_border, right_border)
  else if String.eqb border "full" then
    Ok (true, true, true, true)
  else if String.eqb border "none" then
    Ok (false, false, false, false)
  else Raise NameError.

(** [_subw_init]: create the pad and hand it, with the callbacks, to the
    window.  When [curses.newpad] raises, the window is not touched. *)
Definition _subw_init (self : t) (ci : Window) (top left height width : Z)
    : result t :=
  let bottom := top + (height - 1) in
  let right := left + (width - 1) in
  let cbs := {| cb_refresh := (top, left, bottom, right);
                cb_border := _subw_init_border self ci top left bottom right;
                cb_floating := window_in ci (floats self) |} in
  pad ← newpad (height + 1) width;
  Ok (set_heap self (<[wid ci := {| pad := pad; callbacks := cbs |}]> (heap self))).

(** The two categories of [_subw]: windows and sublists, each with its
    index in the layout. *)
Definition immediates_of (layout : list LayoutUnit) : list (nat * Window) :=
  omap (λ p, match p.2 with Win w => Some (p.1, w) | Sub _ => None end)
       (enumerate layout).

Definition cmplx_of (layout : list LayoutUnit) : list (nat * list LayoutUnit) :=
  omap (λ p, match p.2 with Win _ => None | Sub l => Some (p.1, l) end)
       (enumerate layout).

(** First loop of [_subw]: sizes of the immediates. *)
Fixpoint _subw_immediates (self : t) (orientation : string) (height width : Z)
    (immediates : list (nat * Window)) (sizes : list Z) (used units : Z)
    : result (list Z * Z * Z) :=
  match immediates with
  | [] => Ok (sizes, used, units)
  | (i, unit) :: rest =>
      size ← (if String.eqb orientation "horizontal" then
                avail ← floordiv (width - used) units;
                Ok (_subw_size_width self unit avail)
              else
                avail ← floordiv (height - used) units;
                Ok (_subw_size_height self unit avail));
      let used := used + size in
      let sizes := <[i := size]> sizes in
      let units := units - 1 in
      _subw_immediates self orientation height width rest sizes used units
  end.

(** Second loop of [_subw]: the sublists, each laid out by the recursive
    call [rec] and then measured. *)
Fixpoint _subw_cmplx
    (rec : t → list LayoutUnit → Z → Z → Z → Z → string → result t)
    (self : t) (orientation : string) (top left height width : Z)
    (cmplx : list (nat * list LayoutUnit)) (sizes : list Z) (used units : Z)
    : result (t * list Z * Z * Z) :=
  match cmplx with
  | [] => Ok (self, sizes, used, units)
  | (i, unit) :: rest =>
      let offset := Py.sum (take i sizes) in
      '(self, size) ←
        (if String.eqb orientation "horizontal" then
           available ← floordiv (width - used) units;
           self ← rec self unit top (left + offset) height available "vertical";
           size ← _subw_layout_size self unit "width";
           Ok (self, size)
         else
           available ← floordiv (height - used) units;
           self ← rec self unit (top + offset) left available width "horizontal";
           size ← _subw_layout_size self unit "height";
           Ok (self, size));
      let sizes := <[i := size]> sizes in
      let used := used + size in
      let units := units - 1 in
      _subw_cmplx rec self orientation top left height width rest sizes used units
  end.

(** Third loop of [_subw]: set up the immediates at their offsets. *)
Fixpoint _subw_setup (self : t) (orientation : string) (top left height width : Z)
    (immediates : list (nat * Window)) (sizes : list Z) : result t :=
  match immediates with
  | [] => Ok self
  | (i, ci) :: rest =>
      let offset := Py.sum (take i sizes) in
      (* [i] indexes [layout], and [sizes] has its length *)
      let size := default 0 (sizes !! i) in
      self ←
        (if String.eqb orientation "horizontal" then
           _subw_init self ci top (left + offset) height size
         else
           _subw_init self ci (top + offset) left size width);
      _subw_setup self orientation top left height width rest sizes
  end.

(** The three loops in sequence, with the local [sizes] at the end. *)
Definition _subw_body
    (rec : t → list LayoutUnit → Z → Z → Z → Z → string → result t)
    (self : t) (layout : list LayoutUnit) (top left height width : Z)
    (orientation : string) : result (t * list Z) :=
  let immediates := immediates_of layout in
  let cmplx := cmplx_of layout in
  let sizes := replicate (length layout) 0 in
  let units := Z.of_nat (length layout) in
  let used := 0 in
  '(sizes, used, units) ←
    _subw_immediates self orientation height width immediates sizes used units;
  let units := Z.of_nat (length cmplx) in
  '(self, sizes, used, units) ←
    _subw_cmplx rec self orientation top left height width cmplx sizes used units;
  self ← _subw_setup self orientation top left height width immediates sizes;
  Ok (self, sizes).

(** [_subw]: lay out some windows into the given space, stacking with
    [orientation].  The Python function returns its argument [layout]; the
    embedding returns the screen, whose heap holds the windows set up.
    [depth] bounds the nesting of the recursion. *)
Fixpoint _subw (depth : nat) (self : t) (layout : list LayoutUnit)
    (top left height width : Z) (orientation : string) : result t :=
  match depth with
  | O => Raise RecursionLimit
  | S depth' =>
      '(self, _) ← _subw_body (_subw depth') self layout top left height width
                     orientation;
      Ok self
  end.

(** Nesting depth of a layout, which bounds the recursion of [_subw]. *)
Fixpoint unit_depth (x : LayoutUnit) : nat :=
  match x with
  | Win _ => O
  | Sub l =>
      S ((fix each (l : list LayoutUnit) : nat :=
            match l with
            | [] => O
            | y :: l' => Nat.max (unit_depth y) (each l')
            end) l)
  end.

Definition layout_depth (layout : list LayoutUnit) : nat := unit_depth (Sub layout).

(** [fill_layout]: picks the input box and generates the list based layout
    of the tiles.  [aligns] is the dictionary of the five alignments. *)
Definition aligns_append (aligns : gmap string (list LayoutUnit))
    (align : string) (x : LayoutUnit) : result (gmap string (list LayoutUnit)) :=
  match aligns !! align with
  | Some l => Ok (<[align := l ++ [x]]> aligns)
  | None => Raise KeyError
  end.

Fixpoint fill_layout_aligns (self : t) (windows : list Window)
    (aligns : gmap string (list LayoutUnit))
    : result (gmap string (list LayoutUnit)) :=
  match windows with
  | [] => Ok aligns
  | w :: rest =>
      let align := opt_align (get_opt self) (get_opt_name w) in
      aligns ←
        (if String.eqb (get_opt_name w) "taglist" then
           aligns_append aligns align (Sub [Sub [Win w]])
         else
           aligns_append aligns align (Win w));
      fill_layout_aligns self rest aligns
  end.

Definition fill_layout (self : t) (layout : string) (windows : list Window)
    : result (t * list LayoutUnit) :=
  let inputs := filter (λ w, is_input w = true) windows in
  let self := set_input_box self (head inputs) in
  if String.eqb layout "hstack" then
    Ok (self, Win <$> windows)
  else if String.eqb layout "vstack" then
    Ok (self, [Sub (Win <$> windows)])
  else
    let aligns : gmap string (list LayoutUnit) :=
      <["top" := []]> (<["bottom" := []]> (<["left" := []]>
        (<["right" := []]> (<["neutral" := []]> ∅)))) in
    aligns ← fill_layout_aligns self windows aligns;
    let get k := default [] (aligns !! k) in
    let horizontal := get "left" ++ get "neutral" ++ get "right" in
    Ok (self, get "top" ++ [Sub horizontal] ++ get "bottom").

(** [_focus]: focus the [idx]-th window of the reversed [tiles + floats]. *)
Definition _focus (self : t) (idx : Z) : result t :=
  let focus_order := reverse (tiles self ++ floats self) in
  let l := Z.of_nat (length focus_order) in
  if (-1 * l <? idx) && (idx <? l) then
    match Py.index focus_order idx with
    | Some w =>
        let self := set_focused self (Some w) in
        Ok (log_debug self (Focusing_window idx w))
    | None => Raise IndexError
    end
  else
    Ok (log_debug self (Couldnt_find_window idx)).

(** The region [subwindows] gives a float:
    [(top, left, height, width)]. *)
Definition float_region (self : t) (f : Window) : Z * Z * Z * Z :=
  let align := opt_align (get_opt self) (get_opt_name f) in
  let height := _subw_size_height self f (Screen.height self) in
  let width := _subw_size_width self f (Screen.width self) in
  let top := 0 in
  let top := if startswith align "bottom" then Screen.height self - height else top in
  let left := 0 in
  let left := if endswith align "right" then Screen.width self - width else left in
  (top, left, height, width).

Definition subwindows_float (self : t) (f : Window) : result t :=
  let region := float_region self f in
  _subw_init self f region.1.1.1 region.1.1.2 region.1.2 region.2.

(** The loop of [subwindows] over the floats. *)
Fixpoint subwindows_floats (self : t) (fs : list Window) : result t :=
  match fs with
  | [] => Ok self
  | f :: fs' => self ← subwindows_float self f; subwindows_floats self fs'
  end.

(** [subwindows]: the top level window generator.  The windows are fresh
    objects at every call, so nothing of the former heap is kept. *)
Definition subwindows (self : t) : result t :=
  let self := set_heap (set_windows self [] [] []) ∅ in
  let self :=
    foldl (λ self w,
             let optname := get_opt_name w in
             let flt := opt_float (get_opt self) optname in
             if flt then
               set_windows self (floats self ++ [w]) (tiles self) (windows self ++ [w])
             else
               set_windows self (floats self) (tiles self ++ [w]) (windows self ++ [w]))
          self (window_types self) in
  let self := set_focused self None in
  '(self, l) ← fill_layout self (layout self) (tiles self);
  self ← _subw (S (layout_depth l)) self l 0 0 (height self) (width self) "vertical";
  self ← subwindows_floats self (floats self);
  _focus self 0.

(** ** Command and key dispatch

    [CommandHandler] lives in a module of its own; the screen-level handler
    and the methods of the windows are taken as they come.  A dispatch
    returns, besides the screen, the method calls it made, in order. *)
Inductive Call :=
  | CommandHandler_command (cmd : string)
  | CommandHandler_key (k : Z)
  | Window_command (w : Window) (cmd : string)
  | Window_key (w : Window) (k : Z).

Section Dispatch.

(** The values a key handler returns, apart from [None], and their truth
    value. *)
Context {R : Type} (truth : R → bool).

(** [CommandHandler.command(self, cmd)]: truth value of the result. *)
Context (handler_command : t → string → bool * t).
(** [CommandHandler.key(self, k)]. *)
Context (handler_key : t → Z → option R * t).
(** [w.command(cmd)] and [w.key(k)] of a window. *)
Context (window_command : Window → string → t → t).
Context (window_key : Window → Z → t → option R * t).

Definition is_true (r : option R) : bool :=
  match r with
  | Some v => truth v
  | None => false
  end.

(** [Screen.command]; a window object is always true. *)
Definition command (self : t) (cmd : string) : t * list Call :=
  let '(r, self) := handler_command self cmd in
  if negb r then
    match focused self with
    | Some w => (window_command w cmd self,
                 [CommandHandler_command cmd; Window_command w cmd])
    | None => (self, [CommandHandler_command cmd])
    end
  else (self, [CommandHandler_command cmd]).

(** [Screen.key]: the screen, the value returned and the calls made. *)
Definition key (self : t) (k : Z) : t * option R * list Call :=
  let '(r, self) := handler_key self k in
  if is_true r then (self, r, [CommandHandler_key k])
  else
    match focused self with
    | Some w =>
        let '(r', self) := window_key w k self in
        (self, r', [CommandHandler_key k; Window_key w k])
    | None => (self, None, [CommandHandler_key k])
    end.

End Dispatch.

End Screen.

(** ** Input arbitration

    [Screen.input_thread] runs on a thread of its own, next to the main
    thread, which calls [pause_interface_callback],
    [unpause_interface_callback] and [input_callback].  The two threads are
    embedded as a transition system: a state holds the attributes they
    share, the keys the terminal holds for [getch], and one program counter
    per thread; an event says which thread takes its next step, or that a
    key is typed.  A step that would block ([Lock.acquire] on a held lock,
    [Event.wait] on an unset event) is not enabled.

    [InputBox] lives in a module of its own; its methods are taken as they
    come. *)

Module Input.

(** Where [input_thread] stands. *)
Inductive InputPc :=
  | at_acquire            (* self.input_lock.acquire(), before the loop *)
  | at_getch              (* r = self.pseudo_input_box.getch() *)
  | at_release            (* r == -1: self.input_lock.release() *)
  | at_sleep              (* time.sleep(0.01) *)
  | at_reacquire          (* self.input_lock.acquire(); continue *)
  | at_key (r : Z).       (* r != -1: the rest of the iteration *)

(** Where the main thread stands. *)
Inductive MainPc :=
  | running                        (* outside the calls below *)
  | paused                         (* between pause and unpause *)
  | at_edit (prompt : string)      (* input_callback: self.input_box.edit(prompt) *)
  | at_sub_edit                    (* input_callback: self.sub_edit = True *)
  | at_wait.                       (* input_callback: self.input_done.wait() *)

Inductive event :=
  | key_typed (k : Z)              (* the terminal receives a key *)
  | input_step                     (* input_thread takes a step *)
  | pause_interface_callback       (* main thread: the call *)
  | unpause_interface_callback     (* main thread: the call *)
  | input_callback (prompt : string) (* main thread: enters the call *)
  | main_step.                     (* main thread: next step of input_callback *)

(** What a step hands over: a key put on the command queue, or a key fed
    to the edit box. *)
Inductive delivery :=
  | queued (k : Z)
  | fed (k : Z).

Definition delivered_key (d : delivery) : Z :=
  match d with
  | queued k => k
  | fed k => k
  end.

Section WithInputBox.

Context {Box : Type}.
(** [input_box.edit(prompt)] *)
Context (edit : string → Box → Box).
(** [input_box.addkey(r)]: the return code and the box afterwards *)
Context (addkey : Z → Box → Z * Box).
(** [input_box.result] *)
Context (result_of : Box → string).
(** [input_box.reset()] *)
Context (reset : Box → Box).

Record state := {
  input_lock : bool;          (* the Lock is held *)
  sub_edit : bool;
  input_done : bool;          (* the Event is set *)
  input_box : Box;
  user_queue : list Z;        (* the keys of the ("KEY", r) items, oldest first *)
  needs_redraw : bool;        (* set_var("needs_redraw", ...) *)
  terminal : list Z;          (* keys typed and not yet read, oldest first *)
  input_pc : InputPc;
  main_pc : MainPc;
  returned : list string;     (* values input_callback has returned *)
  resized : nat;              (* calls of _resize *)
}.

Definition set_input_lock (v : bool) (s : state) : state :=
  {| input_lock := v; sub_edit := sub_edit s; input_done := input_done s;
     input_box := input_box s; user_queue := user_queue s;
     needs_redraw := needs_redraw s; terminal := terminal s;
     input_pc := input_pc s; main_pc := main_pc s; returned := returned s;
     resized := resized s |}.

Definition set_sub_edit (v : bool) (s : state) : state :=
  {| input_lock := input_lock s; sub_edit := v; input_done := input_done s;
     input_box := input_box s; user_queue := user_queue s;
     needs_redraw := needs_redraw s; terminal := terminal s;
     input_pc := input_pc s; main_pc := main_pc s; returned := returned s;
     resized := resized s |}.

Definition set_input_done (v : bool) (s : state) : state :=
  {| input_lock := input_lock s; sub_edit := sub_edit s; input_done := v;
     input_box := input_box s; user_queue := user_queue s;
     needs_redraw := needs_redraw s; terminal := terminal s;
     input_pc := input_pc s; main_pc := main_pc s; returned := returned s;
     resized := resized s |}.

Definition set_input_box (v : Box) (s : state) : state :=
  {| input_lock := input_lock s; sub_edit := sub_edit s;
     input_done := input_done s; input_box := v;
     user_queue := user_queue s; needs_redraw := needs_redraw s;
     terminal := terminal s; input_pc := input_pc s; main_pc := main_pc s;
     returned := returned s; resized := resized s |}.

Definition set_user_queue (v : list Z) (s : state) : state :=
  {| input_lock := input_lock s; sub_edit := sub_edit s;
     input_done := input_done s; input_box := input_box s; user_queue := v;
     needs_redraw := needs_redraw s; terminal := terminal s;
     input_pc := input_pc s; main_pc := main_pc s; returned := returned s;
     resized := resized s |}.

Definition set_needs_redraw (v : bool) (s : state) : state :=
  {| input_lock := input_lock s; sub_edit := sub_edit s;
     input_done := input_done s; input_box := input_box s;
     user_queue := user_queue s; needs_redraw := v; terminal := terminal s;
     input_pc := input_pc s; main_pc := main_pc s; returned := returned s;
     resized := resized s |}.

Definition set_terminal (v : list Z) (s : state) : state :=
  {| input_lock := input_lock s; sub_edit := sub_edit s;
     input_done := input_done s; input_box := input_box s;
     user_queue := user_queue s; needs_redraw := needs_redraw s;
     terminal := v; input_pc := input_pc s; main_pc := main_pc s;
     returned := returned s; resized := resized s |}.

Definition set_input_pc (v : InputPc) (s : state) : state :=
  {| input_lock := input_lock s; sub_edit := sub_edit s;
     input_done := input_done s; input_box := input_box s;
     user_queue := user_queue s; needs_redraw := needs_redraw s;
     terminal := terminal s; input_pc := v; main_pc := main_pc s;
     returned := returned s; resized := resized s |}.

Definition set_main_pc (v : MainPc) (s : state) : state :=
  {| input_lock := input_lock s; sub_edit := sub_edit s;
     input_done := input_done s; input_box := input_box s;
     user_queue := user_queue s; needs_redraw := needs_redraw s;
     terminal := terminal s; input_pc := input_pc s; main_pc := v;
     returned := returned s; resized := resized s |}.

Definition set_returned (v : list string) (s : state) : state :=
  {| input_lock := input_lock s; sub_edit := sub_edit s;
     input_done := input_done s; input_box := input_box s;
     user_queue := user_queue s; needs_redraw := needs_redraw s;
     terminal := terminal s; input_pc := input_pc s; main_pc := main_pc s;
     returned := v; resized := resized s |}.

Definition set_resized (v : nat) (s : state) : state :=
  {| input_lock := input_lock s; sub_edit := sub_edit s;
     input_done := input_done s; input_box := input_box s;
     user_queue := user_queue s; needs_redraw := needs_redraw s;
     terminal := terminal s; input_pc := input_pc s; main_pc := main_pc s;
     returned := returned s; resized := v |}.

(** One step of [input_thread]. *)
Definition input_thread (s : state) : option (state * list delivery) :=
  match input_pc s with
  | at_acquire | at_reacquire =>
      if input_lock s then None
      else Some (set_input_pc at_getch (set_input_lock true s), [])
  | at_getch =>
      (* nodelay mode: -1 when no key is there *)
      match terminal s with
      | [] => Some (set_input_pc at_release s, [])
      | r :: rest => Some (set_input_pc (at_key r) (set_terminal rest s), [])
      end
  | at_release => Some (set_input_pc at_sleep (set_input_lock false s), [])
  | at_sleep => Some (set_input_pc at_reacquire s, [])
  | at_key r =>
      if sub_edit s then
        let '(rc, box) := addkey r (input_box s) in
        let s := set_input_box box s in
        let s :=
          if rc =? 0 then
            set_needs_redraw true (set_input_done true (set_sub_edit false s))
          else s in
        Some (set_input_pc at_getch s, [fed r])
      else
        Some (set_input_pc at_getch (set_user_queue (user_queue s ++ [r]) s),
              [queued r])
  end.

(** One step of the main thread. *)
Definition main_thread (ev : event) (s : state) : option state :=
  match ev, main_pc s with
  | pause_interface_callback, running =>
      if input_lock s then None
      else Some (set_main_pc paused (set_input_lock true s))
  | unpause_interface_callback, paused =>
      Some (set_main_pc running (set_resized (S (resized s))
              (set_input_lock false s)))
  | input_callback prompt, running =>
      Some (set_main_pc (at_edit prompt) (set_input_done false s))
  | main_step, at_edit prompt =>
      Some (set_main_pc at_sub_edit (set_input_box (edit prompt (input_box s)) s))
  | main_step, at_sub_edit =>
      Some (set_main_pc at_wait (set_sub_edit true s))
  | main_step, at_wait =>
      if input_done s then
        let r := result_of (input_box s) in
        Some (set_main_pc running (set_returned (returned s ++ [r])
                (set_input_box (reset (input_box s)) s)))
      else None
  | _, _ => None
  end.

(** A key code is never the -1 of an empty [getch]. *)
Definition step (s : state) (ev : event) : option (state * list delivery) :=
  match ev with
  | key_typed k =>
      if 0 <=? k then Some (set_terminal (terminal s ++ [k]) s, []) else None
  | input_step => input_thread s
  | _ => (λ s', (s', [])) <$> main_thread ev s
  end.

Fixpoint run (s : state) (evs : list event) : option (state * list delivery) :=
  match evs with
  | [] => Some (s, [])
  | ev :: evs' =>
      '(s', out) ← step s ev;
      '(s'', out') ← run s' evs';
      Some (s'', out ++ out')
  end.

(** The screen once [__init__] has started the input thread. *)
Definition init (box : Box) : state :=
  {| input_lock := false; sub_edit := false; input_done := false;
     input_box := box; user_queue := []; needs_redraw := false;
     terminal := []; input_pc := at_acquire; main_pc := running;
     returned := []; resized := O |}.

(** The keys typed along a sequence of events. *)
Definition typed (evs : list event) : list Z :=
  omap (λ ev, match ev with key_typed k => Some k | _ => None end) evs.

(** The key [input_thread] has read and not yet handed over. *)
Definition in_flight (s : state) : list Z :=
  match input_pc s with
  | at_key r => [r]
  | _ => []
  end.

(** The input thread is the one holding the lock. *)
Definition held_by_input (s : state) : bool :=
  match input_pc s with
  | at_getch | at_release | at_key _ => true
  | _ => false
  end.

(** The main thread is the one holding the lock. *)
Definition held_by_main (s : state) : bool :=
  match main_pc s with
  | paused => true
  | _ => false
  end.

End WithInputBox.

(** The edit buffer: class [InputBox] of [input.py], which is not among
    the sources at hand. *)
Module SpecBox.

(** Modelled from the spec: the state of [InputBox], missing from the
    sources.  Per the design document an edit capture has a prompt and a
    buffer, and completes with a value. *)
Record t := { prompt : string; buffer : string; result : string }.

Definition empty : t := {| prompt := ""; buffer := ""; result := "" |}.

(** Modelled from the spec: the key on which [InputBox.addkey] signals
    "done"; the design document names it the done key, the newline is taken
    for it. *)
Definition done_key : Z := 10.

(** Modelled from the spec: [InputBox.edit(prompt)], which starts a capture
    with the prompt and an empty buffer. *)
Definition edit (p : string) (b : t) : t :=
  {| prompt := p; buffer := ""; result := result b |}.

(** Modelled from the spec: [InputBox.addkey(r)].  The done key ends the
    capture (return code 0) with the final content of the buffer as the
    completion value; any other key is taken into the buffer and more keys
    are needed (return code 1). *)
Definition addkey (k : Z) (b : t) : Z * t :=
  if k =? done_key then
    (0, {| prompt := prompt b; buffer := buffer b; result := buffer b |})
  else
    (1, {| prompt := prompt b;
           buffer := buffer b +:+ String (Ascii.ascii_of_nat (Z.to_nat k)) "";
           result := result b |}).

(** Modelled from the spec: [InputBox.reset()], which destroys the
    capture. *)
Definition reset (b : t) : t := empty.

End SpecBox.

End Input.

(** ** The text box *)

Module TextBox.

(** A value behind [get_var] and [set_var]. *)
Inductive value :=
  | Int (z : Z)
  | Bool (b : bool).

(** A value read as an integer: a Python bool is the integer 0 or 1. *)
Definition int_value (v : value) : Z :=
  match v with
  | Int z => z
  | Bool b => if b then 1 else 0
  end.

Section WithRender.

(** The attributes of a [TextBox].  [height], [width] and [fullpad] exist
    once [refresh] has run; [vars] is the one store behind [get_var] and
    [set_var], which the box shares with the rest of the interface. *)
Record t := {
  get_opt_name : string;
  pad : Pad;
  max_offset : Z;
  height : option Z;
  width : option Z;
  fullpad : option Pad;
  text : string;
  vars : gmap string value;
}.

(** [render(pad)] depends on the theme module; it is taken as it comes,
    as the number of lines it returns for a pad of the given width. *)
Context (render : t → Z → Z).

Definition init (name : string) (pad : Pad) (vars : gmap string value) : t :=
  {| get_opt_name := name; pad := pad; max_offset := 0; height := None;
     width := None; fullpad := None; text := ""; vars := vars |}.

(** [callbacks["get_var"](name)] and [callbacks["set_var"](name, v)]. *)
Definition get_var (self : t) (name : string) : result value :=
  match vars self !! name with
  | Some v => Ok v
  | None => Raise KeyError
  end.

Definition set_var (self : t) (name : string) (v : value) : t :=
  {| get_opt_name := get_opt_name self; pad := pad self;
     max_offset := max_offset self; height := height self;
     width := width self; fullpad := fullpad self; text := text self;
     vars := <[name := v]> (vars self) |}.

Definition get_offset (self : t) : result Z :=
  v ← get_var self (get_opt_name self +:+ "_offset");
  Ok (int_value v).

Definition set_offset (self : t) (offset : Z) : t :=
  set_var self (get_opt_name self +:+ "_offset") (Int offset).

Definition set_size (self : t) (h w : Z) : t :=
  {| get_opt_name := get_opt_name self; pad := pad self;
     max_offset := max_offset self; height := Some h; width := Some w;
     fullpad := fullpad self; text := text self; vars := vars self |}.

Definition set_fullpad (self : t) (p : Pad) : t :=
  {| get_opt_name := get_opt_name self; pad := pad self;
     max_offset := max_offset self; height := height self;
     width := width self; fullpad := Some p; text := text self;
     vars := vars self |}.

Definition set_max_offset (self : t) (m : Z) : t :=
  {| get_opt_name := get_opt_name self; pad := pad self; max_offset := m;
     height := height self; width := width self; fullpad := fullpad self;
     text := text self; vars := vars self |}.

Definition refresh (self : t) : result t :=
  let height := getmaxyx (pad self) 0 in
  let width := getmaxyx (pad self) 1 in
  let self := set_size self height width in
  let lines := render self width in
  (* Create pre-rendered pad *)
  fullpad ← newpad lines width;
  let self := set_fullpad self fullpad in
  let self := set_max_offset self (Z.max ((lines - 1) - (height - 1)) 0) in
  offset ← get_offset self;
  let offset := Z.min offset (max_offset self) in
  let self := set_offset self offset in
  Ok (set_var self "needs_redraw" (Bool true)).

Definition _relscroll (self : t) (factor : Z) : result t :=
  offset ← get_offset self;
  let offset := offset + factor in
  let offset := Z.min offset (max_offset self) in
  let offset := Z.max offset 0 in
  let self := set_offset self offset in
  Ok (set_var self "needs_redraw" (Bool true)).

(** [self.height], [self.width] and [self.fullpad]: an [AttributeError]
    before the first [refresh]. *)
Definition self_height (self : t) : result Z :=
  match height self with
  | Some h => Ok h
  | None => Raise AttributeError
  end.

Definition self_width (self : t) : result Z :=
  match width self with
  | Some w => Ok w
  | None => Raise AttributeError
  end.

Definition self_fullpad (self : t) : result Pad :=
  match fullpad self with
  | Some p => Ok p
  | None => Raise AttributeError
  end.

Definition cmd_scroll_up (self : t) : result t := _relscroll self (-1).

Definition cmd_scroll_down (self : t) : result t := _relscroll self 1.

Definition cmd_page_up (self : t) : result t :=
  h ← self_height self;
  _relscroll self (-1 * (h - 1)).

Definition cmd_page_down (self : t) : result t :=
  h ← self_height self;
  _relscroll self (h - 1).

(** The operations a text box goes through after [init]. *)
Inductive op :=
  | scroll_up
  | scroll_down
  | page_up
  | page_down
  | do_refresh.

Definition apply (self : t) (o : op) : result t :=
  match o with
  | scroll_up => cmd_scroll_up self
  | scroll_down => cmd_scroll_down self
  | page_up => cmd_page_up self
  | page_down => cmd_page_down self
  | do_refresh => refresh self
  end.

Fixpoint apply_all (self : t) (ops : list op) : result t :=
  match ops with
  | [] => Ok self
  | o :: ops' => self ← apply self o; apply_all self ops'
  end.

End WithRender.

End TextBox.

(** ** The life cycle of the windows

    The methods of [Screen] that create and destroy windows, refresh them
    and follow the terminal: [curses_setup], [refresh], [redraw],
    [die_callback], [add_window_callback] and [_resize].  What they do to
    the windows and to curses is recorded, call by call, next to what they
    return or raise. *)

Module Lifecycle.

Import Screen.

Inductive ErrorMsg :=
  | Curses_setup_failed (msg : string)
  | Color_pair_failed (n fg bg : Z).

Inductive Effect :=
  | Window_die (w : Window)               (* w.die() *)
  | Window_refresh (w : Window)           (* c.refresh() *)
  | Window_redraw (w : Window)            (* c.redraw() *)
  | curses_doupdate
  | curses_curs_set (n : Z)
  | curses_endwin
  | pseudo_input_box_keypad (n : Z)
  | pseudo_input_box_nodelay (n : Z)
  | stdscr_refresh
  | curses_init_pair (n fg bg : Z)
  | log_error (msg : ErrorMsg).

(** A computation that makes calls and then returns or raises. *)
Definition traced (A : Type) : Type := list Effect * result A.

#[global] Instance traced_ret : MRet traced := λ A a, ([], Ok a).

#[global] Instance traced_bind : MBind traced := λ A B k m,
  match m.2 with
  | Ok a => (m.1 ++ (k a).1, (k a).2)
  | Raise e => (m.1, Raise e)
  end.

Definition call (e : Effect) : traced unit := ([e], Ok tt).

Definition calls (es : list Effect) : traced unit := (es, Ok tt).

Definition lift {A} (r : result A) : traced A := ([], r).

Definition set_window_types (self : t) (wts : list Window) : t :=
  {| get_opt := get_opt self; layout := layout self;
     window_types := wts; height := height self;
     width := width self; input_box := input_box self;
     floats := floats self; tiles := tiles self; windows := windows self;
     focused := focused self; heap := heap self; debug_log := debug_log self |}.

Definition set_size (self : t) (h w : Z) : t :=
  {| get_opt := get_opt self; layout := layout self;
     window_types := window_types self; height := h;
     width := w; input_box := input_box self;
     floats := floats self; tiles := tiles self; windows := windows self;
     focused := focused self; heap := heap self; debug_log := debug_log self |}.

(** [l.index(w)], by object identity: [ValueError] when [w] is not in
    [l]. *)
Fixpoint list_index (l : list Window) (w : Window) : result nat :=
  match l with
  | [] => Raise ValueError
  | x :: l' =>
      if Nat.eqb (wid x) (wid w) then Ok O
      else i ← list_index l' w; Ok (S i)
  end.

(** [del l[idx]] for an index that is not negative. *)
Definition del {A} (l : list A) (idx : nat) : result (list A) :=
  if decide (idx < length l)%nat then Ok (delete idx l) else Raise IndexError.

(** [subwindows], with the call of [die] on every former window it starts
    with. *)
Definition subwindows (self : t) : traced t :=
  _ ← calls (Window_die <$> windows self);
  lift (Screen.subwindows self).

(** [refresh] operates in order: the tiles, then the floats. *)
Definition refresh (self : t) : traced unit :=
  _ ← calls (Window_refresh <$> (tiles self ++ floats self));
  call curses_doupdate.

Definition redraw (self : t) : traced unit :=
  _ ← calls (Window_redraw <$> (tiles self ++ floats self));
  call curses_doupdate.

Definition die_callback (self : t) (window : Window) : traced t :=
  _ ← call (Window_die window);
  idx ← lift (list_index (windows self) window);
  ws ← lift (del (windows self) idx);
  let self := set_windows self (floats self) (tiles self) ws in
  wts ← lift (del (window_types self) idx);
  let self := set_window_types self wts in
  self ← subwindows self;
  _ ← refresh self;
  mret self.

Definition add_window_callback (self : t) (cls : Window) : traced t :=
  let self := set_window_types self (window_types self ++ [cls]) in
  self ← subwindows self;
  self ← lift (_focus self 0);
  _ ← refresh self;
  mret self.

Definition cmd_focus (self : t) (idx : Z) : result t := _focus self idx.

Section WithCurses.

(** [curses.cbreak()], [noecho()], [start_color()] and
    [use_default_colors()] in a row. *)
Context (modes : result unit).
(** [e.msg] of an exception. *)
Context (msg_of : exn → result string).
(** [self.stdscr.getmaxyx()]. *)
Context (stdscr_getmaxyx : Z * Z).
(** [callbacks["get_opt"]] on the keys of the colors. *)
Context (color_opt : string → result (option Z)).
(** Whether [curses.init_pair(n, fg, bg)] returns. *)
Context (init_pair : Z → Z → Z → result unit).
Context (COLOR_PAIRS : nat).

Definition COLOR_WHITE : Z := 7.

(** [try: v = get_opt(key) except: v = None]. *)
Definition try_get_opt (key : string) : option Z :=
  match color_opt key with
  | Ok v => v
  | Raise _ => None
  end.

(** The body of the loop of [curses_setup] over the color pairs. *)
Definition color_pair (deffg defbg : Z) (i : nat) : traced unit :=
  let optprefix := "color." +:+ pretty i in
  let fg := try_get_opt (optprefix +:+ ".fg") in
  let fg :=
    if negb (truthy fg) then
      let fg := try_get_opt optprefix in
      if negb (truthy fg) then deffg else int_of fg
    else int_of fg in
  let bg := try_get_opt (optprefix +:+ ".bg") in
  let bg := if negb (truthy bg) then defbg else int_of bg in
  _ ← call (curses_init_pair (Z.of_nat i + 1) fg bg);
  match init_pair (Z.of_nat i + 1) fg bg with
  | Ok _ => mret tt
  | Raise _ => call (log_error (Color_pair_failed (Z.of_nat i + 1) fg bg))
  end.

Fixpoint color_pairs (deffg defbg : Z) (range : list nat) : traced unit :=
  match range with
  | [] => mret tt
  | i :: rest => _ ← color_pair deffg defbg i; color_pairs deffg defbg rest
  end.

(** [curses_setup]: the screen and the value returned, 0 or -1. *)
Definition curses_setup (self : t) : traced (t * Z) :=
  _ ← call (curses_curs_set 0);
  match modes with
  | Raise e =>
      m ← lift (msg_of e);
      _ ← call (log_error (Curses_setup_failed m));
      mret (self, -1)
  | Ok _ =>
      let self := set_size self stdscr_getmaxyx.1 stdscr_getmaxyx.2 in
      defbg ← lift (color_opt "color.defbg");
      let defbg := if negb (truthy defbg) then -1 else int_of defbg in
      deffg ← lift (color_opt "color.deffg");
      let deffg := if negb (truthy deffg) then COLOR_WHITE else int_of deffg in
      _ ← color_pairs deffg defbg (seq 0 COLOR_PAIRS);
      mret (self, 0)
  end.

(** [_resize]: the typical curses resize, endwin and re-setup. *)
Definition _resize (self : t) : traced t :=
  _ ← call curses_endwin;
  _ ← call (pseudo_input_box_keypad 1);
  _ ← call (pseudo_input_box_nodelay 1);
  _ ← call stdscr_refresh;
  r ← curses_setup self;
  self ← subwindows r.1;
  _ ← refresh self;
  mret self.

Definition cmd_resize (self : t) : traced t := _resize self.

End WithCurses.

End Lifecycle.

(** ** Drawing the text box

    [TextBox.redraw] copies the visible part of the pre-rendered pad that
    [refresh] creates onto the pad of the window.  The pads are curses
    objects; what [redraw] does to them is recorded call by call, the call
    that raises included, next to whether it returns or raises.  The
    borders are printed by the theme module and the [refresh] callback ends
    in [noutrefresh] on the terminal: what these calls return or raise is
    taken as it comes. *)

Module TextBoxDraw.

Inductive PadCall :=
  | pad_erase                       (* self.pad.erase() *)
  | pad_move (y x : Z)              (* self.pad.move(y, x) *)
  | render_top_border               (* self.render_top_border(WrapPad(self.pad)) *)
  | render_bottom_border            (* self.render_bottom_border(WrapPad(self.pad)) *)
  | fullpad_overwrite (sminrow smincol dminrow dmincol dmaxrow dmaxcol : Z)
                                    (* self.fullpad.overwrite(self.pad, ...) *)
  | callbacks_refresh.              (* self.callbacks["refresh"]() *)

(** A computation that makes calls on the pads and then returns or
    raises. *)
Definition drawn (A : Type) : Type := list PadCall * result A.

#[global] Instance drawn_ret : MRet drawn := λ A a, ([], Ok a).

#[global] Instance drawn_bind : MBind drawn := λ A B k m,
  match m.2 with
  | Ok a => (m.1 ++ (k a).1, (k a).2)
  | Raise e => (m.1, Raise e)
  end.

Definition lift {A} (r : result A) : drawn A := ([], r).

(** [pad.erase()] returns. *)
Definition erase : drawn unit := ([pad_erase], Ok tt).

(** [pad.move(y, x)]: [curses.error] for a position outside the pad. *)
Definition move (p : Pad) (y x : Z) : drawn unit :=
  ([pad_move y x],
   if (0 <=? y) && (y <? maxy p) && (0 <=? x) && (x <? maxx p) then Ok tt
   else Raise curses_error).

(** What [copywin] of the curses library does with the rectangle that
    [src.overwrite(dst, sminrow, smincol, dminrow, dmincol, dmaxrow,
    dmaxcol)] hands it.  It fails on a rectangle that is empty, that ends
    more than one line or column after the source, that does not fit the
    destination, or of which nothing is left at positions from 0 on.  A
    rectangle that ends exactly one line or column after the source passes
    its test, and the library reads outside the source pad. *)
Definition copywin (src dst : Pad)
    (sminrow smincol dminrow dmincol dmaxrow dmaxcol : Z) : result unit :=
  let smaxrow := sminrow + dmaxrow - dminrow in
  let smaxcol := smincol + dmaxcol - dmincol in
  if (dmaxrow <? dminrow) || (dmaxcol <? dmincol) then Raise curses_error
  else if (maxy src <? smaxrow) || (maxx src <? smaxcol) then Raise curses_error
  else if (maxy dst - 1 <? dmaxrow) || (maxx dst - 1 <? dmaxcol) then
    Raise curses_error
  else if (dmaxrow <? 0) || (smaxrow <? 0) || (dmaxcol <? 0) || (smaxcol <? 0)
  then Raise curses_error
  else if (smaxrow =? maxy src) || (smaxcol =? maxx src) then
    Raise OutOfBoundsRead
  else Ok tt.

Definition overwrite (src dst : Pad)
    (sminrow smincol dminrow dmincol dmaxrow dmaxcol : Z) : drawn unit :=
  ([fullpad_overwrite sminrow smincol dminrow dmincol dmaxrow dmaxcol],
   copywin src dst sminrow smincol dminrow dmincol dmaxrow dmaxcol).

Section WithOutcome.

(** What [render_top_border], [render_bottom_border] and
    [callbacks["refresh"]()] return or raise. *)
Context (outcome : PadCall → result unit).

Definition call (c : PadCall) : drawn unit := ([c], outcome c).

(** [redraw]: the calls it makes on the pads and on its callbacks, in
    order.  [callbacks] are the callbacks the box was given by [init]. *)
Definition redraw (self : TextBox.t) (callbacks : WinCallbacks) : drawn unit :=
  offset ← lift (TextBox.get_offset self);
  '(tb, lb, bb, rb) ← lift (cb_border callbacks);
  _ ← erase;
  height ← lift (TextBox.self_height self);
  fullpad ← lift (TextBox.self_fullpad self);
  let realheight := Z.min height (getmaxyx fullpad 0) - 1 in
  let top := 0 in
  top ← (if (tb : bool) then
           _ ← move (TextBox.pad self) 0 0;
           _ ← call render_top_border;
           mret (top + 1)
         else mret top);
  width ← lift (TextBox.self_width self);
  _ ← overwrite fullpad (TextBox.pad self) offset 0 top 0 (realheight - top)
        (width - 1);
  _ ← (if (bb : bool) then
         if negb (cb_floating callbacks) then
           let padheight := getmaxyx (TextBox.pad self) 0 - 1 in
           _ ← move (TextBox.pad self) (padheight - 1) 0;
           _ ← call render_bottom_border;
           move (TextBox.pad self) (padheight - 1) 0
         else
           _ ← move (TextBox.pad self) (realheight - 1) 0;
           _ ← call render_bottom_border;
           move (TextBox.pad self) (realheight - 1) 0
       else move (TextBox.pad self) (realheight - 1) 0);
  call callbacks_refresh.

End WithOutcome.

(** [pad.getyx()[0]] once the calls are made, known when the last call
    on the pad is a [move]. *)
Definition on_pad (c : PadCall) : bool :=
  match c with
  | callbacks_refresh => false
  | _ => true
  end.

Definition getyx_row (calls : list PadCall) : option Z :=
  match last (filter (λ c, on_pad c = true) calls) with
  | Some (pad_move y _) => Some y
  | _ => None
  end.

(** [Screen.refresh_callback(c, t, l, b, r)], the [refresh] callback of a
    window: the arguments of [c.pad.noutrefresh]. *)
Definition refresh_callback (callbacks : WinCallbacks) (getyx0 : Z)
    : Z * Z * Z * Z * Z * Z :=
  let t := (cb_refresh callbacks).1.1.1 in
  let l := (cb_refresh callbacks).1.1.2 in
  let b := (cb_refresh callbacks).1.2 in
  let r := (cb_refresh callbacks).2 in
  let b := if cb_floating callbacks then Z.min b (t + getyx0) else b in
  (0, 0, t, l, b, r).

End TextBoxDraw.

(** ** Tags

    [canto_curses/tag.py]: a [Tag] is a Python list of stories that keeps
    itself in step with the identifiers of its [TagCore].  The classes
    [Story] and [TagCore] live in modules of their own; stories are taken as
    they come, with their [id], their comparison and their constructor, and
    so are the two methods of [TagCore] that [sync] calls.  What a tag does
    to its stories, to the hooks and to the lock is recorded call by call. *)

Module Tag.

(** A [TagCore]: the list of identifiers it is, and its two flags. *)
Record TagCore := {
  ids : list string;
  changes : bool;
  was_reset : bool;
}.

Definition set_was_reset (tc : TagCore) (v : bool) : TagCore :=
  {| ids := ids tc; changes := changes tc; was_reset := v |}.

Section WithStory.

Context {Story : Type}.
(** [s.id] *)
Context (id : Story → string).
(** [x is y or x == y], the comparison that [in], [remove] and the equality
    of lists make on stories *)
Context (story_eq : Story → Story → bool).
(** [x < y] on stories, which the comparison of tuples comes to when two
    places are equal *)
Context (story_lt : Story → Story → bool).
(** [Story(tag, id, callbacks)], the [n]-th story the tag creates *)
Context (Story_new : string → nat → Story).
(** [story == sel], for [sel] the variable "selected" *)
Context (is_sel : Story → bool).
(** [tagcore.ack_changes()] and [tagcore.changed()] *)
Context (ack_changes changed : TagCore → TagCore).

Inductive Effect :=
  | Story_die (s : Story)                          (* s.die() *)
  | Story_sync (s : Story)                         (* s.sync() *)
  | Story_set_offset (s : Story) (offset : Z)      (* item.set_offset(offset) *)
  | Story_set_sel_offset (s : Story) (offset : Z)  (* item.set_sel_offset(offset) *)
  | call_hook (hook : string) (arg : list Story)   (* call_hook(hook, [self, arg]) *)
  | lock_acquire_read
  | lock_release_read
  | unhook_all.

(** The attributes of a [Tag] that the methods below read and write.
    [stories] is the tag as a list; [needs_redraw] and [needs_refresh] are
    the variables behind [set_var]; [created] counts the stories the tag has
    created. *)
Record t := {
  tag : string;
  is_tag : bool;
  stories : list Story;
  updates_pending : Z;
  changed_flag : bool;          (* self.changed *)
  selected : bool;
  item_offset : Z;
  sel_offset : Z;
  created : nat;
  needs_redraw : bool;
  needs_refresh : bool;
}.

Definition set_stories (self : t) (l : list Story) (n : nat) : t :=
  {| tag := tag self; is_tag := is_tag self; stories := l;
     updates_pending := updates_pending self;
     changed_flag := changed_flag self; selected := selected self;
     item_offset := item_offset self; sel_offset := sel_offset self;
     created := n; needs_redraw := needs_redraw self;
     needs_refresh := needs_refresh self |}.

Definition set_updates_pending (self : t) (v : Z) : t :=
  {| tag := tag self; is_tag := is_tag self; stories := stories self;
     updates_pending := v;
     changed_flag := changed_flag self; selected := selected self;
     item_offset := item_offset self; sel_offset := sel_offset self;
     created := created self; needs_redraw := needs_redraw self;
     needs_refresh := needs_refresh self |}.

Definition set_selected (self : t) (v : bool) : t :=
  {| tag := tag self; is_tag := is_tag self; stories := stories self;
     updates_pending := updates_pending self;
     changed_flag := changed_flag self; selected := v;
     item_offset := item_offset self; sel_offset := sel_offset self;
     created := created self; needs_redraw := needs_redraw self;
     needs_refresh := needs_refresh self |}.

Definition set_offsets (self : t) (item sel : Z) : t :=
  {| tag := tag self; is_tag := is_tag self; stories := stories self;
     updates_pending := updates_pending self;
     changed_flag := changed_flag self; selected := selected self;
     item_offset := item; sel_offset := sel;
     created := created self; needs_redraw := needs_redraw self;
     needs_refresh := needs_refresh self |}.

Definition need_refresh (self : t) : t :=
  {| tag := tag self; is_tag := is_tag self; stories := stories self;
     updates_pending := updates_pending self;
     changed_flag := true; selected := selected self;
     item_offset := item_offset self; sel_offset := sel_offset self;
     created := created self; needs_redraw := needs_redraw self;
     needs_refresh := true |}.

Definition need_redraw (self : t) : t :=
  {| tag := tag self; is_tag := is_tag self; stories := stories self;
     updates_pending := updates_pending self;
     changed_flag := true; selected := selected self;
     item_offset := item_offset self; sel_offset := sel_offset self;
     created := created self; needs_redraw := true;
     needs_refresh := needs_refresh self |}.

(** The truth value of a tag, that of a list: it is not empty. *)
Definition truth (self : t) : bool :=
  match stories self with
  | [] => false
  | _ => true
  end.

(** [list.__eq__]: the same length and equal items. *)
Fixpoint list_eq (l1 l2 : list Story) : bool :=
  match l1, l2 with
  | [], [] => true
  | x :: l1', y :: l2' => story_eq x y && list_eq l1' l2'
  | _, _ => false
  end.

(** [__eq__] with another tag. *)
Definition __eq__ (self other : t) : bool :=
  if truth other &&
     (negb (is_tag other) || negb (String.eqb (tag self) (tag other)))
  then false
  else list_eq (stories self) (stories other).

(** [s.index(c)] on a string, [ValueError] when [c] is not in [s], and the
    slice [s[n:]]. *)
Fixpoint str_index (s : string) (c : Ascii.ascii) : result nat :=
  match s with
  | EmptyString => Raise ValueError
  | String a s' =>
      if Ascii.eqb a c then Ok O else i ← str_index s' c; Ok (S i)
  end.

Fixpoint str_from (s : string) (n : nat) : string :=
  match n, s with
  | O, _ => s
  | S n', String _ s' => str_from s' n'
  | S _, EmptyString => EmptyString
  end.

(** The character [':']. *)
Definition colon : Ascii.ascii := Ascii.ascii_of_nat 58.

Definition __str__ (self : t) : result string :=
  i ← str_index (tag self) colon;
  Ok (str_from (tag self) (i + 1)).

Definition get_id (self : t) (i : string) : option Story :=
  List.find (λ item, String.eqb (id item) i) (stories self).

Definition get_ids (self : t) : list string := id <$> stories self.

(** [set_item_offset]: inform the tag of the global index of its first
    item. *)
Definition set_item_offset (self : t) (offset : Z) : t * list Effect :=
  if negb (item_offset self =? offset) then
    (set_offsets self offset (sel_offset self),
     (λ p, Story_set_offset p.2 (offset + Z.of_nat p.1)) <$>
       enumerate (stories self))
  else (self, []).

(** [set_sel_offset]; [collapsed] is the tag option of that name. *)
Definition set_sel_offset (collapsed : bool) (self : t) (offset : Z)
    : t * list Effect :=
  let self := set_offsets self (item_offset self) offset in
  if negb collapsed then
    (self, (λ p, Story_set_sel_offset p.2 (offset + Z.of_nat p.1)) <$>
             enumerate (stories self))
  else (self, []).

Definition select (self : t) : t :=
  if negb (selected self) then need_redraw (set_selected self true) else self.

Definition unselect (self : t) : t :=
  if selected self then need_redraw (set_selected self false) else self.

(** [on_items_added]; [same_tagcore] is [tagcore == self.tagcore]. *)
Definition on_items_added (self : t) (same_tagcore : bool)
    (added : list string) : t :=
  let cur_ids := get_ids self in
  if same_tagcore then
    let pending :=
      foldl (λ n story_id,
               if negb (bool_decide (story_id ∈ cur_ids)) then n + 1 else n)
            (updates_pending self) added in
    need_redraw (set_updates_pending self pending)
  else self.

(** *** [sync] *)

(** [l.index(x)] for an [x] that is in [l]: the index of its first
    occurrence. *)
Fixpoint index_of (l : list string) (x : string) : nat :=
  match l with
  | [] => O
  | y :: l' => if String.eqb y x then O else S (index_of l' x)
  end.

(** [max(l)] of a list of places that is not empty. *)
Definition max_place (p : Q) (ps : list Q) : Q := foldl Qmax p ps.

(** The first loop of [sync], over the stories of the tag: a story whose
    identifier is still in the tagcore keeps its place there; the selected
    story, otherwise, is kept half a place behind the places so far. *)
Definition sync_kept (acc : TagCore * list (Q * Story)) (story : Story)
    : TagCore * list (Q * Story) :=
  let tagcore := acc.1 in
  let current_stories := acc.2 in
  if bool_decide (id story ∈ ids tagcore) then
    (tagcore,
     current_stories ++
       [(inject_Z (Z.of_nat (index_of (ids tagcore) (id story))), story)])
  else if is_sel story then
    let tagcore := changed tagcore in
    let place :=
      match current_stories.*1 with
      | p :: ps => Qplus (max_place p ps) (1 # 2)
      | [] => inject_Z (-1)
      end in
    (tagcore, current_stories ++ [(place, story)])
  else acc.

(** The second loop, over the identifiers of the tagcore with their
    places: an identifier no story has yet gets a new story. *)
Definition sync_new (acc : list (Q * Story) * list Story * nat)
    (p : nat * string) : list (Q * Story) * list Story * nat :=
  let current_stories := acc.1.1 in
  let added_stories := acc.1.2 in
  let n := acc.2 in
  if negb (bool_decide (p.2 ∈ id <$> current_stories.*2)) then
    let s := Story_new p.2 n in
    (current_stories ++ [(inject_Z (Z.of_nat p.1), s)],
     added_stories ++ [s], S n)
  else acc.

(** [x < y] on tuples of a place and a story. *)
Definition tuple_lt (x y : Q * Story) : bool :=
  if Qeq_bool x.1 y.1 then
    if story_eq x.2 y.2 then false else story_lt x.2 y.2
  else negb (Qle_bool y.1 x.1).

(** [l.sort()]: the sort is stable. *)
Fixpoint insert (x : Q * Story) (l : list (Q * Story)) : list (Q * Story) :=
  match l with
  | [] => [x]
  | y :: l' => if tuple_lt y x then y :: insert x l' else x :: y :: l'
  end.

Fixpoint sort (l : list (Q * Story)) : list (Q * Story) :=
  match l with
  | [] => []
  | x :: l' => insert x (sort l')
  end.

(** [sync]: synchronize this tag with its tagcore.  [style] is
    [conf["update"]["style"]]. *)
Definition sync (style : string) (self : t) (tagcore : TagCore) (force : bool)
    : t * TagCore * list Effect :=
  let r :=
    if force || changes tagcore then
      let tagcore := ack_changes tagcore in
      let r1 := foldl sync_kept (tagcore, []) (stories self) in
      let tagcore := r1.1 in
      let r2 := foldl sync_new (r1.2, [], created self) (enumerate (ids tagcore)) in
      let current_stories := r2.1.1 in
      let added_stories := r2.1.2 in
      let r3 :=
        if String.eqb style "maintain" || was_reset tagcore
        then (set_was_reset tagcore false, sort current_stories)
        else (tagcore, current_stories) in
      let tagcore := r3.1 in
      let current_stories := r3.2.*2 in
      let deleted :=
        filter (λ story,
                  existsb (λ x, story_eq x story) current_stories = false)
               (stories self) in
      (need_refresh (set_stories self current_stories r2.2), tagcore,
       [lock_acquire_read; lock_release_read;
        call_hook "curses_stories_added" added_stories] ++
       (Story_die <$> deleted) ++
       [call_hook "curses_stories_removed" deleted])
    else (self, tagcore, []) in
  (set_updates_pending r.1.1 0, r.1.2,
   r.2 ++ (Story_sync <$> stories r.1.1)).

(** *** The list of all tags

    [alltags] holds the tag objects themselves: a tag changed through one
    reference is changed in the list. *)
Record World := {
  objects : gmap nat t;       (* the tag objects, by identity *)
  alltags : list nat;
}.

(** [item == x] for two tag objects. *)
Definition eq_objects (objects : gmap nat t) (item x : nat) : bool :=
  match objects !! item, objects !! x with
  | Some a, Some b => __eq__ a b
  | _, _ => false
  end.

(** [l.remove(x)]: the first item that is [x] or equal to it goes;
    [ValueError] when there is none. *)
Fixpoint list_remove (objects : gmap nat t) (l : list nat) (x : nat)
    : result (list nat) :=
  match l with
  | [] => Raise ValueError
  | item :: l' =>
      if Nat.eqb item x || eq_objects objects item x then Ok l'
      else l'' ← list_remove objects l' x; Ok (item :: l'')
  end.

(** [die] of the tag object [self]. *)
Definition die (w : World) (self : nat) : result (World * list Effect) :=
  match objects w !! self with
  | None => Raise AttributeError
  | Some o =>
      let effects := Story_die <$> stories o in
      let objects := <[self := set_stories o [] (created o)]> (objects w) in
      alltags ← list_remove objects (alltags w) self;
      Ok ({| objects := objects; alltags := alltags |}, effects ++ [unhook_all])
  end.

End WithStory.

End Tag.


(** ** Vocabulary of the design document *)

Module Spec.

(** [min(available, configured_max, requested_size)], where a configured
    maximum counts when it is set: present and not zero. *)
Definition clamp (available : Z) (configured_max : option Z)
    (requested_size : Z) : Z :=
  match configured_max with
  | Some c => if c =? 0 then Z.min available requested_size
              else Z.min (Z.min available c) requested_size
  | None => Z.min available requested_size
  end.

(** Section 4.1, step 2: each immediate in declared order receives the
    clamp of [remaining_space / remaining_unit_count]; the consumed space is
    then subtracted and the unit count decremented by one.  [configured]
    and [requested] give an immediate's configured maximum and its
    requested size for a share. *)
Fixpoint allocate (configured : Window → option Z) (requested : Window → Z → Z)
    (remaining_space remaining_unit_count : Z) (immediates : list Window)
    : list Z :=
  match immediates with
  | [] => []
  | w :: rest =>
      let share := remaining_space / remaining_unit_count in
      let size := clamp share (configured w) (requested w share) in
      size :: allocate configured requested (remaining_space - size)
                (remaining_unit_count - 1) rest
  end.


End Spec.

(** The extent a layout is partitioned along, and an immediate's
    configured maximum and requested size along it. *)
Definition extent_along (orientation : string) (height width : Z) : Z :=
  if String.eqb orientation "horizontal" then width else height.

Definition configured_along (self : Screen.t) (orientation : string)
    (w : Window) : option Z :=
  if String.eqb orientation "horizontal"
  then opt_maxwidth (Screen.get_opt self) (get_opt_name w)
  else opt_maxheight (Screen.get_opt self) (get_opt_name w).

Definition requested_along (orientation : string) (w : Window) : Z → Z :=
  if String.eqb orientation "horizontal" then get_width w else get_height w.



(** The windows of a layout, sublists included. *)
Fixpoint leaves_unit (x : LayoutUnit) : list Window :=
  match x with
  | Win w => [w]
  | Sub l =>
      (fix each (l : list LayoutUnit) : list Window :=
         match l with
         | [] => []
         | y :: l' => leaves_unit y ++ each l'
         end) l
  end.

Definition leaves (layout : list LayoutUnit) : list Window :=
  leaves_unit (Sub layout).

(** The sizes [_subw_layout_size] collects from the units of a layout. *)
Fixpoint sizes_of (self : Screen.t) (idx : nat) (l : list LayoutUnit)
    : result (list Z) :=
  match l with
  | [] => Ok []
  | y :: l' =>
      s ← Screen._subw_layout_size_unit self idx y;
      ss ← sizes_of self idx l';
      Ok (s :: ss)
  end.



(** A size the third loop of [_subw] sets an immediate up with and that
    [newpad] takes: along a horizontal group a column at least, along a
    vertical one no negative height. *)
Definition takes (orientation : string) (H W : Z) (size : Z) : Prop :=
  if String.eqb orientation "horizontal" then 1 <= size ∧ 0 <= H
  else 0 <= size ∧ 1 <= W.


(** The windows of the sublists of a layout. *)
Definition cmplx_leaves (cmplx : list (nat * list LayoutUnit)) : list Window :=
  foldr (λ p acc, leaves p.2 ++ acc) [] cmplx.

(** No sublist of the unit is empty. *)
Fixpoint nonempty_unit (x : LayoutUnit) : bool :=
  match x with
  | Win _ => true
  | Sub l =>
      match l with
      | [] => false
      | _ => forallb nonempty_unit l
      end
  end.

(** No sublist of the layout is empty (the layout itself may be). *)
Definition wellformed (layout : list LayoutUnit) : bool :=
  forallb nonempty_unit layout.

(** Every window set up in [s0] is set up in [s1]. *)
Definition keeps (s0 s1 : Screen.t) : Prop :=
  ∀ n, is_Some (Screen.heap s0 !! n) → is_Some (Screen.heap s1 !! n).

(** How a call of [_subw] ends on a layout: it returns, on a layout
    without empty sublist, with the windows of the layout set up and the
    windows set up before kept; or it raises [ValueError], on a layout with
    an empty sublist; or it raises [curses.error]. *)
Definition ends (self : Screen.t) (unit : list LayoutUnit)
    (r : result Screen.t) : Prop :=
  (∃ self', r = Ok self' ∧ wellformed unit = true ∧ keeps self self' ∧
            ∀ w, w ∈ leaves unit → is_Some (Screen.heap self' !! wid w)) ∨
  (r = Raise ValueError ∧ wellformed unit = false) ∨
  r = Raise curses_error.

(** What the recursive call of [_subw] is to guarantee on layouts nested
    no deeper than [depth]. *)
Definition rec_ends (depth : nat)
    (rec : Screen.t → list LayoutUnit → Z → Z → Z → Z → string → result Screen.t)
    : Prop :=
  ∀ self unit t l h w o,
    (Screen.layout_depth unit ≤ depth)%nat →
    ends self unit (rec self unit t l h w o).

(** The stored offset lies between 0 and [max_offset]. *)
Definition offset_in_range (self : TextBox.t) : Prop :=
  ∃ off, TextBox.get_offset self = Ok off ∧
         0 <= off <= TextBox.max_offset self.

(** No page command comes before the first refresh. *)
Fixpoint pages_after_refresh (ops : list TextBox.op) : bool :=
  match ops with
  | [] => true
  | TextBox.do_refresh :: _ => true
  | TextBox.page_up :: _ | TextBox.page_down :: _ => false
  | _ :: ops' => pages_after_refresh ops'
  end.

(** A box that [init] and the operations after it can have made: its
    [max_offset] is not negative and its offset is set. *)
Definition box_ok (self : TextBox.t) : Prop :=
  0 <= TextBox.max_offset self ∧ ∃ off, TextBox.get_offset self = Ok off.

(** [render] returns one line at least, as [TextBox.render] does: it
    returns the number of lines it printed plus one. *)
Definition renders_a_line (render : TextBox.t → Z → Z) : Prop :=
  ∀ b w, 1 <= render b w.

Section InputVocabulary.

Context {Box : Type}.

(** The lock is held exactly when one of the threads stands between its
    [acquire] and its [release], and never by both. *)
Definition lock_ok (s : @Input.state Box) : Prop :=
  Input.input_lock s = Input.held_by_input s || Input.held_by_main s ∧
  Input.held_by_input s && Input.held_by_main s = false.

(** [sub_edit] is set only while the main thread waits in
    [input_callback], and then the event is not set. *)
Definition edit_ok (s : @Input.state Box) : Prop :=
  match Input.main_pc s with
  | Input.at_wait => Input.sub_edit s = negb (Input.input_done s)
  | Input.at_edit _ | Input.at_sub_edit =>
      Input.sub_edit s = false ∧ Input.input_done s = false
  | Input.running | Input.paused => Input.sub_edit s = false
  end.

Definition inv (s : @Input.state Box) : Prop := lock_ok s ∧ edit_ok s.

(** The keys put on the command queue among the deliveries. *)
Definition queued_keys (out : list Input.delivery) : list Z :=
  omap (λ d, match d with Input.queued k => Some k | Input.fed _ => None end) out.

End InputVocabulary.

(** An event of the input thread or of the terminal. *)
Definition not_main (ev : Input.event) : Prop :=
  ev = Input.input_step ∨ ∃ k, ev = Input.key_typed k.

Definition is_queued (d : Input.delivery) : Prop := ∃ k, d = Input.queued k.

(** The last sentence of C7 as stated: with a pause and a resume around
    the events [mid], after the events [pre] and before the events [post],
    the keys put on the command queue from the pause on are among the keys
    typed after the resume. *)
Definition after_resume_only {Box : Type} (edit : string → Box → Box)
    (addkey : Z → Box → Z * Box) (result_of : Box → string)
    (reset : Box → Box) (box : Box) (pre mid post : list Input.event) : Prop :=
  ∀ s0 out0 s out,
    Input.run edit addkey result_of reset (Input.init box) pre = Some (s0, out0) →
    Input.run edit addkey result_of reset s0
      (Input.pause_interface_callback :: mid ++ Input.unpause_interface_callback :: post)
      = Some (s, out) →
    sublist (queued_keys out) (Input.typed post).

(** ** Examples *)

(** A window without wishes of its own: it requests whatever it is
    offered. *)
Definition greedy (n : nat) (name : string) : Window :=
  {| wid := n; get_opt_name := name; get_height := λ h, h;
     get_width := λ w, w; is_input := false |}.

(** An 80x24 screen with a tag list and a float; the float, aligned
    [bottomright], has the configured maxima 10 and 20; nothing else is
    configured. *)
Definition float_cfg : Config :=
  {| opt_maxheight := λ name, if String.eqb name "float" then Some 10 else None;
     opt_maxwidth := λ name, if String.eqb name "float" then Some 20 else None;
     opt_float := λ name, String.eqb name "float";
     opt_align := λ name, if String.eqb name "float" then "bottomright"
                           else "neutral";
     opt_border := λ _, "smart" |}.

Definition float_screen : Screen.t :=
  {| Screen.get_opt := float_cfg; Screen.layout := "default";
     Screen.window_types := [greedy 0 "taglist"; greedy 1 "float"];
     Screen.height := 24; Screen.width := 80; Screen.input_box := None;
     Screen.floats := []; Screen.tiles := []; Screen.windows := [];
     Screen.focused := None; Screen.heap := ∅; Screen.debug_log := [] |}.

(** The same screen with its windows registered. *)
Definition float_listed : Screen.t :=
  Screen.set_windows float_screen [greedy 1 "float"] [greedy 0 "taglist"]
    [greedy 0 "taglist"; greedy 1 "float"].

(** A screen with two tiles and one float set, as [subwindows] leaves
    them. *)
Definition two_and_one : Screen.t :=
  {| Screen.get_opt := float_cfg; Screen.layout := "default";
     Screen.window_types := [];
     Screen.height := 24; Screen.width := 80; Screen.input_box := None;
     Screen.floats := [greedy 2 "float"];
     Screen.tiles := [greedy 0 "input"; greedy 1 "taglist"];
     Screen.windows := []; Screen.focused := None; Screen.heap := ∅;
     Screen.debug_log := [] |}.

(** A screen-level handler that knows "resize" only, windows that take
    anything, and the float of [two_and_one] focused. *)
Definition only_resize (s : Screen.t) (cmd : string) : bool * Screen.t :=
  (String.eqb cmd "resize", s).

Definition no_key (s : Screen.t) (k : Z) : option Z * Screen.t := (None, s).

Definition any_command (w : Window) (cmd : string) (s : Screen.t) : Screen.t := s.

Definition echo_key (w : Window) (k : Z) (s : Screen.t) : option Z * Screen.t :=
  (Some k, s).

Definition float_focused : Screen.t :=
  Screen.set_focused two_and_one (Some (greedy 2 "float")).

(** A text box of 10 lines that renders 30 lines, refreshed, at offset 0. *)
Definition thirty_lines (self : TextBox.t) (width : Z) : Z := 30.

(** A text box of 10 lines whose stored offset is -3. *)
Definition negative_offset_box : TextBox.t :=
  TextBox.init "textbox" {| maxy := 10; maxx := 80 |}
    {["textbox_offset" := TextBox.Int (-3)]}.

Definition refreshed_box : TextBox.t :=
  {| TextBox.get_opt_name := "textbox";
     TextBox.pad := {| maxy := 10; maxx := 80 |};
     TextBox.max_offset := 20; TextBox.height := Some 10;
     TextBox.width := Some 80;
     TextBox.fullpad := Some {| maxy := 30; maxx := 80 |};
     TextBox.text := "";
     TextBox.vars := {["textbox_offset" := TextBox.Int 0;
                       "needs_redraw" := TextBox.Bool true]} |}.

(** Three tiles without configured maxima that request whatever they are
    offered, on a screen of 30 lines and 80 columns. *)
Definition three_tiles : list LayoutUnit :=
  [Win (greedy 0 "a"); Win (greedy 1 "b"); Win (greedy 2 "c")].

Definition tall_screen : Screen.t :=
  {| Screen.get_opt := float_cfg; Screen.layout := "hstack";
     Screen.window_types := [greedy 0 "a"; greedy 1 "b"; greedy 2 "c"];
     Screen.height := 30; Screen.width := 80; Screen.input_box := None;
     Screen.floats := []; Screen.tiles := []; Screen.windows := [];
     Screen.focused := None; Screen.heap := ∅; Screen.debug_log := [] |}.

(** The region a window was set up with, read back from its [refresh]
    callback and its pad: [(top, left, height, width)]. *)
Definition region_of (s : Screen.t) (n : nat) : option (Z * Z * Z * Z) :=
  a ← Screen.heap s !! n;
  let box := cb_refresh (callbacks a) in
  Some (box.1.1.1, box.1.1.2, maxy (pad a) - 1, maxx (pad a)).


(** The layout [fill_layout] builds for a lone tag list puts it, as
    [[taglist]], in the horizontal group of the root. *)
Definition taglist : Window := greedy 0 "taglist".

Definition horizontal_group : list LayoutUnit := [Sub [Sub [Win taglist]]].

(** The input thread finds no key and goes to sleep; the main thread
    pauses, the key 97 is typed, the main thread resumes; the input thread
    wakes up, reads the key and puts it on the queue. *)
Definition to_sleep : list Input.event :=
  [Input.input_step; Input.input_step; Input.input_step].

Definition typed_while_paused : list Input.event := [Input.key_typed 97].

Definition wake_and_read : list Input.event :=
  [Input.input_step; Input.input_step; Input.input_step; Input.input_step].

(** The main thread requests input with the prompt "p:"; the keys 'h', 'i'
    and the done key are typed; the input thread feeds 'h' and 'i' and reads
    the done key. *)
Definition capture_to_done : list Input.event :=
  [Input.input_callback "p:"; Input.main_step; Input.main_step;
   Input.key_typed 104; Input.key_typed 105;
   Input.key_typed Input.SpecBox.done_key;
   Input.input_step;
   Input.input_step; Input.input_step;
   Input.input_step; Input.input_step;
   Input.input_step].

(** Then the input thread feeds the done key and the main thread returns
    from its wait. *)
Definition capture_hi : list Input.event :=
  capture_to_done ++ [Input.input_step; Input.main_step].

Definition one_more_key : list Input.event :=
  [Input.key_typed 120; Input.input_step; Input.input_step].

(** ** Vocabulary of the further properties *)

(** The windows among [ws] whose configured alignment is [a], in the order
    of [ws]. *)
Definition aligned (self : Screen.t) (a : string) (ws : list Window)
    : list Window :=
  filter (λ w, opt_align (Screen.get_opt self) (get_opt_name w) = a) ws.

(** The unit the default layout lists a window as: the tag list lies two
    levels deeper than the others. *)
Definition placed (w : Window) : LayoutUnit :=
  if String.eqb (get_opt_name w) "taglist" then Sub [Sub [Win w]] else Win w.

(** The five alignments the default layout has a list for. *)
Definition tiled_alignments : list string :=
  ["top"; "bottom"; "left"; "right"; "neutral"].

(** The window types that [subwindows] makes tiles of. *)
Definition tiles_of (self : Screen.t) : list Window :=
  filter (λ w, opt_float (Screen.get_opt self) (get_opt_name w) = false)
         (Screen.window_types self).

(** The window types that [subwindows] makes floats of. *)
Definition floats_of (self : Screen.t) : list Window :=
  filter (λ w, opt_float (Screen.get_opt self) (get_opt_name w) = true)
         (Screen.window_types self).

(** Two screens that differ in the windows set up at most. *)
Definition same_registry (s0 s1 : Screen.t) : Prop :=
  s1 = Screen.set_heap s0 (Screen.heap s1).

(** From [s0] to [s1] the windows set up at most differ, and every window
    set up in between satisfies [P]. *)
Definition set_up_with (P : nat → WinAttrs → Prop) (s0 s1 : Screen.t) : Prop :=
  same_registry s0 s1 ∧
  ∀ n, Screen.heap s1 !! n = Screen.heap s0 !! n ∨
       ∃ a, Screen.heap s1 !! n = Some a ∧ P n a.

(** The [floating] callback of the window with identity [n] tells whether
    that window is among the floats of [s]. *)
Definition floating_ok (s : Screen.t) (n : nat) (a : WinAttrs) : Prop :=
  cb_floating (callbacks a) = existsb (λ f, Nat.eqb (wid f) n) (Screen.floats s).

(** ** Examples of the further properties *)

(** An 80x24 screen with the default layout whose one window is an input
    box aligned bottom. *)
Definition bottom_cfg : Config :=
  {| opt_maxheight := λ _, None; opt_maxwidth := λ _, None;
     opt_float := λ _, false; opt_align := λ _, "bottom";
     opt_border := λ _, "smart" |}.

Definition lone_input : Screen.t :=
  {| Screen.get_opt := bottom_cfg; Screen.layout := "default";
     Screen.window_types :=
       [{| wid := 0; get_opt_name := "input"; get_height := λ _, 1;
           get_width := λ w, w; is_input := true |}];
     Screen.height := 24; Screen.width := 80; Screen.input_box := None;
     Screen.floats := []; Screen.tiles := []; Screen.windows := [];
     Screen.focused := None; Screen.heap := ∅; Screen.debug_log := [] |}.

(** A window that takes what it is offered along the orientation: no
    configured maximum counts, and it requests the size it is given. *)
Definition unconstrained (self : Screen.t) (orientation : string)
    (w : Window) : Prop :=
  truthy (configured_along self orientation w) = false ∧
  ∀ a, requested_along orientation w a = a.

(** The sizes the first loop of [_subw] gives the windows of a layout
    without sublists. *)
Definition flat_sizes (self : Screen.t) (orientation : string)
    (height width : Z) (ws : list Window) : list Z :=
  Spec.allocate (configured_along self orientation)
    (requested_along orientation) (extent_along orientation height width)
    (Z.of_nat (length ws)) ws.

(** The color pairs [curses.init_pair] was called on among the calls, in
    order: number, foreground, background. *)
Definition init_pairs (tr : list Lifecycle.Effect) : list (Z * Z * Z) :=
  omap (λ e, match e with
             | Lifecycle.curses_init_pair n fg bg => Some (n, fg, bg)
             | _ => None
             end) tr.

(** Two windows: the input box at the bottom and the tag list in the
    middle, on the screen as [subwindows] leaves it. *)
Definition input_window : Window :=
  {| wid := 0; get_opt_name := "input"; get_height := λ _, 1;
     get_width := λ w, w; is_input := true |}.

Definition two_tiles_cfg : Config :=
  {| opt_maxheight := λ _, None; opt_maxwidth := λ _, None;
     opt_float := λ _, false;
     opt_align := λ name, if String.eqb name "input" then "bottom"
                           else "neutral";
     opt_border := λ _, "smart" |}.

Definition two_tiles : Screen.t :=
  {| Screen.get_opt := two_tiles_cfg; Screen.layout := "default";
     Screen.window_types := [input_window; greedy 1 "taglist"];
     Screen.height := 24; Screen.width := 80;
     Screen.input_box := Some input_window;
     Screen.floats := []; Screen.tiles := [input_window; greedy 1 "taglist"];
     Screen.windows := [input_window; greedy 1 "taglist"];
     Screen.focused := Some (greedy 1 "taglist"); Screen.heap := ∅;
     Screen.debug_log := [] |}.

(** A configuration of the colors: pair 1 has the foreground 2, pair 2 a
    foreground of 0 and the background 4, nothing else is set. *)
Definition some_colors (key : string) : result (option Z) :=
  if String.eqb key "color.0.fg" then Ok (Some 2)
  else if String.eqb key "color.1" then Ok (Some 0)
  else if String.eqb key "color.1.bg" then Ok (Some 4)
  else if String.eqb key "color.defbg" then Ok None
  else if String.eqb key "color.deffg" then Ok None
  else Raise KeyError.

(** The input thread takes the lock; the keys 'h' and 'i' are typed. *)
Definition two_keys_pending : list Input.event :=
  [Input.input_step; Input.key_typed 104; Input.key_typed 105].

(** A text box as [refresh] leaves it: its height and width are those of
    its pad, the pre-rendered pad has a line at least and the width of the
    pad, and [max_offset] is the number of pre-rendered lines that do not
    fit the pad. *)
Definition refreshed (self : TextBox.t) : Prop :=
  TextBox.height self = Some (getmaxyx (TextBox.pad self) 0) ∧
  TextBox.width self = Some (getmaxyx (TextBox.pad self) 1) ∧
  ∃ fp, TextBox.fullpad self = Some fp ∧
    1 <= getmaxyx fp 0 ∧
    getmaxyx fp 1 = getmaxyx (TextBox.pad self) 1 ∧
    1 <= getmaxyx (TextBox.pad self) 1 ∧
    TextBox.max_offset self =
      Z.max ((getmaxyx fp 0 - 1) - (getmaxyx (TextBox.pad self) 0 - 1)) 0.

(** A text box on a pad of 10 lines, not refreshed yet, at offset 0, with
    the callbacks of a tile with all four borders. *)
Definition fresh_box : TextBox.t :=
  TextBox.init "textbox" {| maxy := 10; maxx := 80 |}
    {["textbox_offset" := TextBox.Int 0]}.

Definition bordered : WinCallbacks :=
  {| cb_refresh := (0, 0, 8, 79); cb_border := Ok (true, true, true, true);
     cb_floating := false |}.

(** The borders are printed and the [refresh] callback returns. *)
Definition calls_return (c : TextBoxDraw.PadCall) : result unit := Ok tt.

(** An error box next to an info box: one store with the offsets of both,
    that of the error box 1, that of the info box 3. *)
Definition error_box : TextBox.t :=
  TextBox.init "errorbox" {| maxy := 10; maxx := 80 |}
    {["errorbox_offset" := TextBox.Int 1; "infobox_offset" := TextBox.Int 3;
      "needs_redraw" := TextBox.Bool false]}.

(** Stories for the examples: an object number and an identifier; two
    stories are equal when their identifiers are. *)
Definition ex_story_eq (x y : nat * string) : bool := String.eqb x.2 y.2.

Definition ex_story_lt (x y : nat * string) : bool := Nat.ltb x.1 y.1.

Definition ex_Story_new (i : string) (n : nat) : nat * string := (n, i).

Definition ex_ack_changes (tc : Tag.TagCore) : Tag.TagCore :=
  {| Tag.ids := Tag.ids tc; Tag.changes := false;
     Tag.was_reset := Tag.was_reset tc |}.

Definition ex_changed (tc : Tag.TagCore) : Tag.TagCore :=
  {| Tag.ids := Tag.ids tc; Tag.changes := true;
     Tag.was_reset := Tag.was_reset tc |}.

(** A tag as [__init__] leaves it before its first [sync], and two tags
    registered in this order: the first without stories, the second with
    one. *)
Definition new_tag (name : string) (l : list (nat * string)) : @Tag.t (nat * string) :=
  {| Tag.tag := name; Tag.is_tag := true; Tag.stories := l;
     Tag.updates_pending := 0; Tag.changed_flag := true;
     Tag.selected := false; Tag.item_offset := 0; Tag.sel_offset := 0;
     Tag.created := O; Tag.needs_redraw := false; Tag.needs_refresh := false |}.

Definition two_tags : @Tag.World (nat * string) :=
  {| Tag.objects := {[ 1%nat := new_tag "maintag:empty" [];
                       2%nat := new_tag "maintag:news" [(0%nat, "story")] ]};
     Tag.alltags := [1%nat; 2%nat] |}.

(** What [sync] takes from the code around it: a method of the tagcore that
    only touches its flag [changes], and a constructor of stories that
    gives the story the identifier it is created for. *)
Definition flag_only (f : Tag.TagCore → Tag.TagCore) : Prop :=
  ∀ tc, Tag.ids (f tc) = Tag.ids tc ∧ Tag.was_reset (f tc) = Tag.was_reset tc.

Definition new_has_id {Story : Type} (id : Story → string)
    (Story_new : string → nat → Story) : Prop :=
  ∀ i n, id (Story_new i n) = i.

(** The stories a [sync] keeps: those whose identifier the tagcore still
    has, and the selected one. *)
Definition kept {Story : Type} (id : Story → string) (is_sel : Story → bool)
    (tc : Tag.TagCore) (s : Story) : bool :=
  bool_decide (id s ∈ Tag.ids tc) || is_sel s.

(** No story of the tag is both selected and gone from the tagcore. *)
Definition no_undead {Story : Type} (id : Story → string)
    (is_sel : Story → bool) (tc : Tag.TagCore) (l : list Story) : Prop :=
  ∀ s, s ∈ l → is_sel s = true → id s ∈ Tag.ids tc.

(** The place a story has in the tagcore. *)
Definition place_in {Story : Type} (id : Story → string) (tc : Tag.TagCore)
    (s : Story) : Q :=
  inject_Z (Z.of_nat (Tag.index_of (Tag.ids tc) (id s))).

(** An entry of [current_stories] has the natural number [key] as its
    place. *)
Definition has_key {Story : Type} (key : Q * Story → nat) (x : Q * Story)
    : Prop :=
  x.1 = inject_Z (Z.of_nat (key x)).

Definition ex_id (s : nat * string) : string := s.2.

Definition ex_is_sel (sel : option (nat * string)) (s : nat * string) : bool :=
  match sel with
  | Some x => ex_story_eq s x
  | None => false
  end.

Definition ex_tagcore : Tag.TagCore :=
  {| Tag.ids := ["c"; "a"; "b"]; Tag.changes := true; Tag.was_reset := false |}.

(** A tag that has the stories [a], [x] and [c], and has created three. *)
Definition ex_tag : @Tag.t (nat * string) :=
  {| Tag.tag := "maintag:news"; Tag.is_tag := true;
     Tag.stories := [(0%nat, "a"); (1%nat, "x"); (2%nat, "c")];
     Tag.updates_pending := 2; Tag.changed_flag := false;
     Tag.selected := false; Tag.item_offset := 0; Tag.sel_offset := 0;
     Tag.created := 3%nat; Tag.needs_redraw := false;
     Tag.needs_refresh := false |}.

(** [c in s] on a string. *)
Fixpoint has_char (s : string) (c : Ascii.ascii) : bool :=
  match s with
  | EmptyString => false
  | String a s' => Ascii.eqb a c || has_char s' c
  end.

(** * Properties *)

(** ** Shared facts *)

Lemma clamp_height self ci avail :
  Screen._subw_size_height self ci avail =
  Spec.clamp avail (opt_maxheight (Screen.get_opt self) (get_opt_name ci))
    (get_height ci avail).
Proof.
  unfold Screen._subw_size_height, Spec.clamp, min3, truthy, int_of.
  destruct (opt_maxheight _ _) as [c|]; simpl.
  - destruct (c =? 0); simpl; lia.
  - lia.
Qed.

Lemma clamp_width self ci avail :
  Screen._subw_size_width self ci avail =
  Spec.clamp avail (opt_maxwidth (Screen.get_opt self) (get_opt_name ci))
    (get_width ci avail).
Proof.
  unfold Screen._subw_size_width, Spec.clamp, min3, truthy, int_of.
  destruct (opt_maxwidth _ _) as [c|]; simpl.
  - destruct (c =? 0); simpl; lia.
  - lia.
Qed.

Lemma negb_eqb_true (x y : Z) : negb (x =? y) = true ↔ x ≠ y.
Proof. destruct (Z.eqb_spec x y); simpl; intuition congruence. Qed.

(** [newpad] gives a pad exactly for one line and one column at least. *)
Lemma newpad_Ok (nlines ncols : Z) :
  1 <= nlines → 1 <= ncols →
  newpad nlines ncols = Ok {| maxy := nlines; maxx := ncols |}.
Proof.
  intros Hl Hc. unfold newpad.
  destruct (Z.ltb_spec nlines 1); [lia|].
  destruct (Z.ltb_spec ncols 1); [lia|]. reflexivity.
Qed.

Lemma newpad_Raise (nlines ncols : Z) :
  nlines < 1 ∨ ncols < 1 → newpad nlines ncols = Raise curses_error.
Proof.
  intros Hbad. unfold newpad.
  destruct (Z.ltb_spec nlines 1); [reflexivity|].
  destruct (Z.ltb_spec ncols 1); [reflexivity|]. lia.
Qed.

Lemma newpad_inv (nlines ncols : Z) (p : Pad) :
  newpad nlines ncols = Ok p →
  p = {| maxy := nlines; maxx := ncols |} ∧ 1 <= nlines ∧ 1 <= ncols.
Proof.
  unfold newpad.
  destruct (Z.ltb_spec nlines 1); [discriminate|].
  destruct (Z.ltb_spec ncols 1); [discriminate|].
  intros [= <-]. auto.
Qed.

Lemma newpad_cases (nlines ncols : Z) :
  (newpad nlines ncols = Ok {| maxy := nlines; maxx := ncols |} ∧
   1 <= nlines ∧ 1 <= ncols) ∨
  (newpad nlines ncols = Raise curses_error ∧ (nlines < 1 ∨ ncols < 1)).
Proof.
  destruct (Z.le_gt_cases 1 nlines) as [Hl|Hl];
    [destruct (Z.le_gt_cases 1 ncols) as [Hc|Hc]|].
  - left. auto using newpad_Ok.
  - right. split; [apply newpad_Raise|]; lia.
  - right. split; [apply newpad_Raise|]; lia.
Qed.

(** [_subw_init] sets the window up on a region with a column at least and
    no negative height, and raises [curses.error] on any other. *)
Lemma subw_init_Ok (self : Screen.t) (ci : Window) (top left height width : Z) :
  0 <= height → 1 <= width →
  Screen._subw_init self ci top left height width =
  Ok (Screen.set_heap self
        (<[wid ci :=
             {| pad := {| maxy := height + 1; maxx := width |};
                callbacks :=
                  {| cb_refresh :=
                       (top, left, top + (height - 1), left + (width - 1));
                     cb_border :=
                       Screen._subw_init_border self ci top left
                         (top + (height - 1)) (left + (width - 1));
                     cb_floating := window_in ci (Screen.floats self) |} |}]>
           (Screen.heap self))).
Proof.
  intros Hh Hw. unfold Screen._subw_init.
  rewrite newpad_Ok by lia. reflexivity.
Qed.

Lemma subw_init_Raise (self : Screen.t) (ci : Window) (top left height width : Z) :
  height < 0 ∨ width < 1 →
  Screen._subw_init self ci top left height width = Raise curses_error.
Proof.
  intros Hbad. unfold Screen._subw_init.
  rewrite newpad_Raise by lia. reflexivity.
Qed.

Lemma subw_init_inv (self self' : Screen.t) (ci : Window)
    (top left height width : Z) :
  Screen._subw_init self ci top left height width = Ok self' →
  0 <= height ∧ 1 <= width ∧
  self' =
    Screen.set_heap self
      (<[wid ci :=
           {| pad := {| maxy := height + 1; maxx := width |};
              callbacks :=
                {| cb_refresh :=
                     (top, left, top + (height - 1), left + (width - 1));
                   cb_border :=
                     Screen._subw_init_border self ci top left
                       (top + (height - 1)) (left + (width - 1));
                   cb_floating := window_in ci (Screen.floats self) |} |}]>
         (Screen.heap self)).
Proof.
  intros H.
  destruct (Z.lt_ge_cases height 0) as [Hh|Hh];
    [rewrite subw_init_Raise in H by lia; discriminate|].
  destruct (Z.lt_ge_cases width 1) as [Hw|Hw];
    [rewrite subw_init_Raise in H by lia; discriminate|].
  rewrite subw_init_Ok in H by lia. injection H as <-. auto.
Qed.

Lemma subw_init_cases (self : Screen.t) (ci : Window)
    (top left height width : Z) :
  (∃ self', Screen._subw_init self ci top left height width = Ok self') ∨
  Screen._subw_init self ci top left height width = Raise curses_error.
Proof.
  destruct (Z.lt_ge_cases height 0) as [Hh|Hh];
    [right; apply subw_init_Raise; lia|].
  destruct (Z.lt_ge_cases width 1) as [Hw|Hw];
    [right; apply subw_init_Raise; lia|].
  left. rewrite subw_init_Ok by lia. eauto.
Qed.

(** ** Floats *)


(** ** Borders *)

(** C5. The border flags a window is set up with.  Mode "full" gives four
    true flags and mode "none" four false ones.  In mode "smart" the left
    flag is true exactly when the left edge is not column 0 and the right
    flag exactly when the right edge is not the last column; the top flag is
    true exactly when the top edge is not line 0 or the window is a float
    whose alignment contains "bottom"; the bottom flag is true exactly when
    the bottom edge is not the last line or the window is a float whose
    alignment contains "top".  These are the flags of every region; the
    window is handed them, as its [border] callback, whenever [_subw_init]
    returns, which it does on every region with a column at least and no
    negative height. *)
Theorem C5_border_flags (self : Screen.t) (ci : Window) (top left height width : Z) :
  let bottom := top + (height - 1) in
  let right := left + (width - 1) in
  let mode := opt_border (Screen.get_opt self) (get_opt_name ci) in
  let align := opt_align (Screen.get_opt self) (get_opt_name ci) in
  let floating := window_in ci (Screen.floats self) in
  let flags := Screen._subw_init_border self ci top left bottom right in
  (mode = "full" → flags = Ok (true, true, true, true)) ∧
  (mode = "none" → flags = Ok (false, false, false, false)) ∧
  (mode = "smart" →
     ∃ top_border left_border bottom_border right_border : bool,
       flags = Ok (top_border, left_border, bottom_border, right_border) ∧
       (left_border = true ↔ left ≠ 0) ∧
       (right_border = true ↔ right ≠ Screen.width self - 1) ∧
       (top_border = true ↔
          top ≠ 0 ∨ (floating = true ∧ contains align "bottom" = true)) ∧
       (bottom_border = true ↔
          bottom ≠ Screen.height self - 1 ∨
          (floating = true ∧ contains align "top" = true))) ∧
  (∀ self',
     Screen._subw_init self ci top left height width = Ok self' →
     ∃ a, Screen.heap self' !! wid ci = Some a ∧
          cb_border (callbacks a) = flags) ∧
  (0 <= height → 1 <= width →
   ∃ self', Screen._subw_init self ci top left height width = Ok self').
Proof.
  intros bottom right mode align floating flags.
  split; [|split; [|split; [|split]]].
  - unfold flags, Screen._subw_init_border. fold mode. intros ->. reflexivity.
  - unfold flags, Screen._subw_init_border. fold mode. intros ->. reflexivity.
  - unfold flags, Screen._subw_init_border.
    fold mode align floating. intros ->. simpl.
    destruct floating, (contains align "top"), (contains align "bottom");
      simpl; eexists _, _, _, _; (split; [reflexivity|]);
      rewrite ?negb_eqb_true; intuition congruence.
  - intros self' Hinit.
    apply subw_init_inv in Hinit as (_ & _ & ->).
    eexists. split; [apply lookup_insert_eq|]. reflexivity.
  - intros Hh Hw. rewrite subw_init_Ok by assumption. eauto.
Qed.

Lemma C5_border_flags_witness :
  ∃ self' a,
    Screen._subw_init float_listed (greedy 1 "float") 14 60 10 20 = Ok self' ∧
    Screen.heap self' !! 1%nat = Some a ∧
    cb_border (callbacks a) = Ok (true, true, false, false).
Proof.
  destruct (C5_border_flags float_listed (greedy 1 "float") 14 60 10 20)
    as (_ & _ & Hsmart & Hinit & Hret).
  destruct (Hret ltac:(lia) ltac:(lia)) as [self' Hself'].
  destruct (Hinit self' Hself') as (a & Ha & Hcb).
  destruct (Hsmart eq_refl) as (tb & lb & bb & rb & Hflags & Hl & Hr & Ht & Hb).
  exists self', a. split; [exact Hself'|]. split; [exact Ha|].
  rewrite Hcb, Hflags.
  assert (tb = true) as -> by (apply Ht; left; discriminate).
  assert (lb = true) as -> by (apply Hl; discriminate).
  assert (bb = false) as ->.
  { destruct bb; [|reflexivity]. exfalso.
    destruct (proj1 Hb eq_refl) as [H|[_ H]];
      [apply H; reflexivity|vm_compute in H; discriminate]. }
  assert (rb = false) as ->.
  { destruct rb; [|reflexivity]. exfalso.
    apply (proj1 Hr eq_refl). reflexivity. }
  reflexivity.
Defined.

(** ** Focus *)

Lemma index_in_range {A} (l : list A) (i : Z) :
  - Z.of_nat (length l) < i < Z.of_nat (length l) →
  ∃ x, Py.index l i = Some x ∧
       l !! Z.to_nat (if 0 <=? i then i else Z.of_nat (length l) + i) = Some x.
Proof.
  intros Hi. unfold Py.index.
  destruct (Z.leb_spec 0 i).
  - destruct (lookup_lt_is_Some_2 l (Z.to_nat i)) as [x Hx]; [lia|]. eauto.
  - destruct (lookup_lt_is_Some_2 l (Z.to_nat (Z.of_nat (length l) + i)))
      as [x Hx]; [lia|]. eauto.
Qed.

(** C6. With N the number of tiles and floats, [_focus idx] for
    -N < idx < N focuses the window at position idx of the reversed
    [tiles + floats], a negative idx counting from the end (so idx >= 0 is
    the window N - 1 - idx of [tiles + floats], and idx < 0 the window
    -idx - 1), and writes one debug line; any other idx leaves the screen as
    it is but for one debug line.  In both cases [_focus] returns normally. *)
Theorem C6_focus (self : Screen.t) (idx : Z) :
  let order := reverse (Screen.tiles self ++ Screen.floats self) in
  let N := Z.of_nat (length (Screen.tiles self) + length (Screen.floats self)) in
  (- N < idx < N →
     ∃ w,
       order !! Z.to_nat (if 0 <=? idx then idx else N + idx) = Some w ∧
       (Screen.tiles self ++ Screen.floats self)
         !! Z.to_nat (if 0 <=? idx then N - 1 - idx else - idx - 1) = Some w ∧
       Screen._focus self idx =
         Ok (Screen.log_debug (Screen.set_focused self (Some w))
               (Screen.Focusing_window idx w))) ∧
  (¬ (- N < idx < N) →
     ∃ s, Screen._focus self idx = Ok s ∧
          s = Screen.log_debug self (Screen.Couldnt_find_window idx) ∧
          Screen.focused s = Screen.focused self).
Proof.
  intros order N.
  assert (HN : Z.of_nat (length order) = N).
  { unfold order, N. rewrite length_reverse, length_app. reflexivity. }
  unfold Screen._focus. fold order. rewrite HN.
  split.
  - intros Hi.
    destruct (index_in_range order idx) as (w & Hw & Hl); [lia|].
    rewrite HN in Hl.
    exists w. split; [exact Hl|]. split.
    + unfold order in Hl. rewrite reverse_lookup in Hl.
      * rewrite <- Hl. f_equal.
        assert (Z.of_nat (length (Screen.tiles self ++ Screen.floats self)) = N)
          by (unfold N; rewrite length_app; lia).
        clearbody N. destruct (Z.leb_spec 0 idx); lia.
      * rewrite length_app. unfold N in *. destruct (Z.leb_spec 0 idx); lia.
    + replace (-1 * N <? idx) with true by (symmetry; apply Z.ltb_lt; lia).
      replace (idx <? N) with true by (symmetry; apply Z.ltb_lt; lia).
      simpl. rewrite Hw. reflexivity.
  - intros Hi. eexists. split; [|split; reflexivity].
    destruct (Z.ltb_spec (-1 * N) idx); simpl; [|reflexivity].
    destruct (Z.ltb_spec idx N); simpl; [|reflexivity].
    exfalso. apply Hi. lia.
Qed.

Lemma C6_focus_witness :
  (∃ s, Screen._focus two_and_one (-1) = Ok s ∧
        Screen.focused s = Some (greedy 0 "input")) ∧
  (∃ s, Screen._focus two_and_one 3 = Ok s ∧ Screen.focused s = None).
Proof.
  split.
  - destruct (C6_focus two_and_one (-1)) as [H _].
    destruct H as (w & Hw & _ & Hf); [simpl; lia|].
    simpl in Hw. injection Hw as <-.
    eexists. split; [exact Hf|reflexivity].
  - destruct (C6_focus two_and_one 3) as [_ H].
    destruct H as (s & Hs & _ & Hf); [simpl; lia|].
    exists s. split; [exact Hs|exact Hf].
Defined.

(** ** Dispatch *)

(** C9. A command goes to the screen-level handler first; the focused
    window receives it exactly when that handler did not handle it and a
    window is focused, and then as the second and last call.  A key goes the
    same way, and the dispatch returns the handler's value when that is
    true, the focused window's value when there is one, and [None]
    otherwise: with neither handling it the returned value is not true. *)
Theorem C9_dispatch {R : Type} (truth : R → bool)
    (handler_command : Screen.t → string → bool * Screen.t)
    (handler_key : Screen.t → Z → option R * Screen.t)
    (window_command : Window → string → Screen.t → Screen.t)
    (window_key : Window → Z → Screen.t → option R * Screen.t)
    (self : Screen.t) :
  (∀ cmd r s1, handler_command self cmd = (r, s1) →
     ∃ s' calls,
       Screen.command handler_command window_command self cmd = (s', calls) ∧
       head calls = Some (Screen.CommandHandler_command cmd) ∧
       (∀ w, Screen.Window_command w cmd ∈ calls ↔
             r = false ∧ Screen.focused s1 = Some w) ∧
       (r = true ∨ Screen.focused s1 = None →
          calls = [Screen.CommandHandler_command cmd] ∧ s' = s1) ∧
       (∀ w, r = false → Screen.focused s1 = Some w →
          calls = [Screen.CommandHandler_command cmd; Screen.Window_command w cmd] ∧
          s' = window_command w cmd s1)) ∧
  (∀ k r s1, handler_key self k = (r, s1) →
     ∃ s' v calls,
       Screen.key truth handler_key window_key self k = (s', v, calls) ∧
       head calls = Some (Screen.CommandHandler_key k) ∧
       (∀ w, Screen.Window_key w k ∈ calls ↔
             Screen.is_true truth r = false ∧ Screen.focused s1 = Some w) ∧
       (Screen.is_true truth r = true →
          calls = [Screen.CommandHandler_key k] ∧ v = r ∧ s' = s1) ∧
       (Screen.is_true truth r = false → Screen.focused s1 = None →
          calls = [Screen.CommandHandler_key k] ∧ v = None ∧ s' = s1) ∧
       (∀ w, Screen.is_true truth r = false → Screen.focused s1 = Some w →
          calls = [Screen.CommandHandler_key k; Screen.Window_key w k] ∧
          (v, s') = window_key w k s1) ∧
       (Screen.is_true truth r = false →
        (∀ w, Screen.focused s1 = Some w →
              Screen.is_true truth (window_key w k s1).1 = false) →
        Screen.is_true truth v = false)).
Proof.
  split.
  - intros cmd r s1 Hh. unfold Screen.command. rewrite Hh.
    destruct r; simpl.
    + eexists _, _. split; [reflexivity|]. split; [reflexivity|].
      split; [|split].
      * intros w. rewrite list_elem_of_singleton. split; [discriminate|].
        intros [? _]. discriminate.
      * auto.
      * discriminate.
    + destruct (Screen.focused s1) as [w0|] eqn:Hf.
      * eexists _, _. split; [reflexivity|]. split; [reflexivity|].
        split; [|split].
        -- intros w. rewrite !elem_of_cons, elem_of_nil. split.
           ++ intros [?|[?|[]]]; [discriminate|]. split; congruence.
           ++ intros [_ ?]. right. left. congruence.
        -- intros [?|?]; discriminate.
        -- intros w _ [= <-]. auto.
      * eexists _, _. split; [reflexivity|]. split; [reflexivity|].
        split; [|split].
        -- intros w. rewrite list_elem_of_singleton. split; [discriminate|].
           intros [_ ?]. discriminate.
        -- auto.
        -- discriminate.
  - intros k r s1 Hh. unfold Screen.key. rewrite Hh.
    destruct (Screen.is_true truth r) eqn:Hr.
    + eexists _, _, _. split; [reflexivity|]. split; [reflexivity|].
      split; [|split; [|split; [|split]]].
      * intros w. rewrite list_elem_of_singleton. split; [discriminate|].
        intros [? _]. discriminate.
      * auto.
      * discriminate.
      * discriminate.
      * discriminate.
    + destruct (Screen.focused s1) as [w0|] eqn:Hf.
      * destruct (window_key w0 k s1) as [v s'] eqn:Hw.
        eexists _, _, _. split; [reflexivity|]. split; [reflexivity|].
        split; [|split; [|split; [|split]]].
        -- intros w. rewrite !elem_of_cons, elem_of_nil. split.
           ++ intros [?|[?|[]]]; [discriminate|]. split; congruence.
           ++ intros [_ ?]. right. left. congruence.
        -- discriminate.
        -- discriminate.
        -- intros w _ [= <-]. rewrite Hw. auto.
        -- intros _ Hn. specialize (Hn w0 eq_refl). rewrite Hw in Hn. exact Hn.
      * eexists _, _, _. split; [reflexivity|]. split; [reflexivity|].
        split; [|split; [|split; [|split]]].
        -- intros w. rewrite list_elem_of_singleton. split; [discriminate|].
           intros [_ ?]. discriminate.
        -- discriminate.
        -- auto.
        -- discriminate.
        -- reflexivity.
Qed.

Lemma C9_dispatch_witness :
  Screen.command only_resize any_command float_focused "next-item" =
    (float_focused,
     [Screen.CommandHandler_command "next-item";
      Screen.Window_command (greedy 2 "float") "next-item"]) ∧
  Screen.key (λ z, negb (z =? 0)) no_key echo_key float_focused 106 =
    (float_focused, Some 106,
     [Screen.CommandHandler_key 106; Screen.Window_key (greedy 2 "float") 106]).
Proof.
  destruct (C9_dispatch (λ z, negb (z =? 0)) only_resize no_key any_command
              echo_key float_focused) as [Hc Hk].
  split.
  - destruct (Hc "next-item" false float_focused eq_refl)
      as (s' & calls & Hcmd & _ & _ & _ & Hw).
    destruct (Hw (greedy 2 "float") eq_refl eq_refl) as [-> ->].
    exact Hcmd.
  - destruct (Hk 106 None float_focused eq_refl)
      as (s' & v & calls & Hkey & _ & _ & _ & _ & Hw & _).
    destruct (Hw (greedy 2 "float") eq_refl eq_refl) as [-> Hv].
    injection Hv as -> ->.
    exact Hkey.
Defined.

(** ** Text box scrolling *)

Lemma string_length_app (s1 s2 : string) :
  String.length (s1 +:+ s2) = (String.length s1 + String.length s2)%nat.
Proof. induction s1 as [|a s1 IH]; simpl; [reflexivity|]. rewrite IH. reflexivity. Qed.

(** The variable of the offset of a box is not the variable
    [needs_redraw]. *)
Lemma offset_key_ne (name : string) : name +:+ "_offset" ≠ "needs_redraw".
Proof.
  intros H. pose proof (f_equal String.length H) as Hlen.
  rewrite string_length_app in Hlen. simpl in Hlen.
  destruct name as [|a1 [|a2 [|a3 [|a4 [|a5 [|a6 rest]]]]]]; simpl in Hlen;
    try lia.
  simpl in H. discriminate.
Qed.

Lemma textbox_get_set_offset (self : TextBox.t) (v : Z) :
  TextBox.get_offset (TextBox.set_offset self v) = Ok v.
Proof.
  unfold TextBox.get_offset, TextBox.set_offset, TextBox.get_var,
    TextBox.set_var. simpl.
  rewrite lookup_insert_eq. reflexivity.
Qed.

Lemma textbox_get_offset_needs_redraw (self : TextBox.t) (v : TextBox.value) :
  TextBox.get_offset (TextBox.set_var self "needs_redraw" v) =
  TextBox.get_offset self.
Proof.
  unfold TextBox.get_offset, TextBox.get_var, TextBox.set_var. simpl.
  rewrite lookup_insert_ne; [reflexivity|].
  intros H. symmetry in H. exact (offset_key_ne _ H).
Qed.

(** [_relscroll] stores [max(min(offset + factor, max_offset), 0)] and
    marks the box to be redrawn; it returns whenever the offset is set. *)
Lemma textbox_relscroll (self : TextBox.t) (factor off : Z) :
  TextBox.get_offset self = Ok off →
  TextBox._relscroll self factor =
    Ok (TextBox.set_var
          (TextBox.set_offset self
             (Z.max (Z.min (off + factor) (TextBox.max_offset self)) 0))
          "needs_redraw" (TextBox.Bool true)).
Proof. intros H. unfold TextBox._relscroll. rewrite H. reflexivity. Qed.

Lemma textbox_scroll_in_range (self : TextBox.t) (factor off : Z) :
  TextBox.get_offset self = Ok off →
  ∃ self',
    TextBox._relscroll self factor = Ok self' ∧
    TextBox.max_offset self' = TextBox.max_offset self ∧
    TextBox.height self' = TextBox.height self ∧
    TextBox.pad self' = TextBox.pad self ∧
    TextBox.get_offset self' =
      Ok (Z.max (Z.min (off + factor) (TextBox.max_offset self)) 0) ∧
    (0 <= TextBox.max_offset self → offset_in_range self').
Proof.
  intros Hoff. eexists. split; [apply textbox_relscroll, Hoff|].
  split; [reflexivity|]. split; [reflexivity|]. split; [reflexivity|].
  rewrite textbox_get_offset_needs_redraw, textbox_get_set_offset.
  split; [reflexivity|]. intros Hmax.
  eexists. rewrite textbox_get_offset_needs_redraw, textbox_get_set_offset.
  split; [reflexivity|]. simpl. lia.
Qed.

(** What a [refresh] that returns leaves. *)
Lemma textbox_refresh_inv (render : TextBox.t → Z → Z) (self self' : TextBox.t) :
  TextBox.refresh render self = Ok self' →
  let height := getmaxyx (TextBox.pad self) 0 in
  let width := getmaxyx (TextBox.pad self) 1 in
  let lines := render (TextBox.set_size self height width) width in
  ∃ off,
    TextBox.get_offset self = Ok off ∧
    1 <= lines ∧ 1 <= width ∧
    TextBox.pad self' = TextBox.pad self ∧
    TextBox.get_opt_name self' = TextBox.get_opt_name self ∧
    TextBox.height self' = Some height ∧
    TextBox.width self' = Some width ∧
    TextBox.fullpad self' = Some {| maxy := lines; maxx := width |} ∧
    TextBox.max_offset self' = Z.max ((lines - 1) - (height - 1)) 0 ∧
    TextBox.get_offset self' = Ok (Z.min off (TextBox.max_offset self')) ∧
    TextBox.get_var self' "needs_redraw" = Ok (TextBox.Bool true).
Proof.
  unfold TextBox.refresh. cbv zeta. intros H.
  destruct (newpad _ _) as [fp|] eqn:Hfp; [|discriminate].
  apply newpad_inv in Hfp as (-> & Hl & Hw).
  change (Ok ?a ≫= ?f) with (f a) in H. cbv beta in H.
  change (TextBox.get_offset
            (TextBox.set_max_offset (TextBox.set_fullpad (TextBox.set_size self
               (getmaxyx (TextBox.pad self) 0) (getmaxyx (TextBox.pad self) 1)) _) _))
    with (TextBox.get_offset self) in H.
  destruct (TextBox.get_offset self) as [off|] eqn:Hoff; [|discriminate].
  change (Ok ?a ≫= ?f) with (f a) in H. cbv beta in H.
  injection H as <-. exists off.
  repeat (split; [reflexivity || assumption|]).
  split.
  - rewrite textbox_get_offset_needs_redraw, textbox_get_set_offset.
    reflexivity.
  - unfold TextBox.get_var. simpl. rewrite lookup_insert_eq. reflexivity.
Qed.

(** [refresh] returns when the offset is set, the pad has a column and
    [render] returns a line at least. *)
Lemma textbox_refresh_Ok (render : TextBox.t → Z → Z) (self : TextBox.t) (off : Z) :
  TextBox.get_offset self = Ok off →
  1 <= getmaxyx (TextBox.pad self) 1 →
  renders_a_line render →
  ∃ self', TextBox.refresh render self = Ok self'.
Proof.
  intros Hoff Hw Hr. unfold TextBox.refresh. cbv zeta.
  rewrite newpad_Ok by (apply Hr || exact Hw).
  change (Ok ?a ≫= ?f) with (f a). cbv beta.
  change (TextBox.get_offset
            (TextBox.set_max_offset (TextBox.set_fullpad (TextBox.set_size self
               (getmaxyx (TextBox.pad self) 0) (getmaxyx (TextBox.pad self) 1)) _) _))
    with (TextBox.get_offset self).
  rewrite Hoff. eauto.
Qed.

(** The four scroll commands are [_relscroll] on their factors; the page
    commands need the height that [refresh] sets. *)
Lemma textbox_commands (self : TextBox.t) :
  TextBox.cmd_scroll_up self = TextBox._relscroll self (-1) ∧
  TextBox.cmd_scroll_down self = TextBox._relscroll self 1 ∧
  (∀ h, TextBox.height self = Some h →
        TextBox.cmd_page_up self = TextBox._relscroll self (- (h - 1)) ∧
        TextBox.cmd_page_down self = TextBox._relscroll self (h - 1)) ∧
  (TextBox.height self = None →
   TextBox.cmd_page_up self = Raise AttributeError ∧
   TextBox.cmd_page_down self = Raise AttributeError).
Proof.
  split; [reflexivity|]. split; [reflexivity|].
  unfold TextBox.cmd_page_up, TextBox.cmd_page_down, TextBox.self_height.
  split.
  - intros h ->. split; [|reflexivity].
    change (TextBox._relscroll self (-1 * (h - 1)) =
            TextBox._relscroll self (- (h - 1))).
    f_equal; lia.
  - intros ->. split; reflexivity.
Qed.

Lemma textbox_apply_ok (render : TextBox.t → Z → Z) (self self' : TextBox.t)
    (o : TextBox.op) :
  box_ok self →
  TextBox.apply render self o = Ok self' →
  box_ok self' ∧
  TextBox.pad self' = TextBox.pad self ∧
  (is_Some (TextBox.height self) → is_Some (TextBox.height self')) ∧
  (o = TextBox.do_refresh → is_Some (TextBox.height self')) ∧
  (offset_in_range self ∨ o ≠ TextBox.do_refresh ∨
   (∃ off, TextBox.get_offset self = Ok off ∧ 0 <= off) →
   offset_in_range self').
Proof.
  intros [Hmax [off Hoff]] Hrun.
  assert (Hscroll : ∀ f, TextBox._relscroll self f = Ok self' →
            box_ok self' ∧ TextBox.pad self' = TextBox.pad self ∧
            (is_Some (TextBox.height self) → is_Some (TextBox.height self')) ∧
            offset_in_range self').
  { intros f Hf.
    destruct (textbox_scroll_in_range self f off Hoff)
      as (s & Hs & Hm & Hh & Hp & Ho & Hin).
    rewrite Hs in Hf. injection Hf as <-.
    split; [split; [lia|eauto]|]. split; [exact Hp|].
    split; [rewrite Hh; auto|auto]. }
  destruct o; simpl in Hrun.
  - destruct (Hscroll _ Hrun) as (H1 & H2 & H3 & H4).
    split; [exact H1|]. split; [exact H2|]. split; [exact H3|].
    split; [discriminate|]. intros _. exact H4.
  - destruct (Hscroll _ Hrun) as (H1 & H2 & H3 & H4).
    split; [exact H1|]. split; [exact H2|]. split; [exact H3|].
    split; [discriminate|]. intros _. exact H4.
  - unfold TextBox.cmd_page_up in Hrun.
    destruct (TextBox.self_height self) as [h|]; [|discriminate].
    destruct (Hscroll _ Hrun) as (H1 & H2 & H3 & H4).
    split; [exact H1|]. split; [exact H2|]. split; [exact H3|].
    split; [discriminate|]. intros _. exact H4.
  - unfold TextBox.cmd_page_down in Hrun.
    destruct (TextBox.self_height self) as [h|]; [|discriminate].
    destruct (Hscroll _ Hrun) as (H1 & H2 & H3 & H4).
    split; [exact H1|]. split; [exact H2|]. split; [exact H3|].
    split; [discriminate|]. intros _. exact H4.
  - destruct (textbox_refresh_inv render self self' Hrun)
      as (off' & Hoff' & _ & _ & Hp & _ & Hh & _ & _ & Hm & Ho & _).
    rewrite Hoff in Hoff'. injection Hoff' as <-.
    split; [split; [lia|eauto]|]. split; [exact Hp|].
    split; [rewrite Hh; eauto|]. split; [rewrite Hh; eauto|].
    intros [(off0 & Hoff0 & Hr)|[H|(off0 & Hoff0 & Hr)]]; try congruence;
      rewrite Hoff in Hoff0; injection Hoff0 as <-;
      (eexists; split; [exact Ho|]; lia).
Qed.

Lemma textbox_apply_all_ok (render : TextBox.t → Z → Z) (ops : list TextBox.op) :
  ∀ self self',
    box_ok self →
    TextBox.apply_all render self ops = Ok self' →
    box_ok self' ∧
    TextBox.pad self' = TextBox.pad self ∧
    (offset_in_range self ∨
     (ops ≠ [] ∧ ∃ off, TextBox.get_offset self = Ok off ∧ 0 <= off) →
     offset_in_range self').
Proof.
  induction ops as [|o ops IH]; intros self self' Hok Hrun.
  - injection Hrun as <-. split; [exact Hok|]. split; [reflexivity|].
    intros [H|[H _]]; [exact H|congruence].
  - simpl in Hrun.
    destruct (TextBox.apply render self o) as [s1|] eqn:H1; [|discriminate].
    change (Ok s1 ≫= ?f) with (f s1) in Hrun. cbv beta in Hrun.
    destruct (textbox_apply_ok render self s1 o Hok H1)
      as (Hok1 & Hp1 & _ & _ & Hin1).
    destruct (IH s1 self' Hok1 Hrun) as (Hok' & Hp' & Hin').
    split; [exact Hok'|]. split; [congruence|].
    intros H. apply Hin'. left. apply Hin1.
    destruct H as [H|[_ H]]; auto.
Qed.

(** A sequence of operations returns exactly when no page command comes
    before the first refresh. *)
Lemma textbox_apply_all_runs (render : TextBox.t → Z → Z) (ops : list TextBox.op) :
  renders_a_line render →
  ∀ self,
    box_ok self → 1 <= getmaxyx (TextBox.pad self) 1 →
    (is_Some (TextBox.height self) ∨ pages_after_refresh ops = true →
     ∃ self', TextBox.apply_all render self ops = Ok self') ∧
    (TextBox.height self = None → pages_after_refresh ops = false →
     TextBox.apply_all render self ops = Raise AttributeError).
Proof.
  intros Hr. induction ops as [|o ops IH]; intros self Hok Hw.
  - split; [eauto|discriminate].
  - pose proof Hok as [Hmax [off Hoff]].
    assert (Hstep : ∀ s1, TextBox.apply render self o = Ok s1 →
              (is_Some (TextBox.height self) ∨ o = TextBox.do_refresh ∨
               pages_after_refresh ops = true →
               ∃ self', TextBox.apply_all render self (o :: ops) = Ok self') ∧
              (TextBox.height self = None → o ≠ TextBox.do_refresh →
               pages_after_refresh ops = false →
               TextBox.apply_all render self (o :: ops) = Raise AttributeError)).
    { intros s1 H1.
      destruct (textbox_apply_ok render self s1 o Hok H1)
        as (Hok1 & Hp1 & Hh1 & Hh1' & _).
      destruct (IH s1 Hok1) as [IH1 IH2]; [rewrite Hp1; exact Hw|].
      simpl. rewrite H1. change (Ok s1 ≫= ?f) with (f s1). cbv beta.
      split.
      - intros [H|[H|H]]; apply IH1; auto.
      - intros Hnone Ho Hpages. apply IH2; [|exact Hpages].
        destruct o; try congruence; simpl in H1.
        + destruct (textbox_scroll_in_range self (-1) off Hoff)
            as (s & Hs & _ & Hh & _).
          unfold TextBox.cmd_scroll_up in H1. rewrite Hs in H1.
          injection H1 as <-. congruence.
        + destruct (textbox_scroll_in_range self 1 off Hoff)
            as (s & Hs & _ & Hh & _).
          unfold TextBox.cmd_scroll_down in H1. rewrite Hs in H1.
          injection H1 as <-. congruence.
        + unfold TextBox.cmd_page_up, TextBox.self_height in H1.
          rewrite Hnone in H1. discriminate.
        + unfold TextBox.cmd_page_down, TextBox.self_height in H1.
          rewrite Hnone in H1. discriminate. }
    destruct (textbox_commands self) as (Hup & Hdown & Hpage & Hnopage).
    destruct o.
    + destruct (textbox_scroll_in_range self (-1) off Hoff) as (s & Hs & _).
      destruct (Hstep s Hs) as [S1 S2].
      split; [intros [H|H]; apply S1; auto|].
      intros Hn Hp. apply S2; [exact Hn|discriminate|exact Hp].
    + destruct (textbox_scroll_in_range self 1 off Hoff) as (s & Hs & _).
      destruct (Hstep s Hs) as [S1 S2].
      split; [intros [H|H]; apply S1; auto|].
      intros Hn Hp. apply S2; [exact Hn|discriminate|exact Hp].
    + split.
      * intros [[h Hh]|H]; [|discriminate].
        destruct (textbox_scroll_in_range self (- (h - 1)) off Hoff)
          as (s & Hs & _).
        apply (Hstep s); [|left; eauto].
        simpl. rewrite (proj1 (Hpage h Hh)). exact Hs.
      * intros Hn _. simpl. rewrite (proj1 (Hnopage Hn)). reflexivity.
    + split.
      * intros [[h Hh]|H]; [|discriminate].
        destruct (textbox_scroll_in_range self (h - 1) off Hoff)
          as (s & Hs & _).
        apply (Hstep s); [|left; eauto].
        simpl. rewrite (proj2 (Hpage h Hh)). exact Hs.
      * intros Hn _. simpl. rewrite (proj2 (Hnopage Hn)). reflexivity.
    + destruct (textbox_refresh_Ok render self off Hoff Hw Hr) as [s Hs].
      destruct (Hstep s Hs) as [S1 S2].
      split; [intros _; apply S1; auto|]. discriminate.
Qed.

(** Counterexample to C10 as stated.  A page command on a box that was not
    refreshed yet fails: the height it uses is not set.  And a refresh of a
    box whose stored offset is negative leaves that offset: it brings an
    offset down to [max_offset] and never up to 0. *)
Lemma C10_counterexample :
  TextBox.cmd_page_down fresh_box = Raise AttributeError ∧
  ∃ self',
    TextBox.refresh thirty_lines negative_offset_box = Ok self' ∧
    TextBox.get_offset self' = Ok (-3) ∧
    TextBox.max_offset self' = 20 ∧
    ¬ offset_in_range self'.
Proof.
  split; [reflexivity|].
  eexists. split; [vm_compute; reflexivity|].
  split; [vm_compute; reflexivity|]. split; [reflexivity|].
  intros (off & Hoff & Hr). vm_compute in Hoff. injection Hoff as <-. lia.
Qed.

(** C10, amended.  On every text box whose offset is set, [_relscroll]
    returns and stores [max(min(offset + factor, max_offset), 0)]; scroll
    up, scroll down, page up and page down are [_relscroll] on -1, 1,
    [-(height - 1)] and [height - 1], and the page commands raise
    [AttributeError] while the height is not set, that is before the first
    refresh.  A refresh that returns leaves [max_offset] not negative and
    stores [min(offset, max_offset)]: an offset above the new [max_offset]
    comes down to it, an offset from 0 on ends in range, a negative offset
    stays.  From [init] on, whatever scroll commands and refreshes run
    through, [max_offset] is not negative, and the offset lies between 0
    and [max_offset] after the first operation when it was not negative at
    [init]; with a pad of one column at least and a [render] that returns
    one line at least, they run through exactly when no page command comes
    before the first refresh. *)
Theorem C10_scroll_offset_in_range (render : TextBox.t → Z → Z) :
  (∀ self factor off,
     TextBox.get_offset self = Ok off →
     ∃ self',
       TextBox._relscroll self factor = Ok self' ∧
       TextBox.get_offset self' =
         Ok (Z.max (Z.min (off + factor) (TextBox.max_offset self)) 0) ∧
       TextBox.max_offset self' = TextBox.max_offset self ∧
       (0 <= TextBox.max_offset self → offset_in_range self')) ∧
  (∀ self,
     TextBox.cmd_scroll_up self = TextBox._relscroll self (-1) ∧
     TextBox.cmd_scroll_down self = TextBox._relscroll self 1 ∧
     (∀ h, TextBox.height self = Some h →
           TextBox.cmd_page_up self = TextBox._relscroll self (- (h - 1)) ∧
           TextBox.cmd_page_down self = TextBox._relscroll self (h - 1)) ∧
     (TextBox.height self = None →
      TextBox.cmd_page_up self = Raise AttributeError ∧
      TextBox.cmd_page_down self = Raise AttributeError)) ∧
  (∀ self self',
     TextBox.refresh render self = Ok self' →
     ∃ off,
       TextBox.get_offset self = Ok off ∧
       0 <= TextBox.max_offset self' ∧
       is_Some (TextBox.height self') ∧
       TextBox.get_offset self' = Ok (Z.min off (TextBox.max_offset self')) ∧
       (0 <= off → offset_in_range self')) ∧
  (∀ name pad vars ops self',
     TextBox.apply_all render (TextBox.init name pad vars) ops = Ok self' →
     0 <= TextBox.max_offset self' ∧
     ∀ off,
       TextBox.get_offset (TextBox.init name pad vars) = Ok off →
       0 <= off → ops ≠ [] →
       offset_in_range self') ∧
  (∀ name pad vars ops off,
     TextBox.get_offset (TextBox.init name pad vars) = Ok off →
     1 <= getmaxyx pad 1 →
     renders_a_line render →
     (pages_after_refresh ops = true →
      ∃ self', TextBox.apply_all render (TextBox.init name pad vars) ops
               = Ok self') ∧
     (pages_after_refresh ops = false →
      TextBox.apply_all render (TextBox.init name pad vars) ops
      = Raise AttributeError)).
Proof.
  split; [|split; [|split; [|split]]].
  - intros self factor off Hoff.
    destruct (textbox_scroll_in_range self factor off Hoff)
      as (self' & H1 & H2 & _ & _ & H4 & H5).
    exists self'. auto.
  - apply textbox_commands.
  - intros self self' Hrun.
    destruct (textbox_refresh_inv render self self' Hrun)
      as (off & Hoff & _ & _ & _ & _ & Hh & _ & _ & Hm & Ho & _).
    exists off. split; [exact Hoff|]. split; [lia|].
    split; [rewrite Hh; eauto|]. split; [exact Ho|].
    intros H0. eexists. split; [exact Ho|]. lia.
  - intros name pad vars ops self' Hrun.
    assert (Hmax : 0 <= TextBox.max_offset (TextBox.init name pad vars))
      by (simpl; lia).
    destruct (TextBox.get_offset (TextBox.init name pad vars)) as [off0|] eqn:Hoff0.
    + destruct (textbox_apply_all_ok render ops _ self'
                  (conj Hmax (ex_intro _ off0 Hoff0)) Hrun)
        as ([Hm _] & _ & Hin).
      split; [exact Hm|]. intros off [= <-] H0 Hne. apply Hin. right. eauto.
    + destruct ops as [|o ops].
      * injection Hrun as <-. split; [exact Hmax|]. congruence.
      * exfalso. simpl in Hrun.
        destruct o; simpl in Hrun;
          unfold TextBox.cmd_scroll_up, TextBox.cmd_scroll_down,
            TextBox.cmd_page_up, TextBox.cmd_page_down, TextBox._relscroll,
            TextBox.self_height in Hrun;
          simpl in Hrun; try rewrite Hoff0 in Hrun; try discriminate.
        destruct (TextBox.refresh render (TextBox.init name pad vars))
          as [s|] eqn:Hs; [|discriminate].
        destruct (textbox_refresh_inv render _ _ Hs) as (off & Hoff & _).
        congruence.
  - intros name pad vars ops off Hoff Hw Hr.
    destruct (textbox_apply_all_runs render ops Hr (TextBox.init name pad vars))
      as [H1 H2].
    + split; [simpl; lia|eauto].
    + exact Hw.
    + split; [intros H; apply H1; auto|]. intros H. apply H2; [reflexivity|exact H].
Qed.

(** A box of 10 lines that renders 30: a refresh, three pages down, a line
    down, a refresh, a page and a line up run through and leave the offset
    in range. *)
Lemma C10_scroll_offset_in_range_witness :
  ∃ self',
    TextBox.apply_all thirty_lines fresh_box
      [TextBox.do_refresh; TextBox.page_down; TextBox.page_down;
       TextBox.page_down; TextBox.scroll_down; TextBox.do_refresh;
       TextBox.page_up; TextBox.scroll_up] = Ok self' ∧
    offset_in_range self'.
Proof.
  destruct (C10_scroll_offset_in_range thirty_lines) as (_ & _ & _ & Hin & Hrun).
  assert (Hoff : TextBox.get_offset fresh_box = Ok 0)
    by (vm_compute; reflexivity).
  destruct (Hrun "textbox" {| maxy := 10; maxx := 80 |}
              {["textbox_offset" := TextBox.Int 0]}
              [TextBox.do_refresh; TextBox.page_down; TextBox.page_down;
               TextBox.page_down; TextBox.scroll_down; TextBox.do_refresh;
               TextBox.page_up; TextBox.scroll_up] 0 Hoff)
    as [Hruns _];
    [simpl; lia|intros b w; unfold thirty_lines; lia|].
  destruct (Hruns eq_refl) as [self' Hself'].
  exists self'. split; [exact Hself'|].
  apply (proj2 (Hin _ _ _ _ _ Hself') 0); [exact Hoff|lia|discriminate].
Defined.

(** ** Layout: the two categories of a layout *)

Lemma elem_of_enumerate_from {A} (n : nat) (l : list A) (i : nat) (x : A) :
  (i, x) ∈ enumerate_from n l ↔ (n ≤ i)%nat ∧ l !! (i - n)%nat = Some x.
Proof.
  revert n. induction l as [|y l IH]; intros n; simpl.
  - rewrite elem_of_nil. split; [tauto|]. intros [_ H]. discriminate.
  - rewrite elem_of_cons, IH. split.
    + intros [[= -> ->]|[Hle Hl]].
      * split; [lia|]. replace (n - n)%nat with O by lia. reflexivity.
      * split; [lia|]. replace (i - n)%nat with (S (i - S n)) by lia. exact Hl.
    + intros [Hle Hl]. destruct (decide (i = n)) as [->|Hne].
      * left. replace (n - n)%nat with O in Hl by lia. simpl in Hl. congruence.
      * right. split; [lia|].
        replace (i - n)%nat with (S (i - S n)) in Hl by lia. exact Hl.
Qed.

Lemma elem_of_immediates_of (layout : list LayoutUnit) (i : nat) (w : Window) :
  (i, w) ∈ Screen.immediates_of layout ↔ layout !! i = Some (Win w).
Proof.
  unfold Screen.immediates_of, enumerate. rewrite list_elem_of_omap. split.
  - intros ([j x] & Hin & Hx). apply elem_of_enumerate_from in Hin as [_ Hl].
    simpl in Hx. destruct x; [|discriminate]. injection Hx as -> ->.
    rewrite Nat.sub_0_r in Hl. exact Hl.
  - intros Hl. exists (i, Win w). split; [|reflexivity].
    apply elem_of_enumerate_from. rewrite Nat.sub_0_r. split; [lia|exact Hl].
Qed.

Lemma elem_of_cmplx_of (layout : list LayoutUnit) (i : nat) (l : list LayoutUnit) :
  (i, l) ∈ Screen.cmplx_of layout ↔ layout !! i = Some (Sub l).
Proof.
  unfold Screen.cmplx_of, enumerate. rewrite list_elem_of_omap. split.
  - intros ([j x] & Hin & Hx). apply elem_of_enumerate_from in Hin as [_ Hl].
    simpl in Hx. destruct x; [discriminate|]. injection Hx as -> ->.
    rewrite Nat.sub_0_r in Hl. exact Hl.
  - intros Hl. exists (i, Sub l). split; [|reflexivity].
    apply elem_of_enumerate_from. rewrite Nat.sub_0_r. split; [lia|exact Hl].
Qed.

Lemma NoDup_omap_enumerate_from {A B} (f : nat * A → option (nat * B)) n (l : list A) :
  (∀ p q, f p = Some q → q.1 = p.1) →
  NoDup (omap f (enumerate_from n l)).*1.
Proof.
  intros Hf. revert n. induction l as [|y l IH]; intros n; simpl.
  - constructor.
  - destruct (f (n, y)) as [q|] eqn:Hq; [|apply IH].
    simpl. constructor; [|apply IH].
    rewrite list_elem_of_fmap. intros ([j b] & Hj & Hin).
    apply list_elem_of_omap in Hin as ([j' a] & Hin & Hfa).
    apply elem_of_enumerate_from in Hin as [Hle _].
    apply Hf in Hq. apply Hf in Hfa. simpl in *. lia.
Qed.

Lemma length_omap_enumerate_from {A B} (f : nat * A → option B) n (l : list A) :
  (length (omap f (enumerate_from n l)) ≤ length l)%nat.
Proof.
  revert n. induction l as [|y l IH]; intros n; simpl; [lia|].
  specialize (IH (S n)). unfold omap in *.
  destruct (f (n, y)); simpl; lia.
Qed.

Lemma NoDup_immediates_of (layout : list LayoutUnit) :
  NoDup (Screen.immediates_of layout).*1.
Proof.
  apply NoDup_omap_enumerate_from.
  intros [i x] q. simpl. destruct x; [|discriminate]. intros [= <-]. reflexivity.
Qed.


Lemma length_immediates_of (layout : list LayoutUnit) :
  (length (Screen.immediates_of layout) ≤ length layout)%nat.
Proof. apply length_omap_enumerate_from. Qed.

(** ** Layout: the sizes of the immediates *)

Lemma sum_cons (x : Z) (l : list Z) : Py.sum (x :: l) = x + Py.sum l.
Proof. reflexivity. Qed.

Lemma bind_Ok {A B} (a : A) (f : A → result B) : (Ok a ≫= f) = f a.
Proof. reflexivity. Qed.

Lemma subw_immediates_cons self orientation height width i w rest sizes used units :
  Screen._subw_immediates self orientation height width ((i, w) :: rest)
    sizes used units =
  (if String.eqb orientation "horizontal" then
     avail ← floordiv (width - used) units;
     Ok (Screen._subw_size_width self w avail)
   else
     avail ← floordiv (height - used) units;
     Ok (Screen._subw_size_height self w avail)) ≫= λ size,
  Screen._subw_immediates self orientation height width rest
    (<[i := size]> sizes) (used + size) (units - 1).
Proof. reflexivity. Qed.

Lemma subw_immediates_run (self : Screen.t) (orientation : string)
    (height width : Z) (imms : list (nat * Window)) :
  ∀ (sizes : list Z) (used units : Z),
    Z.of_nat (length imms) <= units →
    NoDup imms.*1 →
    (∀ i, i ∈ imms.*1 → (i < length sizes)%nat) →
    let alloc :=
      Spec.allocate (configured_along self orientation)
        (requested_along orientation)
        (extent_along orientation height width - used) units imms.*2 in
    ∃ sizes',
      Screen._subw_immediates self orientation height width imms sizes used units
        = Ok (sizes', used + Py.sum alloc, units - Z.of_nat (length imms)) ∧
      length sizes' = length sizes ∧
      (∀ k i w, imms !! k = Some (i, w) → sizes' !! i = alloc !! k) ∧
      (∀ j, j ∉ imms.*1 → sizes' !! j = sizes !! j).
Proof.
  induction imms as [|[i w] rest IH]; intros sizes used units Hunits Hnd Hlt alloc.
  - exists sizes. simpl. split.
    + f_equal. f_equal; [f_equal|]; unfold alloc; simpl; lia.
    + split; [reflexivity|]. split; [|reflexivity].
      intros k i w Hk. rewrite lookup_nil in Hk. discriminate.
  - simpl in Hunits, Hnd, Hlt.
    apply NoDup_cons in Hnd as [Hi Hnd].
    set (share := (extent_along orientation height width - used) / units).
    set (size := Spec.clamp share (configured_along self orientation w)
                   (requested_along orientation w share)).
    assert (Hsize :
      (if String.eqb orientation "horizontal" then
         avail ← floordiv (width - used) units;
         Ok (Screen._subw_size_width self w avail)
       else
         avail ← floordiv (height - used) units;
         Ok (Screen._subw_size_height self w avail)) = Ok size).
    { unfold size, share, extent_along, configured_along, requested_along,
        floordiv.
      replace (units =? 0) with false by (symmetry; apply Z.eqb_neq; lia).
      destruct (String.eqb orientation "horizontal"); simpl;
        [rewrite clamp_width|rewrite clamp_height]; reflexivity. }
    assert (Halloc : alloc =
      size :: Spec.allocate (configured_along self orientation)
                (requested_along orientation)
                (extent_along orientation height width - (used + size))
                (units - 1) rest.*2).
    { unfold alloc. simpl. fold share. fold size.
      replace (extent_along orientation height width - used - size)
        with (extent_along orientation height width - (used + size)) by lia.
      reflexivity. }
    clearbody alloc. subst alloc.
    destruct (IH (<[i:=size]> sizes) (used + size) (units - 1))
      as (sizes' & Hrun & Hlen & Hk & Hother).
    + lia.
    + exact Hnd.
    + intros j Hj. rewrite length_insert. apply Hlt. right. exact Hj.
    + exists sizes'. split; [|split; [|split]].
      * rewrite subw_immediates_cons, Hsize, bind_Ok, Hrun, sum_cons.
        f_equal. f_equal; [f_equal|]; simpl length; lia.
      * rewrite Hlen. apply length_insert.
      * intros k j w' Hkj. destruct k as [|k]; simpl in Hkj.
        -- injection Hkj as <- <-.
           rewrite Hother by exact Hi.
           rewrite list_lookup_insert_eq by (apply Hlt; left).
           reflexivity.
        -- rewrite (Hk k j w' Hkj). reflexivity.
      * intros j Hj. simpl in Hj. apply not_elem_of_cons in Hj as [Hne Hj].
        rewrite Hother by exact Hj.
        apply list_lookup_insert_ne. congruence.
Qed.

Lemma allocate_lookup (configured : Window → option Z)
    (requested : Window → Z → Z) (ws : list Window) :
  ∀ (space units : Z) (k : nat) (w : Window),
    ws !! k = Some w →
    let alloc := Spec.allocate configured requested space units ws in
    let share := (space - Py.sum (take k alloc)) / (units - Z.of_nat k) in
    alloc !! k = Some (Spec.clamp share (configured w) (requested w share)).
Proof.
  induction ws as [|w0 ws IH]; intros space units k w Hk; [discriminate|].
  destruct k as [|k]; simpl in Hk.
  - injection Hk as ->. simpl.
    replace (space - 0) with space by lia.
    replace (units - Z.of_nat 0) with units by lia. reflexivity.
  - specialize (IH (space - Spec.clamp (space / units) (configured w0)
                               (requested w0 (space / units)))
                   (units - 1) k w Hk).
    simpl in IH. cbn [Spec.allocate take lookup list_lookup].
    rewrite sum_cons.
    replace (units - Z.of_nat (S k)) with (units - 1 - Z.of_nat k) by lia.
    rewrite Z.sub_add_distr. exact IH.
Qed.

Lemma subw_cmplx_cons rec self orientation top left height width i unit rest
    sizes used units :
  Screen._subw_cmplx rec self orientation top left height width
    ((i, unit) :: rest) sizes used units =
  (if String.eqb orientation "horizontal" then
     available ← floordiv (width - used) units;
     self ← rec self unit top (left + Py.sum (take i sizes)) height available
              "vertical";
     size ← Screen._subw_layout_size self unit "width";
     Ok (self, size)
   else
     available ← floordiv (height - used) units;
     self ← rec self unit (top + Py.sum (take i sizes)) left available width
              "horizontal";
     size ← Screen._subw_layout_size self unit "height";
     Ok (self, size)) ≫= λ p,
  Screen._subw_cmplx rec p.1 orientation top left height width rest
    (<[i := p.2]> sizes) (used + p.2) (units - 1).
Proof.
  simpl. destruct (String.eqb orientation "horizontal").
  - destruct (floordiv _ _) as [a|]; [|reflexivity]. simpl.
    destruct (rec _ _ _ _ _ _ _) as [s|]; [|reflexivity]. simpl.
    destruct (Screen._subw_layout_size _ _ _); reflexivity.
  - destruct (floordiv _ _) as [a|]; [|reflexivity]. simpl.
    destruct (rec _ _ _ _ _ _ _) as [s|]; [|reflexivity]. simpl.
    destruct (Screen._subw_layout_size _ _ _); reflexivity.
Qed.

(** The second loop writes the entries of the sublists only. *)
Lemma subw_cmplx_other rec orientation top left height width cmplx :
  ∀ self sizes used units self' sizes' used' units',
    Screen._subw_cmplx rec self orientation top left height width cmplx
      sizes used units = Ok (self', sizes', used', units') →
    length sizes' = length sizes ∧
    ∀ j, j ∉ cmplx.*1 → sizes' !! j = sizes !! j.
Proof.
  induction cmplx as [|[i unit] rest IH];
    intros self sizes used units self' sizes' used' units' Hrun.
  - simpl in Hrun. injection Hrun as <- <- <- <-. auto.
  - rewrite subw_cmplx_cons in Hrun.
    match type of Hrun with (?m ≫= _) = _ => destruct m as [[s1 size]|] end;
      [|discriminate].
    rewrite bind_Ok in Hrun. simpl in Hrun.
    apply IH in Hrun as [Hlen Hother]. split.
    + rewrite Hlen. apply length_insert.
    + intros j Hj. simpl in Hj. apply not_elem_of_cons in Hj as [Hne Hj].
      rewrite Hother by exact Hj. apply list_lookup_insert_ne. congruence.
Qed.

(** C1. The first loop of [_subw] gives the immediates of a layout, in
    declared order, the sizes of section 4.1 step 2: it starts from the
    whole extent and from as many units as the layout has children, gives
    each immediate the clamp of [remaining_space / remaining_unit_count] by
    its configured maximum (when set) and its requested size, subtracts the
    size and decrements the unit count.  In closed form the k-th immediate
    receives the clamp of [(extent - sum of the earlier sizes) / (units - k)].
    The loop always returns, and these are the sizes [_subw] ends with at
    the immediates' positions.  Three unconstrained tiles stacked
    vertically in 30 lines get the sizes 10, 10, 10 at the offsets 0, 10
    and 20, from [_subw] and from [subwindows] alike. *)
Theorem C1_immediates_allocation :
  (∀ (self : Screen.t) (layout : list LayoutUnit) (orientation : string)
     (height width : Z),
     let imms := Screen.immediates_of layout in
     let units := Z.of_nat (length layout) in
     let extent := extent_along orientation height width in
     let configured := configured_along self orientation in
     let requested := requested_along orientation in
     let alloc := Spec.allocate configured requested extent units imms.*2 in
     (∃ sizes,
        Screen._subw_immediates self orientation height width imms
          (replicate (length layout) 0) 0 units
          = Ok (sizes, Py.sum alloc, units - Z.of_nat (length imms)) ∧
        ∀ k i w, imms !! k = Some (i, w) →
                 layout !! i = Some (Win w) ∧ sizes !! i = alloc !! k) ∧
     (∀ k w, imms.*2 !! k = Some w →
        let share := (extent - Py.sum (take k alloc)) / (units - Z.of_nat k) in
        alloc !! k = Some (Spec.clamp share (configured w) (requested w share))) ∧
     (∀ rec top left self' sizes,
        Screen._subw_body rec self layout top left height width orientation
          = Ok (self', sizes) →
        ∀ k i w, imms !! k = Some (i, w) → sizes !! i = alloc !! k)) ∧
  (∃ s,
     Screen._subw_body (Screen._subw 0) tall_screen three_tiles 0 0 30 80
       "vertical" = Ok (s, [10; 10; 10]) ∧
     Screen._subw 1 tall_screen three_tiles 0 0 30 80 "vertical" = Ok s ∧
     region_of s 0 = Some (0, 0, 10, 80) ∧
     region_of s 1 = Some (10, 0, 10, 80) ∧
     region_of s 2 = Some (20, 0, 10, 80)) ∧
  (∃ s,
     Screen.subwindows tall_screen = Ok s ∧
     region_of s 0 = Some (0, 0, 10, 80) ∧
     region_of s 1 = Some (10, 0, 10, 80) ∧
     region_of s 2 = Some (20, 0, 10, 80)).
Proof.
  split; [|split].
  - intros self layout orientation height width imms units extent configured
      requested alloc.
    destruct (subw_immediates_run self orientation height width imms
                (replicate (length layout) 0) 0 units)
      as (sizes & Hrun & Hlen & Hk & Hother).
    { unfold units, imms. pose proof (length_immediates_of layout). lia. }
    { apply NoDup_immediates_of. }
    { intros i Hi. apply list_elem_of_fmap in Hi as ([i' w] & -> & Hin).
      apply elem_of_immediates_of, lookup_lt_Some in Hin.
      rewrite length_replicate. exact Hin. }
    rewrite Z.sub_0_r, Z.add_0_l in Hrun. rewrite Z.sub_0_r in Hk.
    fold extent configured requested alloc in Hrun, Hk.
    split; [|split].
    + exists sizes. split; [exact Hrun|].
      intros k i w Hkiw. split; [|exact (Hk k i w Hkiw)].
      apply elem_of_immediates_of, list_elem_of_lookup. eauto.
    + intros k w Hkw. apply allocate_lookup. exact Hkw.
    + intros rec top left self' sizes' Hbody k i w Hkiw.
      unfold Screen._subw_body in Hbody. fold imms units in Hbody.
      rewrite Hrun, bind_Ok in Hbody.
      match type of Hbody with (?m ≫= _) = _ =>
        destruct m as [[[[s1 sizes1] used1] units1]|] eqn:Hc end;
        [|discriminate].
      rewrite bind_Ok in Hbody.
      match type of Hbody with (?m ≫= _) = _ =>
        destruct m as [s2|] eqn:Hs end; [|discriminate].
      rewrite bind_Ok in Hbody. injection Hbody as <- <-.
      apply subw_cmplx_other in Hc as [_ Hc].
      rewrite Hc; [exact (Hk k i w Hkiw)|].
      intros Hin. apply list_elem_of_fmap in Hin as ([i' l] & Hi' & Hin).
      simpl in Hi'. subst i'.
      apply elem_of_cmplx_of in Hin.
      assert (layout !! i = Some (Win w)) as Hw
        by (apply elem_of_immediates_of, list_elem_of_lookup; eauto).
      congruence.
  - eexists. split; [vm_compute; reflexivity|].
    split; [vm_compute; reflexivity|].
    split; [|split]; vm_compute; reflexivity.
  - eexists. split; [vm_compute; reflexivity|].
    split; [|split]; vm_compute; reflexivity.
Qed.

Lemma C1_immediates_allocation_witness :
  ∃ s sizes,
    Screen._subw_body (Screen._subw 0) tall_screen three_tiles 0 0 30 80
      "vertical" = Ok (s, sizes) ∧
    sizes !! 1%nat = Some 10.
Proof.
  eassert (Hrun : Screen._subw_body (Screen._subw 0) tall_screen three_tiles
                    0 0 30 80 "vertical" = Ok (_, _))
    by (vm_compute; reflexivity).
  eexists _, _. split; [exact Hrun|].
  destruct C1_immediates_allocation as [H _].
  destruct (H tall_screen three_tiles "vertical" 30 80) as (_ & _ & Hbody).
  rewrite (Hbody (Screen._subw 0) 0 0 _ _ Hrun 1%nat 1%nat (greedy 1 "b") eq_refl).
  vm_compute. reflexivity.
Defined.

(** ** Layout: bounds of the immediates' sizes *)






Lemma lookup_le_sum (l : list Z) (i : nat) (z : Z) :
  Forall (λ z, 0 <= z) l → l !! i = Some z → 0 <= z <= Py.sum l.
Proof.
  intros Hpos. revert i. induction Hpos as [|y l Hy Hpos IH]; intros i Hi;
    [discriminate|].
  assert (0 <= Py.sum l).
  { clear -Hpos. induction Hpos as [|y l Hy Hpos IH]; [reflexivity|].
    rewrite sum_cons. lia. }
  rewrite sum_cons. destruct i as [|i].
  - injection Hi as ->. lia.
  - specialize (IH i Hi). lia.
Qed.

(** ** Layout: sizes and regions in the whole layout *)

Lemma LayoutUnit_ind' (P : LayoutUnit → Prop) :
  (∀ w, P (Win w)) → (∀ l, Forall P l → P (Sub l)) → ∀ x, P x.
Proof.
  intros HW HS. fix IH 1. intros [w|l].
  - apply HW.
  - apply HS. induction l as [|y l IHl]; constructor; [apply IH|exact IHl].
Qed.

Lemma leaves_cons (y : LayoutUnit) (l : list LayoutUnit) :
  leaves (y :: l) = leaves_unit y ++ leaves l.
Proof. reflexivity. Qed.

Lemma elem_of_leaves (layout : list LayoutUnit) (w : Window) :
  w ∈ leaves layout ↔ ∃ x, x ∈ layout ∧ w ∈ leaves_unit x.
Proof.
  induction layout as [|y l IH].
  - split; [intros H; inversion H|intros (x & H & _); inversion H].
  - rewrite leaves_cons, elem_of_app, IH. split.
    + intros [H|(x & Hx & H)]; [exists y|exists x]; split; auto;
        [left|right; exact Hx].
    + intros (x & Hx & H). apply elem_of_cons in Hx as [->|Hx]; [left|right];
        eauto.
Qed.

Lemma layout_size_unit_Sub (self : Screen.t) (idx : nat) (l : list LayoutUnit) :
  Screen._subw_layout_size_unit self idx (Sub l) = sizes_of self idx l ≫= Py.max.
Proof.
  simpl. f_equal. induction l as [|y l IH]; [reflexivity|].
  simpl. rewrite IH. reflexivity.
Qed.




Lemma elem_of_cmplx_leaves (cmplx : list (nat * list LayoutUnit)) (w : Window) :
  w ∈ cmplx_leaves cmplx ↔ ∃ i unit, (i, unit) ∈ cmplx ∧ w ∈ leaves unit.
Proof.
  induction cmplx as [|[i unit] rest IH]; simpl.
  - split; [intros H; inversion H|intros (? & ? & H & _); inversion H].
  - rewrite elem_of_app, IH. split.
    + intros [H|(j & u & Hin & H)].
      * exists i, unit. split; [left|exact H].
      * exists j, u. split; [right; exact Hin|exact H].
    + intros (j & u & Hin & H). apply elem_of_cons in Hin as [[= -> ->]|Hin];
        [left; exact H|right; eauto].
Qed.

Lemma Forall_le_sum (l : list Z) (H : Z) :
  Forall (λ z, 0 <= z) l → Py.sum l <= H → Forall (λ z, 0 <= z <= H) l.
Proof.
  intros Hpos Hsum. apply Forall_lookup. intros i z Hz.
  pose proof (lookup_le_sum l i z Hpos Hz). lia.
Qed.




Lemma length_allocate_eq (configured : Window → option Z)
    (requested : Window → Z → Z) (ws : list Window) :
  ∀ E units, length (Spec.allocate configured requested E units ws) = length ws.
Proof.
  induction ws as [|w ws IH]; intros E units; simpl; [reflexivity|].
  rewrite IH. reflexivity.
Qed.














(** The third loop returns on sizes that [newpad] takes. *)
Lemma subw_setup_Ok (orientation : string) (top left H W : Z)
    (sizes : list Z) (imms : list (nat * Window)) :
  Forall (λ p, takes orientation H W (default 0 (sizes !! p.1))) imms →
  ∀ self,
    ∃ self', Screen._subw_setup self orientation top left H W imms sizes
             = Ok self'.
Proof.
  induction 1 as [|[i ci] rest Hi Hrest IH]; intros self; [simpl; eauto|].
  simpl. unfold takes in Hi. simpl in Hi.
  destruct (String.eqb orientation "horizontal").
  - rewrite subw_init_Ok by lia. rewrite bind_Ok. apply IH.
  - rewrite subw_init_Ok by lia. rewrite bind_Ok. apply IH.
Qed.




(** ** Layout: what a sublist is charged *)

(** C4, on a screen of 24 lines and 80 columns.  The horizontal group of
    the default layout of a lone tag list offers its sublist 80 columns, the
    recursive call gives the tag list the region of 24 lines by 80 columns,
    and the group is charged 79 columns for it, one less than the tag list
    reaches; the same sublist laid out by a vertical group is charged the 24
    lines the tag list reaches. *)
Theorem C4_sublist_charge_at_width :
  (∃ s, Screen.fill_layout float_screen "default" [taglist] =
          Ok (s, [Sub horizontal_group])) ∧
  (∃ s, Screen._subw_body (Screen._subw 2) float_screen horizontal_group
          0 0 24 80 "horizontal" = Ok (s, [79]) ∧
        region_of s 0 = Some (0, 0, 24, 80)) ∧
  (∃ s, Screen._subw_body (Screen._subw 2) float_screen horizontal_group
          0 0 24 80 "vertical" = Ok (s, [24]) ∧
        region_of s 0 = Some (0, 0, 24, 80)).
Proof.
  split; [|split].
  - eexists. vm_compute. reflexivity.
  - eexists. split; vm_compute; reflexivity.
  - eexists. split; vm_compute; reflexivity.
Qed.

(** ** Input arbitration: invariants of the two threads *)

Section InputInvariants.

Context {Box : Type}.
Context (edit : string → Box → Box) (addkey : Z → Box → Z * Box).
Context (result_of : Box → string) (reset : Box → Box).

Abbreviation state := (@Input.state Box).
Abbreviation step := (Input.step edit addkey result_of reset).
Abbreviation run := (Input.run edit addkey result_of reset).

Lemma inv_init (box : Box) : inv (Input.init box).
Proof. repeat split. Qed.

Lemma step_inv (s s' : state) (ev : Input.event) (out : list Input.delivery) :
  inv s → step s ev = Some (s', out) → inv s'.
Proof.
  intros [[Hl Hx] He] Hstep.
  destruct s as [lock sub done box queue redraw term ipc mpc ret rsz].
  unfold inv, lock_ok, edit_ok, Input.held_by_input, Input.held_by_main in *.
  simpl in *.
  destruct ev; simpl in Hstep.
  - destruct (0 <=? k); [|discriminate]. injection Hstep as <- <-.
    simpl. tauto.
  - unfold Input.input_thread in Hstep. simpl in Hstep.
    destruct ipc; simpl in *.
    + destruct lock; [discriminate|]. injection Hstep as <- <-.
      destruct mpc; simpl in *; intuition congruence.
    + destruct term; injection Hstep as <- <-;
        destruct mpc; simpl in *; intuition congruence.
    + injection Hstep as <- <-.
      destruct mpc; simpl in *; intuition congruence.
    + injection Hstep as <- <-.
      destruct mpc; simpl in *; intuition congruence.
    + destruct lock; [discriminate|]. injection Hstep as <- <-.
      destruct mpc; simpl in *; intuition congruence.
    + destruct sub.
      * destruct (addkey r box) as [rc box'].
        destruct (rc =? 0); injection Hstep as <- <-;
          destruct mpc, done; simpl in *; intuition congruence.
      * injection Hstep as <- <-.
        destruct mpc; simpl in *; intuition congruence.
  - destruct mpc; try discriminate. simpl in *.
    destruct lock; [discriminate|]. injection Hstep as <- <-.
    destruct ipc; simpl in *; intuition congruence.
  - destruct mpc; try discriminate. simpl in *. injection Hstep as <- <-.
    destruct ipc; simpl in *; intuition congruence.
  - destruct mpc; try discriminate. simpl in *. injection Hstep as <- <-.
    destruct ipc; simpl in *; intuition congruence.
  - destruct mpc; try discriminate; simpl in *.
    + injection Hstep as <- <-.
      destruct ipc; simpl in *; intuition congruence.
    + injection Hstep as <- <-. destruct He as [-> ->].
      destruct ipc; simpl in *; intuition congruence.
    + destruct done; [|discriminate]. simpl in *. injection Hstep as <- <-.
      destruct ipc; simpl in *; intuition congruence.
Qed.

Lemma run_inv (evs : list Input.event) :
  ∀ (s s' : state) out, inv s → run s evs = Some (s', out) → inv s'.
Proof.
  induction evs as [|ev evs IH]; intros s s' out Hinv Hrun; simpl in Hrun.
  - injection Hrun as <- <-. exact Hinv.
  - destruct (step s ev) as [[s1 o1]|] eqn:Hstep; [|discriminate].
    simpl in Hrun.
    destruct (run s1 evs) as [[s2 o2]|] eqn:Hrest; [|discriminate].
    injection Hrun as <- <-.
    exact (IH s1 s2 o2 (step_inv s s1 ev o1 Hinv Hstep) Hrest).
Qed.

End InputInvariants.

Section InputKeys.

Context {Box : Type}.
Context (edit : string → Box → Box) (addkey : Z → Box → Z * Box).
Context (result_of : Box → string) (reset : Box → Box).

Abbreviation state := (@Input.state Box).
Abbreviation step := (Input.step edit addkey result_of reset).
Abbreviation run := (Input.run edit addkey result_of reset).

Ltac finish_step := simpl; rewrite ?app_nil_r; reflexivity.

Lemma run_cons (s : state) (ev : Input.event) (evs : list Input.event) :
  run s (ev :: evs) =
  match step s ev with
  | Some (s1, o1) =>
      match run s1 evs with
      | Some (s2, o2) => Some (s2, o1 ++ o2)
      | None => None
      end
  | None => None
  end.
Proof.
  simpl. destruct (step s ev) as [[s1 o1]|]; [|reflexivity]. simpl.
  destruct (run s1 evs) as [[s2 o2]|]; reflexivity.
Qed.

(** Every key typed is in the terminal, in flight or delivered, once and
    in order. *)
Lemma step_keys (s s' : state) (ev : Input.event) out :
  step s ev = Some (s', out) →
  (Input.delivered_key <$> out) ++ Input.in_flight s' ++ Input.terminal s' =
  Input.in_flight s ++ Input.terminal s ++ Input.typed [ev].
Proof.
  intros Hstep.
  destruct s as [lock sub done box queue redraw term ipc mpc ret rsz].
  unfold Input.in_flight. simpl in *.
  destruct ev; simpl in Hstep.
  - destruct (0 <=? k); [|discriminate]. injection Hstep as <- <-. finish_step.
  - unfold Input.input_thread in Hstep. simpl in Hstep.
    destruct ipc; simpl in *.
    + destruct lock; [discriminate|]. injection Hstep as <- <-. finish_step.
    + destruct term; injection Hstep as <- <-; finish_step.
    + injection Hstep as <- <-. finish_step.
    + injection Hstep as <- <-. finish_step.
    + destruct lock; [discriminate|]. injection Hstep as <- <-. finish_step.
    + destruct sub.
      * destruct (addkey r box) as [rc box'].
        destruct (rc =? 0); injection Hstep as <- <-; finish_step.
      * injection Hstep as <- <-. finish_step.
  - destruct mpc; try discriminate. simpl in *.
    destruct lock; [discriminate|]. injection Hstep as <- <-. finish_step.
  - destruct mpc; try discriminate. injection Hstep as <- <-. finish_step.
  - destruct mpc; try discriminate. injection Hstep as <- <-. finish_step.
  - destruct mpc; try discriminate; simpl in *.
    + injection Hstep as <- <-. finish_step.
    + injection Hstep as <- <-. finish_step.
    + destruct done; [|discriminate]. injection Hstep as <- <-. finish_step.
Qed.

Lemma typed_cons (ev : Input.event) (evs : list Input.event) :
  Input.typed (ev :: evs) = Input.typed [ev] ++ Input.typed evs.
Proof. unfold Input.typed. simpl. destruct ev; reflexivity. Qed.

Lemma run_keys (evs : list Input.event) :
  ∀ (s s' : state) out,
    run s evs = Some (s', out) →
    (Input.delivered_key <$> out) ++ Input.in_flight s' ++ Input.terminal s' =
    Input.in_flight s ++ Input.terminal s ++ Input.typed evs.
Proof.
  induction evs as [|ev evs IH]; intros s s' out Hrun.
  - injection Hrun as <- <-. simpl. rewrite app_nil_r. reflexivity.
  - rewrite run_cons in Hrun.
    destruct (step s ev) as [[s1 o1]|] eqn:Hstep; [|discriminate].
    destruct (run s1 evs) as [[s2 o2]|] eqn:Hrest; [|discriminate].
    injection Hrun as <- <-.
    rewrite fmap_app, <- app_assoc, (IH s1 s2 o2 Hrest), typed_cons.
    rewrite !app_assoc. f_equal. rewrite <- !app_assoc.
    exact (step_keys s s1 ev o1 Hstep).
Qed.

(** The command queue grows by the keys the steps put on it. *)
Lemma step_queue (s s' : state) (ev : Input.event) out :
  step s ev = Some (s', out) →
  Input.user_queue s' = Input.user_queue s ++ queued_keys out.
Proof.
  intros Hstep.
  destruct s as [lock sub done box queue redraw term ipc mpc ret rsz].
  simpl in *.
  destruct ev; simpl in Hstep.
  - destruct (0 <=? k); [|discriminate]. injection Hstep as <- <-. finish_step.
  - unfold Input.input_thread in Hstep. simpl in Hstep.
    destruct ipc; simpl in *.
    + destruct lock; [discriminate|]. injection Hstep as <- <-. finish_step.
    + destruct term; injection Hstep as <- <-; finish_step.
    + injection Hstep as <- <-. finish_step.
    + injection Hstep as <- <-. finish_step.
    + destruct lock; [discriminate|]. injection Hstep as <- <-. finish_step.
    + destruct sub.
      * destruct (addkey r box) as [rc box'].
        destruct (rc =? 0); injection Hstep as <- <-; finish_step.
      * injection Hstep as <- <-. finish_step.
  - destruct mpc; try discriminate. simpl in *.
    destruct lock; [discriminate|]. injection Hstep as <- <-. finish_step.
  - destruct mpc; try discriminate. injection Hstep as <- <-. finish_step.
  - destruct mpc; try discriminate. injection Hstep as <- <-. finish_step.
  - destruct mpc; try discriminate; simpl in *.
    + injection Hstep as <- <-. finish_step.
    + injection Hstep as <- <-. finish_step.
    + destruct done; [|discriminate]. injection Hstep as <- <-. finish_step.
Qed.

Lemma queued_keys_app (o1 o2 : list Input.delivery) :
  queued_keys (o1 ++ o2) = queued_keys o1 ++ queued_keys o2.
Proof. apply omap_app. Qed.

Lemma run_queue (evs : list Input.event) :
  ∀ (s s' : state) out,
    run s evs = Some (s', out) →
    Input.user_queue s' = Input.user_queue s ++ queued_keys out.
Proof.
  induction evs as [|ev evs IH]; intros s s' out Hrun.
  - injection Hrun as <- <-. simpl. rewrite app_nil_r. reflexivity.
  - rewrite run_cons in Hrun.
    destruct (step s ev) as [[s1 o1]|] eqn:Hstep; [|discriminate].
    destruct (run s1 evs) as [[s2 o2]|] eqn:Hrest; [|discriminate].
    injection Hrun as <- <-.
    rewrite (IH s1 s2 o2 Hrest), (step_queue s s1 ev o1 Hstep).
    rewrite queued_keys_app, app_assoc. reflexivity.
Qed.

(** While the main thread holds the lock, no step but its own release
    hands a key over or reads one. *)
Lemma paused_step (s s' : state) (ev : Input.event) out :
  inv s → Input.held_by_main s = true → ev ≠ Input.unpause_interface_callback →
  step s ev = Some (s', out) →
  out = [] ∧ Input.held_by_main s' = true ∧
  Input.in_flight s = [] ∧ Input.in_flight s' = [] ∧
  Input.input_box s' = Input.input_box s ∧
  Input.terminal s' = Input.terminal s ++ Input.typed [ev].
Proof.
  intros [[Hl Hx] He] Hm Hev Hstep.
  destruct s as [lock sub done box queue redraw term ipc mpc ret rsz].
  unfold Input.held_by_input, Input.held_by_main, Input.in_flight in *.
  simpl in *.
  destruct mpc; try discriminate.
  destruct ev; simpl in Hstep; try discriminate; try congruence.
  - destruct (0 <=? k); [|discriminate]. injection Hstep as <- <-.
    destruct ipc; simpl in *; try discriminate; repeat split; reflexivity.
  - unfold Input.input_thread in Hstep. simpl in Hstep.
    destruct ipc; simpl in *; try discriminate; subst lock; try discriminate.
    injection Hstep as <- <-. simpl. rewrite app_nil_r.
    repeat split; reflexivity.
Qed.

Lemma paused_run (evs : list Input.event) :
  ∀ (s s' : state) out,
    inv s → Input.held_by_main s = true →
    Input.unpause_interface_callback ∉ evs →
    run s evs = Some (s', out) →
    out = [] ∧ Input.held_by_main s' = true ∧
    Input.user_queue s' = Input.user_queue s ∧
    Input.input_box s' = Input.input_box s ∧
    Input.terminal s' = Input.terminal s ++ Input.typed evs.
Proof.
  induction evs as [|ev evs IH]; intros s s' out Hinv Hm Hun Hrun.
  - injection Hrun as <- <-. simpl. rewrite app_nil_r. auto.
  - rewrite run_cons in Hrun.
    destruct (step s ev) as [[s1 o1]|] eqn:Hstep; [|discriminate].
    destruct (run s1 evs) as [[s2 o2]|] eqn:Hrest; [|discriminate].
    injection Hrun as <- <-.
    apply not_elem_of_cons in Hun as [Hne Hun].
    destruct (paused_step s s1 ev o1 Hinv Hm (not_eq_sym Hne) Hstep)
      as (-> & Hm1 & _ & _ & Hb1 & Ht1).
    pose proof (step_queue s s1 ev [] Hstep) as Hq1.
    simpl in Hq1. rewrite app_nil_r in Hq1.
    destruct (IH s1 s2 o2 (step_inv edit addkey result_of reset s s1 ev []
                             Hinv Hstep) Hm1 Hun Hrest)
      as (-> & Hm2 & Hq2 & Hb2 & Ht2).
    split; [reflexivity|]. split; [exact Hm2|].
    split; [congruence|]. split; [congruence|].
    rewrite Ht2, Ht1, (typed_cons ev evs), app_assoc. reflexivity.
Qed.

End InputKeys.

(** ** Input arbitration: the pause gate *)

(** Counterexample to C7 as stated: a key typed while the interface is
    paused stays in the terminal and reaches the command queue after the
    resume, although no key is typed after the resume. *)
Lemma C7_counterexample :
  ¬ after_resume_only Input.SpecBox.edit Input.SpecBox.addkey
      Input.SpecBox.result Input.SpecBox.reset Input.SpecBox.empty
      to_sleep typed_while_paused wake_and_read.
Proof.
  intros H. unfold after_resume_only in H.
  eassert (H0 : _) by (eapply H; vm_compute; reflexivity).
  vm_compute in H0. apply sublist_nil_r in H0. discriminate.
Qed.

(** C7, amended.  In every state the two threads can reach: the lock is
    held exactly when one thread stands between its acquire and its
    release, never by both; while the main thread holds it the input thread
    can at most finish its sleep, and reads, feeds and queues no key; the
    input thread asleep with no key available does not hold it; every key
    typed is delivered at most once and in the order typed, the others
    being still in the terminal or read and not yet handed over; the
    command queue holds the keys queued, in order.  From a state in which
    the main thread holds the lock, the keys delivered later are, in order,
    the keys that were in the terminal then followed by the keys typed
    since, during the pause or after the resume, and none of them is
    delivered before the resume. *)
Theorem C7_pause_gate {Box : Type} (edit : string → Box → Box)
    (addkey : Z → Box → Z * Box) (result_of : Box → string)
    (reset : Box → Box) (box : Box) (evs : list Input.event)
    (s : Input.state) (out : list Input.delivery) :
  Input.run edit addkey result_of reset (Input.init box) evs = Some (s, out) →
  lock_ok s ∧
  (Input.held_by_main s = true →
   ∀ s' o,
     Input.step edit addkey result_of reset s Input.input_step = Some (s', o) →
     o = [] ∧ Input.terminal s' = Input.terminal s ∧
     Input.user_queue s' = Input.user_queue s ∧
     Input.input_box s' = Input.input_box s ∧ Input.in_flight s' = []) ∧
  (Input.input_pc s = Input.at_sleep →
   Input.input_lock s = Input.held_by_main s) ∧
  (Input.delivered_key <$> out) ++ Input.in_flight s ++ Input.terminal s
    = Input.typed evs ∧
  Input.user_queue s = queued_keys out ∧
  (Input.held_by_main s = true →
   ∀ evs' s' out',
     Input.run edit addkey result_of reset s evs' = Some (s', out') →
     (Input.delivered_key <$> out') ++ Input.in_flight s' ++ Input.terminal s'
       = Input.terminal s ++ Input.typed evs' ∧
     Input.user_queue s' = Input.user_queue s ++ queued_keys out' ∧
     (Input.unpause_interface_callback ∉ evs' →
      out' = [] ∧ Input.user_queue s' = Input.user_queue s)).
Proof.
  intros Hrun.
  assert (Hinv : inv s)
    by exact (run_inv edit addkey result_of reset evs _ s out (inv_init box) Hrun).
  split; [exact (proj1 Hinv)|].
  split; [|split; [|split; [|split]]].
  - intros Hm s' o Hstep.
    destruct (paused_step edit addkey result_of reset s s' Input.input_step o
                Hinv Hm ltac:(discriminate) Hstep)
      as (-> & _ & _ & Hf & Hb & Ht).
    pose proof (step_queue edit addkey result_of reset s s' _ _ Hstep) as Hq.
    simpl in Ht, Hq. rewrite app_nil_r in Ht, Hq. auto.
  - intros Hpc. destruct Hinv as [[Hl _] _]. rewrite Hl.
    unfold Input.held_by_input. rewrite Hpc. reflexivity.
  - exact (run_keys edit addkey result_of reset evs _ s out Hrun).
  - exact (run_queue edit addkey result_of reset evs _ s out Hrun).
  - intros Hm evs' s' out' Hrun'.
    assert (Hf : Input.in_flight s = []).
    { destruct Hinv as [[_ Hx] _]. unfold Input.in_flight.
      unfold Input.held_by_input in Hx. rewrite Hm in Hx.
      destruct (Input.input_pc s); simpl in Hx; congruence. }
    split; [|split].
    + pose proof (run_keys edit addkey result_of reset evs' s s' out' Hrun') as Hk.
      rewrite Hf in Hk. exact Hk.
    + exact (run_queue edit addkey result_of reset evs' s s' out' Hrun').
    + intros Hun.
      destruct (paused_run edit addkey result_of reset evs' s s' out' Hinv Hm
                  Hun Hrun') as (-> & _ & Hq & _).
      auto.
Qed.

Lemma C7_pause_gate_witness :
  ∃ s out s' out',
    Input.run Input.SpecBox.edit Input.SpecBox.addkey Input.SpecBox.result
      Input.SpecBox.reset (Input.init Input.SpecBox.empty)
      (to_sleep ++ Input.pause_interface_callback :: typed_while_paused)
      = Some (s, out) ∧
    lock_ok s ∧
    (Input.delivered_key <$> out) ++ Input.in_flight s ++ Input.terminal s
      = [97] ∧
    Input.user_queue s = queued_keys out ∧
    Input.run Input.SpecBox.edit Input.SpecBox.addkey Input.SpecBox.result
      Input.SpecBox.reset s (Input.unpause_interface_callback :: wake_and_read)
      = Some (s', out') ∧
    (Input.delivered_key <$> out') ++ Input.in_flight s' ++ Input.terminal s'
      = Input.terminal s ++ [].
Proof.
  eassert (Hrun : Input.run Input.SpecBox.edit Input.SpecBox.addkey
                    Input.SpecBox.result Input.SpecBox.reset
                    (Input.init Input.SpecBox.empty)
                    (to_sleep ++ Input.pause_interface_callback
                       :: typed_while_paused) = Some (_, _))
    by (vm_compute; reflexivity).
  destruct (C7_pause_gate _ _ _ _ _ _ _ _ Hrun) as (Hl & _ & _ & Hk & Hq & Hd).
  match type of Hrun with _ = Some (?s, _) =>
    eassert (Hrun' : Input.run Input.SpecBox.edit Input.SpecBox.addkey
                       Input.SpecBox.result Input.SpecBox.reset s
                       (Input.unpause_interface_callback :: wake_and_read)
                     = Some (_, _))
      by (vm_compute; reflexivity)
  end.
  destruct (Hd eq_refl _ _ _ Hrun') as (Hk' & _).
  eexists _, _, _, _. split; [exact Hrun|].
  split; [exact Hl|]. split; [exact Hk|]. split; [exact Hq|].
  split; [exact Hrun'|exact Hk'].
Defined.

(** ** Input arbitration: edit capture *)

Section EditCapture.

Context {Box : Type}.
Context (edit : string → Box → Box) (addkey : Z → Box → Z * Box).
Context (result_of : Box → string) (reset : Box → Box).

Abbreviation state := (@Input.state Box).
Abbreviation step := (Input.step edit addkey result_of reset).
Abbreviation run := (Input.run edit addkey result_of reset).

(** Outside an edit capture the input thread leaves the box, the event and
    the main thread alone, and every key it hands over goes to the queue. *)
Lemma normal_step (s s' : state) (ev : Input.event) out :
  not_main ev → Input.sub_edit s = false →
  step s ev = Some (s', out) →
  Input.sub_edit s' = false ∧ Input.input_done s' = Input.input_done s ∧
  Input.main_pc s' = Input.main_pc s ∧ Input.input_box s' = Input.input_box s ∧
  Input.returned s' = Input.returned s ∧
  Input.needs_redraw s' = Input.needs_redraw s ∧ Forall is_queued out.
Proof.
  intros Hev Hsub Hstep.
  destruct s as [lock sub done box queue redraw term ipc mpc ret rsz].
  simpl in *. subst sub.
  destruct Hev as [->|[k ->]]; simpl in Hstep.
  - unfold Input.input_thread in Hstep. simpl in Hstep.
    destruct ipc; simpl in *.
    + destruct lock; [discriminate|]. injection Hstep as <- <-.
      repeat split; constructor.
    + destruct term; injection Hstep as <- <-; repeat split; constructor.
    + injection Hstep as <- <-. repeat split; constructor.
    + injection Hstep as <- <-. repeat split; constructor.
    + destruct lock; [discriminate|]. injection Hstep as <- <-.
      repeat split; constructor.
    + injection Hstep as <- <-. repeat split.
      constructor; [eexists; reflexivity|constructor].
  - destruct (0 <=? k); [|discriminate]. injection Hstep as <- <-.
    repeat split; constructor.
Qed.

Lemma normal_run (evs : list Input.event) :
  ∀ (s s' : state) out,
    Forall not_main evs → Input.sub_edit s = false →
    run s evs = Some (s', out) →
    Input.sub_edit s' = false ∧ Input.input_done s' = Input.input_done s ∧
    Input.main_pc s' = Input.main_pc s ∧ Input.input_box s' = Input.input_box s ∧
    Input.returned s' = Input.returned s ∧
    Input.needs_redraw s' = Input.needs_redraw s ∧ Forall is_queued out.
Proof.
  induction evs as [|ev evs IH]; intros s s' out Hevs Hsub Hrun.
  - injection Hrun as <- <-. repeat split; auto.
  - rewrite run_cons in Hrun.
    destruct (step s ev) as [[s1 o1]|] eqn:Hstep; [|discriminate].
    destruct (run s1 evs) as [[s2 o2]|] eqn:Hrest; [|discriminate].
    injection Hrun as <- <-.
    apply Forall_cons in Hevs as [Hev Hevs].
    destruct (normal_step s s1 ev o1 Hev Hsub Hstep)
      as (H1 & H2 & H3 & H4 & H5 & H6 & H7).
    destruct (IH s1 s2 o2 Hevs H1 Hrest)
      as (G1 & G2 & G3 & G4 & G5 & G6 & G7).
    repeat split; try congruence. apply Forall_app. auto.
Qed.

(** The step of the input thread on a key read during an edit capture. *)
Lemma capture_step (s : state) (r rc : Z) (b' : Box) :
  Input.input_pc s = Input.at_key r → Input.sub_edit s = true →
  addkey r (Input.input_box s) = (rc, b') →
  ∃ s1,
    step s Input.input_step = Some (s1, [Input.fed r]) ∧
    Input.input_box s1 = b' ∧ Input.user_queue s1 = Input.user_queue s ∧
    Input.main_pc s1 = Input.main_pc s ∧ Input.returned s1 = Input.returned s ∧
    (rc = 0 → Input.sub_edit s1 = false ∧ Input.input_done s1 = true ∧
              Input.needs_redraw s1 = true) ∧
    (rc ≠ 0 → Input.sub_edit s1 = true ∧
              Input.input_done s1 = Input.input_done s).
Proof.
  intros Hpc Hsub Hadd.
  destruct s as [lock sub done box queue redraw term ipc mpc ret rsz].
  simpl in *. subst ipc sub.
  unfold Input.input_thread. simpl. rewrite Hadd.
  destruct (Z.eqb_spec rc 0) as [->|Hrc]; eexists; (split; [reflexivity|]);
    simpl; repeat split; congruence.
Qed.

End EditCapture.

(** C8.  In every state the two threads can reach: while [sub_edit] is set
    the caller of [input_callback] is waiting, the event is not set and the
    caller cannot proceed.  When the input thread feeds a key for which the
    box returns 0 (done), it clears [sub_edit], sets the event, marks the
    display for redraw and puts nothing on the queue; whatever the input
    thread then does and whatever is typed, the keys handed over go to the
    command queue, and the caller's next step returns the [result] of the
    box as the done key left it, the empty string included.  When the box
    returns anything else the capture goes on.  With [sub_edit] clear a
    key read is put on the queue.  With the edit buffer of the design
    document, prompt "p:" and the keys 'h', 'i' and the done key, the caller
    gets "hi", and the next key goes to the command queue. *)
Theorem C8_edit_capture :
  (∀ {Box : Type} (edit : string → Box → Box) (addkey : Z → Box → Z * Box)
     (result_of : Box → string) (reset : Box → Box) (box : Box)
     (evs : list Input.event) (s : Input.state) (out : list Input.delivery),
     Input.run edit addkey result_of reset (Input.init box) evs = Some (s, out) →
     (Input.sub_edit s = true →
        Input.main_pc s = Input.at_wait ∧ Input.input_done s = false ∧
        Input.step edit addkey result_of reset s Input.main_step = None) ∧
     (∀ r b',
        Input.input_pc s = Input.at_key r → Input.sub_edit s = true →
        addkey r (Input.input_box s) = (0, b') →
        ∃ s1,
          Input.step edit addkey result_of reset s Input.input_step
            = Some (s1, [Input.fed r]) ∧
          Input.sub_edit s1 = false ∧ Input.input_done s1 = true ∧
          Input.needs_redraw s1 = true ∧
          Input.user_queue s1 = Input.user_queue s ∧
          ∀ evs' s2 out2,
            Forall not_main evs' →
            Input.run edit addkey result_of reset s1 evs' = Some (s2, out2) →
            Forall is_queued out2 ∧
            ∃ s3,
              Input.step edit addkey result_of reset s2 Input.main_step
                = Some (s3, []) ∧
              Input.returned s3 = Input.returned s ++ [result_of b'] ∧
              Input.main_pc s3 = Input.running ∧
              Input.sub_edit s3 = false ∧ Input.needs_redraw s3 = true) ∧
     (∀ r rc b',
        Input.input_pc s = Input.at_key r → Input.sub_edit s = true →
        addkey r (Input.input_box s) = (rc, b') → rc ≠ 0 →
        ∃ s1,
          Input.step edit addkey result_of reset s Input.input_step
            = Some (s1, [Input.fed r]) ∧
          Input.sub_edit s1 = true ∧ Input.input_done s1 = false ∧
          Input.input_box s1 = b' ∧
          Input.user_queue s1 = Input.user_queue s) ∧
     (∀ r,
        Input.input_pc s = Input.at_key r → Input.sub_edit s = false →
        ∃ s1,
          Input.step edit addkey result_of reset s Input.input_step
            = Some (s1, [Input.queued r]) ∧
          Input.user_queue s1 = Input.user_queue s ++ [r] ∧
          Input.input_box s1 = Input.input_box s ∧
          Input.sub_edit s1 = false)) ∧
  (∃ s s',
     Input.run Input.SpecBox.edit Input.SpecBox.addkey Input.SpecBox.result
       Input.SpecBox.reset (Input.init Input.SpecBox.empty) capture_hi
       = Some (s, [Input.fed 104; Input.fed 105; Input.fed 10]) ∧
     Input.returned s = ["hi"] ∧ Input.sub_edit s = false ∧
     Input.main_pc s = Input.running ∧ Input.needs_redraw s = true ∧
     Input.user_queue s = [] ∧
     Input.run Input.SpecBox.edit Input.SpecBox.addkey Input.SpecBox.result
       Input.SpecBox.reset s one_more_key = Some (s', [Input.queued 120]) ∧
     Input.user_queue s' = [120]).
Proof.
  split.
  - intros Box edit addkey result_of reset box evs s out Hrun.
    assert (Hinv : inv s)
      by exact (run_inv edit addkey result_of reset evs _ s out (inv_init box)
                  Hrun).
    assert (Hwait : Input.sub_edit s = true →
                    Input.main_pc s = Input.at_wait ∧ Input.input_done s = false).
    { intros Hsub. destruct Hinv as [_ He]. unfold edit_ok in He.
      destruct (Input.main_pc s); try (rewrite Hsub in He; intuition congruence).
      rewrite Hsub in He. destruct (Input.input_done s); [discriminate|auto]. }
    split; [|split; [|split]].
    + intros Hsub. destruct (Hwait Hsub) as [Hpc Hdone].
      split; [exact Hpc|]. split; [exact Hdone|].
      simpl. unfold Input.main_thread. rewrite Hpc, Hdone. reflexivity.
    + intros r b' Hpc Hsub Hadd. destruct (Hwait Hsub) as [Hmpc Hdone].
      destruct (capture_step edit addkey result_of reset s r 0 b' Hpc Hsub Hadd)
        as (s1 & Hstep & Hb & Hq & Hm & Hr & H0 & _).
      destruct (H0 eq_refl) as (Hs1 & Hd1 & Hn1).
      exists s1. repeat (split; [assumption|]).
      intros evs' s2 out2 Hevs Hrun2.
      destruct (normal_run edit addkey result_of reset evs' s1 s2 out2 Hevs
                  Hs1 Hrun2) as (G1 & G2 & G3 & G4 & G5 & G6 & G7).
      split; [exact G7|].
      destruct s2 as [lock sub done bx queue redraw term ipc mpc ret rsz].
      simpl in *. subst. rewrite Hm, Hmpc, Hd1. simpl.
      eexists. split; [reflexivity|]. simpl.
      rewrite Hr. repeat split; congruence.
    + intros r rc b' Hpc Hsub Hadd Hrc. destruct (Hwait Hsub) as [Hmpc Hdone].
      destruct (capture_step edit addkey result_of reset s r rc b' Hpc Hsub Hadd)
        as (s1 & Hstep & Hb & Hq & Hm & Hr & _ & H1).
      destruct (H1 Hrc) as (Hs1 & Hd1).
      exists s1. repeat split; congruence.
    + intros r Hpc Hsub.
      destruct s as [lock sub done bx queue redraw term ipc mpc ret rsz].
      simpl in *. subst. unfold Input.input_thread. simpl.
      eexists. split; [reflexivity|]. repeat split.
  - eexists _, _. split; [vm_compute; reflexivity|].
    repeat (split; [vm_compute; reflexivity|]). reflexivity.
Qed.

Lemma C8_edit_capture_witness :
  ∃ s out s1,
    Input.run Input.SpecBox.edit Input.SpecBox.addkey Input.SpecBox.result
      Input.SpecBox.reset (Input.init Input.SpecBox.empty) capture_to_done
      = Some (s, out) ∧
    Input.main_pc s = Input.at_wait ∧ Input.input_done s = false ∧
    Input.step Input.SpecBox.edit Input.SpecBox.addkey Input.SpecBox.result
      Input.SpecBox.reset s Input.input_step = Some (s1, [Input.fed 10]) ∧
    Input.sub_edit s1 = false ∧ Input.input_done s1 = true ∧
    Input.needs_redraw s1 = true.
Proof.
  eassert (Hrun : Input.run Input.SpecBox.edit Input.SpecBox.addkey
                    Input.SpecBox.result Input.SpecBox.reset
                    (Input.init Input.SpecBox.empty) capture_to_done
                  = Some (_, _))
    by (vm_compute; reflexivity).
  destruct C8_edit_capture as [H _].
  destruct (H _ _ _ _ _ _ _ _ _ Hrun) as (Hw & Hdone & _).
  destruct (Hw eq_refl) as (Hpc & Hd & _).
  destruct (Hdone 10 _ eq_refl eq_refl eq_refl)
    as (s1 & Hstep & Hs1 & Hd1 & Hn1 & _).
  eexists _, _, s1. split; [exact Hrun|].
  repeat (split; [assumption|]). assumption.
Defined.

(** ** The default layout *)

Lemma fill_layout_aligns_cons (self : Screen.t) (w : Window)
    (rest : list Window) (aligns : gmap string (list LayoutUnit)) :
  Screen.fill_layout_aligns self (w :: rest) aligns =
  Screen.aligns_append aligns
    (opt_align (Screen.get_opt self) (get_opt_name w)) (placed w) ≫=
  Screen.fill_layout_aligns self rest.
Proof.
  simpl. unfold placed.
  destruct (String.eqb (get_opt_name w) "taglist"); reflexivity.
Qed.

(** The loop of [fill_layout] appends to the list of each alignment the
    windows of that alignment, in their order. *)
Lemma fill_layout_aligns_run (self : Screen.t) (ws : list Window) :
  ∀ aligns,
    (∀ w, w ∈ ws →
       is_Some (aligns !! opt_align (Screen.get_opt self) (get_opt_name w))) →
    ∃ aligns',
      Screen.fill_layout_aligns self ws aligns = Ok aligns' ∧
      ∀ k, aligns' !! k =
           (λ l, l ++ (placed <$> aligned self k ws)) <$> aligns !! k.
Proof.
  induction ws as [|w rest IH]; intros aligns Hdom.
  - exists aligns. split; [reflexivity|]. intros k.
    destruct (aligns !! k) as [l|]; simpl; [|reflexivity].
    rewrite app_nil_r. reflexivity.
  - rewrite fill_layout_aligns_cons. unfold Screen.aligns_append.
    destruct (Hdom w) as [l Hl]; [left|]. rewrite Hl, bind_Ok.
    destruct (IH (<[opt_align (Screen.get_opt self) (get_opt_name w) :=
                      l ++ [placed w]]> aligns)) as (aligns' & Hrun & Hk).
    { intros w' Hw'.
      destruct (decide (opt_align (Screen.get_opt self) (get_opt_name w') =
                        opt_align (Screen.get_opt self) (get_opt_name w)))
        as [->|Hne].
      - rewrite lookup_insert_eq. eauto.
      - rewrite lookup_insert_ne by congruence. apply Hdom. right. exact Hw'. }
    exists aligns'. split; [exact Hrun|]. intros k. rewrite Hk.
    unfold aligned. rewrite filter_cons.
    destruct (decide (opt_align (Screen.get_opt self) (get_opt_name w) = k))
      as [<-|Hne].
    + rewrite lookup_insert_eq, Hl. simpl. rewrite <- app_assoc. reflexivity.
    + rewrite lookup_insert_ne by exact Hne. reflexivity.
Qed.

(** The loop of [fill_layout] fails on the first window whose alignment has
    no list. *)
Lemma fill_layout_aligns_KeyError (self : Screen.t) (ws : list Window) :
  ∀ aligns,
    (∃ w, w ∈ ws ∧
       aligns !! opt_align (Screen.get_opt self) (get_opt_name w) = None) →
    Screen.fill_layout_aligns self ws aligns = Raise KeyError.
Proof.
  induction ws as [|w rest IH]; intros aligns (w0 & Hin & Hnone).
  - inversion Hin.
  - rewrite fill_layout_aligns_cons. unfold Screen.aligns_append.
    destruct (aligns !! opt_align (Screen.get_opt self) (get_opt_name w))
      as [l|] eqn:Hl; [|reflexivity].
    rewrite bind_Ok. apply IH. exists w0.
    apply elem_of_cons in Hin as [->|Hin]; [congruence|].
    split; [exact Hin|].
    rewrite lookup_insert_ne; [exact Hnone|]. intros Heq. congruence.
Qed.

Lemma tiled_alignments_lookup (k : string) :
  let aligns : gmap string (list LayoutUnit) :=
    <["top" := []]> (<["bottom" := []]> (<["left" := []]>
      (<["right" := []]> (<["neutral" := []]> ∅)))) in
  (k ∈ tiled_alignments → aligns !! k = Some []) ∧
  (k ∉ tiled_alignments → aligns !! k = None).
Proof.
  intros aligns. unfold tiled_alignments, aligns. split.
  - intros Hk. repeat (apply elem_of_cons in Hk as [->|Hk]; [reflexivity|]).
    inversion Hk.
  - intros Hk. rewrite !not_elem_of_cons in Hk.
    destruct Hk as (? & ? & ? & ? & ? & _).
    rewrite !lookup_insert_ne by congruence. apply lookup_empty.
Qed.

(** The layout [fill_layout] makes when it is neither "hstack" nor
    "vstack". *)
Lemma fill_layout_default_run (self : Screen.t) (layout : string)
    (windows : list Window) :
  layout ≠ "hstack" → layout ≠ "vstack" →
  (∀ w, w ∈ windows →
     opt_align (Screen.get_opt self) (get_opt_name w) ∈ tiled_alignments) →
  Screen.fill_layout self layout windows =
  Ok (Screen.set_input_box self (head (filter (λ w, is_input w = true) windows)),
      (placed <$> aligned self "top" windows) ++
      [Sub (placed <$> (aligned self "left" windows ++
                        aligned self "neutral" windows ++
                        aligned self "right" windows))] ++
      (placed <$> aligned self "bottom" windows)).
Proof.
  intros Hh Hv Hal. unfold Screen.fill_layout.
  apply String.eqb_neq in Hh, Hv. rewrite Hh, Hv.
  set (self1 := Screen.set_input_box self _).
  destruct (fill_layout_aligns_run self1 windows
              (<["top" := []]> (<["bottom" := []]> (<["left" := []]>
                 (<["right" := []]> (<["neutral" := []]> ∅))))))
    as (aligns' & Hrun & Hk).
  { intros w Hw. rewrite (proj1 (tiled_alignments_lookup _)); [eauto|].
    apply Hal, Hw. }
  rewrite Hrun, bind_Ok.
  assert (Hget : ∀ k, k ∈ tiled_alignments →
            default [] (aligns' !! k) = placed <$> aligned self k windows).
  { intros k Hin. rewrite Hk, (proj1 (tiled_alignments_lookup k) Hin).
    reflexivity. }
  rewrite !Hget by (unfold tiled_alignments; repeat constructor).
  rewrite !fmap_app. reflexivity.
Qed.

(** X1. With a layout name other than "hstack" and "vstack" and windows
    whose alignments are among top, bottom, left, right and neutral,
    [fill_layout] returns the windows aligned top, then one sublist with the
    windows aligned left, neutral and right, then the windows aligned bottom,
    each group in the order of the windows, the tag list two levels deeper
    than the others; the input box is the first window that is an input. *)
Theorem fill_layout_default (self : Screen.t) (layout : string)
    (windows : list Window) :
  layout ≠ "hstack" → layout ≠ "vstack" →
  (∀ w, w ∈ windows →
     opt_align (Screen.get_opt self) (get_opt_name w) ∈ tiled_alignments) →
  Screen.fill_layout self layout windows =
  Ok (Screen.set_input_box self (head (filter (λ w, is_input w = true) windows)),
      (placed <$> aligned self "top" windows) ++
      [Sub (placed <$> (aligned self "left" windows ++
                        aligned self "neutral" windows ++
                        aligned self "right" windows))] ++
      (placed <$> aligned self "bottom" windows)).
Proof. apply fill_layout_default_run. Qed.

Lemma fill_layout_default_witness :
  Screen.fill_layout float_screen "default"
    [greedy 0 "input"; greedy 1 "taglist"] =
  Ok (float_screen,
      [Sub [Win (greedy 0 "input"); Sub [Sub [Win (greedy 1 "taglist")]]]]).
Proof.
  rewrite (fill_layout_default float_screen "default"
             [greedy 0 "input"; greedy 1 "taglist"]).
  - vm_compute. reflexivity.
  - discriminate.
  - discriminate.
  - intros w Hw.
    repeat (apply elem_of_cons in Hw as [->|Hw]); [| |inversion Hw];
      vm_compute; repeat constructor.
Defined.

Lemma leaves_app (l1 l2 : list LayoutUnit) :
  leaves (l1 ++ l2) = leaves l1 ++ leaves l2.
Proof.
  induction l1 as [|y l1 IH]; [reflexivity|].
  change ((y :: l1) ++ l2) with (y :: (l1 ++ l2)).
  rewrite !leaves_cons, IH, app_assoc. reflexivity.
Qed.

Lemma leaves_Win (ws : list Window) : leaves (Win <$> ws) = ws.
Proof.
  induction ws as [|w ws IH]; [reflexivity|].
  change (Win <$> w :: ws) with (Win w :: (Win <$> ws)).
  rewrite leaves_cons, IH. reflexivity.
Qed.

Lemma leaves_placed (ws : list Window) : leaves (placed <$> ws) = ws.
Proof.
  induction ws as [|w ws IH]; [reflexivity|].
  change (placed <$> w :: ws) with (placed w :: (placed <$> ws)).
  rewrite leaves_cons, IH. unfold placed.
  destruct (String.eqb (get_opt_name w) "taglist"); reflexivity.
Qed.

Lemma aligned_cons (self : Screen.t) (a : string) (w : Window)
    (ws : list Window) :
  aligned self a (w :: ws) =
  if decide (opt_align (Screen.get_opt self) (get_opt_name w) = a)
  then w :: aligned self a ws else aligned self a ws.
Proof. unfold aligned. rewrite filter_cons. reflexivity. Qed.

(** The five groups of the default layout hold every window once. *)
Lemma aligned_partition (self : Screen.t) (ws : list Window) :
  (∀ w, w ∈ ws →
     opt_align (Screen.get_opt self) (get_opt_name w) ∈ tiled_alignments) →
  aligned self "top" ws ++
  (aligned self "left" ws ++ aligned self "neutral" ws ++
   aligned self "right" ws) ++
  aligned self "bottom" ws ≡ₚ ws.
Proof.
  induction ws as [|w ws IH]; intros Hal; [reflexivity|].
  assert (IH' := IH (λ x Hx, Hal x (list_elem_of_further _ _ _ Hx))).
  clear IH. assert (Hw := Hal w (list_elem_of_here _ _)).
  rewrite !aligned_cons. unfold tiled_alignments in Hw.
  set (t := aligned self "top" ws) in *.
  set (l := aligned self "left" ws) in *.
  set (n := aligned self "neutral" ws) in *.
  set (r := aligned self "right" ws) in *.
  set (b := aligned self "bottom" ws) in *.
  transitivity (w :: (t ++ (l ++ n ++ r) ++ b)); [|constructor; exact IH'].
  clearbody t l n r b.
  repeat (apply elem_of_cons in Hw as [Hw|Hw]); [| | | | |inversion Hw];
    rewrite Hw;
    repeat ((rewrite decide_True by reflexivity)
            || (rewrite decide_False by discriminate));
    rewrite <- ?app_assoc, <- ?app_comm_cons, ?Permutation_middle;
    reflexivity.
Qed.

(** The two ways [fill_layout] ends. *)
Lemma fill_layout_cases (self : Screen.t) (layout : string)
    (windows : list Window) :
  (∃ l,
     Screen.fill_layout self layout windows =
       Ok (Screen.set_input_box self
             (head (filter (λ w, is_input w = true) windows)), l) ∧
     leaves l ≡ₚ windows ∧
     ((layout = "hstack" ∨ layout = "vstack") ∨
      ∀ w, w ∈ windows →
        opt_align (Screen.get_opt self) (get_opt_name w) ∈ tiled_alignments))
  ∨
  (Screen.fill_layout self layout windows = Raise KeyError ∧
   layout ≠ "hstack" ∧ layout ≠ "vstack" ∧
   ∃ w, w ∈ windows ∧
     opt_align (Screen.get_opt self) (get_opt_name w) ∉ tiled_alignments).
Proof.
  destruct (decide (layout = "hstack")) as [->|Hh].
  { left. eexists. split; [reflexivity|]. rewrite leaves_Win. auto. }
  destruct (decide (layout = "vstack")) as [->|Hv].
  { left. eexists. split; [reflexivity|].
    change (leaves [Sub (Win <$> windows)]) with (leaves (Win <$> windows) ++ []).
    rewrite app_nil_r, leaves_Win. auto. }
  destruct (decide (Forall (λ w, opt_align (Screen.get_opt self) (get_opt_name w)
                                  ∈ tiled_alignments) windows)) as [Hal|Hal].
  - rewrite Forall_forall in Hal. left. eexists.
    split; [apply fill_layout_default_run; assumption|].
    split; [|right; exact Hal].
    rewrite !leaves_app, !leaves_placed.
    change (leaves [Sub (placed <$> ?m)]) with (leaves (placed <$> m) ++ []).
    rewrite app_nil_r, leaves_placed. apply aligned_partition, Hal.
  - right. apply not_Forall_Exists in Hal; [|intros w; apply _].
    apply Exists_exists in Hal as (w & Hin & Hw).
    split; [|split; [exact Hh|split; [exact Hv|eauto]]].
    unfold Screen.fill_layout.
    apply String.eqb_neq in Hh, Hv. rewrite Hh, Hv.
    rewrite fill_layout_aligns_KeyError; [reflexivity|].
    exists w. split; [exact Hin|].
    apply (proj2 (tiled_alignments_lookup _)), Hw.
Qed.

(** X2. [fill_layout] loses and repeats no window: when it returns, the
    windows of the layout are the windows it was given, up to their order,
    and the input box is the first window that is an input.  It raises
    [KeyError], and nothing else, exactly when the layout is neither
    "hstack" nor "vstack" and some window has an alignment other than top,
    bottom, left, right and neutral. *)
Theorem fill_layout_outcome (self : Screen.t) (layout : string)
    (windows : list Window) :
  (∃ l,
     Screen.fill_layout self layout windows =
       Ok (Screen.set_input_box self
             (head (filter (λ w, is_input w = true) windows)), l) ∧
     leaves l ≡ₚ windows ∧
     ((layout = "hstack" ∨ layout = "vstack") ∨
      ∀ w, w ∈ windows →
        opt_align (Screen.get_opt self) (get_opt_name w) ∈ tiled_alignments))
  ∨
  (Screen.fill_layout self layout windows = Raise KeyError ∧
   layout ≠ "hstack" ∧ layout ≠ "vstack" ∧
   ∃ w, w ∈ windows ∧
     opt_align (Screen.get_opt self) (get_opt_name w) ∉ tiled_alignments).
Proof. apply fill_layout_cases. Qed.

(** ** Layout: how [_subw] ends *)

Lemma layout_depth_cons (y : LayoutUnit) (l : list LayoutUnit) :
  Screen.layout_depth (y :: l) =
  S (Nat.max (Screen.unit_depth y) (Nat.pred (Screen.layout_depth l))).
Proof. reflexivity. Qed.

Lemma layout_depth_lookup (layout : list LayoutUnit) (i : nat)
    (unit : list LayoutUnit) :
  layout !! i = Some (Sub unit) →
  (Screen.layout_depth unit < Screen.layout_depth layout)%nat.
Proof.
  revert i. induction layout as [|y l IH]; intros i Hi; [discriminate|].
  rewrite layout_depth_cons. destruct i as [|i]; simpl in Hi.
  - injection Hi as ->. unfold Screen.layout_depth at 1. lia.
  - specialize (IH i Hi). lia.
Qed.

Lemma wellformed_lookup (layout : list LayoutUnit) (i : nat)
    (unit : list LayoutUnit) :
  wellformed layout = true → layout !! i = Some (Sub unit) →
  unit ≠ [] ∧ wellformed unit = true.
Proof.
  unfold wellformed. rewrite forallb_forall. intros Hwf Hi.
  assert (Hin : In (Sub unit) layout)
    by (apply list_elem_of_In, list_elem_of_lookup; eauto).
  specialize (Hwf _ Hin). simpl in Hwf.
  destruct unit; [discriminate|]. split; [discriminate|exact Hwf].
Qed.

Lemma sizes_of_total (self : Screen.t) (idx : nat) (l : list LayoutUnit) :
  Forall (λ y, ∃ z, Screen._subw_layout_size_unit self idx y = Ok z) l →
  ∃ sizes, sizes_of self idx l = Ok sizes ∧ length sizes = length l.
Proof.
  induction 1 as [|y l [z Hz] Hl (sizes & Hs & Hlen)].
  - exists []. auto.
  - exists (z :: sizes). simpl. rewrite Hz, bind_Ok, Hs, bind_Ok.
    split; [reflexivity|]. simpl. congruence.
Qed.

Lemma layout_size_unit_total (self : Screen.t) (idx : nat) (x : LayoutUnit) :
  nonempty_unit x = true →
  (∀ w, w ∈ leaves_unit x → is_Some (Screen.heap self !! wid w)) →
  ∃ z, Screen._subw_layout_size_unit self idx x = Ok z.
Proof.
  induction x as [w|l IH] using LayoutUnit_ind'; intros Hne Hheap.
  - destruct (Hheap w) as [a Ha]; [left|]. simpl. rewrite Ha. eauto.
  - rewrite layout_size_unit_Sub.
    destruct (sizes_of_total self idx l) as (sizes & Hs & Hlen).
    { simpl in Hne. destruct l as [|y0 l0]; [discriminate|].
      rewrite forallb_forall in Hne.
      change (leaves_unit (Sub (y0 :: l0))) with (leaves (y0 :: l0)) in Hheap.
      rewrite Forall_forall in IH |- *. intros y Hy.
      apply IH; [exact Hy|apply Hne, list_elem_of_In, Hy|].
      intros w Hw. apply Hheap, elem_of_leaves. eauto. }
    rewrite Hs, bind_Ok.
    destruct sizes as [|z sizes]; [|simpl; eauto].
    destruct l; [discriminate|discriminate].
Qed.

Lemma layout_size_total (self : Screen.t) (unit : list LayoutUnit) (dim : string) :
  dim = "width" ∨ dim = "height" →
  unit ≠ [] → wellformed unit = true →
  (∀ w, w ∈ leaves unit → is_Some (Screen.heap self !! wid w)) →
  ∃ z, Screen._subw_layout_size self unit dim = Ok z.
Proof.
  intros Hdim Hne Hwf Hheap. unfold Screen._subw_layout_size.
  assert (Hu : nonempty_unit (Sub unit) = true)
    by (simpl; destruct unit; [congruence|exact Hwf]).
  destruct Hdim as [-> | ->].
  - exact (layout_size_unit_total self 1 (Sub unit) Hu Hheap).
  - exact (layout_size_unit_total self 0 (Sub unit) Hu Hheap).
Qed.

Lemma layout_size_nil (self : Screen.t) (dim : string) :
  dim = "width" ∨ dim = "height" →
  Screen._subw_layout_size self [] dim = Raise ValueError.
Proof. intros [-> | ->]; reflexivity. Qed.

Lemma wellformed_false (layout : list LayoutUnit) :
  wellformed layout = false →
  ∃ i unit, layout !! i = Some (Sub unit) ∧
            (unit = [] ∨ wellformed unit = false).
Proof.
  induction layout as [|y l IH]; [discriminate|].
  unfold wellformed. simpl. intros Hwf.
  apply andb_false_iff in Hwf as [Hy|Hl].
  - destruct y as [w|unit]; [discriminate|]. exists O, unit.
    split; [reflexivity|]. destruct unit; [left; reflexivity|right; exact Hy].
  - destruct (IH Hl) as (i & unit & Hi & Hbad). exists (S i), unit. auto.
Qed.

Lemma keeps_refl (s : Screen.t) : keeps s s.
Proof. intros n Hn. exact Hn. Qed.

Lemma keeps_trans (s0 s1 s2 : Screen.t) : keeps s0 s1 → keeps s1 s2 → keeps s0 s2.
Proof. intros H01 H12 n Hn. apply H12, H01, Hn. Qed.

Lemma subw_init_keeps (self self' : Screen.t) (ci : Window)
    (top left height width : Z) :
  Screen._subw_init self ci top left height width = Ok self' →
  keeps self self' ∧ is_Some (Screen.heap self' !! wid ci).
Proof.
  intros Hinit. apply subw_init_inv in Hinit as (_ & _ & ->).
  unfold keeps. simpl. split.
  - intros n Hn. destruct (decide (n = wid ci)) as [->|Hne].
    + rewrite lookup_insert_eq. eauto.
    + rewrite lookup_insert_ne by congruence. exact Hn.
  - rewrite lookup_insert_eq. eauto.
Qed.

(** The third loop returns or raises [curses.error]; when it returns it
    has kept the windows set up before and set the immediates up. *)
Lemma subw_setup_outcome (orientation : string) (top left height width : Z)
    (sizes : list Z) (imms : list (nat * Window)) :
  ∀ self,
    (∃ self',
       Screen._subw_setup self orientation top left height width imms sizes
         = Ok self' ∧
       keeps self self' ∧
       ∀ w, w ∈ imms.*2 → is_Some (Screen.heap self' !! wid w)) ∨
    Screen._subw_setup self orientation top left height width imms sizes
      = Raise curses_error.
Proof.
  induction imms as [|[i ci] rest IH]; intros self.
  - left. exists self. split; [reflexivity|]. split; [apply keeps_refl|].
    intros w Hw. inversion Hw.
  - simpl.
    set (init := if String.eqb orientation "horizontal"
                 then Screen._subw_init self ci top
                        (left + Py.sum (take i sizes)) height
                        (default 0 (sizes !! i))
                 else Screen._subw_init self ci (top + Py.sum (take i sizes))
                        left (default 0 (sizes !! i)) width).
    assert (Hinit : (∃ s1, init = Ok s1 ∧ keeps self s1 ∧
                           is_Some (Screen.heap s1 !! wid ci)) ∨
                    init = Raise curses_error).
    { unfold init. destruct (String.eqb orientation "horizontal").
      - destruct (subw_init_cases self ci top (left + Py.sum (take i sizes))
                    height (default 0 (sizes !! i))) as [[s1 Hs1]|Hr];
          [left|right; exact Hr].
        exists s1. split; [exact Hs1|]. exact (subw_init_keeps _ _ _ _ _ _ _ Hs1).
      - destruct (subw_init_cases self ci (top + Py.sum (take i sizes)) left
                    (default 0 (sizes !! i)) width) as [[s1 Hs1]|Hr];
          [left|right; exact Hr].
        exists s1. split; [exact Hs1|]. exact (subw_init_keeps _ _ _ _ _ _ _ Hs1). }
    destruct Hinit as [(s1 & -> & Hk1 & Hci)| ->]; [|right; reflexivity].
    rewrite bind_Ok.
    destruct (IH s1) as [(s2 & Hs2 & Hk2 & Hw2)|Hr]; [left|right; exact Hr].
    exists s2. split; [exact Hs2|]. split; [exact (keeps_trans _ _ _ Hk1 Hk2)|].
    intros w Hin. apply elem_of_cons in Hin as [->|Hin]; [|auto].
    apply Hk2, Hci.
Qed.

(** The second loop returns when every sublist is laid out and measured,
    raises [ValueError] at a sublist that is empty or has an empty sublist,
    or raises [curses.error]. *)
Lemma subw_cmplx_ends (depth : nat) rec (orientation : string)
    (top left height width : Z) :
  rec_ends depth rec →
  ∀ cmplx self sizes used units,
    (∀ i unit, (i, unit) ∈ cmplx → (Screen.layout_depth unit ≤ depth)%nat) →
    Z.of_nat (length cmplx) <= units →
    (∃ self' sizes' used' units',
       Screen._subw_cmplx rec self orientation top left height width cmplx
         sizes used units = Ok (self', sizes', used', units') ∧
       (∀ i unit, (i, unit) ∈ cmplx → unit ≠ [] ∧ wellformed unit = true) ∧
       keeps self self' ∧
       ∀ w, w ∈ cmplx_leaves cmplx → is_Some (Screen.heap self' !! wid w)) ∨
    (Screen._subw_cmplx rec self orientation top left height width cmplx
       sizes used units = Raise ValueError ∧
     ∃ i unit, (i, unit) ∈ cmplx ∧ (unit = [] ∨ wellformed unit = false)) ∨
    Screen._subw_cmplx rec self orientation top left height width cmplx
      sizes used units = Raise curses_error.
Proof.
  intros Hrec. induction cmplx as [|[i unit] rest IH];
    intros self sizes used units Hd Hunits.
  - left. exists self, sizes, used, units. split; [reflexivity|].
    split; [intros i unit Hin; inversion Hin|].
    split; [apply keeps_refl|]. intros w Hw. inversion Hw.
  - simpl in Hunits. rewrite subw_cmplx_cons. unfold floordiv.
    replace (units =? 0) with false by (symmetry; apply Z.eqb_neq; lia).
    assert (Hdu : (Screen.layout_depth unit ≤ depth)%nat)
      by (apply (Hd i); left).
    assert (Hstep :
      (∃ s1 size,
         (if String.eqb orientation "horizontal" then
            available ← Ok ((width - used) / units);
            self0 ← rec self unit top (left + Py.sum (take i sizes)) height
                      available "vertical";
            size ← Screen._subw_layout_size self0 unit "width";
            Ok (self0, size)
          else
            available ← Ok ((height - used) / units);
            self0 ← rec self unit (top + Py.sum (take i sizes)) left available
                      width "horizontal";
            size ← Screen._subw_layout_size self0 unit "height";
            Ok (self0, size)) = Ok (s1, size) ∧
         unit ≠ [] ∧ wellformed unit = true ∧ keeps self s1 ∧
         ∀ x, x ∈ leaves unit → is_Some (Screen.heap s1 !! wid x)) ∨
      ((if String.eqb orientation "horizontal" then
          available ← Ok ((width - used) / units);
          self0 ← rec self unit top (left + Py.sum (take i sizes)) height
                    available "vertical";
          size ← Screen._subw_layout_size self0 unit "width";
          Ok (self0, size)
        else
          available ← Ok ((height - used) / units);
          self0 ← rec self unit (top + Py.sum (take i sizes)) left available
                    width "horizontal";
          size ← Screen._subw_layout_size self0 unit "height";
          Ok (self0, size)) = Raise ValueError ∧
       (unit = [] ∨ wellformed unit = false)) ∨
      (if String.eqb orientation "horizontal" then
         available ← Ok ((width - used) / units);
         self0 ← rec self unit top (left + Py.sum (take i sizes)) height
                   available "vertical";
         size ← Screen._subw_layout_size self0 unit "width";
         Ok (self0, size)
       else
         available ← Ok ((height - used) / units);
         self0 ← rec self unit (top + Py.sum (take i sizes)) left available
                   width "horizontal";
         size ← Screen._subw_layout_size self0 unit "height";
         Ok (self0, size)) = Raise curses_error).
    { destruct (String.eqb orientation "horizontal"); rewrite bind_Ok.
      - destruct (Hrec self unit top (left + Py.sum (take i sizes)) height
                    ((width - used) / units) "vertical" Hdu)
          as [(s1 & -> & Hwf & Hk & Hl)|[[-> Hwf]| ->]];
          [|right; left; auto|right; right; reflexivity].
        rewrite bind_Ok. destruct unit as [|y unit'].
        + right. left. rewrite layout_size_nil by auto. auto.
        + destruct (layout_size_total s1 (y :: unit') "width") as [size Hsz];
            auto; try discriminate.
          left. exists s1, size. rewrite Hsz, bind_Ok.
          split; [reflexivity|]. split; [discriminate|]. auto.
      - destruct (Hrec self unit (top + Py.sum (take i sizes)) left
                    ((height - used) / units) width "horizontal" Hdu)
          as [(s1 & -> & Hwf & Hk & Hl)|[[-> Hwf]| ->]];
          [|right; left; auto|right; right; reflexivity].
        rewrite bind_Ok. destruct unit as [|y unit'].
        + right. left. rewrite layout_size_nil by auto. auto.
        + destruct (layout_size_total s1 (y :: unit') "height") as [size Hsz];
            auto; try discriminate.
          left. exists s1, size. rewrite Hsz, bind_Ok.
          split; [reflexivity|]. split; [discriminate|]. auto. }
    destruct Hstep as [(s1 & size & -> & Hne & Hwf & Hk1 & Hl1)|[[-> Hbad]| ->]].
    + rewrite bind_Ok. simpl.
      destruct (IH s1 (<[i:=size]> sizes) (used + size) (units - 1))
        as [(s2 & sizes2 & used2 & units2 & Hrun & Hgood & Hk2 & Hl2)|
            [[Hrun (j & bad & Hin & Hbad)]|Hrun]].
      * intros j u Hin. apply (Hd j). right. exact Hin.
      * lia.
      * left. exists s2, sizes2, used2, units2. split; [exact Hrun|].
        split.
        -- intros j u Hin. apply elem_of_cons in Hin as [[= -> ->]|Hin];
             [auto|exact (Hgood j u Hin)].
        -- split; [exact (keeps_trans _ _ _ Hk1 Hk2)|].
           intros w Hin. apply elem_of_app in Hin as [Hin|Hin]; [|auto].
           apply Hk2, Hl1, Hin.
      * right. left. split; [exact Hrun|]. exists j, bad.
        split; [right; exact Hin|exact Hbad].
      * right. right. exact Hrun.
    + right. left. split; [reflexivity|]. exists i, unit. split; [left|exact Hbad].
    + right. right. reflexivity.
Qed.

Lemma wellformed_true (layout : list LayoutUnit) :
  (∀ i unit, layout !! i = Some (Sub unit) → unit ≠ [] ∧ wellformed unit = true) →
  wellformed layout = true.
Proof.
  intros H. destruct (wellformed layout) eqn:Hwf; [reflexivity|].
  destruct (wellformed_false layout Hwf) as (i & unit & Hi & Hbad).
  destruct (H i unit Hi) as [Hne Hw]. destruct Hbad; congruence.
Qed.

Lemma subw_body_ends (depth : nat) rec (self : Screen.t)
    (layout : list LayoutUnit) (top left height width : Z) (orientation : string) :
  rec_ends depth rec →
  (Screen.layout_depth layout ≤ S depth)%nat →
  ends self layout
    (Screen._subw_body rec self layout top left height width orientation
     ≫= λ p, Ok p.1).
Proof.
  intros Hrec Hd. unfold Screen._subw_body.
  destruct (subw_immediates_run self orientation height width
              (Screen.immediates_of layout) (replicate (length layout) 0) 0
              (Z.of_nat (length layout)))
    as (sizes1 & Hrun1 & _).
  { pose proof (length_immediates_of layout). lia. }
  { apply NoDup_immediates_of. }
  { intros i Hi. apply list_elem_of_fmap in Hi as ([i' w] & -> & Hin).
    apply elem_of_immediates_of, lookup_lt_Some in Hin.
    rewrite length_replicate. exact Hin. }
  rewrite Hrun1, bind_Ok.
  match goal with |- context [Screen._subw_cmplx _ _ _ _ _ _ _ _ ?sz ?us ?un] =>
    destruct (subw_cmplx_ends depth rec orientation top left height width Hrec
                (Screen.cmplx_of layout) self sz us un)
      as [(s2 & sizes2 & used2 & units2 & Hrun2 & Hgood & Hk2 & Hl2)|
          [[Hrun2 (j & bad & Hin & Hbad)]|Hrun2]] end.
  { intros i unit Hin. apply elem_of_cmplx_of in Hin.
    pose proof (layout_depth_lookup layout i unit Hin). lia. }
  { lia. }
  - rewrite Hrun2, bind_Ok.
    destruct (subw_setup_outcome orientation top left height width sizes2
                (Screen.immediates_of layout) s2)
      as [(s3 & Hs3 & Hk3 & Hl3)|Hs3].
    + left. exists s3. rewrite Hs3. split; [reflexivity|]. split.
      * apply wellformed_true. intros i unit Hi.
        apply (Hgood i), elem_of_cmplx_of, Hi.
      * split; [exact (keeps_trans _ _ _ Hk2 Hk3)|].
        intros w Hw. apply elem_of_leaves in Hw as (x & Hx & Hw).
        apply list_elem_of_lookup in Hx as [i Hx]. destruct x as [w'|l].
        -- apply list_elem_of_singleton in Hw as ->. apply Hl3.
           apply list_elem_of_fmap. exists (i, w'). split; [reflexivity|].
           apply elem_of_immediates_of. exact Hx.
        -- apply Hk3, Hl2, elem_of_cmplx_leaves. exists i, l.
           split; [apply elem_of_cmplx_of; exact Hx|exact Hw].
    + right. right. rewrite Hs3. reflexivity.
  - right. left. rewrite Hrun2. split; [reflexivity|].
    destruct (wellformed layout) eqn:Hwf; [|reflexivity].
    apply elem_of_cmplx_of in Hin.
    destruct (wellformed_lookup layout j bad Hwf Hin) as [Hne Hw].
    destruct Hbad; congruence.
  - right. right. rewrite Hrun2. reflexivity.
Qed.

(** [_subw], on a layout nested no deeper than its depth, ends in one of
    the three ways. *)
Lemma subw_ends (depth : nat) : rec_ends depth (Screen._subw depth).
Proof.
  induction depth as [|depth IH]; intros self unit t l h w o Hd.
  - unfold Screen.layout_depth in Hd. simpl in Hd. lia.
  - pose proof (subw_body_ends depth (Screen._subw depth) self unit t l h w o
                  IH Hd) as H.
    simpl.
    replace (Screen._subw_body (Screen._subw depth) self unit t l h w o
             ≫= (λ '(self0, _), Ok self0))
      with (Screen._subw_body (Screen._subw depth) self unit t l h w o
            ≫= λ p, Ok p.1); [exact H|].
    destruct (Screen._subw_body _ _ _ _ _ _ _ _) as [[s sizes]|]; reflexivity.
Qed.

(** X3. Given the depth its layout is nested to, [_subw] ends in one of
    three ways.  It returns: then no sublist of the layout is empty, every
    window of the layout is set up and the windows set up before are kept.
    It raises [ValueError], the [max] of no sizes: then the layout has an
    empty sublist at some level.  Or it raises [curses.error], which
    [newpad] raises on a window of no column or of a negative height.  No
    division by zero and no other exception comes out of it. *)
Theorem subw_outcome (depth : nat) (self : Screen.t) (layout : list LayoutUnit)
    (top left height width : Z) (orientation : string) :
  (Screen.layout_depth layout ≤ depth)%nat →
  (∃ self',
     Screen._subw depth self layout top left height width orientation
       = Ok self' ∧
     wellformed layout = true ∧
     keeps self self' ∧
     ∀ w, w ∈ leaves layout → is_Some (Screen.heap self' !! wid w)) ∨
  (Screen._subw depth self layout top left height width orientation
     = Raise ValueError ∧
   wellformed layout = false) ∨
  Screen._subw depth self layout top left height width orientation
    = Raise curses_error.
Proof. intros Hd. apply subw_ends, Hd. Qed.

(** An input box above an empty sublist: [ValueError]. *)
Lemma subw_outcome_witness :
  Screen._subw 2 float_screen [Win (greedy 0 "input"); Sub []] 0 0 24 80
    "vertical" = Raise ValueError ∧
  wellformed [Win (greedy 0 "input"); Sub []] = false.
Proof.
  destruct (subw_outcome 2 float_screen [Win (greedy 0 "input"); Sub []] 0 0 24
              80 "vertical") as [(s & H & _)|[H|H]].
  - vm_compute. lia.
  - vm_compute in H. discriminate.
  - exact H.
  - vm_compute in H. discriminate.
Defined.

(** ** Layout: what [_subw] leaves alone *)

Lemma same_registry_refl (s : Screen.t) : same_registry s s.
Proof. destruct s. reflexivity. Qed.

Lemma same_registry_trans (a b c : Screen.t) :
  same_registry a b → same_registry b c → same_registry a c.
Proof.
  unfold same_registry. intros Hab Hbc. rewrite Hbc, Hab at 1.
  destruct a. reflexivity.
Qed.

Lemma same_registry_init (s s' : Screen.t) (ci : Window) (t l h w : Z) :
  Screen._subw_init s ci t l h w = Ok s' → same_registry s s'.
Proof.
  intros H. apply subw_init_inv in H as (_ & _ & ->). destruct s. reflexivity.
Qed.

Section SetUp.

Variable P : nat → WinAttrs → Prop.
Variable s0 : Screen.t.
Hypothesis HP : ∀ s ci t l h w s' a,
  same_registry s0 s →
  Screen._subw_init s ci t l h w = Ok s' →
  Screen.heap s' !! wid ci = Some a →
  P (wid ci) a.

Lemma set_up_refl (s : Screen.t) : set_up_with P s s.
Proof. split; [apply same_registry_refl|]. intros n. left. reflexivity. Qed.

Lemma set_up_trans (a b c : Screen.t) :
  set_up_with P a b → set_up_with P b c → set_up_with P a c.
Proof.
  intros [Hab Hn1] [Hbc Hn2]. split; [eapply same_registry_trans; eauto|].
  intros n. destruct (Hn2 n) as [->|Hc]; [apply Hn1|right; exact Hc].
Qed.

Lemma set_up_init (s s' : Screen.t) (ci : Window) (t l h w : Z) :
  same_registry s0 s →
  Screen._subw_init s ci t l h w = Ok s' →
  set_up_with P s s'.
Proof.
  intros Hs Hinit. split; [exact (same_registry_init _ _ _ _ _ _ _ Hinit)|].
  intros n. destruct (decide (n = wid ci)) as [->|Hne].
  - right. pose proof (HP s ci t l h w s') as H.
    pose proof Hinit as (_ & _ & ->)%subw_init_inv. simpl in *.
    rewrite lookup_insert_eq in *. eauto.
  - left. apply subw_init_inv in Hinit as (_ & _ & ->). simpl.
    rewrite lookup_insert_ne by congruence. reflexivity.
Qed.

Lemma set_up_setup (orientation : string) (top left height width : Z)
    (sizes : list Z) (imms : list (nat * Window)) :
  ∀ s s', same_registry s0 s →
    Screen._subw_setup s orientation top left height width imms sizes = Ok s' →
    set_up_with P s s'.
Proof.
  induction imms as [|[i ci] rest IH]; intros s s' Hs Hrun.
  - injection Hrun as <-. apply set_up_refl.
  - simpl in Hrun.
    match type of Hrun with (?m ≫= _) = _ => destruct m as [s1|] eqn:Hm end;
      [|discriminate].
    rewrite bind_Ok in Hrun.
    assert (H1 : set_up_with P s s1)
      by (destruct (String.eqb orientation "horizontal");
          exact (set_up_init _ _ _ _ _ _ _ Hs Hm)).
    eapply set_up_trans; [exact H1|]. eapply IH; [|exact Hrun].
    eapply same_registry_trans; [exact Hs|apply H1].
Qed.

Lemma set_up_cmplx rec (orientation : string) (top left height width : Z) :
  (∀ self unit t l h w o self',
     same_registry s0 self → rec self unit t l h w o = Ok self' →
     set_up_with P self self') →
  ∀ cmplx s sizes used units s' sizes' used' units',
    same_registry s0 s →
    Screen._subw_cmplx rec s orientation top left height width cmplx
      sizes used units = Ok (s', sizes', used', units') →
    set_up_with P s s'.
Proof.
  intros Hrec. induction cmplx as [|[i unit] rest IH];
    intros s sizes used units s' sizes' used' units' Hs Hrun.
  - simpl in Hrun. injection Hrun as <- _ _ _. apply set_up_refl.
  - rewrite subw_cmplx_cons in Hrun.
    match type of Hrun with (?m ≫= _) = _ => destruct m as [[s1 size]|] eqn:Hm end;
      [|discriminate].
    rewrite bind_Ok in Hrun. simpl in Hrun.
    assert (H1 : set_up_with P s s1).
    { destruct (String.eqb orientation "horizontal");
        (destruct (floordiv _ _) as [av|]; [|discriminate]);
        rewrite bind_Ok in Hm;
        (destruct (rec _ _ _ _ _ _ _) as [sr|] eqn:Hr; [|discriminate]);
        rewrite bind_Ok in Hm;
        (destruct (Screen._subw_layout_size _ _ _); [|discriminate]);
        rewrite bind_Ok in Hm; injection Hm as <- _;
        exact (Hrec _ _ _ _ _ _ _ _ Hs Hr). }
    eapply set_up_trans; [exact H1|].
    eapply IH; [|exact Hrun].
    eapply same_registry_trans; [exact Hs|apply H1].
Qed.

Lemma set_up_body rec (s : Screen.t) (layout : list LayoutUnit)
    (top left height width : Z) (orientation : string) (s' : Screen.t)
    (sizes : list Z) :
  (∀ self unit t l h w o self',
     same_registry s0 self → rec self unit t l h w o = Ok self' →
     set_up_with P self self') →
  same_registry s0 s →
  Screen._subw_body rec s layout top left height width orientation
    = Ok (s', sizes) →
  set_up_with P s s'.
Proof.
  intros Hrec Hs Hrun. unfold Screen._subw_body in Hrun.
  destruct (Screen._subw_immediates _ _ _ _ _ _ _ _) as [[[sz1 u1] n1]|];
    [|discriminate].
  rewrite bind_Ok in Hrun.
  destruct (Screen._subw_cmplx _ _ _ _ _ _ _ _ _ _ _)
    as [[[[s2 sz2] u2] n2]|] eqn:Hc; [|discriminate].
  rewrite bind_Ok in Hrun.
  match type of Hrun with (?m ≫= _) = _ => destruct m as [s3|] eqn:Hset end;
    [|discriminate].
  rewrite bind_Ok in Hrun. injection Hrun as <- _.
  pose proof (set_up_cmplx rec orientation top left height width Hrec
                _ _ _ _ _ _ _ _ _ Hs Hc) as H2.
  eapply set_up_trans; [exact H2|]. eapply set_up_setup; [|exact Hset].
  eapply same_registry_trans; [exact Hs|apply H2].
Qed.

Lemma set_up_subw (depth : nat) :
  ∀ self unit t l h w o self',
    same_registry s0 self →
    Screen._subw depth self unit t l h w o = Ok self' →
    set_up_with P self self'.
Proof.
  induction depth as [|depth IH]; intros self unit t l h w o self' Hs Hrun;
    [discriminate|].
  simpl in Hrun.
  destruct (Screen._subw_body _ _ _ _ _ _ _ _) as [[s1 sizes]|] eqn:Hb;
    [|discriminate].
  rewrite bind_Ok in Hrun. injection Hrun as <-.
  exact (set_up_body _ _ _ _ _ _ _ _ _ _ IH Hs Hb).
Qed.

End SetUp.

(** [_subw] changes nothing of a screen but the windows set up. *)
Lemma subw_same_registry (depth : nat) (self self' : Screen.t)
    (unit : list LayoutUnit) (t l h w : Z) (o : string) :
  Screen._subw depth self unit t l h w o = Ok self' → same_registry self self'.
Proof.
  intros Hrun.
  exact (proj1 (set_up_subw (λ _ _, True) self (λ _ _ _ _ _ _ _ _ _ _ _, I)
                  depth _ _ _ _ _ _ _ _ (same_registry_refl _) Hrun)).
Qed.

(** ** The top level window generator *)

(** The first loop of [subwindows] registers the window types in order,
    the floats apart from the tiles. *)
Lemma subwindows_register (cfg : Config) (wts : list Window) :
  ∀ self, Screen.get_opt self = cfg →
    foldl (λ self w,
             let optname := get_opt_name w in
             let flt := opt_float (Screen.get_opt self) optname in
             if flt then
               Screen.set_windows self (Screen.floats self ++ [w])
                 (Screen.tiles self) (Screen.windows self ++ [w])
             else
               Screen.set_windows self (Screen.floats self)
                 (Screen.tiles self ++ [w]) (Screen.windows self ++ [w]))
          self wts =
    Screen.set_windows self
      (Screen.floats self ++
         filter (λ w, opt_float cfg (get_opt_name w) = true) wts)
      (Screen.tiles self ++
         filter (λ w, opt_float cfg (get_opt_name w) = false) wts)
      (Screen.windows self ++ wts).
Proof.
  induction wts as [|w wts IH]; intros self Hcfg.
  - simpl. rewrite !app_nil_r. destruct self. reflexivity.
  - simpl foldl. rewrite !filter_cons, Hcfg.
    destruct (opt_float cfg (get_opt_name w)) eqn:Hf.
    + rewrite IH by (destruct self; exact Hcfg).
      rewrite decide_True by reflexivity.
      rewrite decide_False by discriminate.
      destruct self. simpl. rewrite <- !app_assoc. reflexivity.
    + rewrite IH by (destruct self; exact Hcfg).
      rewrite decide_False by discriminate.
      rewrite decide_True by reflexivity.
      destruct self. simpl. rewrite <- !app_assoc. reflexivity.
Qed.

(** The screen once [subwindows] has registered its windows. *)
Lemma subwindows_run (self : Screen.t) :
  Screen.subwindows self =
  let s1 :=
    Screen.set_focused
      (Screen.set_windows (Screen.set_heap self ∅) (floats_of self)
         (tiles_of self) (Screen.window_types self)) None in
  fill_layout_result ← Screen.fill_layout s1 (Screen.layout self) (tiles_of self);
  s3 ← Screen._subw (S (Screen.layout_depth fill_layout_result.2))
         fill_layout_result.1 fill_layout_result.2 0 0
         (Screen.height self) (Screen.width self) "vertical";
  s4 ← Screen.subwindows_floats s3 (floats_of self);
  Screen._focus s4 0.
Proof.
  unfold Screen.subwindows.
  rewrite (subwindows_register (Screen.get_opt self))
    by (destruct self; reflexivity).
  cbv zeta.
  match goal with
  | |- Screen.fill_layout ?s _ _ ≫= _ = Screen.fill_layout ?s' _ _ ≫= _ =>
      assert (Hs : s = s') by (destruct self; reflexivity);
      rewrite !Hs; set (s1 := s')
  end.
  change (Screen.tiles s1) with (tiles_of self).
  change (Screen.layout s1) with (Screen.layout self).
  destruct (fill_layout_cases s1 (Screen.layout self) (tiles_of self))
    as [(l & -> & _)|(-> & _)]; [|reflexivity].
  rewrite !bind_Ok. cbn [fst snd].
  change (Screen.height (Screen.set_input_box s1 _)) with (Screen.height self).
  change (Screen.width (Screen.set_input_box s1 _)) with (Screen.width self).
  destruct (Screen._subw _ _ _ _ _ _ _ _) as [s3|] eqn:Hsubw; [|reflexivity].
  rewrite !bind_Ok.
  assert (Hf : Screen.floats s3 = floats_of self).
  { rewrite (subw_same_registry _ _ _ _ _ _ _ _ _ Hsubw).
    destruct self. reflexivity. }
  rewrite Hf. reflexivity.
Qed.

(** [_focus(0)] focuses the last of the tiles and floats, if there is one,
    and never fails. *)
Lemma focus_zero (s : Screen.t) :
  ∃ msg,
    Screen._focus s 0 =
    Ok (Screen.log_debug
          (Screen.set_focused s
             (from_option Some (Screen.focused s)
                (last (Screen.tiles s ++ Screen.floats s)))) msg).
Proof.
  unfold Screen._focus.
  rewrite length_reverse.
  destruct (Screen.tiles s ++ Screen.floats s) as [|w l] eqn:Hl using rev_ind.
  - simpl. eexists. destruct s. reflexivity.
  - rewrite length_app. simpl length.
    replace ((-1 * Z.of_nat (length l + 1) <? 0) &&
             (0 <? Z.of_nat (length l + 1))) with true
      by (symmetry; apply andb_true_iff; split; apply Z.ltb_lt; lia).
    unfold Py.index. simpl. rewrite reverse_app. simpl.
    rewrite last_snoc. simpl. eexists. reflexivity.
Qed.

(** The loop over the floats returns or raises [curses.error]. *)
Lemma subwindows_floats_cases (fs : list Window) :
  ∀ s, (∃ s', Screen.subwindows_floats s fs = Ok s') ∨
       Screen.subwindows_floats s fs = Raise curses_error.
Proof.
  induction fs as [|f fs IH]; intros s; [left; exists s; reflexivity|].
  simpl. unfold Screen.subwindows_float.
  destruct (subw_init_cases s f (Screen.float_region s f).1.1.1
              (Screen.float_region s f).1.1.2 (Screen.float_region s f).1.2
              (Screen.float_region s f).2) as [[s1 ->]| ->];
    [|right; reflexivity].
  rewrite bind_Ok. apply IH.
Qed.

Section Floats.

Variable P : nat → WinAttrs → Prop.
Variable s0 : Screen.t.
Hypothesis HP : ∀ s ci t l h w s' a,
  same_registry s0 s →
  Screen._subw_init s ci t l h w = Ok s' →
  Screen.heap s' !! wid ci = Some a →
  P (wid ci) a.

(** The loop of [subwindows] over the floats, when it returns, has set
    each of them up. *)
Lemma set_up_floats (fs : list Window) :
  ∀ s s', same_registry s0 s →
    Screen.subwindows_floats s fs = Ok s' →
    set_up_with P s s' ∧
    keeps s s' ∧
    ∀ f, f ∈ fs → is_Some (Screen.heap s' !! wid f).
Proof.
  induction fs as [|f fs IH]; intros s s' Hs Hrun.
  - injection Hrun as <-. split; [apply set_up_refl|].
    split; [apply keeps_refl|]. intros f Hf. inversion Hf.
  - simpl in Hrun.
    destruct (Screen.subwindows_float s f) as [s1|] eqn:Hm; [|discriminate].
    rewrite bind_Ok in Hrun. unfold Screen.subwindows_float in Hm.
    pose proof (set_up_init P s0 HP _ _ _ _ _ _ _ Hs Hm) as H1.
    destruct (subw_init_keeps _ _ _ _ _ _ _ Hm) as [Hk1 Hin1].
    destruct (IH s1 s') as (H2 & Hk2 & Hin2); [|exact Hrun|].
    { eapply same_registry_trans; [exact Hs|apply H1]. }
    split; [eapply set_up_trans; eauto|]. split.
    + exact (keeps_trans _ _ _ Hk1 Hk2).
    + intros f' Hf'. apply elem_of_cons in Hf' as [->|Hf']; [|auto].
      apply Hk2, Hin1.
Qed.

End Floats.

Lemma wellformed_app (l1 l2 : list LayoutUnit) :
  wellformed (l1 ++ l2) = wellformed l1 && wellformed l2.
Proof. unfold wellformed. apply forallb_app. Qed.

Lemma wellformed_Win (ws : list Window) : wellformed (Win <$> ws) = true.
Proof. induction ws as [|w ws IH]; [reflexivity|exact IH]. Qed.

Lemma wellformed_placed (ws : list Window) : wellformed (placed <$> ws) = true.
Proof.
  induction ws as [|w ws IH]; [reflexivity|].
  change (placed <$> w :: ws) with ([placed w] ++ (placed <$> ws)).
  rewrite wellformed_app, IH, andb_true_r. unfold placed.
  destruct (String.eqb (get_opt_name w) "taglist"); reflexivity.
Qed.

(** The layout of the tiles has an empty sublist exactly when its one
    sublist, the whole of "vstack" and the middle of the default layout, has
    no window. *)
Lemma wellformed_vstack (ws : list Window) :
  wellformed [Sub (Win <$> ws)] = match ws with [] => false | _ => true end.
Proof.
  destruct ws as [|w ws]; [reflexivity|].
  change (wellformed (Win <$> w :: ws) && true = true).
  rewrite wellformed_Win. reflexivity.
Qed.

Lemma wellformed_default (tops middle bottoms : list Window) :
  wellformed ((placed <$> tops) ++ [Sub (placed <$> middle)] ++
              (placed <$> bottoms)) =
  match middle with [] => false | _ => true end.
Proof.
  rewrite !wellformed_app, !wellformed_placed, andb_true_r. simpl.
  destruct middle as [|w m]; [reflexivity|].
  change (wellformed (placed <$> w :: m) && true = true).
  rewrite wellformed_placed. reflexivity.
Qed.

(** [_subw] lays the empty layout out without setting anything up. *)
Lemma subw_nil (depth : nat) (self : Screen.t) (t l h w : Z) (o : string) :
  Screen._subw (S depth) self [] t l h w o = Ok self.
Proof. reflexivity. Qed.

(** With no tile, "vstack" has [_subw] measure the empty sublist. *)
Lemma subw_vstack_nil (self : Screen.t) (t l h w : Z) :
  Screen._subw (S (Screen.layout_depth [Sub []])) self [Sub []] t l h w
    "vertical" = Raise ValueError.
Proof. reflexivity. Qed.

Lemma fill_layout_vstack_nil (self : Screen.t) :
  Screen.fill_layout self "vstack" [] =
  Ok (Screen.set_input_box self None, [Sub []]).
Proof. reflexivity. Qed.

(** How [subwindows] ends once the layout of its tiles is known. *)
Lemma subwindows_end (self : Screen.t) (l : list LayoutUnit) :
  Screen.fill_layout
    (Screen.set_focused
       (Screen.set_windows (Screen.set_heap self ∅) (floats_of self)
          (tiles_of self) (Screen.window_types self)) None)
    (Screen.layout self) (tiles_of self)
  = Ok (Screen.set_input_box
          (Screen.set_focused
             (Screen.set_windows (Screen.set_heap self ∅) (floats_of self)
                (tiles_of self) (Screen.window_types self)) None)
          (head (filter (λ w, is_input w = true) (tiles_of self))), l) →
  ((∃ self', Screen.subwindows self = Ok self') ∧ wellformed l = true) ∨
  (Screen.subwindows self = Raise ValueError ∧ wellformed l = false) ∨
  Screen.subwindows self = Raise curses_error.
Proof.
  intros Hfill. rewrite subwindows_run. cbv zeta. rewrite Hfill, bind_Ok.
  cbn [fst snd].
  match goal with |- context [Screen._subw ?d ?s l ?t ?le ?h ?w ?o] =>
    destruct (subw_ends d s l t le h w o) as [(s3 & -> & Hwf & _)|[[-> Hwf]| ->]]
  end; [lia| |right; left; auto|right; right; reflexivity].
  rewrite bind_Ok.
  destruct (subwindows_floats_cases (floats_of self) s3) as [[s4 ->]| ->];
    [|right; right; reflexivity].
  rewrite bind_Ok. destruct (focus_zero s4) as [msg ->]. left. eauto.
Qed.

(** X4. How [subwindows] ends, by the layout and the alignments of the
    tiles.  Where it can return it can also raise [curses.error], which
    comes from [newpad] on a window of no column or of a negative height.
    With "hstack" it returns or raises [curses.error].  With "vstack" it
    raises [ValueError] when there is no tile, and returns or raises
    [curses.error] when there is one.  With any other layout it raises
    [KeyError] when some tile has an alignment other than top, bottom,
    left, right and neutral; otherwise, when no tile is aligned left,
    neutral or right it raises [ValueError] or [curses.error] and never
    returns, and when one is it returns or raises [curses.error]. *)
Theorem subwindows_outcome (self : Screen.t) :
  (Screen.layout self = "hstack" →
   (∃ self', Screen.subwindows self = Ok self') ∨
   Screen.subwindows self = Raise curses_error) ∧
  (Screen.layout self = "vstack" →
   match tiles_of self with
   | [] => Screen.subwindows self = Raise ValueError
   | _ => (∃ self', Screen.subwindows self = Ok self') ∨
          Screen.subwindows self = Raise curses_error
   end) ∧
  (Screen.layout self ≠ "hstack" → Screen.layout self ≠ "vstack" →
   ((∃ w, w ∈ tiles_of self ∧
       opt_align (Screen.get_opt self) (get_opt_name w) ∉ tiled_alignments) →
    Screen.subwindows self = Raise KeyError) ∧
   ((∀ w, w ∈ tiles_of self →
       opt_align (Screen.get_opt self) (get_opt_name w) ∈ tiled_alignments) →
    match aligned self "left" (tiles_of self) ++
          aligned self "neutral" (tiles_of self) ++
          aligned self "right" (tiles_of self) with
    | [] => Screen.subwindows self = Raise ValueError ∨
            Screen.subwindows self = Raise curses_error
    | _ => (∃ self', Screen.subwindows self = Ok self') ∨
           Screen.subwindows self = Raise curses_error
    end)).
Proof.
  set (s1 := Screen.set_focused
               (Screen.set_windows (Screen.set_heap self ∅) (floats_of self)
                  (tiles_of self) (Screen.window_types self)) None).
  split; [|split].
  - intros Hl.
    destruct (subwindows_end self (Win <$> tiles_of self))
      as [[H _]|[[_ H]|H]]; [rewrite Hl; reflexivity|auto| |auto].
    rewrite wellformed_Win in H. discriminate.
  - intros Hl. destruct (tiles_of self) as [|w ws] eqn:Ht.
    + rewrite subwindows_run. cbv zeta. rewrite Hl, Ht.
      rewrite fill_layout_vstack_nil, bind_Ok. cbn [fst snd]. rewrite subw_vstack_nil. reflexivity.
    + destruct (subwindows_end self [Sub (Win <$> tiles_of self)])
        as [[H _]|[[_ H]|H]]; [rewrite Hl; reflexivity|auto| |auto].
      rewrite wellformed_vstack, Ht in H. discriminate.
  - intros Hh Hv. split.
    + intros (w & Hin & Hw). rewrite subwindows_run. cbv zeta. fold s1.
      destruct (fill_layout_cases s1 (Screen.layout self) (tiles_of self))
        as [(l & _ & _ & [[?|?]|Hal])|(-> & _)]; [congruence..| |reflexivity].
      exfalso. apply Hw, (Hal w Hin).
    + intros Hal.
      pose proof (fill_layout_default_run s1 (Screen.layout self)
                    (tiles_of self) Hh Hv Hal) as Hfill.
      pose proof (subwindows_end self _ Hfill) as H.
      rewrite wellformed_default in H.
      change (aligned s1) with (aligned self) in H.
      destruct (aligned self "left" (tiles_of self) ++
                aligned self "neutral" (tiles_of self) ++
                aligned self "right" (tiles_of self)).
      * destruct H as [[_ H]|[[H _]|H]]; [discriminate|auto..].
      * destruct H as [[H _]|[[_ H]|H]]; [auto|discriminate|auto].
Qed.

(** A screen whose one window is the input box, aligned bottom, as when the
    tag list has died. *)
Lemma subwindows_outcome_witness :
  Screen.subwindows lone_input = Raise ValueError.
Proof.
  destruct (subwindows_outcome lone_input) as (_ & _ & H).
  destruct H as [_ H]; [discriminate..|].
  destruct H as [H|H].
  - intros w Hw. vm_compute in Hw.
    apply list_elem_of_singleton in Hw as ->. vm_compute. repeat constructor.
  - exact H.
  - vm_compute in H. discriminate.
Defined.

(** What [subwindows] has done when it returns: the screen it laid the
    tiles of [l] out on, then the floats, then the focus. *)
Lemma subwindows_Ok (self self' : Screen.t) :
  Screen.subwindows self = Ok self' →
  let s2 :=
    Screen.set_input_box
      (Screen.set_focused
         (Screen.set_windows (Screen.set_heap self ∅) (floats_of self)
            (tiles_of self) (Screen.window_types self)) None)
      (head (filter (λ w, is_input w = true) (tiles_of self))) in
  ∃ l s3 s4 msg,
    leaves l ≡ₚ tiles_of self ∧
    Screen._subw (S (Screen.layout_depth l)) s2 l 0 0 (Screen.height self)
      (Screen.width self) "vertical" = Ok s3 ∧
    (∀ w, w ∈ tiles_of self → is_Some (Screen.heap s3 !! wid w)) ∧
    Screen.subwindows_floats s3 (floats_of self) = Ok s4 ∧
    self' =
      Screen.log_debug
        (Screen.set_focused s4 (last (tiles_of self ++ floats_of self))) msg.
Proof.
  intros Hrun s2. rewrite subwindows_run in Hrun. cbv zeta in Hrun.
  destruct (fill_layout_cases
              (Screen.set_focused
                 (Screen.set_windows (Screen.set_heap self ∅) (floats_of self)
                    (tiles_of self) (Screen.window_types self)) None)
              (Screen.layout self) (tiles_of self))
    as [(l & Hfill & Hperm & _)|(Hfill & _)];
    rewrite Hfill in Hrun; [|discriminate].
  rewrite bind_Ok in Hrun. cbn [fst snd] in Hrun. fold s2 in Hrun.
  destruct (Screen._subw _ _ _ _ _ _ _ _) as [s3|] eqn:Hsubw; [|discriminate].
  rewrite bind_Ok in Hrun.
  destruct (Screen.subwindows_floats s3 (floats_of self)) as [s4|] eqn:Hfl;
    [|discriminate].
  rewrite bind_Ok in Hrun.
  assert (Hin : ∀ w, w ∈ leaves l → is_Some (Screen.heap s3 !! wid w)).
  { destruct (subw_ends (S (Screen.layout_depth l)) s2 l 0 0
                (Screen.height self) (Screen.width self) "vertical")
      as [(s3' & Hs3 & _ & _ & Hin)|[[Hs3 _]|Hs3]]; [lia| | |];
      rewrite Hsubw in Hs3; [|discriminate..].
    injection Hs3 as <-. exact Hin. }
  pose proof (subw_same_registry _ _ _ _ _ _ _ _ _ Hsubw) as Hr3.
  destruct (set_up_floats (λ _ _, True) s2 (λ _ _ _ _ _ _ _ _ _ _ _, I)
              (floats_of self) s3 s4 Hr3 Hfl) as ([Hr4 _] & _ & _).
  destruct (focus_zero s4) as [msg Hfocus]. rewrite Hfocus in Hrun.
  injection Hrun as <-.
  exists l, s3, s4, msg. split; [exact Hperm|]. split; [exact Hsubw|]. split.
  - intros w Hw. apply Hin. rewrite Hperm. exact Hw.
  - split; [exact Hfl|].
    pose proof (same_registry_trans _ _ _ Hr3 Hr4) as Hr.
    assert (Ht : Screen.tiles s4 = tiles_of self) by (rewrite Hr; reflexivity).
    assert (Hf : Screen.floats s4 = floats_of self) by (rewrite Hr; reflexivity).
    assert (Hn : Screen.focused s4 = None) by (rewrite Hr; reflexivity).
    rewrite Ht, Hf, Hn.
    destruct (last (tiles_of self ++ floats_of self)); reflexivity.
Qed.

(** The windows [subwindows] registers, and the focus it leaves. *)
Lemma subwindows_registry_run (self self' : Screen.t) :
  Screen.subwindows self = Ok self' →
  Screen.window_types self' = Screen.window_types self ∧
  Screen.windows self' = Screen.window_types self ∧
  Screen.tiles self' = tiles_of self ∧
  Screen.floats self' = floats_of self ∧
  Screen.input_box self' =
    head (filter (λ w, is_input w = true) (tiles_of self)) ∧
  Screen.focused self' = last (tiles_of self ++ floats_of self).
Proof.
  intros Hrun.
  destruct (subwindows_Ok self self' Hrun)
    as (l & s3 & s4 & msg & _ & Hsubw & _ & Hfl & ->).
  pose proof (subw_same_registry _ _ _ _ _ _ _ _ _ Hsubw) as Hr3.
  destruct (set_up_floats (λ _ _, True) _ (λ _ _ _ _ _ _ _ _ _ _ _, I)
              (floats_of self) s3 s4 Hr3 Hfl) as ([Hr4 _] & _ & _).
  pose proof (same_registry_trans _ _ _ Hr3 Hr4) as Hr.
  simpl. rewrite Hr. simpl. auto 10.
Qed.

(** X5. When [subwindows] returns, there is one window per window type, in
    the order of the types; the floats are the windows configured to float
    and the tiles are the others, both in that order; the input box is the
    first tile that is an input; and the focus is on the last float, or on
    the last tile when nothing floats, whatever was focused before. *)
Theorem subwindows_registry (self self' : Screen.t) :
  Screen.subwindows self = Ok self' →
  Screen.window_types self' = Screen.window_types self ∧
  Screen.windows self' = Screen.window_types self ∧
  Screen.tiles self' = tiles_of self ∧
  Screen.floats self' = floats_of self ∧
  Screen.input_box self' =
    head (filter (λ w, is_input w = true) (tiles_of self)) ∧
  Screen.focused self' = last (tiles_of self ++ floats_of self).
Proof. apply subwindows_registry_run. Qed.

Lemma subwindows_registry_witness :
  ∃ self',
    Screen.subwindows float_screen = Ok self' ∧
    Screen.tiles self' = [greedy 0 "taglist"] ∧
    Screen.floats self' = [greedy 1 "float"] ∧
    Screen.focused self' = Some (greedy 1 "float").
Proof.
  eassert (Hrun : Screen.subwindows float_screen = Ok _)
    by (vm_compute; reflexivity).
  eexists. split; [exact Hrun|].
  destruct (subwindows_registry _ _ Hrun) as (_ & _ & Ht & Hf & _ & Hfo).
  rewrite Ht, Hf, Hfo. repeat split.
Defined.

Lemma NoDup_fmap_eq {A B} (f : A → B) (l : list A) (x y : A) :
  NoDup (f <$> l) → x ∈ l → y ∈ l → f x = f y → x = y.
Proof.
  induction l as [|z l IH]; intros Hnd Hx Hy Hf; [inversion Hx|].
  rewrite fmap_cons in Hnd. apply NoDup_cons in Hnd as [Hz Hnd].
  apply elem_of_cons in Hx as [->|Hx]; apply elem_of_cons in Hy as [->|Hy].
  - reflexivity.
  - exfalso. apply Hz. rewrite Hf. apply list_elem_of_fmap. eauto.
  - exfalso. apply Hz. rewrite <- Hf. apply list_elem_of_fmap. eauto.
  - auto.
Qed.

(** Among window types of distinct identities, a window is among the floats
    exactly when it is configured to float. *)
Lemma window_in_floats (self : Screen.t) (w : Window) :
  NoDup (wid <$> Screen.window_types self) →
  w ∈ Screen.window_types self →
  existsb (λ f, Nat.eqb (wid f) (wid w)) (floats_of self) =
  opt_float (Screen.get_opt self) (get_opt_name w).
Proof.
  intros Hnd Hw.
  destruct (opt_float (Screen.get_opt self) (get_opt_name w)) eqn:Hf.
  - apply existsb_exists. exists w. split; [|apply Nat.eqb_refl].
    apply list_elem_of_In, list_elem_of_filter. auto.
  - apply not_true_is_false. intros Hex.
    apply existsb_exists in Hex as (f & Hin & Heq).
    apply list_elem_of_In, list_elem_of_filter in Hin as [Hff Hin].
    apply Nat.eqb_eq in Heq.
    rewrite (NoDup_fmap_eq wid _ f w Hnd Hin Hw Heq) in Hff. congruence.
Qed.

(** X6. When [subwindows] returns, with window types of distinct
    identities, every window has been set up with a pad and callbacks, and
    its [floating] callback tells whether the window is configured to
    float. *)
Theorem subwindows_sets_up (self self' : Screen.t) :
  NoDup (wid <$> Screen.window_types self) →
  Screen.subwindows self = Ok self' →
  ∀ w, w ∈ Screen.window_types self →
    ∃ a, Screen.heap self' !! wid w = Some a ∧
         cb_floating (callbacks a) =
           opt_float (Screen.get_opt self) (get_opt_name w).
Proof.
  intros Hnd Hrun w Hw.
  destruct (subwindows_Ok self self' Hrun)
    as (l & s3 & s4 & msg & _ & Hsubw & Htiles & Hfloats & ->).
  set (s2 := Screen.set_input_box _ _) in Hsubw.
  assert (HP : ∀ s ci t l h w s' a,
            same_registry s2 s →
            Screen._subw_init s ci t l h w = Ok s' →
            Screen.heap s' !! wid ci = Some a →
            floating_ok s2 (wid ci) a).
  { intros s ci t0 l0 h0 w0 s' a Hs Hinit Ha.
    apply subw_init_inv in Hinit as (_ & _ & ->).
    simpl in Ha. rewrite lookup_insert_eq in Ha. injection Ha as <-.
    unfold floating_ok. simpl. rewrite Hs. reflexivity. }
  pose proof (set_up_subw (floating_ok s2) s2 HP _ _ _ _ _ _ _ _ _
                (same_registry_refl _) Hsubw) as H3.
  destruct (set_up_floats (floating_ok s2) s2 HP (floats_of self) s3 s4
              (proj1 H3) Hfloats) as (H4 & Hk4 & Hfl).
  pose proof (set_up_trans _ _ _ _ H3 H4) as [_ Hall].
  assert (Hin : is_Some (Screen.heap s4 !! wid w)).
  { destruct (opt_float (Screen.get_opt self) (get_opt_name w)) eqn:Hf.
    - apply Hfl, list_elem_of_filter. auto.
    - apply Hk4, Htiles, list_elem_of_filter. auto. }
  destruct Hin as [a Ha]. exists a. split; [exact Ha|].
  destruct (Hall (wid w)) as [Hsame|(a' & Ha' & Hfo)].
  - rewrite Ha in Hsame. discriminate.
  - rewrite Ha in Ha'. injection Ha' as <-.
    rewrite <- (window_in_floats self w Hnd Hw). exact Hfo.
Qed.

Lemma subwindows_sets_up_witness :
  ∃ self' a,
    Screen.subwindows float_screen = Ok self' ∧
    Screen.heap self' !! 1%nat = Some a ∧ cb_floating (callbacks a) = true.
Proof.
  eassert (Hrun : Screen.subwindows float_screen = Ok _)
    by (vm_compute; reflexivity).
  destruct (subwindows_sets_up float_screen _
              ltac:(vm_compute; repeat constructor; rewrite ?elem_of_cons, ?elem_of_nil;
                    intuition discriminate) Hrun
              (greedy 1 "float") ltac:(right; left))
    as (a & Ha & Hf).
  eexists _, a. split; [exact Hrun|]. split; [exact Ha|exact Hf].
Defined.

(** ** Layout: windows side by side *)

Lemma immediates_of_Win_from (n : nat) (ws : list Window) :
  omap (λ p : nat * LayoutUnit,
          match p.2 with Win w => Some (p.1, w) | Sub _ => None end)
       (enumerate_from n (Win <$> ws)) = enumerate_from n ws.
Proof.
  revert n. induction ws as [|w ws IH]; intros n; [reflexivity|].
  simpl. unfold omap in *. simpl. rewrite IH. reflexivity.
Qed.

Lemma cmplx_of_Win_from (n : nat) (ws : list Window) :
  omap (λ p : nat * LayoutUnit,
          match p.2 with Win _ => None | Sub l => Some (p.1, l) end)
       (enumerate_from n (Win <$> ws)) = [].
Proof.
  revert n. induction ws as [|w ws IH]; intros n; [reflexivity|].
  simpl. unfold omap in *. simpl. apply IH.
Qed.

Lemma enumerate_from_lookup {A} (n : nat) (l : list A) (k : nat) :
  enumerate_from n l !! k = (λ x, ((n + k)%nat, x)) <$> l !! k.
Proof.
  revert n k. induction l as [|x l IH]; intros n k; [reflexivity|].
  destruct k as [|k]; simpl.
  - rewrite Nat.add_0_r. reflexivity.
  - rewrite IH. replace (S n + k)%nat with (n + S k)%nat by lia. reflexivity.
Qed.

Lemma enumerate_from_fst {A} (n : nat) (l : list A) :
  (enumerate_from n l).*1 = seq n (length l).
Proof.
  revert n. induction l as [|x l IH]; intros n; [reflexivity|].
  simpl. rewrite IH. reflexivity.
Qed.

Lemma enumerate_from_snd {A} (n : nat) (l : list A) :
  (enumerate_from n l).*2 = l.
Proof.
  revert n. induction l as [|x l IH]; intros n; [reflexivity|].
  simpl. rewrite IH. reflexivity.
Qed.

(** The region [_subw_init] sets a window up with. *)
Lemma region_of_init (s s' : Screen.t) (ci : Window) (t l h w : Z) :
  Screen._subw_init s ci t l h w = Ok s' →
  region_of s' (wid ci) = Some (t, l, h, w).
Proof.
  intros (_ & _ & ->)%subw_init_inv.
  unfold region_of. simpl. rewrite lookup_insert_eq. simpl.
  do 4 f_equal. lia.
Qed.

Lemma region_of_init_ne (s s' : Screen.t) (ci : Window) (t l h w : Z) (n : nat) :
  n ≠ wid ci →
  Screen._subw_init s ci t l h w = Ok s' →
  region_of s' n = region_of s n.
Proof.
  intros Hne (_ & _ & ->)%subw_init_inv. unfold region_of. simpl.
  rewrite lookup_insert_ne by congruence. reflexivity.
Qed.

(** The third loop leaves the windows it does not set up as they are. *)
Lemma subw_setup_other (orientation : string) (top left height width : Z)
    (sizes : list Z) (imms : list (nat * Window)) (n : nat) :
  ∀ s s', n ∉ wid <$> imms.*2 →
    Screen._subw_setup s orientation top left height width imms sizes = Ok s' →
    region_of s' n = region_of s n.
Proof.
  induction imms as [|[i ci] rest IH]; intros s s' Hn Hrun.
  - injection Hrun as <-. reflexivity.
  - simpl in Hn. apply not_elem_of_cons in Hn as [Hne Hn]. simpl in Hrun.
    match type of Hrun with (?m ≫= _) = _ => destruct m as [s1|] eqn:Hm end;
      [|discriminate].
    rewrite bind_Ok in Hrun. rewrite (IH _ _ Hn Hrun).
    destruct (String.eqb orientation "horizontal");
      exact (region_of_init_ne _ _ _ _ _ _ _ _ Hne Hm).
Qed.

(** The third loop sets each window up at the offset its predecessors'
    sizes add up to, with its own size. *)
Lemma subw_setup_region (orientation : string) (top left height width : Z)
    (sizes : list Z) (imms : list (nat * Window)) :
  ∀ s s', NoDup (wid <$> imms.*2) →
    Screen._subw_setup s orientation top left height width imms sizes = Ok s' →
    ∀ i ci, (i, ci) ∈ imms →
      region_of s' (wid ci) =
      Some (if String.eqb orientation "horizontal"
            then (top, left + Py.sum (take i sizes), height,
                  default 0 (sizes !! i))
            else (top + Py.sum (take i sizes), left,
                  default 0 (sizes !! i), width)).
Proof.
  induction imms as [|[j cj] rest IH]; intros s s' Hnd Hrun i ci Hin;
    [inversion Hin|].
  simpl in Hnd. apply NoDup_cons in Hnd as [Hj Hnd]. simpl in Hrun.
  match type of Hrun with (?m ≫= _) = _ => destruct m as [s1|] eqn:Hm end;
    [|discriminate].
  rewrite bind_Ok in Hrun.
  apply elem_of_cons in Hin as [Heq|Hin].
  - injection Heq as -> ->.
    rewrite (subw_setup_other _ _ _ _ _ _ _ _ _ _ Hj Hrun).
    destruct (String.eqb orientation "horizontal");
      exact (region_of_init _ _ _ _ _ _ _ Hm).
  - exact (IH _ _ Hnd Hrun i ci Hin).
Qed.

(** The third loop raises [curses.error] at the first size that [newpad]
    does not take. *)
Lemma subw_setup_Raise (orientation : string) (top left H W : Z)
    (sizes : list Z) (imms : list (nat * Window)) :
  ¬ Forall (λ p, takes orientation H W (default 0 (sizes !! p.1))) imms →
  ∀ self,
    Screen._subw_setup self orientation top left H W imms sizes
    = Raise curses_error.
Proof.
  induction imms as [|[i ci] rest IH]; intros Hbad self.
  - exfalso. apply Hbad. constructor.
  - simpl. destruct (String.eqb orientation "horizontal") eqn:Ho.
    + destruct (subw_init_cases self ci top (left + Py.sum (take i sizes)) H
                  (default 0 (sizes !! i))) as [[s1 Hs1]|Hr];
        [|rewrite Hr; reflexivity].
      rewrite Hs1, bind_Ok. apply IH. intros Hrest. apply Hbad.
      constructor; [|exact Hrest]. unfold takes. simpl. rewrite Ho.
      apply subw_init_inv in Hs1 as (? & ? & _). split; assumption.
    + destruct (subw_init_cases self ci (top + Py.sum (take i sizes)) left
                  (default 0 (sizes !! i)) W) as [[s1 Hs1]|Hr];
        [|rewrite Hr; reflexivity].
      rewrite Hs1, bind_Ok. apply IH. intros Hrest. apply Hbad.
      constructor; [|exact Hrest]. unfold takes. simpl. rewrite Ho.
      apply subw_init_inv in Hs1 as (? & ? & _). split; assumption.
Qed.

(** A property of every size is one of the size at every index. *)
Lemma Forall_enumerate (P : Z → Prop) (sizes : list Z) (ws : list Window) :
  length sizes = length ws →
  Forall P sizes ↔
  Forall (λ p : nat * Window, P (default 0 (sizes !! p.1))) (enumerate_from 0 ws).
Proof.
  intros Hlen. rewrite !Forall_lookup. split.
  - intros HF k [i w] Hk. rewrite enumerate_from_lookup in Hk.
    destruct (ws !! k) as [w'|] eqn:Hw; [|discriminate].
    simpl in Hk. injection Hk as <- <-. simpl.
    destruct (lookup_lt_is_Some_2 sizes k) as [size Hs].
    { rewrite Hlen. apply lookup_lt_Some in Hw. exact Hw. }
    rewrite Hs. simpl. exact (HF k size Hs).
  - intros HF k size Hk.
    destruct (lookup_lt_is_Some_2 ws k) as [w Hw].
    { rewrite <- Hlen. apply lookup_lt_Some in Hk. exact Hk. }
    specialize (HF k (k, w)). rewrite enumerate_from_lookup, Hw in HF.
    specialize (HF eq_refl). simpl in HF. rewrite Hk in HF. exact HF.
Qed.

(** [_subw] on a layout without sublists: the sizes are those of the first
    loop.  When [newpad] takes every one of them, every window lies at the
    offset the sizes before it add up to; otherwise [curses.error] comes
    out. *)
Lemma subw_body_flat rec (self : Screen.t) (ws : list Window)
    (top left height width : Z) (orientation : string) :
  NoDup (wid <$> ws) →
  let sizes := flat_sizes self orientation height width ws in
  (Forall (takes orientation height width) sizes →
   ∃ self',
     Screen._subw_body rec self (Win <$> ws) top left height width orientation
       = Ok (self', sizes) ∧
     ∀ k w, ws !! k = Some w →
       ∃ size, sizes !! k = Some size ∧
         region_of self' (wid w) =
         Some (if String.eqb orientation "horizontal"
               then (top, left + Py.sum (take k sizes), height, size)
               else (top + Py.sum (take k sizes), left, size, width))) ∧
  (¬ Forall (takes orientation height width) sizes →
   Screen._subw_body rec self (Win <$> ws) top left height width orientation
     = Raise curses_error).
Proof.
  intros Hnd sizes. unfold Screen._subw_body.
  assert (Himm : Screen.immediates_of (Win <$> ws) = enumerate ws)
    by apply immediates_of_Win_from.
  assert (Hcm : Screen.cmplx_of (Win <$> ws) = [])
    by apply cmplx_of_Win_from.
  rewrite Himm, Hcm, length_fmap.
  destruct (subw_immediates_run self orientation height width (enumerate ws)
              (replicate (length ws) 0) 0 (Z.of_nat (length ws)))
    as (sizes' & Hrun & Hlen & Hk & _).
  { unfold enumerate.
    rewrite <- (length_fmap fst), enumerate_from_fst, length_seq. lia. }
  { unfold enumerate. rewrite enumerate_from_fst. apply NoDup_seq. }
  { intros i Hi. unfold enumerate in Hi.
    rewrite enumerate_from_fst, elem_of_seq in Hi.
    rewrite length_replicate. lia. }
  unfold enumerate in Hk, Hrun. rewrite enumerate_from_snd in Hk, Hrun.
  rewrite Z.sub_0_r in Hk, Hrun.
  fold (flat_sizes self orientation height width ws) in Hk, Hrun.
  fold sizes in Hk, Hrun.
  assert (Hl : length sizes = length ws)
    by (unfold sizes, flat_sizes; apply length_allocate_eq).
  assert (Hsz : sizes' = sizes).
  { apply list_eq. intros k. destruct (ws !! k) as [w|] eqn:Hw.
    - apply (Hk k k w). rewrite enumerate_from_lookup, Hw. reflexivity.
    - apply lookup_ge_None in Hw.
      rewrite (proj2 (lookup_ge_None sizes' k))
        by (rewrite Hlen, length_replicate; exact Hw).
      symmetry. apply lookup_ge_None. rewrite Hl. exact Hw. }
  subst sizes'. unfold enumerate. rewrite Hrun, bind_Ok. simpl.
  rewrite (Forall_enumerate _ sizes ws Hl). split.
  - intros Htakes.
    destruct (subw_setup_Ok orientation top left height width sizes
                (enumerate_from 0 ws) Htakes self) as [self' Hset].
    exists self'. rewrite Hset. split; [reflexivity|]. intros k w Hw.
    assert (Hlt : (k < length sizes)%nat)
      by (rewrite Hl; apply lookup_lt_Some in Hw; exact Hw).
    destruct (lookup_lt_is_Some_2 sizes k Hlt) as [size Hsize].
    exists size. split; [exact Hsize|].
    rewrite (subw_setup_region orientation top left height width sizes
               (enumerate_from 0 ws) self self') with (i := k).
    + rewrite Hsize. reflexivity.
    + rewrite enumerate_from_snd. exact Hnd.
    + exact Hset.
    + apply list_elem_of_lookup. exists k.
      rewrite enumerate_from_lookup, Hw. reflexivity.
  - intros Hbad. rewrite subw_setup_Raise by exact Hbad. reflexivity.
Qed.

(** X7. [_subw] on windows of distinct identities that stand side by side
    in a layout without sublists.  When [newpad] takes the size the first
    loop gives each of them, [_subw] returns and has laid them out without
    gap or overlap: the region of each starts, along the orientation, where
    the sizes of the windows before it add up to, and extends over its own
    size; across the orientation each takes the whole extent.  When some
    size is one [newpad] does not take, [_subw] raises [curses.error]. *)
Theorem subw_flat_regions (depth : nat) (self : Screen.t) (ws : list Window)
    (top left height width : Z) (orientation : string) :
  NoDup (wid <$> ws) →
  let sizes := flat_sizes self orientation height width ws in
  (Forall (takes orientation height width) sizes →
   ∃ self',
     Screen._subw (S depth) self (Win <$> ws) top left height width orientation
       = Ok self' ∧
     ∀ k w, ws !! k = Some w →
       ∃ size, sizes !! k = Some size ∧
         region_of self' (wid w) =
         Some (if String.eqb orientation "horizontal"
               then (top, left + Py.sum (take k sizes), height, size)
               else (top + Py.sum (take k sizes), left, size, width))) ∧
  (¬ Forall (takes orientation height width) sizes →
   Screen._subw (S depth) self (Win <$> ws) top left height width orientation
     = Raise curses_error).
Proof.
  intros Hnd sizes.
  destruct (subw_body_flat (Screen._subw depth) self ws top left height width
              orientation Hnd) as [Hgood Hbad].
  split.
  - intros Htakes. destruct (Hgood Htakes) as (self' & Hbody & Hreg).
    exists self'. split; [|exact Hreg].
    simpl. rewrite Hbody. reflexivity.
  - intros Hno. simpl. rewrite (Hbad Hno). reflexivity.
Qed.

(** Three windows below each other on 30 lines, and side by side on two
    columns, where the first is left without a column. *)
Lemma subw_flat_regions_witness :
  (∃ self',
     Screen._subw 1 tall_screen three_tiles 0 0 30 80 "vertical" = Ok self' ∧
     region_of self' 1 = Some (10, 0, 10, 80) ∧
     region_of self' 2 = Some (20, 0, 10, 80)) ∧
  Screen._subw 1 tall_screen three_tiles 0 0 24 2 "horizontal"
    = Raise curses_error.
Proof.
  assert (Hnd : NoDup (wid <$> [greedy 0 "a"; greedy 1 "b"; greedy 2 "c"])).
  { vm_compute. repeat constructor; rewrite ?elem_of_cons, ?elem_of_nil;
      intuition discriminate. }
  split.
  - destruct (subw_flat_regions O tall_screen
                [greedy 0 "a"; greedy 1 "b"; greedy 2 "c"] 0 0 30 80 "vertical"
                Hnd) as [Hgood _].
    destruct Hgood as (self' & Hrun & Hreg).
    { vm_compute. repeat constructor; discriminate. }
    exists self'. split; [exact Hrun|]. split.
    + destruct (Hreg 1%nat (greedy 1 "b") eq_refl) as (size & Hs & Hr).
      vm_compute in Hs. injection Hs as <-. exact Hr.
    + destruct (Hreg 2%nat (greedy 2 "c") eq_refl) as (size & Hs & Hr).
      vm_compute in Hs. injection Hs as <-. exact Hr.
  - destruct (subw_flat_regions O tall_screen
                [greedy 0 "a"; greedy 1 "b"; greedy 2 "c"] 0 0 24 2 "horizontal"
                Hnd) as [_ Hbad].
    apply Hbad. intros Htakes. vm_compute in Htakes.
    apply Forall_cons in Htakes as [[Hle _] _]. apply Hle. reflexivity.
Defined.

Lemma sum_app (l1 l2 : list Z) : Py.sum (l1 ++ l2) = Py.sum l1 + Py.sum l2.
Proof.
  induction l1 as [|x l1 IH]; [reflexivity|].
  change (Py.sum ((x :: l1) ++ l2)) with (x + Py.sum (l1 ++ l2)).
  rewrite IH, sum_cons. lia.
Qed.

(** A window that takes what it is offered is given its share. *)
Lemma clamp_unconstrained (self : Screen.t) (orientation : string)
    (w : Window) (share : Z) :
  unconstrained self orientation w →
  Spec.clamp share (configured_along self orientation w)
    (requested_along orientation w share) = share.
Proof.
  intros [Hcfg Hreq]. rewrite Hreq. unfold Spec.clamp, truthy in *.
  destruct (configured_along self orientation w) as [c|]; [|lia].
  destruct (c =? 0); [lia|discriminate].
Qed.

(** Windows that take what they are offered use the extent up. *)
Lemma allocate_unconstrained (self : Screen.t) (orientation : string)
    (ws : list Window) :
  ∀ space,
    ws ≠ [] →
    (∀ w, w ∈ ws → unconstrained self orientation w) →
    Py.sum (Spec.allocate (configured_along self orientation)
              (requested_along orientation) space (Z.of_nat (length ws)) ws)
    = space.
Proof.
  induction ws as [|w ws IH]; intros space Hne Hun; [congruence|].
  cbn [Spec.allocate]. cbv zeta.
  rewrite (clamp_unconstrained self orientation w) by (apply Hun; left).
  rewrite sum_cons.
  destruct ws as [|w' ws'].
  - simpl. rewrite Z.div_1_r. lia.
  - replace (Z.of_nat (length (w :: w' :: ws')) - 1)
      with (Z.of_nat (length (w' :: ws'))) by (simpl length; lia).
    rewrite IH; [lia|discriminate|].
    intros x Hx. apply Hun. right. exact Hx.
Qed.

(** Given [lo] for each of them, each gets [lo] at least. *)
Lemma allocate_unconstrained_ge (self : Screen.t) (orientation : string)
    (lo : Z) (ws : list Window) :
  ∀ space,
    (∀ w, w ∈ ws → unconstrained self orientation w) →
    lo * Z.of_nat (length ws) <= space →
    Forall (λ z, lo <= z)
      (Spec.allocate (configured_along self orientation)
         (requested_along orientation) space (Z.of_nat (length ws)) ws).
Proof.
  induction ws as [|w ws IH]; intros space Hun Hspace; [constructor|].
  cbn [Spec.allocate]. cbv zeta.
  rewrite (clamp_unconstrained self orientation w) by (apply Hun; left).
  replace (Z.of_nat (length (w :: ws)) - 1) with (Z.of_nat (length ws))
    by (simpl length; lia).
  assert (Hn : 1 <= Z.of_nat (length (w :: ws))) by (simpl length; lia).
  assert (Hlen : Z.of_nat (length (w :: ws)) = Z.of_nat (length ws) + 1)
    by (simpl length; lia).
  set (n := Z.of_nat (length (w :: ws))) in *.
  pose proof (Z.mul_div_le space n ltac:(lia)) as Hle.
  pose proof (Z.mul_succ_div_gt space n ltac:(lia)) as Hgt.
  assert (Hshare : lo <= space / n) by nia.
  constructor; [exact Hshare|].
  apply IH; [intros x Hx; apply Hun; right; exact Hx|]. nia.
Qed.

Lemma sum_ge (lo : Z) (l : list Z) :
  Forall (λ z, lo <= z) l → lo * Z.of_nat (length l) <= Py.sum l.
Proof.
  induction 1 as [|z l Hz Hl IH]; [simpl; lia|].
  rewrite sum_cons. simpl length. lia.
Qed.

(** X8. Windows of distinct identities that take what they are offered, no
    maximum being configured for them, and that stand side by side in a
    layout without sublists.  When there is room for them, which is a
    column for each and no negative height if they stand side by side, and
    a column and no negative height if they stand below each other, [_subw]
    returns and has given them the whole extent: the last of them ends
    where the extent ends, whatever the remainder of the division.  When
    there is no room, [_subw] raises [curses.error]. *)
Theorem subw_flat_fills (depth : nat) (self : Screen.t) (ws : list Window)
    (last_w : Window) (top left height width : Z) (orientation : string) :
  NoDup (wid <$> ws) →
  (∀ w, w ∈ ws → unconstrained self orientation w) →
  last ws = Some last_w →
  let room :=
    if String.eqb orientation "horizontal"
    then Z.of_nat (length ws) <= width ∧ 0 <= height
    else 0 <= height ∧ 1 <= width in
  (room →
   ∃ self' t l h w,
     Screen._subw (S depth) self (Win <$> ws) top left height width orientation
       = Ok self' ∧
     region_of self' (wid last_w) = Some (t, l, h, w) ∧
     if String.eqb orientation "horizontal"
     then l + w = left + width
     else t + h = top + height) ∧
  (¬ room →
   Screen._subw (S depth) self (Win <$> ws) top left height width orientation
     = Raise curses_error).
Proof.
  intros Hnd Hun Hlast room.
  destruct (subw_body_flat (Screen._subw depth) self ws top left height width
              orientation Hnd) as [Hgood Hbad].
  assert (Hne : ws ≠ []) by (intros ->; discriminate).
  pose proof (allocate_unconstrained self orientation ws
                (extent_along orientation height width) Hne Hun) as Hsum.
  fold (flat_sizes self orientation height width ws) in Hsum.
  set (sizes := flat_sizes self orientation height width ws) in *.
  assert (Hlen : length sizes = length ws)
    by (unfold sizes, flat_sizes; apply length_allocate_eq).
  assert (Hroom : room ↔ Forall (takes orientation height width) sizes).
  { unfold room, takes. unfold extent_along in Hsum.
    destruct (String.eqb orientation "horizontal") eqn:Ho; split.
    - intros [Hw Hh].
      assert (Hall : Forall (λ z, 1 <= z) sizes).
      { apply allocate_unconstrained_ge; [exact Hun|].
        unfold extent_along. rewrite Ho. lia. }
      eapply Forall_impl; [exact Hall|]. simpl. intros z Hz.
      split; [exact Hz|exact Hh].
    - intros Hall. split.
      + pose proof (sum_ge 1 sizes) as Hs. rewrite Hlen, Hsum in Hs.
        rewrite <- (Z.mul_1_l (Z.of_nat (length ws))). apply Hs.
        eapply Forall_impl; [exact Hall|]. simpl. intros z [Hz _]. exact Hz.
      + destruct sizes as [|z sizes']; [destruct ws; [congruence|discriminate]|].
        apply Forall_cons in Hall as [[_ Hh] _]. exact Hh.
    - intros [Hh Hw].
      assert (Hall : Forall (λ z, 0 <= z) sizes).
      { apply allocate_unconstrained_ge; [exact Hun|].
        unfold extent_along. rewrite Ho. lia. }
      eapply Forall_impl; [exact Hall|]. simpl. intros z Hz.
      split; [exact Hz|exact Hw].
    - intros Hall. split.
      + pose proof (sum_ge 0 sizes) as Hs. rewrite Hsum in Hs.
        etransitivity; [|apply Hs]; [lia|].
        eapply Forall_impl; [exact Hall|]. simpl. intros z [Hz _]. exact Hz.
      + destruct sizes as [|z sizes']; [destruct ws; [congruence|discriminate]|].
        apply Forall_cons in Hall as [[_ Hw] _]. exact Hw. }
  split.
  - intros Hr. apply Hroom in Hr.
    destruct (Hgood Hr) as (self' & Hbody & Hreg).
    rewrite last_lookup in Hlast.
    destruct (Hreg _ _ Hlast) as (size & Hsize & Hrg).
    assert (Hsplit : Py.sum sizes =
                     Py.sum (take (Nat.pred (length ws)) sizes) + size).
    { rewrite <- (take_drop (Nat.pred (length ws)) sizes) at 1.
      rewrite (drop_S _ size _ Hsize), drop_ge by lia.
      rewrite sum_app, sum_cons. simpl. lia. }
    unfold extent_along in Hsum.
    destruct (String.eqb orientation "horizontal") eqn:Ho.
    + eexists self', _, _, _, _. split; [simpl; rewrite Hbody; reflexivity|].
      split; [exact Hrg|]. lia.
    + eexists self', _, _, _, _. split; [simpl; rewrite Hbody; reflexivity|].
      split; [exact Hrg|]. lia.
  - intros Hno. simpl. rewrite Hbad; [reflexivity|].
    intros Hall. apply Hno, Hroom, Hall.
Qed.

(** Three windows on 31 lines: the last gets the eleven that remain.  On
    two columns there is no room for them side by side. *)
Lemma subw_flat_fills_witness :
  (∃ self',
     Screen._subw 1 tall_screen
       [Win (greedy 0 "a"); Win (greedy 1 "b"); Win (greedy 2 "c")] 0 0 31 80
       "vertical" = Ok self' ∧
     region_of self' 2 = Some (20, 0, 11, 80)) ∧
  Screen._subw 1 tall_screen
    [Win (greedy 0 "a"); Win (greedy 1 "b"); Win (greedy 2 "c")] 0 0 24 2
    "horizontal" = Raise curses_error.
Proof.
  assert (Hnd : NoDup (wid <$> [greedy 0 "a"; greedy 1 "b"; greedy 2 "c"])).
  { vm_compute. repeat constructor; rewrite ?elem_of_cons, ?elem_of_nil;
      intuition discriminate. }
  assert (Hun : ∀ o w, w ∈ [greedy 0 "a"; greedy 1 "b"; greedy 2 "c"] →
                  unconstrained tall_screen o w).
  { intros o w Hw.
    repeat (apply elem_of_cons in Hw as [->|Hw]); [| | |inversion Hw];
      (split; [unfold configured_along; destruct (String.eqb o "horizontal");
                 reflexivity
              |intros a; unfold requested_along;
               destruct (String.eqb o "horizontal"); reflexivity]). }
  split.
  - destruct (subw_flat_fills O tall_screen
                [greedy 0 "a"; greedy 1 "b"; greedy 2 "c"] (greedy 2 "c")
                0 0 31 80 "vertical" Hnd (Hun _) eq_refl) as [Hgood _].
    destruct Hgood as (self' & t & l & h & w & Hrun & Hreg & Hfill).
    { simpl. lia. }
    exists self'. split; [exact Hrun|].
    assert (Hrun' : Screen._subw 1 tall_screen
                      [Win (greedy 0 "a"); Win (greedy 1 "b"); Win (greedy 2 "c")]
                      0 0 31 80 "vertical" = Ok self') by exact Hrun.
    vm_compute in Hrun'. injection Hrun' as <-. vm_compute. reflexivity.
  - destruct (subw_flat_fills O tall_screen
                [greedy 0 "a"; greedy 1 "b"; greedy 2 "c"] (greedy 2 "c")
                0 0 24 2 "horizontal" Hnd (Hun _) eq_refl) as [_ Hbad].
    apply Hbad. simpl. lia.
Defined.

(** ** The life cycle of the windows *)

Lemma traced_bind_Ok {A B} (tr : list Lifecycle.Effect) (a : A)
    (k : A → Lifecycle.traced B) :
  ((tr, Ok a) : Lifecycle.traced A) ≫= k = (tr ++ (k a).1, (k a).2).
Proof. reflexivity. Qed.

Lemma traced_bind_Raise {A B} (tr : list Lifecycle.Effect) (e : exn)
    (k : A → Lifecycle.traced B) :
  ((tr, Raise e) : Lifecycle.traced A) ≫= k = (tr, Raise e).
Proof. reflexivity. Qed.

Lemma list_index_Ok (l : list Window) (w : Window) (idx : nat) :
  Lifecycle.list_index l w = Ok idx →
  (idx < length l)%nat ∧ ∃ x, l !! idx = Some x ∧ wid x = wid w.
Proof.
  revert idx. induction l as [|x l IH]; intros idx H; [discriminate|].
  simpl in H. destruct (Nat.eqb (wid x) (wid w)) eqn:Hx.
  - injection H as <-. simpl. split; [lia|].
    exists x. split; [reflexivity|]. apply Nat.eqb_eq, Hx.
  - destruct (Lifecycle.list_index l w) as [i|]; [|discriminate].
    injection H as <-. destruct (IH i eq_refl) as [Hlt Hex].
    simpl. split; [lia|exact Hex].
Qed.

Lemma list_index_Raise (l : list Window) (w : Window) (e : exn) :
  Lifecycle.list_index l w = Raise e →
  e = ValueError ∧ ∀ x, x ∈ l → wid x ≠ wid w.
Proof.
  induction l as [|x l IH]; intros H.
  - injection H as <-. split; [reflexivity|]. intros x Hx. inversion Hx.
  - simpl in H. destruct (Nat.eqb (wid x) (wid w)) eqn:Hx; [discriminate|].
    destruct (Lifecycle.list_index l w) as [i|e'] eqn:Hi; [discriminate|].
    injection H as <-. destruct (IH eq_refl) as [-> Hall].
    split; [reflexivity|]. intros y Hy.
    apply elem_of_cons in Hy as [->|Hy]; [apply Nat.eqb_neq, Hx|auto].
Qed.

(** Among windows of distinct identities, the others have another
    identity. *)
Lemma delete_other_wid (l : list Window) (idx : nat) (x : Window) :
  NoDup (wid <$> l) → l !! idx = Some x →
  ∀ y, y ∈ delete idx l → wid y ≠ wid x.
Proof.
  revert idx. induction l as [|z l IH]; intros idx Hnd Hx y Hy; [discriminate|].
  rewrite fmap_cons in Hnd. apply NoDup_cons in Hnd as [Hz Hnd].
  destruct idx as [|idx]; simpl in *.
  - injection Hx as ->. intros Heq. apply Hz. rewrite <- Heq.
    apply list_elem_of_fmap. eauto.
  - apply elem_of_cons in Hy as [->|Hy]; [|eauto].
    intros Heq. apply Hz. rewrite Heq. apply list_elem_of_fmap.
    exists x. split; [reflexivity|]. apply list_elem_of_lookup. eauto.
Qed.

(** X9. [die_callback] on a screen as [subwindows] leaves it, with one
    window per window type, of distinct identities.  The window's [die] is
    called first, whether the window is registered or not.  For a window
    that is not registered, [ValueError] follows and nothing else happens.
    For a registered window, its type is the one removed from the window
    types, no window left has its identity, every other former window dies
    once, and the outcome is that of [subwindows] on the window types left;
    when that returns, there is again one window per window type and the new
    tiles and floats are refreshed in this order. *)
Theorem die_callback_outcome (self : Screen.t) (window : Window) :
  Screen.windows self = Screen.window_types self →
  NoDup (wid <$> Screen.window_types self) →
  match Lifecycle.list_index (Screen.windows self) window with
  | Raise _ =>
      Lifecycle.die_callback self window =
        ([Lifecycle.Window_die window], Raise ValueError)
  | Ok idx =>
      let others := delete idx (Screen.window_types self) in
      (∀ x, x ∈ others → wid x ≠ wid window) ∧
      match Screen.subwindows
              (Lifecycle.set_window_types
                 (Screen.set_windows self (Screen.floats self)
                    (Screen.tiles self) others) others) with
      | Ok self' =>
          Lifecycle.die_callback self window =
            (Lifecycle.Window_die window ::
               (Lifecycle.Window_die <$> others) ++
               (Lifecycle.Window_refresh <$>
                  (Screen.tiles self' ++ Screen.floats self')) ++
               [Lifecycle.curses_doupdate], Ok self') ∧
          Screen.window_types self' = others ∧
          Screen.windows self' = others
      | Raise e =>
          Lifecycle.die_callback self window =
            (Lifecycle.Window_die window :: (Lifecycle.Window_die <$> others),
             Raise e)
      end
  end.
Proof.
  intros Hreg Hnd. unfold Lifecycle.die_callback.
  destruct (Lifecycle.list_index (Screen.windows self) window) as [idx|e] eqn:Hi.
  - destruct (list_index_Ok _ _ _ Hi) as (Hlt & x & Hx & Hwid).
    cbv zeta. split.
    { intros y Hy. rewrite <- Hwid.
      rewrite Hreg in Hx. eapply delete_other_wid; eauto. }
    unfold Lifecycle.call, Lifecycle.lift, Lifecycle.del.
    rewrite !traced_bind_Ok. cbn [fst snd].
    rewrite decide_True by exact Hlt. rewrite !traced_bind_Ok. cbn [fst snd].
    change (Screen.window_types (Screen.set_windows self _ _ _))
      with (Screen.window_types self).
    rewrite decide_True by (rewrite <- Hreg; exact Hlt).
    rewrite !traced_bind_Ok. cbn [fst snd]. rewrite Hreg.
    set (s1 := Lifecycle.set_window_types _ _).
    unfold Lifecycle.subwindows, Lifecycle.calls, Lifecycle.lift.
    rewrite !traced_bind_Ok. cbn [fst snd].
    change (Screen.windows s1) with (delete idx (Screen.window_types self)).
    destruct (Screen.subwindows s1) as [self'|e] eqn:Hsub.
    + rewrite !traced_bind_Ok. cbn [fst snd app].
      destruct (subwindows_registry_run s1 self' Hsub)
        as (Hwt & Hws & _).
      split; [|split; [exact Hwt|exact Hws]].
      unfold Lifecycle.refresh, Lifecycle.calls, Lifecycle.call.
      repeat (rewrite traced_bind_Ok; cbn [fst snd]).
      unfold mret, Lifecycle.traced_ret. cbn [fst snd].
      rewrite ?app_nil_r, <- ?app_assoc. reflexivity.
    + rewrite !traced_bind_Raise. cbn [fst snd app].
      rewrite ?app_nil_r. reflexivity.
  - destruct (list_index_Raise _ _ _ Hi) as [-> _]. reflexivity.
Qed.

(** The tag list of a screen with an input box and a tag list dies: the
    input box, aligned bottom, is the one tile left, and the layout has
    nothing in the middle. *)
Lemma die_callback_outcome_witness :
  Lifecycle.die_callback two_tiles (greedy 1 "taglist") =
  ([Lifecycle.Window_die (greedy 1 "taglist"); Lifecycle.Window_die input_window],
   Raise ValueError).
Proof.
  pose proof (die_callback_outcome two_tiles (greedy 1 "taglist") eq_refl) as H.
  assert (Hi : Lifecycle.list_index (Screen.windows two_tiles)
                 (greedy 1 "taglist") = Ok 1%nat) by reflexivity.
  rewrite Hi in H. cbv zeta in H.
  destruct H as [_ H].
  { vm_compute. repeat constructor; rewrite ?elem_of_cons, ?elem_of_nil;
      intuition discriminate. }
  match type of H with
  | context [Screen.subwindows ?s] =>
      assert (Hs : Screen.subwindows s = Raise ValueError)
        by (vm_compute; reflexivity)
  end.
  rewrite Hs in H. exact H.
Defined.

Lemma filter_all {A} (P : A → Prop) `{∀ x, Decision (P x)} (l : list A) :
  (∀ x, x ∈ l → P x) → filter P l = l.
Proof.
  induction l as [|x l IH]; intros Hl; [reflexivity|].
  rewrite filter_cons, decide_True by (apply Hl; left).
  rewrite IH; [reflexivity|]. intros y Hy. apply Hl. right. exact Hy.
Qed.

Lemma filter_none {A} (P : A → Prop) `{∀ x, Decision (P x)} (l : list A) :
  filter P l = [] → ∀ x, x ∈ l → ¬ P x.
Proof.
  intros Hf x Hx HP.
  assert (Hin : x ∈ filter P l) by (apply list_elem_of_filter; auto).
  rewrite Hf in Hin. inversion Hin.
Qed.

(** X10. When [add_window_callback] returns, the new window type is the
    last of the window types, every former window has died, the new tiles
    and floats have been refreshed in this order, and the focus is on the
    last float, or on the new window when nothing floats: the new window is
    focused when it floats or no window does. *)
Theorem add_window_callback_focus (self : Screen.t) (cls : Window)
    (tr : list Lifecycle.Effect) (self' : Screen.t) :
  Lifecycle.add_window_callback self cls = (tr, Ok self') →
  Screen.window_types self' = Screen.window_types self ++ [cls] ∧
  Screen.focused self' = Some (default cls (last (Screen.floats self'))) ∧
  (opt_float (Screen.get_opt self) (get_opt_name cls) = true →
   Screen.focused self' = Some cls) ∧
  tr = (Lifecycle.Window_die <$> Screen.windows self) ++
       (Lifecycle.Window_refresh <$>
          (Screen.tiles self' ++ Screen.floats self')) ++
       [Lifecycle.curses_doupdate].
Proof.
  unfold Lifecycle.add_window_callback. cbv zeta.
  set (s1 := Lifecycle.set_window_types self _).
  unfold Lifecycle.subwindows, Lifecycle.calls, Lifecycle.lift.
  rewrite traced_bind_Ok. cbn [fst snd].
  change (Screen.windows s1) with (Screen.windows self).
  destruct (Screen.subwindows s1) as [s2|e] eqn:Hsub;
    [|rewrite !traced_bind_Raise; intros H; discriminate].
  rewrite traced_bind_Ok. cbn [fst snd].
  destruct (subwindows_registry_run s1 s2 Hsub)
    as (Hwt & Hws & Hti & Hfl & _ & Hfo).
  destruct (focus_zero s2) as [msg Hfocus]. rewrite Hfocus.
  rewrite traced_bind_Ok. cbn [fst snd].
  unfold Lifecycle.refresh, Lifecycle.calls, Lifecycle.call.
  repeat (rewrite traced_bind_Ok; cbn [fst snd]).
  unfold mret, Lifecycle.traced_ret. cbn [fst snd].
  rewrite ?app_nil_r, <- ?app_assoc. intros H. injection H as <- <-.
  cbn [Screen.window_types Screen.focused Screen.tiles Screen.floats
       Screen.log_debug Screen.set_focused].
  assert (Hlast : last (Screen.tiles s2 ++ Screen.floats s2) =
                  Some (default cls (last (Screen.floats s2)))).
  { rewrite Hti, Hfl. unfold tiles_of, floats_of.
    change (Screen.window_types s1) with (Screen.window_types self ++ [cls]).
    change (Screen.get_opt s1) with (Screen.get_opt self).
    destruct (filter (λ w, opt_float (Screen.get_opt self) (get_opt_name w)
                           = true) (Screen.window_types self ++ [cls]))
      as [|f fs] eqn:Hfs using rev_ind.
    - rewrite app_nil_r, filter_all.
      + rewrite last_snoc. reflexivity.
      + intros x Hx. apply not_true_is_false.
        exact (filter_none _ _ Hfs x Hx).
    - rewrite app_assoc, !last_snoc. reflexivity. }
  split; [exact Hwt|]. split; [|split; [|reflexivity]].
  - rewrite Hlast. reflexivity.
  - intros Hf. rewrite Hlast. f_equal. rewrite Hfl. unfold floats_of.
    change (Screen.window_types s1) with (Screen.window_types self ++ [cls]).
    change (Screen.get_opt s1) with (Screen.get_opt self).
    rewrite filter_app, filter_cons, decide_True by exact Hf.
    rewrite filter_nil, last_snoc. reflexivity.
Qed.

(** A tile is added to a screen that has a float: the float keeps the
    focus. *)
Lemma add_window_callback_focus_witness :
  ∃ tr self',
    Lifecycle.add_window_callback float_screen (greedy 2 "input")
      = (tr, Ok self') ∧
    Screen.focused self' = Some (greedy 1 "float").
Proof.
  eassert (Hrun : Lifecycle.add_window_callback float_screen (greedy 2 "input")
                  = (_, Ok _)) by (vm_compute; reflexivity).
  destruct (add_window_callback_focus _ _ _ _ Hrun) as (_ & Hfo & _).
  eexists _, _. split; [exact Hrun|]. exact Hfo.
Defined.

(** ** The color pairs *)

Lemma traced_snd_bind {A B} (m : Lifecycle.traced A)
    (k : A → Lifecycle.traced B) :
  (m ≫= k).2 = match m.2 with Ok a => (k a).2 | Raise e => Raise e end.
Proof. destruct m as [tr [a|e]]; reflexivity. Qed.

Lemma init_pairs_app (tr1 tr2 : list Lifecycle.Effect) :
  init_pairs (tr1 ++ tr2) = init_pairs tr1 ++ init_pairs tr2.
Proof. unfold init_pairs. apply omap_app. Qed.

Lemma truthy_int_of (v : option Z) : truthy v = true → int_of v ≠ 0.
Proof.
  destruct v as [z|]; [|discriminate]. simpl. intros H.
  apply negb_eqb_true, H.
Qed.

(** A color that is not set gives way to one that is not 0. *)
Lemma default_color_not_0 (v : option Z) (d : Z) :
  d ≠ 0 → (if negb (truthy v) then d else int_of v) ≠ 0.
Proof.
  intros Hd. destruct (truthy v) eqn:Hv; simpl; [apply truthy_int_of, Hv|exact Hd].
Qed.

Section ColorPairs.

Context (color_opt : string → result (option Z)).
Context (init_pair : Z → Z → Z → result unit).


(** One turn of the loop calls [init_pair] once, on colors that are not 0,
    and returns whether [init_pair] does or not. *)
Lemma color_pair_run (deffg defbg : Z) (i : nat) :
  deffg ≠ 0 → defbg ≠ 0 →
  ∃ tr fg bg,
    Lifecycle.color_pair color_opt init_pair deffg defbg i = (tr, Ok tt) ∧
    init_pairs tr = [(Z.of_nat i + 1, fg, bg)] ∧ fg ≠ 0 ∧ bg ≠ 0.
Proof.
  intros Hfg Hbg. unfold Lifecycle.color_pair. cbv zeta.
  set (fg := if negb (truthy _) then _ else _).
  set (bg := if negb (truthy _) then _ else _).
  assert (Hfg' : fg ≠ 0).
  { unfold fg. do 2 apply default_color_not_0. exact Hfg. }
  assert (Hbg' : bg ≠ 0).
  { unfold bg. apply default_color_not_0. exact Hbg. }
  clearbody fg bg. unfold Lifecycle.call. rewrite traced_bind_Ok.
  destruct (init_pair (Z.of_nat i + 1) fg bg); eexists _, fg, bg;
    (split; [reflexivity|]); auto.
Qed.

Lemma color_pairs_run (deffg defbg : Z) (range : list nat) :
  deffg ≠ 0 → defbg ≠ 0 →
  ∃ tr,
    Lifecycle.color_pairs color_opt init_pair deffg defbg range = (tr, Ok tt) ∧
    (init_pairs tr).*1.*1 = (λ i, Z.of_nat i + 1) <$> range ∧
    Forall (λ p, p.1.2 ≠ 0 ∧ p.2 ≠ 0) (init_pairs tr).
Proof.
  intros Hfg Hbg. induction range as [|i rest (tr2 & Hrun2 & Hn2 & Hc2)].
  - exists []. repeat split. constructor.
  - destruct (color_pair_run deffg defbg i Hfg Hbg)
      as (tr1 & fg & bg & Hrun1 & Hp1 & Hf & Hb).
    exists (tr1 ++ tr2). cbn [Lifecycle.color_pairs].
    rewrite Hrun1, traced_bind_Ok, Hrun2.
    split; [reflexivity|]. rewrite init_pairs_app, Hp1.
    split; [rewrite fmap_cons, <- Hn2; reflexivity|].
    constructor; [auto|exact Hc2].
Qed.

End ColorPairs.


(** [curses_setup] when the terminal modes are set. *)
Lemma curses_setup_run (msg_of : exn → result string)
    (stdscr_getmaxyx : Z * Z) (color_opt : string → result (option Z))
    (init_pair : Z → Z → Z → result unit) (COLOR_PAIRS : nat)
    (self : Screen.t) (defbg deffg : option Z) :
  color_opt "color.defbg" = Ok defbg →
  color_opt "color.deffg" = Ok deffg →
  ∃ tr,
    Lifecycle.curses_setup (Ok tt) msg_of stdscr_getmaxyx color_opt init_pair
      COLOR_PAIRS self =
      (tr, Ok (Lifecycle.set_size self stdscr_getmaxyx.1 stdscr_getmaxyx.2, 0)) ∧
    (init_pairs tr).*1.*1 = (λ i, Z.of_nat i + 1) <$> seq 0 COLOR_PAIRS ∧
    Forall (λ p, p.1.2 ≠ 0 ∧ p.2 ≠ 0) (init_pairs tr).
Proof.
  intros Hbg Hfg. unfold Lifecycle.curses_setup, Lifecycle.call, Lifecycle.lift.
  rewrite Hbg, Hfg. cbv zeta.
  destruct (color_pairs_run color_opt init_pair
              (if negb (truthy deffg) then Lifecycle.COLOR_WHITE else int_of deffg)
              (if negb (truthy defbg) then -1 else int_of defbg)
              (seq 0 COLOR_PAIRS)) as (tr & Hrun & Hn & Hc).
  { apply default_color_not_0. discriminate. }
  { apply default_color_not_0. discriminate. }
  exists (Lifecycle.curses_curs_set 0 :: tr).
  repeat (rewrite traced_bind_Ok; cbn [fst snd]). rewrite Hrun.
  rewrite traced_bind_Ok. cbn [fst snd]. unfold mret, Lifecycle.traced_ret.
  cbn [fst snd app]. rewrite app_nil_r.
  split; [reflexivity|]. split; [exact Hn|exact Hc].
Qed.

(** X11. Once the terminal modes are set and the two default colors are
    read, [curses_setup] takes the size of the terminal, returns 0 and has
    called [init_pair] once per color pair, on the pairs 1 to [COLOR_PAIRS]
    in order, whatever the lookups of the colors and [init_pair] itself
    raise; and never with a color 0: a foreground or background configured
    as 0 counts as not configured and gives way to the next setting, down to
    the defaults, white and -1. *)
Theorem curses_setup_pairs (msg_of : exn → result string)
    (stdscr_getmaxyx : Z * Z) (color_opt : string → result (option Z))
    (init_pair : Z → Z → Z → result unit) (COLOR_PAIRS : nat)
    (self : Screen.t) (defbg deffg : option Z) :
  color_opt "color.defbg" = Ok defbg →
  color_opt "color.deffg" = Ok deffg →
  ∃ tr,
    Lifecycle.curses_setup (Ok tt) msg_of stdscr_getmaxyx color_opt init_pair
      COLOR_PAIRS self =
      (tr, Ok (Lifecycle.set_size self stdscr_getmaxyx.1 stdscr_getmaxyx.2, 0)) ∧
    (init_pairs tr).*1.*1 = (λ i, Z.of_nat i + 1) <$> seq 0 COLOR_PAIRS ∧
    Forall (λ p, p.1.2 ≠ 0 ∧ p.2 ≠ 0) (init_pairs tr).
Proof. apply curses_setup_run. Qed.

Lemma curses_setup_pairs_witness :
  ∃ tr self',
    Lifecycle.curses_setup (Ok tt) (λ _, Raise AttributeError) (24, 80)
      some_colors (λ _ _ _, Ok tt) 3 float_screen = (tr, Ok (self', 0)) ∧
    init_pairs tr = [(1, 2, -1); (2, 7, 4); (3, 7, -1)].
Proof.
  destruct (curses_setup_pairs (λ _, Raise AttributeError) (24, 80) some_colors
              (λ _ _ _, Ok tt) 3 float_screen None None eq_refl eq_refl)
    as (tr & Hrun & _).
  eexists tr, _. split; [exact Hrun|].
  assert (Hrun' := Hrun). vm_compute in Hrun'. injection Hrun' as <-.
  vm_compute. reflexivity.
Defined.

(** X12. [_resize] goes through with the layout whatever [curses_setup]
    returns: when the terminal modes are set, on the size the terminal has
    now, unless the lookup of a default color raises; when they cannot be
    set, on the size the screen had, unless the exception has no message.
    Neither the color pairs nor the value of [curses_setup] stop it, and what
    it raises otherwise is what [subwindows] raises. *)
Theorem resize_outcome (modes : result unit) (msg_of : exn → result string)
    (stdscr_getmaxyx : Z * Z) (color_opt : string → result (option Z))
    (init_pair : Z → Z → Z → result unit) (COLOR_PAIRS : nat)
    (self : Screen.t) :
  (Lifecycle._resize modes msg_of stdscr_getmaxyx color_opt init_pair
     COLOR_PAIRS self).2 =
  match modes with
  | Ok _ =>
      _ ← color_opt "color.defbg";
      _ ← color_opt "color.deffg";
      Screen.subwindows
        (Lifecycle.set_size self stdscr_getmaxyx.1 stdscr_getmaxyx.2)
  | Raise e =>
      _ ← msg_of e;
      Screen.subwindows self
  end.
Proof.
  assert (Hsetup :
    (Lifecycle.curses_setup modes msg_of stdscr_getmaxyx color_opt init_pair
       COLOR_PAIRS self).2 =
    match modes with
    | Ok _ =>
        _ ← color_opt "color.defbg";
        _ ← color_opt "color.deffg";
        Ok (Lifecycle.set_size self stdscr_getmaxyx.1 stdscr_getmaxyx.2, 0)
    | Raise e => _ ← msg_of e; Ok (self, -1)
    end).
  { destruct modes as [[]|e].
    - destruct (color_opt "color.defbg") as [defbg|e1] eqn:Hbg.
      + destruct (color_opt "color.deffg") as [deffg|e2] eqn:Hfg.
        * destruct (curses_setup_run msg_of stdscr_getmaxyx color_opt init_pair
                      COLOR_PAIRS self defbg deffg Hbg Hfg) as (tr & -> & _).
          reflexivity.
        * unfold Lifecycle.curses_setup, Lifecycle.call, Lifecycle.lift.
          rewrite Hbg, Hfg. reflexivity.
      + unfold Lifecycle.curses_setup, Lifecycle.call, Lifecycle.lift.
        rewrite Hbg. reflexivity.
    - unfold Lifecycle.curses_setup, Lifecycle.call, Lifecycle.lift.
      rewrite traced_snd_bind. cbn [snd]. rewrite traced_snd_bind. cbn [snd].
      destruct (msg_of e); reflexivity. }
  unfold Lifecycle._resize.
  repeat (rewrite traced_snd_bind; cbn [snd Lifecycle.call]).
  rewrite Hsetup.
  assert (Hsub : ∀ s,
    (Lifecycle.subwindows s ≫= λ self0,
     Lifecycle.refresh self0 ≫= λ _,
     (mret self0 : Lifecycle.traced Screen.t)).2 = Screen.subwindows s).
  { intros s. rewrite traced_snd_bind.
    unfold Lifecycle.subwindows, Lifecycle.calls, Lifecycle.lift.
    rewrite traced_snd_bind. cbn [snd].
    destruct (Screen.subwindows s); reflexivity. }
  destruct modes as [[]|e].
  - destruct (color_opt "color.defbg"); [|reflexivity].
    destruct (color_opt "color.deffg"); [|reflexivity].
    rewrite !bind_Ok. cbn [fst]. apply Hsub.
  - destruct (msg_of e); [|reflexivity].
    rewrite !bind_Ok. cbn [fst]. apply Hsub.
Qed.

(** ** Input arbitration: the lock comes free *)

Section InputProgress.

Context {Box : Type}.
Context (edit : string → Box → Box) (addkey : Z → Box → Z * Box).
Context (result_of : Box → string) (reset : Box → Box).

Abbreviation state := (@Input.state Box).
Abbreviation step := (Input.step edit addkey result_of reset).
Abbreviation run := (Input.run edit addkey result_of reset).

Lemma run_input_step (s s1 : state) (o1 : list Input.delivery) (n : nat) :
  step s Input.input_step = Some (s1, o1) →
  ∀ s2 o2,
    run s1 (replicate n Input.input_step) = Some (s2, o2) →
    run s (replicate (S n) Input.input_step) = Some (s2, o1 ++ o2).
Proof.
  intros H1 s2 o2 H2. simpl replicate.
  rewrite (run_cons edit addkey result_of reset), H1. simpl.
  rewrite H2. reflexivity.
Qed.

(** With no key left to read, the input thread releases the lock and goes
    to sleep. *)
Lemma input_thread_sleeps (s : state) :
  Input.input_pc s = Input.at_getch → Input.terminal s = [] →
  ∃ s' out,
    run s (replicate 2 Input.input_step) = Some (s', out) ∧
    Input.input_lock s' = false ∧ Input.main_pc s' = Input.main_pc s.
Proof.
  intros Hpc Ht. destruct s as [lock sub done box queue redraw term ipc mpc ret rsz].
  simpl in *. subst. eexists _, _. split; [reflexivity|]. split; reflexivity.
Qed.

(** Reading the keys there are, one after the other, takes the input
    thread two steps for each. *)
Lemma input_thread_drains (term : list Z) :
  ∀ s : state,
    Input.input_pc s = Input.at_getch → Input.terminal s = term →
    ∃ s' out,
      run s (replicate (2 * length term + 2) Input.input_step) = Some (s', out) ∧
      Input.input_lock s' = false ∧ Input.main_pc s' = Input.main_pc s.
Proof.
  induction term as [|r rest IH]; intros s Hpc Ht.
  - apply input_thread_sleeps; assumption.
  - destruct s as [lock sub done box queue redraw term ipc mpc ret rsz].
    simpl in Hpc, Ht. subst.
    replace (2 * length (r :: rest) + 2)%nat
      with (S (S (2 * length rest + 2))) by (simpl; lia).
    set (s1 := {| Input.input_lock := lock; Input.sub_edit := sub;
                  Input.input_done := done; Input.input_box := box;
                  Input.user_queue := queue; Input.needs_redraw := redraw;
                  Input.terminal := rest; Input.input_pc := Input.at_key r;
                  Input.main_pc := mpc; Input.returned := ret;
                  Input.resized := rsz |}).
    assert (H2 : ∃ s2 o2, step s1 Input.input_step = Some (s2, o2) ∧
                   Input.input_pc s2 = Input.at_getch ∧
                   Input.terminal s2 = rest ∧ Input.main_pc s2 = mpc).
    { unfold s1. simpl. unfold Input.input_thread. simpl. destruct sub.
      - destruct (addkey r box) as [rc box'].
        destruct (rc =? 0); eexists _, _; (split; [reflexivity|]); auto.
      - eexists _, _. split; [reflexivity|]. auto. }
    destruct H2 as (s2 & o2 & Hs2 & Hpc2 & Ht2 & Hm2).
    destruct (IH s2 Hpc2 Ht2) as (s' & out & Hrun & Hlock & Hm).
    exists s', ([] ++ o2 ++ out). split; [|split; [exact Hlock|simpl; congruence]].
    eapply run_input_step; [reflexivity|].
    eapply run_input_step; [exact Hs2|exact Hrun].
Qed.


(** From any state the two threads can reach in which the main thread does
    not hold the lock, the input thread frees the lock within two steps per
    pending key and three more. *)
Lemma lock_comes_free (box : Box) (evs : list Input.event) (s : state)
    (out : list Input.delivery) :
  run (Input.init box) evs = Some (s, out) →
  Input.held_by_main s = false →
  ∃ n s' out',
    (n ≤ 2 * length (Input.terminal s) + 3)%nat ∧
    run s (replicate n Input.input_step) = Some (s', out') ∧
    Input.input_lock s' = false ∧ Input.main_pc s' = Input.main_pc s.
Proof.
  intros Hrun Hmain.
  assert (Hinv : inv s)
    by exact (run_inv edit addkey result_of reset evs _ s out (inv_init box) Hrun).
  destruct Hinv as [[Hlock _] _]. rewrite Hmain, orb_false_r in Hlock.
  destruct (Input.input_pc s) eqn:Hpc;
    unfold Input.held_by_input in Hlock; rewrite Hpc in Hlock.
  - exists O, s, []. split; [lia|]. auto.
  - destruct (input_thread_drains (Input.terminal s) s Hpc eq_refl)
      as (s' & out' & Hr & Hl & Hm).
    exists (2 * length (Input.terminal s) + 2)%nat, s', out'.
    split; [lia|auto].
  - destruct s as [lock sub done box0 queue redraw term ipc mpc ret rsz].
    simpl in *. subst. exists 1%nat. eexists _, _. split; [lia|].
    split; [reflexivity|]. auto.
  - exists O, s, []. split; [lia|]. auto.
  - exists O, s, []. split; [lia|]. auto.
  - assert (H1 : ∃ s1 o1, step s Input.input_step = Some (s1, o1) ∧
                   Input.input_pc s1 = Input.at_getch ∧
                   Input.terminal s1 = Input.terminal s ∧
                   Input.main_pc s1 = Input.main_pc s).
    { destruct s as [lock sub done box0 queue redraw term ipc mpc ret rsz].
      simpl in *. subst. unfold Input.input_thread. simpl. destruct sub.
      - destruct (addkey r box0) as [rc box'].
        destruct (rc =? 0); eexists _, _; (split; [reflexivity|]); auto.
      - eexists _, _. split; [reflexivity|]. auto. }
    destruct H1 as (s1 & o1 & Hs1 & Hpc1 & Ht1 & Hm1).
    destruct (input_thread_drains (Input.terminal s) s1 Hpc1 Ht1)
      as (s' & out' & Hr & Hl & Hm).
    exists (S (2 * length (Input.terminal s) + 2)), s', (o1 ++ out').
    split; [lia|]. split; [|split; [exact Hl|congruence]].
    eapply run_input_step; eauto.
Qed.

End InputProgress.

(** X13. A request to pause is not held up for good.  In every state the
    two threads can reach in which the main thread does not hold the lock,
    the input thread, with no further key typed, frees the lock within two
    of its steps per key still to be read and three more; if the main
    thread stands outside its calls then, [pause_interface_callback] gets
    the lock at once. *)
Theorem pause_is_granted {Box : Type} (edit : string → Box → Box)
    (addkey : Z → Box → Z * Box) (result_of : Box → string)
    (reset : Box → Box) (box : Box) (evs : list Input.event)
    (s : Input.state) (out : list Input.delivery) :
  Input.run edit addkey result_of reset (Input.init box) evs = Some (s, out) →
  Input.held_by_main s = false →
  ∃ n s' out',
    (n ≤ 2 * length (Input.terminal s) + 3)%nat ∧
    Input.run edit addkey result_of reset s (replicate n Input.input_step)
      = Some (s', out') ∧
    Input.input_lock s' = false ∧
    (Input.main_pc s = Input.running →
     ∃ s'', Input.step edit addkey result_of reset s'
              Input.pause_interface_callback = Some (s'', []) ∧
            Input.held_by_main s'' = true).
Proof.
  intros Hrun Hmain.
  destruct (lock_comes_free edit addkey result_of reset box evs s out Hrun Hmain)
    as (n & s' & out' & Hn & Hr & Hl & Hm).
  exists n, s', out'. split; [exact Hn|]. split; [exact Hr|].
  split; [exact Hl|]. intros Hpc. rewrite Hpc in Hm.
  destruct s' as [lock sub done box0 queue redraw term ipc mpc ret rsz].
  simpl in *. subst. eexists. split; reflexivity.
Qed.

(** The keys 'h' and 'i' are typed while the input thread holds the lock;
    seven steps of the input thread later the lock is free. *)
Lemma pause_is_granted_witness :
  ∃ s out n s' out',
    Input.run Input.SpecBox.edit Input.SpecBox.addkey Input.SpecBox.result
      Input.SpecBox.reset (Input.init Input.SpecBox.empty) two_keys_pending
      = Some (s, out) ∧
    (n ≤ 7)%nat ∧
    Input.run Input.SpecBox.edit Input.SpecBox.addkey Input.SpecBox.result
      Input.SpecBox.reset s (replicate n Input.input_step) = Some (s', out') ∧
    Input.input_lock s' = false.
Proof.
  eassert (Hrun : Input.run Input.SpecBox.edit Input.SpecBox.addkey
                    Input.SpecBox.result Input.SpecBox.reset
                    (Input.init Input.SpecBox.empty) two_keys_pending
                  = Some (_, _))
    by (vm_compute; reflexivity).
  destruct (pause_is_granted _ _ _ _ _ _ _ _ Hrun eq_refl)
    as (n & s' & out' & Hn & Hr & Hl & _).
  eexists _, _, n, s', out'. split; [exact Hrun|].
  split; [exact Hn|]. split; [exact Hr|exact Hl].
Defined.

(** ** Drawing the text box *)

Lemma textbox_relscroll_pad (self self' : TextBox.t) (factor : Z) :
  TextBox._relscroll self factor = Ok self' →
  TextBox.pad self' = TextBox.pad self ∧
  TextBox.get_opt_name self' = TextBox.get_opt_name self ∧
  TextBox.height self' = TextBox.height self ∧
  TextBox.width self' = TextBox.width self ∧
  TextBox.fullpad self' = TextBox.fullpad self ∧
  TextBox.max_offset self' = TextBox.max_offset self.
Proof.
  unfold TextBox._relscroll.
  destruct (TextBox.get_offset _) as [off|]; [|discriminate].
  rewrite bind_Ok. intros H. injection H as <-. repeat split.
Qed.

Lemma textbox_scroll_pad (render : TextBox.t → Z → Z) (self self' : TextBox.t)
    (o : TextBox.op) :
  o ≠ TextBox.do_refresh →
  TextBox.apply render self o = Ok self' →
  TextBox.pad self' = TextBox.pad self ∧
  TextBox.get_opt_name self' = TextBox.get_opt_name self ∧
  TextBox.height self' = TextBox.height self ∧
  TextBox.width self' = TextBox.width self ∧
  TextBox.fullpad self' = TextBox.fullpad self ∧
  TextBox.max_offset self' = TextBox.max_offset self.
Proof.
  intros Ho. destruct o; try congruence; simpl;
    unfold TextBox.cmd_scroll_up, TextBox.cmd_scroll_down,
      TextBox.cmd_page_up, TextBox.cmd_page_down;
    try (destruct (TextBox.self_height self); [rewrite bind_Ok|discriminate]);
    apply textbox_relscroll_pad.
Qed.

Section Drawing.

Context (render : TextBox.t → Z → Z).

(** A refresh leaves the box refreshed, and a scroll command keeps it
    so. *)
Lemma draw_apply (self self' : TextBox.t) (o : TextBox.op) :
  o = TextBox.do_refresh ∨ refreshed self →
  TextBox.apply render self o = Ok self' →
  refreshed self'.
Proof.
  intros Href Hrun.
  assert (o = TextBox.do_refresh ∨ o ≠ TextBox.do_refresh) as [->|Ho]
    by (destruct o; ((left; reflexivity) || (right; discriminate))).
  - simpl in Hrun.
    destruct (textbox_refresh_inv render _ _ Hrun)
      as (off & _ & Hl & Hw & Hp & _ & Hh & Hwd & Hfp & Hm & _).
    unfold refreshed. rewrite Hp. split; [exact Hh|]. split; [exact Hwd|].
    eexists. split; [exact Hfp|]. cbn [getmaxyx maxy maxx] in *. auto.
  - destruct Href as [->|Href]; [congruence|].
    destruct (textbox_scroll_pad render _ _ o Ho Hrun)
      as (Hp & _ & Hh & Hw & Hfp & Hm).
    unfold refreshed. rewrite Hp, Hh, Hw, Hfp, Hm. exact Href.
Qed.

Lemma draw_apply_all (ops : list TextBox.op) :
  ∀ self self' : TextBox.t,
    refreshed self →
    TextBox.apply_all render self ops = Ok self' →
    refreshed self'.
Proof.
  induction ops as [|o ops IH]; intros self self' Href Hrun.
  - injection Hrun as <-. exact Href.
  - simpl in Hrun.
    destruct (TextBox.apply render self o) as [s1|] eqn:H1; [|discriminate].
    rewrite bind_Ok in Hrun.
    exact (IH s1 self' (draw_apply self s1 o (or_intror Href) H1) Hrun).
Qed.

(** After a first refresh and any further scroll commands and refreshes
    the box is refreshed, on the same pad; its offset is in range when
    the offset it started with was not negative. *)
Lemma draw_refreshed (ops : list TextBox.op) (self self' : TextBox.t) :
  TextBox.apply_all render self (TextBox.do_refresh :: ops) = Ok self' →
  refreshed self' ∧
  TextBox.pad self' = TextBox.pad self ∧
  ∃ off, TextBox.get_offset self = Ok off ∧
         (0 <= off → offset_in_range self').
Proof.
  intros Hrun.
  change (TextBox.apply_all render self (TextBox.do_refresh :: ops))
    with (TextBox.refresh render self ≫=
          λ s, TextBox.apply_all render s ops) in Hrun.
  destruct (TextBox.refresh render self) as [s1|] eqn:H1; [|discriminate].
  rewrite bind_Ok in Hrun.
  pose proof (draw_apply self s1 TextBox.do_refresh (or_introl eq_refl) H1)
    as Hr1.
  destruct (textbox_refresh_inv render _ _ H1)
    as (off & Hoff & _ & _ & Hp1 & _ & _ & _ & _ & Hm1 & Ho1 & _).
  assert (Hok1 : box_ok s1) by (split; [rewrite Hm1; lia|eauto]).
  destruct (textbox_apply_all_ok render ops s1 self' Hok1 Hrun)
    as (_ & Hp & Hin).
  split; [exact (draw_apply_all ops s1 self' Hr1 Hrun)|].
  split; [congruence|].
  exists off. split; [exact Hoff|]. intros H0. apply Hin. left.
  eexists. split; [exact Ho1|]. rewrite Hm1. lia.
Qed.

End Drawing.

(** *** The calls of [redraw] *)

Lemma drawn_bind_Ok {A B} (calls : list TextBoxDraw.PadCall) (a : A)
    (k : A → TextBoxDraw.drawn B) :
  ((calls, Ok a) : TextBoxDraw.drawn A) ≫= k = (calls ++ (k a).1, (k a).2).
Proof. reflexivity. Qed.

Lemma drawn_bind_Raise {A B} (calls : list TextBoxDraw.PadCall) (e : exn)
    (k : A → TextBoxDraw.drawn B) :
  ((calls, Raise e) : TextBoxDraw.drawn A) ≫= k = (calls, Raise e).
Proof. reflexivity. Qed.

Lemma move_Ok (p : Pad) (y x : Z) :
  0 <= y < maxy p → 0 <= x < maxx p →
  TextBoxDraw.move p y x = ([TextBoxDraw.pad_move y x], Ok tt).
Proof.
  intros Hy Hx. unfold TextBoxDraw.move.
  replace ((0 <=? y) && (y <? maxy p) && (0 <=? x) && (x <? maxx p)) with true;
    [reflexivity|].
  symmetry. rewrite !andb_true_iff, !Z.leb_le, !Z.ltb_lt. lia.
Qed.

Lemma move_Raise (p : Pad) (y x : Z) :
  y < 0 ∨ maxy p <= y ∨ x < 0 ∨ maxx p <= x →
  TextBoxDraw.move p y x = ([TextBoxDraw.pad_move y x], Raise curses_error).
Proof.
  intros Hbad. unfold TextBoxDraw.move.
  replace ((0 <=? y) && (y <? maxy p) && (0 <=? x) && (x <? maxx p)) with false;
    [reflexivity|].
  symmetry. apply not_true_is_false.
  rewrite !andb_true_iff, !Z.leb_le, !Z.ltb_lt. lia.
Qed.

(** [copywin] copies a rectangle that is not empty, lies in the source
    from its first line and column on and fits the destination. *)
Lemma copywin_Ok (src dst : Pad)
    (sminrow smincol dminrow dmincol dmaxrow dmaxcol : Z) :
  dminrow <= dmaxrow → dmincol <= dmaxcol →
  0 <= dmaxrow <= maxy dst - 1 → 0 <= dmaxcol <= maxx dst - 1 →
  0 <= sminrow + dmaxrow - dminrow < maxy src →
  0 <= smincol + dmaxcol - dmincol < maxx src →
  TextBoxDraw.copywin src dst sminrow smincol dminrow dmincol dmaxrow dmaxcol
  = Ok tt.
Proof.
  intros H1 H2 H3 H4 H5 H6. unfold TextBoxDraw.copywin. cbv zeta.
  repeat match goal with
         | |- context [?a <? ?b] =>
             replace (a <? b) with false by (symmetry; apply Z.ltb_ge; lia)
         | |- context [?a =? ?b] =>
             replace (a =? b) with false by (symmetry; apply Z.eqb_neq; lia)
         end.
  reflexivity.
Qed.

(** An empty rectangle is an error of [copywin]. *)
Lemma copywin_Raise (src dst : Pad)
    (sminrow smincol dminrow dmincol dmaxrow dmaxcol : Z) :
  dmaxrow < dminrow →
  TextBoxDraw.copywin src dst sminrow smincol dminrow dmincol dmaxrow dmaxcol
  = Raise curses_error.
Proof.
  intros H. unfold TextBoxDraw.copywin. cbv zeta.
  replace (dmaxrow <? dminrow) with true by (symmetry; apply Z.ltb_lt; lia).
  reflexivity.
Qed.

(** A rectangle that ends inside the source is not read past it. *)
Lemma copywin_in_bounds (src dst : Pad)
    (sminrow smincol dminrow dmincol dmaxrow dmaxcol : Z) :
  sminrow + dmaxrow - dminrow < maxy src →
  smincol + dmaxcol - dmincol < maxx src →
  TextBoxDraw.copywin src dst sminrow smincol dminrow dmincol dmaxrow dmaxcol
  ≠ Raise OutOfBoundsRead.
Proof.
  intros H1 H2. unfold TextBoxDraw.copywin. cbv zeta.
  replace (sminrow + dmaxrow - dminrow =? maxy src) with false
    by (symmetry; apply Z.eqb_neq; lia).
  replace (smincol + dmaxcol - dmincol =? maxx src) with false
    by (symmetry; apply Z.eqb_neq; lia).
  change (false || false) with false. cbv iota.
  repeat match goal with
         | |- context [if ?c then _ else _] => destruct c
         end; discriminate.
Qed.

(** What [redraw] does on a box whose attributes and variables are
    there. *)
Lemma redraw_run (outcome : TextBoxDraw.PadCall → result unit)
    (self : TextBox.t) (cbs : WinCallbacks) (off h w : Z)
    (fp : Pad) (tb lb bb rb : bool) :
  TextBox.get_offset self = Ok off →
  TextBox.height self = Some h → TextBox.width self = Some w →
  TextBox.fullpad self = Some fp →
  cb_border cbs = Ok (tb, lb, bb, rb) →
  let realheight := Z.min h (getmaxyx fp 0) - 1 in
  let top := if tb then 1 else 0 in
  TextBoxDraw.redraw outcome self cbs =
  (_ ← TextBoxDraw.erase;
   _ ← (if tb then
          _ ← TextBoxDraw.move (TextBox.pad self) 0 0;
          TextBoxDraw.call outcome TextBoxDraw.render_top_border
        else mret tt);
   _ ← TextBoxDraw.overwrite fp (TextBox.pad self) off 0 top 0
         (realheight - top) (w - 1);
   _ ← (if bb then
          let y := if cb_floating cbs then realheight - 1
                   else getmaxyx (TextBox.pad self) 0 - 1 - 1 in
          _ ← TextBoxDraw.move (TextBox.pad self) y 0;
          _ ← TextBoxDraw.call outcome TextBoxDraw.render_bottom_border;
          TextBoxDraw.move (TextBox.pad self) y 0
        else TextBoxDraw.move (TextBox.pad self) (realheight - 1) 0);
   TextBoxDraw.call outcome TextBoxDraw.callbacks_refresh).
Proof.
  intros Hoff Hh Hw Hfp Hb. cbv zeta.
  unfold TextBoxDraw.redraw, TextBox.self_height, TextBox.self_fullpad,
    TextBox.self_width.
  rewrite Hoff, Hb, Hh, Hfp, Hw.
  destruct tb, bb, (cb_floating cbs); try reflexivity;
    unfold TextBoxDraw.move, TextBoxDraw.call;
    destruct ((0 <=? 0) && (0 <? maxy (TextBox.pad self)) && (0 <=? 0) &&
              (0 <? maxx (TextBox.pad self)));
    try reflexivity;
    destruct (outcome TextBoxDraw.render_top_border); reflexivity.
Qed.

(** X14. After a first refresh on an offset that is not negative, and any
    scroll commands and refreshes after it, whatever [redraw] goes on to
    do and whatever the calls that leave it return or raise, it copies from
    the pre-rendered pad lines that exist only, onto lines and columns of
    the pad of the window that exist only: the copy starts on a line from 0
    on and, as many lines further as it fills on the window, still ends on
    a line of the pre-rendered pad, so that nothing is read outside that
    pad. *)
Theorem redraw_within_pads (render : TextBox.t → Z → Z)
    (outcome : TextBoxDraw.PadCall → result unit)
    (self self' : TextBox.t) (ops : list TextBox.op) (cbs : WinCallbacks)
    (off : Z) :
  TextBox.get_offset self = Ok off → 0 <= off →
  TextBox.apply_all render self (TextBox.do_refresh :: ops) = Ok self' →
  ∃ fp,
    TextBox.fullpad self' = Some fp ∧
    ∀ sminrow smincol dminrow dmincol dmaxrow dmaxcol,
      TextBoxDraw.fullpad_overwrite sminrow smincol dminrow dmincol dmaxrow
        dmaxcol ∈ (TextBoxDraw.redraw outcome self' cbs).1 →
      0 <= sminrow ∧
      sminrow + (dmaxrow - dminrow) <= getmaxyx fp 0 - 1 ∧
      0 <= dminrow ∧
      dmaxrow <= getmaxyx (TextBox.pad self') 0 - 1 ∧
      smincol = 0 ∧ dmincol = 0 ∧
      dmaxcol = getmaxyx (TextBox.pad self') 1 - 1 ∧
      TextBoxDraw.copywin fp (TextBox.pad self') sminrow smincol dminrow
        dmincol dmaxrow dmaxcol ≠ Raise OutOfBoundsRead.
Proof.
  intros Hoff H0 Hrun.
  destruct (draw_refreshed render ops self self' Hrun)
    as (Href & _ & off0 & Hoff0 & Hin).
  rewrite Hoff in Hoff0. injection Hoff0 as <-.
  destruct (Hin H0) as (off' & Hoff' & Hrange).
  destruct Href as (Hh & Hw & fp & Hfp & Hl & Hfw & Hpw & Hmax).
  exists fp. split; [exact Hfp|].
  intros sminrow smincol dminrow dmincol dmaxrow dmaxcol Hcall.
  destruct (cb_border cbs) as [[[[tb lb] bb] rb]|e] eqn:Hb.
  2:{ unfold TextBoxDraw.redraw in Hcall. rewrite Hoff', Hb in Hcall.
      inversion Hcall. }
  rewrite (redraw_run outcome self' cbs off' _ _ fp tb lb bb rb Hoff' Hh Hw
             Hfp Hb) in Hcall.
  cbv zeta in Hcall.
  assert (Heq : TextBoxDraw.fullpad_overwrite sminrow smincol dminrow dmincol
                  dmaxrow dmaxcol =
                TextBoxDraw.fullpad_overwrite off' 0 (if tb then 1 else 0) 0
                  (Z.min (getmaxyx (TextBox.pad self') 0) (getmaxyx fp 0) - 1 -
                   (if tb then 1 else 0))
                  (getmaxyx (TextBox.pad self') 1 - 1)).
  { unfold TextBoxDraw.overwrite, TextBoxDraw.move, TextBoxDraw.call,
      TextBoxDraw.erase in Hcall.
    destruct (TextBoxDraw.copywin _ _ _ _ _ _ _ _);
      destruct (outcome TextBoxDraw.render_top_border);
      destruct (outcome TextBoxDraw.render_bottom_border);
      destruct tb, bb, (cb_floating cbs);
      repeat match type of Hcall with
             | context [if ?c then Ok tt else Raise curses_error] => destruct c
             end;
      simpl in Hcall;
      repeat (apply elem_of_cons in Hcall as [Hcall|Hcall];
              [first [discriminate | exact Hcall]|]);
      inversion Hcall. }
  injection Heq as -> -> -> -> -> ->.
  rewrite Hmax in Hrange. cbn [getmaxyx] in *.
  assert (Hb1 : off' + (Z.min (maxy (TextBox.pad self')) (maxy fp) - 1 -
                        (if tb then 1 else 0) - (if tb then 1 else 0))
                <= maxy fp - 1) by (destruct tb; lia).
  repeat split; try (destruct tb; lia).
  apply copywin_in_bounds; destruct tb; lia.
Qed.

(** A box of 10 lines that renders 30: refreshed, scrolled a page down and
    three lines up, it is drawn from line 6 of the rendered lines on. *)
Lemma redraw_within_pads_witness :
  ∃ self' fp,
    TextBox.apply_all thirty_lines fresh_box
      [TextBox.do_refresh; TextBox.page_down; TextBox.scroll_up;
       TextBox.scroll_up; TextBox.scroll_up] = Ok self' ∧
    TextBox.fullpad self' = Some fp ∧
    TextBoxDraw.fullpad_overwrite 6 0 1 0 8 79
      ∈ (TextBoxDraw.redraw calls_return self' bordered).1 ∧
    6 + (8 - 1) <= getmaxyx fp 0 - 1.
Proof.
  eassert (Hrun : TextBox.apply_all thirty_lines fresh_box
                    [TextBox.do_refresh; TextBox.page_down; TextBox.scroll_up;
                     TextBox.scroll_up; TextBox.scroll_up] = Ok _)
    by (vm_compute; reflexivity).
  destruct (redraw_within_pads thirty_lines calls_return fresh_box _ _ bordered
              0 ltac:(vm_compute; reflexivity) ltac:(lia) Hrun)
    as (fp & Hfp & Hall).
  match type of Hrun with
  | _ = Ok ?s =>
      eassert (Htr : (TextBoxDraw.redraw calls_return s bordered).1 = _)
        by (vm_compute; reflexivity)
  end.
  assert (Hcall : TextBoxDraw.fullpad_overwrite 6 0 1 0 8 79
                    ∈ (TextBoxDraw.redraw calls_return _ bordered).1)
    by (rewrite Htr; do 3 right; left).
  eexists _, fp. split; [exact Hrun|]. split; [exact Hfp|].
  split; [exact Hcall|]. apply (Hall _ _ _ _ _ _ Hcall).
Defined.

Lemma getyx_row_move (pre : list TextBoxDraw.PadCall) (y x : Z) :
  TextBoxDraw.getyx_row
    (pre ++ [TextBoxDraw.pad_move y x; TextBoxDraw.callbacks_refresh]) = Some y.
Proof.
  unfold TextBoxDraw.getyx_row. rewrite filter_app.
  change (filter (λ c, TextBoxDraw.on_pad c = true)
            [TextBoxDraw.pad_move y x; TextBoxDraw.callbacks_refresh])
    with [TextBoxDraw.pad_move y x].
  rewrite last_snoc. reflexivity.
Qed.

(** X15. A text box on the pad of a window that [_subw_init] has set up,
    with a bottom border, after a first refresh on an offset that is not
    negative and any scroll commands and refreshes, the borders being
    printed without failure.  [redraw] gets to the [refresh] callback of
    the window when there is room for what it draws: three lines shown if
    there is a top border, and a line of the region for a tile, two lines
    shown for a float; the lines shown are those of the pad or, if fewer,
    those rendered.  It has then drawn the bottom border on the last line
    of the pad that the callback puts on the screen, the cursor being back
    on that line when the callback is called, and it ends as the callback
    does.  For a tile this is the last line of its region; for a float it
    is the line after the last line copied, the region ending there.
    Without that room [redraw] raises [curses.error] before it gets to the
    callback. *)
Theorem bottom_border_last_line (render : TextBox.t → Z → Z)
    (outcome : TextBoxDraw.PadCall → result unit) (s s' : Screen.t)
    (ci : Window) (top left height width : Z) (a : WinAttrs)
    (self self' : TextBox.t) (ops : list TextBox.op) (off : Z)
    (tb lb rb : bool) :
  Screen._subw_init s ci top left height width = Ok s' →
  Screen.heap s' !! wid ci = Some a →
  TextBox.pad self = pad a →
  TextBox.get_offset self = Ok off → 0 <= off →
  TextBox.apply_all render self (TextBox.do_refresh :: ops) = Ok self' →
  cb_border (callbacks a) = Ok (tb, lb, true, rb) →
  outcome TextBoxDraw.render_top_border = Ok tt →
  outcome TextBoxDraw.render_bottom_border = Ok tt →
  ∃ fp,
    TextBox.fullpad self' = Some fp ∧
    let shown := Z.min (height + 1) (getmaxyx fp 0) in
    let room :=
      (tb = true → 3 <= shown) ∧
      (if cb_floating (callbacks a) then 2 <= shown else 1 <= height) in
    (room →
     ∃ y pre,
       TextBoxDraw.redraw outcome self' (callbacks a) =
         (pre ++ [TextBoxDraw.pad_move y 0; TextBoxDraw.render_bottom_border;
                  TextBoxDraw.pad_move y 0; TextBoxDraw.callbacks_refresh],
          outcome TextBoxDraw.callbacks_refresh) ∧
       TextBoxDraw.getyx_row
         (pre ++ [TextBoxDraw.pad_move y 0; TextBoxDraw.render_bottom_border;
                  TextBoxDraw.pad_move y 0; TextBoxDraw.callbacks_refresh])
         = Some y ∧
       TextBoxDraw.refresh_callback (callbacks a) y =
         (0, 0, top, left, top + y, left + (width - 1)) ∧
       0 <= y <= height - 1 ∧
       y = (if cb_floating (callbacks a) then shown - 2 else height - 1)) ∧
    (¬ room →
     (TextBoxDraw.redraw outcome self' (callbacks a)).2 = Raise curses_error ∧
     TextBoxDraw.callbacks_refresh
       ∉ (TextBoxDraw.redraw outcome self' (callbacks a)).1).
Proof.
  intros Hinit Ha Hpad Hoff H0 Hrun Hb Htop Hbot.
  destruct (draw_refreshed render ops self self' Hrun)
    as (Href & Hp & off0 & Hoff0 & Hin).
  rewrite Hoff in Hoff0. injection Hoff0 as <-.
  destruct (Hin H0) as (off' & Hoff' & Hrange).
  destruct Href as (Hh & Hw & fp & Hfp & Hl & Hfw & Hpw & Hmax).
  exists fp. split; [exact Hfp|]. cbv zeta.
  assert (Hattrs : pad a = {| maxy := height + 1; maxx := width |} ∧
                   cb_refresh (callbacks a) =
                     (top, left, top + (height - 1), left + (width - 1)) ∧
                   0 <= height ∧ 1 <= width).
  { apply subw_init_inv in Hinit as (? & ? & ->). simpl in Ha.
    rewrite lookup_insert_eq in Ha. injection Ha as <-. auto. }
  destruct Hattrs as (Hpa & Hcr & Hh0 & Hw0).
  rewrite (redraw_run outcome self' (callbacks a) off' _ _ fp tb lb true rb
             Hoff' Hh Hw Hfp Hb).
  cbv zeta. rewrite Hmax in Hrange. rewrite Hp, Hpad, Hpa in *.
  cbn [getmaxyx maxy maxx] in *.
  set (shown := Z.min (height + 1) (maxy fp)) in *.
  unfold TextBoxDraw.overwrite, TextBoxDraw.call, TextBoxDraw.erase.
  rewrite Htop, Hbot.
  split.
  - intros [Htb Hfl].
    rewrite copywin_Ok
      by (cbn [maxy maxx]; destruct tb; try specialize (Htb eq_refl); lia).
    assert (Hend : ∀ y (pre : list TextBoxDraw.PadCall),
              0 <= y <= height - 1 →
              y = (if cb_floating (callbacks a) then shown - 2 else height - 1) →
              TextBoxDraw.getyx_row
                (pre ++ [TextBoxDraw.pad_move y 0;
                         TextBoxDraw.render_bottom_border;
                         TextBoxDraw.pad_move y 0;
                         TextBoxDraw.callbacks_refresh]) = Some y ∧
              TextBoxDraw.refresh_callback (callbacks a) y =
                (0, 0, top, left, top + y, left + (width - 1)) ∧
              0 <= y <= height - 1 ∧
              y = (if cb_floating (callbacks a) then shown - 2 else height - 1)).
    { intros y pre Hy Hyeq. split.
      - change [TextBoxDraw.pad_move y 0; TextBoxDraw.render_bottom_border;
                TextBoxDraw.pad_move y 0; TextBoxDraw.callbacks_refresh]
          with ([TextBoxDraw.pad_move y 0; TextBoxDraw.render_bottom_border] ++
                [TextBoxDraw.pad_move y 0; TextBoxDraw.callbacks_refresh]).
        rewrite app_assoc. apply getyx_row_move.
      - split; [|auto]. unfold TextBoxDraw.refresh_callback. rewrite Hcr.
        cbn [fst snd].
        destruct (cb_floating (callbacks a)); repeat f_equal; lia. }
    destruct tb; [specialize (Htb eq_refl);
                  rewrite (move_Ok _ 0 0) by (cbn [maxy maxx]; lia)|];
      destruct (cb_floating (callbacks a)) eqn:Hf;
      rewrite !move_Ok by (cbn [maxy maxx]; lia).
    + exists (shown - 1 - 1),
        [TextBoxDraw.pad_erase; TextBoxDraw.pad_move 0 0;
         TextBoxDraw.render_top_border;
         TextBoxDraw.fullpad_overwrite off' 0 1 0 (shown - 1 - 1) (width - 1)].
      split; [reflexivity|]. apply Hend; lia.
    + exists (height + 1 - 1 - 1),
        [TextBoxDraw.pad_erase; TextBoxDraw.pad_move 0 0;
         TextBoxDraw.render_top_border;
         TextBoxDraw.fullpad_overwrite off' 0 1 0 (shown - 1 - 1) (width - 1)].
      split; [reflexivity|]. apply Hend; lia.
    + exists (shown - 1 - 1),
        [TextBoxDraw.pad_erase;
         TextBoxDraw.fullpad_overwrite off' 0 0 0 (shown - 1 - 0) (width - 1)].
      split; [reflexivity|]. apply Hend; lia.
    + exists (height + 1 - 1 - 1),
        [TextBoxDraw.pad_erase;
         TextBoxDraw.fullpad_overwrite off' 0 0 0 (shown - 1 - 0) (width - 1)].
      split; [reflexivity|]. apply Hend; lia.
  - intros Hno.
    assert (Hnot : ∀ l : list TextBoxDraw.PadCall,
              Forall (λ c, c ≠ TextBoxDraw.callbacks_refresh) l →
              TextBoxDraw.callbacks_refresh ∉ l).
    { intros l HF Hcb. rewrite Forall_forall in HF. exact (HF _ Hcb eq_refl). }
    destruct tb.
    + destruct (Z.lt_ge_cases shown 3) as [Hs|Hs].
      * rewrite (move_Ok _ 0 0) by (cbn [maxy maxx]; lia).
        rewrite copywin_Raise by lia.
        split; [reflexivity|]. apply Hnot. simpl. repeat constructor; discriminate.
      * rewrite (move_Ok _ 0 0) by (cbn [maxy maxx]; lia).
        rewrite copywin_Ok by (cbn [maxy maxx]; lia).
        destruct (cb_floating (callbacks a)) eqn:Hf.
        -- exfalso. apply Hno. split; [intros _; exact Hs|lia].
        -- rewrite move_Raise.
           ++ split; [reflexivity|]. apply Hnot. simpl.
              repeat constructor; discriminate.
           ++ cbn [maxy maxx]. left.
              destruct (Z.lt_ge_cases height 1) as [Hh1|Hh1]; [lia|].
              exfalso. apply Hno. split; [intros _; exact Hs|exact Hh1].
    + rewrite copywin_Ok by (cbn [maxy maxx]; lia).
      destruct (cb_floating (callbacks a)) eqn:Hf.
      * rewrite move_Raise.
        -- split; [reflexivity|]. apply Hnot. simpl.
           repeat constructor; discriminate.
        -- cbn [maxy maxx]. left.
           destruct (Z.lt_ge_cases shown 2) as [Hs|Hs]; [lia|].
           exfalso. apply Hno. split; [discriminate|exact Hs].
      * rewrite move_Raise.
        -- split; [reflexivity|]. apply Hnot. simpl.
           repeat constructor; discriminate.
        -- cbn [maxy maxx]. left.
           destruct (Z.lt_ge_cases height 1) as [Hh1|Hh1]; [lia|].
           exfalso. apply Hno. split; [discriminate|exact Hh1].
Qed.

(** A tile of 9 lines below the top of the screen of [float_screen]: the
    bottom border is drawn on line 8 of the pad, the last line shown.  On
    a tile without a line, [redraw] raises [curses.error]. *)
Lemma bottom_border_last_line_witness :
  (∃ s' a self' calls,
     Screen._subw_init float_screen (greedy 0 "taglist") 0 0 9 80 = Ok s' ∧
     Screen.heap s' !! 0%nat = Some a ∧
     TextBox.apply_all thirty_lines fresh_box [TextBox.do_refresh] = Ok self' ∧
     TextBoxDraw.redraw calls_return self' (callbacks a) = (calls, Ok tt) ∧
     TextBoxDraw.getyx_row calls = Some 8 ∧
     TextBoxDraw.refresh_callback (callbacks a) 8 =
       (0, 0, 0, 0, 0 + 8, 0 + (80 - 1))) ∧
  (∃ s' a self',
     Screen._subw_init float_screen (greedy 0 "taglist") 0 0 0 80 = Ok s' ∧
     Screen.heap s' !! 0%nat = Some a ∧
     TextBox.apply_all thirty_lines
       (TextBox.init "textbox" (pad a) {["textbox_offset" := TextBox.Int 0]})
       [TextBox.do_refresh] = Ok self' ∧
     (TextBoxDraw.redraw calls_return self' (callbacks a)).2
       = Raise curses_error).
Proof.
  split.
  - pose proof (subw_init_Ok float_screen (greedy 0 "taglist") 0 0 9 80
                  ltac:(lia) ltac:(lia)) as Hinit.
    match type of Hinit with
    | _ = Ok ?s =>
        eassert (Ha : Screen.heap s !! wid (greedy 0 "taglist") = Some _)
          by apply lookup_insert_eq
    end.
    eassert (Hrun : TextBox.apply_all thirty_lines fresh_box
                      [TextBox.do_refresh] = Ok _)
      by (vm_compute; reflexivity).
    destruct (bottom_border_last_line thirty_lines calls_return float_screen _
                (greedy 0 "taglist") 0 0 9 80 _ fresh_box _ [] 0
                false false false
                Hinit Ha eq_refl ltac:(vm_compute; reflexivity) ltac:(lia)
                Hrun eq_refl eq_refl eq_refl)
      as (fp & Hfp & Hgood & _).
    vm_compute in Hfp. injection Hfp as <-.
    destruct Hgood as (y & pre & Hdraw & Hg & Hr & _ & Hy).
    { cbn. split; [discriminate|lia]. }
    cbn in Hy. subst y.
    eexists _, _, _, _. split; [exact Hinit|]. split; [exact Ha|].
    split; [exact Hrun|]. split; [exact Hdraw|]. split; [exact Hg|exact Hr].
  - pose proof (subw_init_Ok float_screen (greedy 0 "taglist") 0 0 0 80
                  ltac:(lia) ltac:(lia)) as Hinit.
    match type of Hinit with
    | _ = Ok ?s =>
        eassert (Ha : Screen.heap s !! wid (greedy 0 "taglist") = Some _)
          by apply lookup_insert_eq
    end.
    pose (box := TextBox.init "textbox" {| maxy := 1; maxx := 80 |}
                   {["textbox_offset" := TextBox.Int 0]}).
    eassert (Hrun : TextBox.apply_all thirty_lines box [TextBox.do_refresh]
                    = Ok _)
      by (vm_compute; reflexivity).
    assert (Hoff : TextBox.get_offset box = Ok 0) by (vm_compute; reflexivity).
    destruct (bottom_border_last_line thirty_lines calls_return float_screen _
                (greedy 0 "taglist") 0 0 0 80 _ box _ [] 0
                false false false
                Hinit Ha eq_refl Hoff ltac:(lia) Hrun eq_refl eq_refl eq_refl)
      as (fp & Hfp & _ & Hbad).
    eexists _, _, _. split; [exact Hinit|]. split; [exact Ha|].
    split; [exact Hrun|]. apply Hbad. cbn. intros [_ H]. lia.
Defined.

(** ** Text boxes and their variables *)

Lemma string_app_inj_r (s1 s2 t : string) : s1 +:+ t = s2 +:+ t → s1 = s2.
Proof.
  revert s2. induction s1 as [|c s1 IH]; intros [|c' s2] H.
  - reflexivity.
  - apply (f_equal String.length) in H.
    rewrite !string_length_app in H. simpl in H. lia.
  - apply (f_equal String.length) in H.
    rewrite !string_length_app in H. simpl in H. lia.
  - simpl in H. injection H as -> H. f_equal. apply IH, H.
Qed.

(** What a box that has set its offset and asked for a redraw has written
    to the store. *)
Lemma textbox_written (self : TextBox.t) (offset : Z) :
  let self' :=
    TextBox.set_var (TextBox.set_offset self offset) "needs_redraw"
      (TextBox.Bool true) in
  (∀ k, k ≠ TextBox.get_opt_name self +:+ "_offset" → k ≠ "needs_redraw" →
     TextBox.vars self' !! k = TextBox.vars self !! k) ∧
  TextBox.get_opt_name self' = TextBox.get_opt_name self ∧
  TextBox.vars self' !! "needs_redraw" = Some (TextBox.Bool true) ∧
  TextBox.vars self' !! (TextBox.get_opt_name self +:+ "_offset") =
    Some (TextBox.Int offset).
Proof.
  cbv zeta. unfold TextBox.set_offset, TextBox.set_var. simpl.
  split; [|split; [reflexivity|split]].
  - intros k Hk Hn. rewrite !lookup_insert_ne by congruence. reflexivity.
  - apply lookup_insert_eq.
  - rewrite lookup_insert_ne by (intros H; symmetry in H; revert H;
                                 apply offset_key_ne).
    apply lookup_insert_eq.
Qed.

Lemma textbox_apply_vars (render : TextBox.t → Z → Z)
    (self self' : TextBox.t) (o : TextBox.op) :
  TextBox.apply render self o = Ok self' →
  (∀ k, k ≠ TextBox.get_opt_name self +:+ "_offset" → k ≠ "needs_redraw" →
     TextBox.vars self' !! k = TextBox.vars self !! k) ∧
  TextBox.get_opt_name self' = TextBox.get_opt_name self ∧
  TextBox.vars self' !! "needs_redraw" = Some (TextBox.Bool true) ∧
  ∃ offset,
    TextBox.vars self' !! (TextBox.get_opt_name self +:+ "_offset") =
      Some (TextBox.Int offset).
Proof.
  intros Hrun.
  assert (Hscroll : ∀ factor,
            TextBox._relscroll self factor = Ok self' →
            ∃ offset, self' =
              TextBox.set_var (TextBox.set_offset self offset) "needs_redraw"
                (TextBox.Bool true)).
  { intros factor H. unfold TextBox._relscroll in H.
    destruct (TextBox.get_offset self) as [off|]; [|discriminate].
    rewrite bind_Ok in H. injection H as <-. eauto. }
  destruct o; simpl in Hrun.
  1-4: unfold TextBox.cmd_scroll_up, TextBox.cmd_scroll_down,
         TextBox.cmd_page_up, TextBox.cmd_page_down in Hrun;
       try (destruct (TextBox.self_height self);
            [rewrite bind_Ok in Hrun|discriminate]);
       destruct (Hscroll _ Hrun) as [offset ->];
       destruct (textbox_written self offset) as (H1 & H2 & H3 & H4);
       eauto 10.
  unfold TextBox.refresh in Hrun. cbv zeta in Hrun.
  destruct (newpad _ _) as [fp|]; [|discriminate].
  rewrite bind_Ok in Hrun.
  destruct (TextBox.get_offset _) as [off|]; [|discriminate].
  rewrite bind_Ok in Hrun. injection Hrun as <-.
  match goal with
  | |- context [TextBox.set_offset ?s ?v] =>
      destruct (textbox_written s v) as (H1 & H2 & H3 & H4)
  end.
  eauto 10.
Qed.

Lemma textbox_apply_all_vars (render : TextBox.t → Z → Z)
    (ops : list TextBox.op) :
  ∀ self self',
    TextBox.apply_all render self ops = Ok self' →
    (∀ k, k ≠ TextBox.get_opt_name self +:+ "_offset" → k ≠ "needs_redraw" →
       TextBox.vars self' !! k = TextBox.vars self !! k) ∧
    TextBox.get_opt_name self' = TextBox.get_opt_name self ∧
    (ops ≠ [] →
     TextBox.vars self' !! "needs_redraw" = Some (TextBox.Bool true) ∧
     ∃ offset,
       TextBox.vars self' !! (TextBox.get_opt_name self +:+ "_offset") =
         Some (TextBox.Int offset)).
Proof.
  induction ops as [|o ops IH]; intros self self' Hrun.
  - injection Hrun as <-. split; [reflexivity|]. split; [reflexivity|].
    congruence.
  - simpl in Hrun.
    destruct (TextBox.apply render self o) as [s1|] eqn:H1; [|discriminate].
    rewrite bind_Ok in Hrun.
    destruct (textbox_apply_vars render self s1 o H1) as (Hk1 & Hn1 & Hr1 & Ho1).
    destruct (IH s1 self' Hrun) as (Hk & Hn & Hlast).
    rewrite Hn1 in Hk, Hn, Hlast.
    split; [|split; [congruence|]].
    + intros k Hko Hkn. rewrite Hk by assumption. apply Hk1; assumption.
    + intros _. destruct ops as [|o' ops'].
      * injection Hrun as <-. auto.
      * apply Hlast. discriminate.
Qed.

(** X16. What a text box writes to the store of variables it shares with
    the rest of the interface, whatever scroll commands and refreshes it
    goes through: its own offset, under its option name, and
    [needs_redraw], which every command and every refresh sets to [True].
    Every other variable stays as it was; so the offsets of text boxes of
    other option names, as of the error box and the info box, are not
    touched. *)
Theorem textbox_offsets_apart (render : TextBox.t → Z → Z)
    (ops : list TextBox.op) (self self' : TextBox.t) :
  TextBox.apply_all render self ops = Ok self' →
  (∀ k, k ≠ TextBox.get_opt_name self +:+ "_offset" → k ≠ "needs_redraw" →
     TextBox.vars self' !! k = TextBox.vars self !! k) ∧
  (∀ name, name ≠ TextBox.get_opt_name self →
     TextBox.vars self' !! (name +:+ "_offset") =
     TextBox.vars self !! (name +:+ "_offset")) ∧
  (ops ≠ [] →
   TextBox.vars self' !! "needs_redraw" = Some (TextBox.Bool true) ∧
   ∃ offset,
     TextBox.vars self' !! (TextBox.get_opt_name self +:+ "_offset") =
       Some (TextBox.Int offset)).
Proof.
  intros Hrun.
  destruct (textbox_apply_all_vars render ops self self' Hrun)
    as (Hk & _ & Hlast).
  split; [exact Hk|]. split; [|exact Hlast].
  intros name Hname. apply Hk; [|apply offset_key_ne].
  intros Heq. apply Hname. eapply string_app_inj_r, Heq.
Qed.

(** The error box, refreshed and scrolled by a page and a line: its own
    offset is 11, that of the info box still 3, and a redraw is asked
    for. *)
Lemma textbox_offsets_apart_witness :
  ∃ self',
    TextBox.apply_all thirty_lines error_box
      [TextBox.do_refresh; TextBox.page_down; TextBox.scroll_down] = Ok self' ∧
    TextBox.vars self' !! "errorbox_offset" = Some (TextBox.Int 11) ∧
    TextBox.vars self' !! "infobox_offset" = Some (TextBox.Int 3) ∧
    TextBox.vars self' !! "needs_redraw" = Some (TextBox.Bool true).
Proof.
  eassert (Hrun : TextBox.apply_all thirty_lines error_box
                    [TextBox.do_refresh; TextBox.page_down; TextBox.scroll_down]
                  = Ok _) by (vm_compute; reflexivity).
  destruct (textbox_offsets_apart thirty_lines _ _ _ Hrun) as (_ & H & Hnr).
  eexists. split; [exact Hrun|]. split; [vm_compute; reflexivity|].
  split.
  - etrans; [exact (H "infobox" ltac:(discriminate))|vm_compute; reflexivity].
  - apply Hnr. discriminate.
Defined.

(** ** Text box: pages and lines *)

Section Pages.

Context (render : TextBox.t → Z → Z).

Lemma textbox_scroll_down_n (n : nat) :
  ∀ self off,
    TextBox.get_offset self = Ok off → 0 <= off <= TextBox.max_offset self →
    ∃ self',
      TextBox.apply_all render self (replicate n TextBox.scroll_down) = Ok self' ∧
      TextBox.max_offset self' = TextBox.max_offset self ∧
      TextBox.get_offset self' =
        Ok (Z.min (off + Z.of_nat n) (TextBox.max_offset self)).
Proof.
  induction n as [|n IH]; intros self off Hoff Hr.
  - exists self. split; [reflexivity|]. split; [reflexivity|].
    rewrite Hoff. f_equal. lia.
  - destruct (textbox_scroll_in_range self 1 off Hoff)
      as (s1 & H1 & Hm1 & _ & _ & Ho1 & _).
    destruct (IH s1 _ Ho1) as (self' & Hrun & Hm & Ho); [rewrite Hm1; lia|].
    exists self'. split; [|split; [congruence|]].
    + simpl. unfold TextBox.cmd_scroll_down. rewrite H1, bind_Ok. exact Hrun.
    + rewrite Ho, Hm1. f_equal. lia.
Qed.

Lemma textbox_scroll_up_n (n : nat) :
  ∀ self off,
    TextBox.get_offset self = Ok off → 0 <= off <= TextBox.max_offset self →
    ∃ self',
      TextBox.apply_all render self (replicate n TextBox.scroll_up) = Ok self' ∧
      TextBox.max_offset self' = TextBox.max_offset self ∧
      TextBox.get_offset self' = Ok (Z.max (off - Z.of_nat n) 0).
Proof.
  induction n as [|n IH]; intros self off Hoff Hr.
  - exists self. split; [reflexivity|]. split; [reflexivity|].
    rewrite Hoff. f_equal. lia.
  - destruct (textbox_scroll_in_range self (-1) off Hoff)
      as (s1 & H1 & Hm1 & _ & _ & Ho1 & _).
    destruct (IH s1 _ Ho1) as (self' & Hrun & Hm & Ho); [rewrite Hm1; lia|].
    exists self'. split; [|split; [congruence|]].
    + simpl. unfold TextBox.cmd_scroll_up. rewrite H1, bind_Ok. exact Hrun.
    + rewrite Ho. f_equal. lia.
Qed.

End Pages.

(** X17. On a refreshed text box of height at least 1 with its offset in
    range, a page down leaves the offset where as many line scrolls down as
    the height less one leave it, and a page up where as many line scrolls
    up leave it: the least of the offset plus that many and [max_offset],
    and the greatest of the offset less that many and 0. *)
Theorem textbox_page_is_lines (render : TextBox.t → Z → Z) (self : TextBox.t)
    (h off : Z) :
  TextBox.height self = Some h → 1 <= h →
  TextBox.get_offset self = Ok off → 0 <= off <= TextBox.max_offset self →
  ∃ down down' up up',
    TextBox.cmd_page_down self = Ok down ∧
    TextBox.apply_all render self
      (replicate (Z.to_nat (h - 1)) TextBox.scroll_down) = Ok down' ∧
    TextBox.get_offset down = Ok (Z.min (off + (h - 1)) (TextBox.max_offset self)) ∧
    TextBox.get_offset down' = TextBox.get_offset down ∧
    TextBox.cmd_page_up self = Ok up ∧
    TextBox.apply_all render self
      (replicate (Z.to_nat (h - 1)) TextBox.scroll_up) = Ok up' ∧
    TextBox.get_offset up = Ok (Z.max (off - (h - 1)) 0) ∧
    TextBox.get_offset up' = TextBox.get_offset up.
Proof.
  intros Hh H1 Hoff Hr.
  destruct (textbox_scroll_in_range self (h - 1) off Hoff)
    as (down & Hd & _ & _ & _ & Hdo & _).
  destruct (textbox_scroll_in_range self (-1 * (h - 1)) off Hoff)
    as (up & Hu & _ & _ & _ & Huo & _).
  destruct (textbox_scroll_down_n render (Z.to_nat (h - 1)) self off Hoff Hr)
    as (down' & Hd' & _ & Hdo').
  destruct (textbox_scroll_up_n render (Z.to_nat (h - 1)) self off Hoff Hr)
    as (up' & Hu' & _ & Huo').
  exists down, down', up, up'.
  unfold TextBox.cmd_page_down, TextBox.cmd_page_up, TextBox.self_height.
  rewrite Hh, !bind_Ok.
  split; [exact Hd|]. split; [exact Hd'|].
  assert (E1 : Z.max (Z.min (off + (h - 1)) (TextBox.max_offset self)) 0 =
               Z.min (off + (h - 1)) (TextBox.max_offset self)) by lia.
  assert (E2 : Z.max (Z.min (off + -1 * (h - 1)) (TextBox.max_offset self)) 0 =
               Z.max (off - (h - 1)) 0) by lia.
  rewrite E1 in Hdo. rewrite E2 in Huo.
  split; [exact Hdo|]. split; [rewrite Hdo', Hdo; f_equal; lia|].
  split; [exact Hu|]. split; [exact Hu'|].
  split; [exact Huo|]. rewrite Huo', Huo. f_equal. lia.
Qed.

Lemma textbox_page_is_lines_witness :
  ∃ down down',
    TextBox.cmd_page_down refreshed_box = Ok down ∧
    TextBox.apply_all thirty_lines refreshed_box
      (replicate 9 TextBox.scroll_down) = Ok down' ∧
    TextBox.get_offset down = Ok 9 ∧ TextBox.get_offset down' = Ok 9.
Proof.
  destruct (textbox_page_is_lines thirty_lines refreshed_box 10 0 eq_refl
              ltac:(lia) eq_refl ltac:(simpl; lia))
    as (down & down' & _ & _ & Hd & Hd' & Ho & Ho' & _).
  exists down, down'. split; [exact Hd|]. split; [exact Hd'|].
  rewrite Ho'. split; exact Ho.
Defined.

(** ** Tags: equality and the list of all tags *)

Section TagEquality.

Context {Story : Type} (story_eq : Story → Story → bool).

Lemma list_eq_nil_r (l : list Story) :
  Tag.list_eq story_eq l [] = match l with [] => true | _ => false end.
Proof. destruct l; reflexivity. Qed.

(** [remove] takes the first item that is the value or equal to it. *)
Lemma list_remove_Ok (objs : gmap nat (@Tag.t Story)) (l l' : list nat) (x : nat) :
  Tag.list_remove story_eq objs l x = Ok l' →
  ∃ i victim,
    l !! i = Some victim ∧ l' = delete i l ∧
    (victim = x ∨ Tag.eq_objects story_eq objs victim x = true) ∧
    ∀ j other, (j < i)%nat → l !! j = Some other →
      other ≠ x ∧ Tag.eq_objects story_eq objs other x = false.
Proof.
  revert l'. induction l as [|item l IH]; intros l' H; [discriminate|].
  simpl in H.
  destruct (Nat.eqb item x || Tag.eq_objects story_eq objs item x) eqn:Hm.
  - injection H as <-. exists O, item. split; [reflexivity|].
    split; [reflexivity|]. split.
    + apply orb_true_iff in Hm as [Hm|Hm]; [left; apply Nat.eqb_eq, Hm|auto].
    + intros j other Hj. lia.
  - destruct (Tag.list_remove story_eq objs l x) as [l''|] eqn:Hr;
      [|discriminate].
    rewrite bind_Ok in H. injection H as <-.
    destruct (IH l'' eq_refl) as (i & victim & Hi & -> & Hv & Hbefore).
    exists (S i), victim. split; [exact Hi|]. split; [reflexivity|].
    split; [exact Hv|]. intros j other Hj Hother.
    destruct j as [|j]; simpl in Hother.
    + injection Hother as <-. apply orb_false_iff in Hm as [Hne Heq].
      split; [apply Nat.eqb_neq, Hne|exact Heq].
    + apply (Hbefore j); [lia|exact Hother].
Qed.

End TagEquality.

(** [__eq__] by the stories of the other tag. *)
Lemma tag_eq_run {Story : Type} (story_eq : Story → Story → bool)
    (self other : @Tag.t Story) :
  Tag.is_tag other = true →
  Tag.__eq__ story_eq self other =
  match Tag.stories other with
  | [] => match Tag.stories self with [] => true | _ => false end
  | _ => String.eqb (Tag.tag self) (Tag.tag other) &&
         Tag.list_eq story_eq (Tag.stories self) (Tag.stories other)
  end.
Proof.
  intros Htag. unfold Tag.__eq__, Tag.truth. rewrite Htag.
  destruct (Tag.stories other) as [|y l]; simpl.
  - apply list_eq_nil_r.
  - destruct (String.eqb (Tag.tag self) (Tag.tag other)); reflexivity.
Qed.

(** X18. Against a tag without stories, [__eq__] comes down to the
    equality of lists and does not look at the names: a tag is equal to it
    exactly when it has no stories either, so two tags without stories are
    equal whatever their names.  Against a tag with stories, a tag is equal
    exactly when the names are the same and the stories are equal one by
    one. *)
Theorem tag_eq_cases {Story : Type} (story_eq : Story → Story → bool)
    (self other : @Tag.t Story) :
  Tag.is_tag other = true →
  Tag.__eq__ story_eq self other =
  match Tag.stories other with
  | [] => match Tag.stories self with [] => true | _ => false end
  | _ => String.eqb (Tag.tag self) (Tag.tag other) &&
         Tag.list_eq story_eq (Tag.stories self) (Tag.stories other)
  end.
Proof. apply tag_eq_run. Qed.

Lemma tag_eq_cases_witness :
  Tag.__eq__ ex_story_eq (new_tag "maintag:empty" [])
    (new_tag "maintag:other" []) = true.
Proof.
  rewrite (tag_eq_cases ex_story_eq (new_tag "maintag:empty" [])
             (new_tag "maintag:other" []) eq_refl).
  reflexivity.
Defined.

(** X19. [die] empties the tag before it looks for it in the list of all
    tags, and the equality of tags makes every tag without stories equal to
    a tag without stories.  So the tag that leaves the list is the first one
    that is the dying tag or has no stories: when a tag without stories
    stands before it, that tag leaves the list and the dying tag stays.
    The stories of the dying tag die in order, then the hooks are
    removed. *)
Theorem die_unregisters {Story : Type} (story_eq : Story → Story → bool)
    (w w' : @Tag.World Story) (self : nat)
    (effects : list (@Tag.Effect Story)) :
  (∀ n o, Tag.objects w !! n = Some o → Tag.is_tag o = true) →
  Tag.die story_eq w self = Ok (w', effects) →
  ∃ o i victim,
    Tag.objects w !! self = Some o ∧
    effects = (Tag.Story_die <$> Tag.stories o) ++ [Tag.unhook_all] ∧
    Tag.objects w' = <[self := Tag.set_stories o [] (Tag.created o)]> (Tag.objects w) ∧
    Tag.alltags w !! i = Some victim ∧
    Tag.alltags w' = delete i (Tag.alltags w) ∧
    (victim = self ∨
     ∃ o', Tag.objects w !! victim = Some o' ∧ Tag.stories o' = []) ∧
    ∀ j other, (j < i)%nat → Tag.alltags w !! j = Some other →
      other ≠ self ∧
      ∀ o', Tag.objects w !! other = Some o' → Tag.stories o' ≠ [].
Proof.
  intros Htags Hdie. unfold Tag.die in Hdie.
  destruct (Tag.objects w !! self) as [o|] eqn:Ho; [|discriminate].
  cbv zeta in Hdie.
  set (objs := <[self := Tag.set_stories o [] (Tag.created o)]> (Tag.objects w))
    in Hdie.
  destruct (Tag.list_remove story_eq objs (Tag.alltags w) self) as [l'|] eqn:Hr;
    [|discriminate].
  rewrite bind_Ok in Hdie. injection Hdie as <- <-.
  destruct (list_remove_Ok story_eq objs _ _ _ Hr)
    as (i & victim & Hi & -> & Hv & Hbefore).
  assert (Heq : ∀ n, n ≠ self →
            Tag.eq_objects story_eq objs n self =
            match Tag.objects w !! n with
            | Some o' => match Tag.stories o' with [] => true | _ => false end
            | None => false
            end).
  { intros n Hn. unfold Tag.eq_objects, objs.
    rewrite lookup_insert_ne by congruence. rewrite lookup_insert_eq.
    destruct (Tag.objects w !! n) as [o'|]; [|reflexivity].
    rewrite tag_eq_run; [reflexivity|].
    simpl. apply (Htags self o Ho). }
  exists o, i, victim. repeat (split; [reflexivity || assumption|]). split.
  - destruct (decide (victim = self)) as [->|Hne]; [left; reflexivity|].
    right. destruct Hv as [Hv|Hv]; [congruence|].
    rewrite (Heq victim Hne) in Hv.
    destruct (Tag.objects w !! victim) as [o'|]; [|discriminate].
    exists o'. split; [reflexivity|].
    destruct (Tag.stories o'); [reflexivity|discriminate].
  - intros j other Hj Hother.
    destruct (Hbefore j other Hj Hother) as [Hne Hf].
    split; [exact Hne|]. intros o' Ho' Hnil.
    rewrite (Heq other Hne), Ho', Hnil in Hf. discriminate.
Qed.

(** The tag with a story dies: the tag without stories before it leaves the
    list of all tags in its place. *)
Lemma two_tags_are_tags (n : nat) (o : @Tag.t (nat * string)) :
  Tag.objects two_tags !! n = Some o → Tag.is_tag o = true.
Proof.
  unfold two_tags; simpl. intros Hn.
  apply lookup_insert_Some in Hn as [[_ <-]|[_ Hn]]; [reflexivity|].
  apply lookup_singleton_Some in Hn as [_ <-]. reflexivity.
Qed.

Lemma die_unregisters_witness :
  ∃ w' effects,
    Tag.die ex_story_eq two_tags 2 = Ok (w', effects) ∧
    Tag.alltags w' = [2%nat].
Proof.
  eassert (Hdie : Tag.die ex_story_eq two_tags 2 = Ok (_, _))
    by (vm_compute; reflexivity).
  destruct (die_unregisters ex_story_eq two_tags _ 2 _
              two_tags_are_tags Hdie)
    as (o & i & victim & _ & _ & _ & _ & Hall & _).
  eexists _, _. split; [exact Hdie|]. reflexivity.
Defined.

(** ** Tags: [sync] *)

Section TagSync.

Context {Story : Type}.
Context (id : Story → string) (story_eq story_lt : Story → Story → bool).
Context (Story_new : string → nat → Story) (is_sel : Story → bool).
Context (ack_changes changed : Tag.TagCore → Tag.TagCore).

(** The first loop keeps, in their order, the stories the tagcore still has
    and the selected one, and leaves the identifiers of the tagcore alone. *)
Lemma sync_kept_loop (tc0 tc : Tag.TagCore) (cur : list (Q * Story))
    (l : list Story) :
  flag_only changed →
  Tag.ids tc = Tag.ids tc0 → Tag.was_reset tc = Tag.was_reset tc0 →
  Tag.ids (foldl (Tag.sync_kept id is_sel changed) (tc, cur) l).1 = Tag.ids tc0 ∧
  Tag.was_reset (foldl (Tag.sync_kept id is_sel changed) (tc, cur) l).1
    = Tag.was_reset tc0 ∧
  (foldl (Tag.sync_kept id is_sel changed) (tc, cur) l).2.*2
    = cur.*2 ++ List.filter (kept id is_sel tc0) l.
Proof.
  intros Hch. revert tc cur. induction l as [|s l IH]; intros tc cur Hids Hwr.
  - simpl. rewrite app_nil_r. auto.
  - simpl. unfold Tag.sync_kept at 2 4 6. unfold kept at 1. simpl.
    rewrite Hids.
    destruct (bool_decide (id s ∈ Tag.ids tc0)) eqn:Hin; simpl.
    + destruct (IH tc (cur ++ [(inject_Z (Z.of_nat (Tag.index_of (Tag.ids tc0) (id s))), s)])
                  Hids Hwr) as (H1 & H2 & H3).
      rewrite H1, H2, H3. rewrite fmap_app, <- app_assoc. auto.
    + destruct (is_sel s) eqn:Hsel.
      * destruct (Hch tc) as [Hc1 Hc2].
        match goal with
        | |- context [foldl _ (changed tc, ?c) l] =>
            destruct (IH (changed tc) c) as (H1 & H2 & H3);
              [congruence|congruence|]
        end.
        rewrite H1, H2, H3. rewrite fmap_app, <- app_assoc. auto.
      * apply IH; assumption.
Qed.

(** Without a selected story that is gone from the tagcore, the first loop
    gives each kept story its place in the tagcore and does not touch the
    tagcore. *)
Lemma sync_kept_loop_places (tc : Tag.TagCore) (cur : list (Q * Story))
    (l : list Story) :
  no_undead id is_sel tc l →
  foldl (Tag.sync_kept id is_sel changed) (tc, cur) l =
  (tc, cur ++ ((λ s, (place_in id tc s, s)) <$>
               List.filter (λ s, bool_decide (id s ∈ Tag.ids tc)) l)).
Proof.
  revert cur. induction l as [|s l IH]; intros cur Hno.
  - simpl. rewrite app_nil_r. reflexivity.
  - simpl. unfold Tag.sync_kept at 2. simpl.
    assert (Hno' : no_undead id is_sel tc l).
    { intros s' Hin. apply Hno. right. exact Hin. }
    destruct (bool_decide (id s ∈ Tag.ids tc)) eqn:Hin.
    + rewrite IH by exact Hno'. simpl. rewrite <- app_assoc. reflexivity.
    + destruct (is_sel s) eqn:Hsel.
      * apply bool_decide_eq_false in Hin. destruct Hin.
        apply Hno; [left|exact Hsel].
      * apply IH, Hno'.
Qed.

(** The second loop appends a new story for each identifier that no story
    has, at the place of the identifier. *)
Lemma sync_new_loop (ps : list (nat * string)) (cur : list (Q * Story))
    (added : list Story) (n : nat) :
  new_has_id id Story_new →
  NoDup ps.*2 →
  ∃ new,
    (foldl (Tag.sync_new id Story_new) (cur, added, n) ps).1.1 = cur ++ new ∧
    (foldl (Tag.sync_new id Story_new) (cur, added, n) ps).1.2
      = added ++ new.*2 ∧
    Forall2 (λ x p, x.1 = inject_Z (Z.of_nat p.1) ∧ id x.2 = p.2) new
      (List.filter (λ p, negb (bool_decide (p.2 ∈ id <$> cur.*2))) ps).
Proof.
  intros Hnew. revert cur added n.
  induction ps as [|p ps IH]; intros cur added n Hnd.
  - exists []. simpl. rewrite !app_nil_r. auto.
  - rewrite fmap_cons in Hnd. apply NoDup_cons in Hnd as [Hp Hnd].
    simpl. unfold Tag.sync_new at 2 4. simpl.
    destruct (bool_decide (p.2 ∈ id <$> cur.*2)) eqn:Hin; simpl.
    + apply IH, Hnd.
    + destruct (IH (cur ++ [(inject_Z (Z.of_nat p.1), Story_new p.2 n)])
                  (added ++ [Story_new p.2 n]) (S n) Hnd)
        as (new & H1 & H2 & H3).
      exists ((inject_Z (Z.of_nat p.1), Story_new p.2 n) :: new).
      rewrite H1, H2, <- !app_assoc. split; [reflexivity|].
      split; [reflexivity|].
      constructor; [split; [reflexivity|apply Hnew]|].
      rewrite (List.filter_ext_in
                 (λ p0 : nat * string,
                    negb (bool_decide (p0.2 ∈ id <$> cur.*2)))
                 (λ p0 : nat * string,
                    negb (bool_decide
                            (p0.2 ∈ id <$>
                               (cur ++ [(inject_Z (Z.of_nat p.1),
                                         Story_new p.2 n)]).*2))));
        [exact H3|].
      intros q Hq. f_equal. apply bool_decide_ext.
      rewrite !fmap_app, elem_of_app. simpl. rewrite Hnew.
      rewrite list_elem_of_singleton.
      split; [auto|]. intros [Hq'|Hq']; [exact Hq'|].
      destruct Hp. rewrite <- Hq'. apply list_elem_of_fmap.
      exists q. split; [reflexivity|]. apply list_elem_of_In, Hq.
Qed.

Lemma Forall2_filter_snd (seen : list string) (new : list (Q * Story))
    (ps : list (nat * string)) :
  Forall2 (λ x p, x.1 = inject_Z (Z.of_nat p.1) ∧ id x.2 = p.2) new
    (List.filter (λ p, negb (bool_decide (p.2 ∈ seen))) ps) →
  id <$> new.*2 = List.filter (λ i, negb (bool_decide (i ∈ seen))) ps.*2.
Proof.
  revert new. induction ps as [|p ps IH]; intros new H; simpl in *.
  - inversion H. reflexivity.
  - destruct (negb (bool_decide (p.2 ∈ seen))).
    + inversion H as [|x p' new' ps' [_ Hx] Hrest]; subst. simpl.
      rewrite Hx. f_equal. apply IH, Hrest.
    + apply IH, H.
Qed.

(** X20. A [sync] that runs and does not sort (the style of updates is not
    [maintain] and the tagcore was not reset) does not follow the order of
    the tagcore: the tag keeps, in the order it had them, its stories whose
    identifier the tagcore still has and the selected one, and after them
    come new stories, one for each other identifier of the tagcore, in the
    order of the tagcore.  The new stories are those the hook
    [curses_stories_added] is called with. *)
Theorem sync_unsorted (style : string) (self : Tag.t) (tc : Tag.TagCore)
    (force : bool) :
  flag_only ack_changes → flag_only changed → new_has_id id Story_new →
  force || Tag.changes tc = true →
  String.eqb style "maintain" || Tag.was_reset tc = false →
  NoDup (Tag.ids tc) →
  ∃ added,
    Tag.stories
      (Tag.sync id story_eq story_lt Story_new is_sel ack_changes changed
         style self tc force).1.1
    = List.filter (kept id is_sel tc) (Tag.stories self) ++ added ∧
    id <$> added =
      List.filter
        (λ i, negb (bool_decide
                      (i ∈ id <$> List.filter (kept id is_sel tc)
                                    (Tag.stories self))))
        (Tag.ids tc) ∧
    Tag.call_hook "curses_stories_added" added ∈
      (Tag.sync id story_eq story_lt Story_new is_sel ack_changes changed
         style self tc force).2.
Proof.
  intros Hack Hch Hnew Hforce Hstyle Hnd.
  unfold Tag.sync. rewrite Hforce. cbv zeta.
  destruct (Hack tc) as [Ha1 Ha2].
  destruct (sync_kept_loop tc (ack_changes tc) [] (Tag.stories self) Hch Ha1 Ha2)
    as (H1 & H2 & H3).
  set (r1 := foldl (Tag.sync_kept id is_sel changed) (ack_changes tc, [])
               (Tag.stories self)) in *.
  rewrite H1, H2. apply orb_false_iff in Hstyle as [Hs Hw].
  rewrite Hs, Hw. simpl orb. cbv iota.
  destruct (sync_new_loop (enumerate (Tag.ids tc)) r1.2 [] (Tag.created self) Hnew)
    as (new & N1 & N2 & N3).
  { unfold enumerate. rewrite enumerate_from_snd. exact Hnd. }
  exists new.*2. simpl. rewrite N1, N2. simpl.
  rewrite fmap_app, H3. simpl. split; [reflexivity|]. split.
  - rewrite (Forall2_filter_snd _ _ _ N3). rewrite H3. simpl.
    unfold enumerate. rewrite enumerate_from_snd. reflexivity.
  - rewrite !elem_of_cons. auto.
Qed.

End TagSync.

Section TagSyncSorted.

Context {Story : Type}.
Context (id : Story → string) (story_eq story_lt : Story → Story → bool).
Context (Story_new : string → nat → Story) (is_sel : Story → bool).
Context (ack_changes changed : Tag.TagCore → Tag.TagCore).

Lemma index_of_lookup (l : list string) (x : string) :
  x ∈ l → l !! Tag.index_of l x = Some x.
Proof.
  induction l as [|y l IH]; intros Hin; [inversion Hin|].
  simpl. destruct (String.eqb y x) eqn:Heq.
  - apply String.eqb_eq in Heq. subst. reflexivity.
  - apply String.eqb_neq in Heq. simpl. apply IH.
    apply elem_of_cons in Hin as [Hin|Hin]; [congruence|exact Hin].
Qed.

Lemma index_of_NoDup (l : list string) (i : nat) (x : string) :
  NoDup l → l !! i = Some x → Tag.index_of l x = i.
Proof.
  intros Hnd Hi.
  apply (NoDup_lookup l _ _ x Hnd); [|exact Hi].
  apply index_of_lookup. apply list_elem_of_lookup. exists i. exact Hi.
Qed.

Lemma index_of_inj (l : list string) (x y : string) :
  x ∈ l → y ∈ l → Tag.index_of l x = Tag.index_of l y → x = y.
Proof.
  intros Hx Hy Heq. apply index_of_lookup in Hx, Hy.
  rewrite Heq in Hx. congruence.
Qed.

(** A list that has the items of [ids], each once, in the order of their
    indices in [ids], is [ids]. *)
Lemma sorted_by_index (ids L : list string) :
  NoDup ids → NoDup L → (∀ x, x ∈ L ↔ x ∈ ids) →
  StronglySorted lt (Tag.index_of ids <$> L) →
  L = ids.
Proof.
  revert L. induction ids as [|i ids IH]; intros L Hids HL Hsame Hsorted.
  - destruct L as [|x L]; [reflexivity|].
    exfalso. eapply not_elem_of_nil, Hsame. left.
  - apply NoDup_cons in Hids as [Hi Hids].
    destruct L as [|x L].
    { exfalso. eapply not_elem_of_nil, Hsame. left. }
    apply NoDup_cons in HL as [Hx HL].
    rewrite fmap_cons in Hsorted.
    apply StronglySorted_inv in Hsorted as [Hsorted Hhd].
    assert (x = i) as ->.
    { destruct (decide (x = i)) as [|Hne]; [assumption|exfalso].
      assert (Hin : i ∈ L).
      { assert (H : i ∈ x :: L) by (apply Hsame; left).
        apply elem_of_cons in H as [H|H]; [congruence|exact H]. }
      rewrite List.Forall_forall in Hhd.
      specialize (Hhd (Tag.index_of (i :: ids) i)).
      simpl in Hhd. rewrite String.eqb_refl in Hhd.
      assert (H0 : In O (Tag.index_of (i :: ids) <$> L)).
      { apply list_elem_of_In, list_elem_of_fmap. exists i.
        simpl. rewrite String.eqb_refl. auto. }
      specialize (Hhd H0). lia. }
    f_equal. apply IH; [exact Hids|exact HL| |].
    + intros y. split; intros Hy.
      * assert (H : y ∈ i :: ids) by (apply Hsame; right; exact Hy).
        apply elem_of_cons in H as [->|H]; [contradiction|exact H].
      * assert (H : y ∈ i :: L) by (apply Hsame; right; exact Hy).
        apply elem_of_cons in H as [->|H]; [contradiction|exact H].
    + assert (Hmap : Tag.index_of (i :: ids) <$> L
                     = S <$> (Tag.index_of ids <$> L)).
      { rewrite <- list_fmap_compose. apply list_fmap_ext.
        intros j y Hy. simpl.
        destruct (String.eqb i y) eqn:Heq; [|reflexivity].
        apply String.eqb_eq in Heq. subst.
        destruct Hx. apply list_elem_of_lookup. exists j. exact Hy. }
      rewrite Hmap in Hsorted. clear -Hsorted.
      induction (Tag.index_of ids <$> L) as [|a l IHl]; [constructor|].
      rewrite fmap_cons in Hsorted.
      apply StronglySorted_inv in Hsorted as [Hs Hh].
      constructor; [apply IHl, Hs|].
      rewrite List.Forall_forall in *. intros b Hb.
      assert (S a < S b)%nat; [|lia].
      apply Hh. apply list_elem_of_In, list_elem_of_fmap.
      exists b. split; [reflexivity|apply list_elem_of_In, Hb].
Qed.

(** On two entries with different keys, the order of tuples is the order
    of the keys: the stories are not compared. *)
Lemma tuple_lt_keys (key : Q * Story → nat) (x y : Q * Story) :
  has_key key x → has_key key y → key x ≠ key y →
  Tag.tuple_lt story_eq story_lt x y = (key x <? key y)%nat.
Proof.
  unfold has_key, Tag.tuple_lt. intros -> -> Hne.
  destruct (Qeq_bool _ _) eqn:Heq.
  - apply Qeq_bool_iff in Heq. apply (proj1 (inject_Z_injective _ _)) in Heq. lia.
  - clear Heq. destruct (Qle_bool _ _) eqn:Hle; simpl; symmetry.
    + apply Qle_bool_iff in Hle. rewrite <- Zle_Qle in Hle.
      apply Nat.ltb_ge. lia.
    + apply Nat.ltb_lt.
      destruct (decide (key x < key y)%nat) as [|Hge]; [assumption|exfalso].
      assert (Hq : Qle_bool (inject_Z (Z.of_nat (key y)))
                     (inject_Z (Z.of_nat (key x))) = true).
      { apply Qle_bool_iff. rewrite <- Zle_Qle. lia. }
      congruence.
Qed.

Lemma insert_keys (key : Q * Story → nat) (x : Q * Story)
    (l : list (Q * Story)) :
  has_key key x → Forall (has_key key) l →
  key x ∉ key <$> l →
  StronglySorted lt (key <$> l) →
  Tag.insert story_eq story_lt x l ≡ₚ x :: l ∧
  StronglySorted lt (key <$> Tag.insert story_eq story_lt x l).
Proof.
  intros Hx. induction l as [|y l IH]; intros Hl Hnin Hsorted.
  - simpl. split; [reflexivity|]. repeat constructor.
  - apply Forall_cons in Hl as [Hy Hl].
    rewrite fmap_cons in Hnin. apply not_elem_of_cons in Hnin as [Hne Hnin].
    rewrite fmap_cons in Hsorted.
    apply StronglySorted_inv in Hsorted as [Hs Hh].
    simpl. rewrite (tuple_lt_keys key y x Hy Hx) by congruence.
    destruct (key y <? key x)%nat eqn:Hlt.
    + destruct (IH Hl Hnin Hs) as [Hperm Hsort].
      split; [rewrite Hperm; apply perm_swap|].
      rewrite fmap_cons. constructor; [exact Hsort|].
      apply List.Forall_forall. intros k Hk.
      apply list_elem_of_In in Hk. rewrite Hperm in Hk.
      rewrite fmap_cons in Hk. apply elem_of_cons in Hk as [->|Hk].
      * apply Nat.ltb_lt, Hlt.
      * rewrite List.Forall_forall in Hh.
        apply Hh, list_elem_of_In, Hk.
    + apply Nat.ltb_ge in Hlt. split; [reflexivity|].
      rewrite !fmap_cons. constructor.
      * constructor; assumption.
      * constructor; [lia|].
        rewrite List.Forall_forall in *. intros k Hk.
        specialize (Hh k Hk). lia.
Qed.

(** [sort] on entries with different keys: the same entries, in the order
    of their keys. *)
Lemma sort_keys (key : Q * Story → nat) (l : list (Q * Story)) :
  Forall (has_key key) l → NoDup (key <$> l) →
  Tag.sort story_eq story_lt l ≡ₚ l ∧
  StronglySorted lt (key <$> Tag.sort story_eq story_lt l).
Proof.
  induction l as [|x l IH]; intros Hl Hnd.
  - simpl. split; [reflexivity|constructor].
  - apply Forall_cons in Hl as [Hx Hl].
    rewrite fmap_cons in Hnd. apply NoDup_cons in Hnd as [Hnin Hnd].
    destruct (IH Hl Hnd) as [Hperm Hsorted]. simpl.
    destruct (insert_keys key x (Tag.sort story_eq story_lt l) Hx)
      as [Hperm' Hsorted'].
    + rewrite Hperm. exact Hl.
    + rewrite Hperm. exact Hnin.
    + exact Hsorted.
    + split; [rewrite Hperm', Hperm; reflexivity|exact Hsorted'].
Qed.

Lemma NoDup_fmap_filter {A B} (f : A → B) (g : A → bool) (l : list A) :
  NoDup (f <$> l) → NoDup (f <$> List.filter g l).
Proof.
  induction l as [|x l IH]; intros Hnd; [constructor|].
  rewrite fmap_cons in Hnd. apply NoDup_cons in Hnd as [Hx Hnd]. simpl.
  destruct (g x); [|apply IH, Hnd].
  rewrite fmap_cons. apply NoDup_cons. split; [|apply IH, Hnd].
  intros Hin. apply Hx. apply list_elem_of_fmap in Hin as (y & -> & Hy).
  apply list_elem_of_fmap. exists y. split; [reflexivity|].
  apply list_elem_of_In in Hy. apply List.filter_In in Hy as [Hy _].
  apply list_elem_of_In, Hy.
Qed.

Lemma NoDup_List_filter {A} (g : A → bool) (l : list A) :
  NoDup l → NoDup (List.filter g l).
Proof.
  intros Hnd. rewrite <- (list_fmap_id (List.filter g l)).
  apply NoDup_fmap_filter. rewrite list_fmap_id. exact Hnd.
Qed.

(** X21. A [sync] that runs and sorts (the style of updates is [maintain],
    or the tagcore was reset), on a tag whose stories have different
    identifiers and whose selected story, if it has one, is still in the
    tagcore: the identifiers of the stories of the tag are then those of
    the tagcore, in the same order; the mark of the reset is taken off; and
    each story whose identifier the tagcore has is still in the tag, the
    same object. *)
Theorem sync_sorted (style : string) (self : Tag.t) (tc : Tag.TagCore)
    (force : bool) :
  flag_only ack_changes → flag_only changed → new_has_id id Story_new →
  force || Tag.changes tc = true →
  String.eqb style "maintain" || Tag.was_reset tc = true →
  NoDup (Tag.ids tc) →
  NoDup (id <$> Tag.stories self) →
  no_undead id is_sel tc (Tag.stories self) →
  id <$> Tag.stories
           (Tag.sync id story_eq story_lt Story_new is_sel ack_changes changed
              style self tc force).1.1
  = Tag.ids tc ∧
  Tag.was_reset
    (Tag.sync id story_eq story_lt Story_new is_sel ack_changes changed
       style self tc force).1.2 = false ∧
  ∀ s, s ∈ Tag.stories self → id s ∈ Tag.ids tc →
       s ∈ Tag.stories
             (Tag.sync id story_eq story_lt Story_new is_sel ack_changes
                changed style self tc force).1.1.
Proof.
  intros Hack Hch Hnew Hforce Hstyle Hnd Hold Hno.
  unfold Tag.sync. rewrite Hforce. cbv zeta.
  destruct (Hack tc) as [Ha1 Ha2].
  assert (Hno' : no_undead id is_sel (ack_changes tc) (Tag.stories self)).
  { unfold no_undead. rewrite Ha1. exact Hno. }
  rewrite (sync_kept_loop_places id is_sel changed (ack_changes tc) []
             (Tag.stories self) Hno').
  cbn [fst snd app]. rewrite Ha1, Ha2, Hstyle. cbv iota.
  set (keptl := (λ s, (place_in id (ack_changes tc) s, s)) <$>
                List.filter (λ s, bool_decide (id s ∈ Tag.ids tc))
                  (Tag.stories self)).
  destruct (sync_new_loop id Story_new (enumerate (Tag.ids tc)) keptl []
              (Tag.created self) Hnew) as (new & N1 & N2 & N3).
  { unfold enumerate. rewrite enumerate_from_snd. exact Hnd. }
  rewrite N1. cbn [fst snd Tag.stories Tag.need_refresh Tag.set_stories
                   Tag.set_updates_pending Tag.set_was_reset Tag.was_reset].
  set (key := λ x : Q * Story, Tag.index_of (Tag.ids tc) (id x.2)).
  assert (Hkept2 : keptl.*2 = List.filter (λ s, bool_decide (id s ∈ Tag.ids tc))
                                (Tag.stories self)).
  { unfold keptl. rewrite <- list_fmap_compose. apply list_fmap_id. }
  assert (Hnewids : id <$> new.*2
                    = List.filter
                        (λ i, negb (bool_decide (i ∈ id <$> keptl.*2)))
                        (Tag.ids tc)).
  { rewrite (Forall2_filter_snd id _ _ _ N3).
    unfold enumerate. rewrite enumerate_from_snd. reflexivity. }
  assert (Hkey : Forall (has_key key) (keptl ++ new)).
  { apply Forall_app. split.
    - unfold keptl. apply Forall_fmap, Forall_forall. intros s _.
      unfold has_key, key, place_in. simpl. rewrite Ha1. reflexivity.
    - clear -N3 Hnd. apply Forall_forall. intros x Hx.
      apply list_elem_of_lookup_1 in Hx as [k Hx].
      destruct (Forall2_lookup_l _ _ _ _ _ N3 Hx) as (p & Hp & Hx1 & Hx2).
      apply list_elem_of_lookup_2, list_elem_of_In, List.filter_In in Hp
        as [Hp _].
      apply list_elem_of_In in Hp. destruct p as [i j].
      apply elem_of_enumerate_from in Hp as [_ Hp].
      rewrite Nat.sub_0_r in Hp. simpl in *.
      unfold has_key, key. rewrite Hx1, Hx2.
      rewrite (index_of_NoDup _ _ _ Hnd Hp). reflexivity. }
  assert (Hids_in : ∀ x, x ∈ id <$> (keptl ++ new).*2 ↔ x ∈ Tag.ids tc).
  { intros x. rewrite !fmap_app, elem_of_app, Hnewids, Hkept2. split.
    - intros [H|H].
      + apply list_elem_of_fmap in H as (s & -> & Hs).
        apply list_elem_of_In, List.filter_In in Hs as [_ Hs].
        apply bool_decide_eq_true in Hs. exact Hs.
      + apply list_elem_of_In, List.filter_In in H as [H _].
        apply list_elem_of_In, H.
    - intros Hx.
      destruct (decide (x ∈ id <$> List.filter
                               (λ s, bool_decide (id s ∈ Tag.ids tc))
                               (Tag.stories self))) as [Hin|Hnin];
        [left; exact Hin|right].
      apply list_elem_of_In, List.filter_In. split.
      + apply list_elem_of_In, Hx.
      + rewrite bool_decide_eq_false_2 by exact Hnin. reflexivity. }
  assert (Hids_nd : NoDup (id <$> (keptl ++ new).*2)).
  { rewrite !fmap_app. apply NoDup_app. split; [|split].
    - rewrite Hkept2. apply NoDup_fmap_filter, Hold.
    - intros x Hx. rewrite Hnewids. intros Hx'.
      apply list_elem_of_In, List.filter_In in Hx' as [_ Hx'].
      rewrite bool_decide_eq_true_2 in Hx' by exact Hx. discriminate.
    - rewrite Hnewids. apply NoDup_List_filter, Hnd. }
  assert (Hkey_nd : NoDup (key <$> (keptl ++ new))).
  { replace (key <$> (keptl ++ new))
      with (Tag.index_of (Tag.ids tc) <$> (id <$> (keptl ++ new).*2))
      by (rewrite <- !list_fmap_compose; reflexivity).
    apply NoDup_fmap_2_strong; [|exact Hids_nd].
    intros x y Hx Hy. apply index_of_inj; apply Hids_in; assumption. }
  destruct (sort_keys key (keptl ++ new) Hkey Hkey_nd)
    as [Hperm Hsorted].
  split; [|split; [reflexivity|]].
  - apply sorted_by_index.
    + exact Hnd.
    + rewrite Hperm. exact Hids_nd.
    + intros x. rewrite Hperm. apply Hids_in.
    + rewrite <- !list_fmap_compose. exact Hsorted.
  - intros s Hs Hin. rewrite Hperm, fmap_app, Hkept2.
    apply elem_of_app. left. apply list_elem_of_In, List.filter_In.
    split; [apply list_elem_of_In, Hs|].
    apply bool_decide_eq_true_2, Hin.
Qed.

End TagSyncSorted.

Section TagSyncMembers.

Context {Story : Type}.
Context (id : Story → string) (story_eq story_lt : Story → Story → bool).
Context (Story_new : string → nat → Story) (is_sel : Story → bool).
Context (ack_changes changed : Tag.TagCore → Tag.TagCore).

Lemma insert_Permutation (x : Q * Story) (l : list (Q * Story)) :
  Tag.insert story_eq story_lt x l ≡ₚ x :: l.
Proof.
  induction l as [|y l IH]; simpl; [reflexivity|].
  destruct (Tag.tuple_lt story_eq story_lt y x); [|reflexivity].
  rewrite IH. apply perm_swap.
Qed.

(** [sort] keeps the entries, whatever the order of tuples is. *)
Lemma sort_Permutation (l : list (Q * Story)) :
  Tag.sort story_eq story_lt l ≡ₚ l.
Proof.
  induction l as [|x l IH]; simpl; [reflexivity|].
  rewrite insert_Permutation, IH. reflexivity.
Qed.

(** The second loop only appends, and when it is over every identifier it
    went through has a story. *)
Lemma sync_new_grows (ps : list (nat * string)) (cur : list (Q * Story))
    (added : list Story) (n : nat) :
  ∃ new,
    (foldl (Tag.sync_new id Story_new) (cur, added, n) ps).1.1 = cur ++ new.
Proof.
  revert cur added n. induction ps as [|p ps IH]; intros cur added n.
  - exists []. simpl. rewrite app_nil_r. reflexivity.
  - simpl. unfold Tag.sync_new at 2. simpl.
    destruct (bool_decide (p.2 ∈ id <$> cur.*2)); simpl; [apply IH|].
    destruct (IH (cur ++ [(inject_Z (Z.of_nat p.1), Story_new p.2 n)])
                (added ++ [Story_new p.2 n]) (S n)) as [new Hnew].
    rewrite Hnew, <- app_assoc. eauto.
Qed.

Lemma sync_new_covers (ps : list (nat * string)) (cur : list (Q * Story))
    (added : list Story) (n : nat) (p : nat * string) :
  new_has_id id Story_new →
  p ∈ ps →
  p.2 ∈ id <$> (foldl (Tag.sync_new id Story_new) (cur, added, n) ps).1.1.*2.
Proof.
  intros Hnew. revert cur added n.
  induction ps as [|q ps IH]; intros cur added n Hp; [inversion Hp|].
  apply elem_of_cons in Hp as [->|Hp];
    [|simpl; destruct (Tag.sync_new id Story_new (cur, added, n) q)
        as [[c a] m]; apply IH, Hp].
  simpl. unfold Tag.sync_new at 2. simpl.
  destruct (bool_decide (q.2 ∈ id <$> cur.*2)) eqn:Hin; simpl.
  - apply bool_decide_eq_true in Hin.
    destruct (sync_new_grows ps cur added n) as [new ->].
    rewrite !fmap_app. apply elem_of_app. left. exact Hin.
  - destruct (sync_new_grows ps
                (cur ++ [(inject_Z (Z.of_nat q.1), Story_new q.2 n)])
                (added ++ [Story_new q.2 n]) (S n)) as [new ->].
    rewrite !fmap_app. simpl. rewrite Hnew.
    apply elem_of_app. left. apply elem_of_app. right. left.
Qed.

Lemma Story_die_elem_of (s : Story) (added : list Story) (d l : list Story) :
  Tag.Story_die s ∈
    ([Tag.lock_acquire_read; Tag.lock_release_read;
      Tag.call_hook "curses_stories_added" added] ++
     (Tag.Story_die <$> d) ++ [Tag.call_hook "curses_stories_removed" d]) ++
    (Tag.Story_sync <$> l) →
  s ∈ d.
Proof.
  rewrite !elem_of_app, !elem_of_cons, !list_elem_of_fmap, elem_of_nil.
  intros [[[H|[H|[H|[]]]]|[H|[H|[]]]]|H]; try discriminate.
  - destruct H as (s' & [= ->] & H). exact H.
  - destruct H as (s' & H & _). discriminate.
Qed.

(** The stories of the tag after a [sync] that runs: those the two loops
    collect, and the stories that die are stories of the tag that are equal
    to none of them. *)
Lemma sync_collects (style : string) (self : Tag.t) (tc : Tag.TagCore)
    (force : bool) :
  flag_only ack_changes → flag_only changed →
  force || Tag.changes tc = true →
  ∃ (tc1 : Tag.TagCore) (cur : list (Q * Story)) (new : list (Q * Story)),
    Tag.ids tc1 = Tag.ids tc ∧
    cur.*2 = List.filter (kept id is_sel tc) (Tag.stories self) ∧
    (foldl (Tag.sync_new id Story_new) (cur, [], Tag.created self)
       (enumerate (Tag.ids tc1))).1.1 = cur ++ new ∧
    Tag.stories
      (Tag.sync id story_eq story_lt Story_new is_sel ack_changes changed
         style self tc force).1.1 ≡ₚ (cur ++ new).*2 ∧
    ∀ s, Tag.Story_die s ∈
         (Tag.sync id story_eq story_lt Story_new is_sel ack_changes changed
            style self tc force).2 →
         s ∈ Tag.stories self ∧
         existsb (λ x, story_eq x s)
           (Tag.stories
              (Tag.sync id story_eq story_lt Story_new is_sel ack_changes
                 changed style self tc force).1.1) = false.
Proof.
  intros Hack Hch Hforce.
  destruct (Hack tc) as [Ha1 Ha2].
  destruct (sync_kept_loop id is_sel changed tc (ack_changes tc) []
              (Tag.stories self) Hch Ha1 Ha2) as (H1 & H2 & H3).
  set (r1 := foldl (Tag.sync_kept id is_sel changed) (ack_changes tc, [])
               (Tag.stories self)) in *.
  destruct (sync_new_grows (enumerate (Tag.ids r1.1)) r1.2 []
              (Tag.created self)) as [new Hnew].
  exists r1.1, r1.2, new. split; [exact H1|]. split; [exact H3|].
  split; [exact Hnew|].
  unfold Tag.sync. rewrite Hforce. cbv zeta. fold r1. rewrite Hnew.
  destruct (String.eqb style "maintain" || Tag.was_reset r1.1);
    cbn [fst snd Tag.stories Tag.need_refresh Tag.set_stories
         Tag.set_updates_pending].
  - split; [rewrite sort_Permutation; reflexivity|].
    intros s Hs. apply Story_die_elem_of in Hs.
    apply list_elem_of_filter in Hs as [Hs1 Hs2]. auto.
  - split; [reflexivity|].
    intros s Hs. apply Story_die_elem_of in Hs.
    apply list_elem_of_filter in Hs as [Hs1 Hs2]. auto.
Qed.

Lemma existsb_elem_of (s : Story) (l : list Story) :
  (∀ x, story_eq x x = true) → s ∈ l →
  existsb (λ x, story_eq x s) l = true.
Proof.
  intros Hrefl Hin. apply List.existsb_exists. exists s.
  split; [apply list_elem_of_In, Hin|apply Hrefl].
Qed.

(** X22. Whatever the style and whether it runs or not, a [sync] keeps in
    the tag each story whose identifier the tagcore still has, and the
    selected story even when its identifier is gone from the tagcore; it
    calls [die] on none of them. *)
Theorem sync_spares_kept (style : string) (self : Tag.t) (tc : Tag.TagCore)
    (force : bool) (s : Story) :
  flag_only ack_changes → flag_only changed →
  (∀ x, story_eq x x = true) →
  s ∈ Tag.stories self → kept id is_sel tc s = true →
  s ∈ Tag.stories
        (Tag.sync id story_eq story_lt Story_new is_sel ack_changes changed
           style self tc force).1.1 ∧
  Tag.Story_die s ∉
    (Tag.sync id story_eq story_lt Story_new is_sel ack_changes changed
       style self tc force).2.
Proof.
  intros Hack Hch Hrefl Hs Hkept.
  destruct (force || Tag.changes tc) eqn:Hforce.
  - destruct (sync_collects style self tc force Hack Hch Hforce)
      as (tc1 & cur & new & _ & Hcur & _ & Hperm & Hdie).
    assert (Hin : s ∈ Tag.stories
                        (Tag.sync id story_eq story_lt Story_new is_sel
                           ack_changes changed style self tc force).1.1).
    { rewrite Hperm, fmap_app, Hcur. apply elem_of_app. left.
      apply list_elem_of_In, List.filter_In.
      split; [apply list_elem_of_In, Hs|exact Hkept]. }
    split; [exact Hin|]. intros Hd.
    destruct (Hdie s Hd) as [_ Hex].
    rewrite (existsb_elem_of s _ Hrefl Hin) in Hex. discriminate.
  - unfold Tag.sync. rewrite Hforce. simpl. split; [exact Hs|].
    intros Hd. apply list_elem_of_fmap in Hd as (s' & Hd & _). discriminate.
Qed.

(** X23. After a [sync] that runs, [get_id] finds a story for each
    identifier of the tagcore, and the story has this identifier. *)
Theorem sync_then_get_id (style : string) (self : Tag.t) (tc : Tag.TagCore)
    (force : bool) (i : string) :
  flag_only ack_changes → flag_only changed → new_has_id id Story_new →
  force || Tag.changes tc = true →
  i ∈ Tag.ids tc →
  ∃ s, Tag.get_id id
         (Tag.sync id story_eq story_lt Story_new is_sel ack_changes changed
            style self tc force).1.1 i = Some s ∧
       id s = i.
Proof.
  intros Hack Hch Hnew Hforce Hi.
  destruct (sync_collects style self tc force Hack Hch Hforce)
    as (tc1 & cur & new & Hids & _ & Hgrow & Hperm & _).
  assert (Hin : i ∈ id <$> Tag.stories
                  (Tag.sync id story_eq story_lt Story_new is_sel ack_changes
                     changed style self tc force).1.1).
  { rewrite Hperm, <- Hgrow.
    apply list_elem_of_lookup_1 in Hi as [k Hk].
    apply (sync_new_covers _ _ _ _ (k, i) Hnew).
    rewrite Hids. apply elem_of_enumerate_from.
    rewrite Nat.sub_0_r. split; [lia|exact Hk]. }
  apply list_elem_of_fmap in Hin as (s & -> & Hs). unfold Tag.get_id.
  destruct (List.find _ _) as [s'|] eqn:Hfind.
  - exists s'. split; [reflexivity|].
    apply List.find_some in Hfind as [_ Heq]. apply String.eqb_eq, Heq.
  - exfalso. apply list_elem_of_In in Hs.
    pose proof (List.find_none _ _ Hfind s Hs) as Hne. simpl in Hne.
    rewrite String.eqb_refl in Hne. discriminate.
Qed.

End TagSyncMembers.

(** ** Tags: the name *)

Lemma str_index_none (s : string) (c : Ascii.ascii) :
  has_char s c = false → Tag.str_index s c = Raise ValueError.
Proof.
  induction s as [|a s IH]; simpl; [reflexivity|].
  intros H. apply orb_false_iff in H as [Ha Hs].
  rewrite Ha, (IH Hs). reflexivity.
Qed.

Lemma str_index_first (prefix rest : string) (c : Ascii.ascii) :
  has_char prefix c = false →
  Tag.str_index (prefix +:+ String c rest) c = Ok (String.length prefix).
Proof.
  induction prefix as [|a p IH]; simpl.
  - intros _. rewrite Ascii.eqb_refl. reflexivity.
  - intros H. apply orb_false_iff in H as [Ha Hp].
    rewrite Ha, (IH Hp). reflexivity.
Qed.

Lemma str_from_app (prefix rest : string) :
  Tag.str_from (prefix +:+ rest) (String.length prefix) = rest.
Proof.
  induction prefix as [|a p IH]; simpl; [destruct rest; reflexivity|exact IH].
Qed.

(** X24. [__str__] gives the name of the tag after its first colon, and
    raises [ValueError] for a name without a colon. *)
Theorem str_after_colon {Story : Type} (self : @Tag.t Story) :
  (∀ prefix rest,
     Tag.tag self = prefix +:+ String Tag.colon rest →
     has_char prefix Tag.colon = false →
     Tag.__str__ self = Ok rest) ∧
  (has_char (Tag.tag self) Tag.colon = false →
   Tag.__str__ self = Raise ValueError).
Proof.
  unfold Tag.__str__. split.
  - intros prefix rest -> Hp. rewrite (str_index_first _ _ _ Hp), bind_Ok.
    f_equal. rewrite Nat.add_1_r. simpl.
    change (prefix +:+ String Tag.colon rest)
      with (prefix +:+ (String Tag.colon EmptyString +:+ rest)).
    clear Hp. induction prefix as [|a p IH]; simpl; [|exact IH].
    destruct rest; reflexivity.
  - intros H. rewrite (str_index_none _ _ H). reflexivity.
Qed.

(** ** Tags: [sync] on the examples *)

Lemma ex_ack_flag_only : flag_only ex_ack_changes.
Proof. intros tc. split; reflexivity. Qed.

Lemma ex_changed_flag_only : flag_only ex_changed.
Proof. intros tc. split; reflexivity. Qed.

Lemma ex_new_has_id : new_has_id ex_id ex_Story_new.
Proof. intros i n. reflexivity. Qed.

Lemma ex_story_eq_refl (x : nat * string) : ex_story_eq x x = true.
Proof. apply String.eqb_refl. Qed.

Lemma ex_tagcore_NoDup : NoDup (Tag.ids ex_tagcore).
Proof.
  simpl. repeat constructor; rewrite ?elem_of_cons, ?elem_of_nil;
    intuition discriminate.
Qed.

Lemma ex_tag_NoDup : NoDup (ex_id <$> Tag.stories ex_tag).
Proof.
  simpl. repeat constructor; rewrite ?elem_of_cons, ?elem_of_nil;
    intuition discriminate.
Qed.

Lemma ex_no_undead : no_undead ex_id (ex_is_sel None) ex_tagcore (Tag.stories ex_tag).
Proof. intros s _ Hsel. discriminate. Qed.

(** The tag has [a], [x] and [c], with [x] selected; the tagcore has [c],
    [a] and [b]: without a sort the tag comes to [a], [x], [c], [b]. *)
Lemma sync_unsorted_witness :
  ∃ added,
    Tag.stories
      (Tag.sync ex_id ex_story_eq ex_story_lt ex_Story_new
         (ex_is_sel (Some (1%nat, "x"))) ex_ack_changes ex_changed
         "append" ex_tag ex_tagcore false).1.1
    = [(0%nat, "a"); (1%nat, "x"); (2%nat, "c")] ++ added ∧
    ex_id <$> added = ["b"].
Proof.
  destruct (sync_unsorted ex_id ex_story_eq ex_story_lt ex_Story_new
              (ex_is_sel (Some (1%nat, "x"))) ex_ack_changes ex_changed
              "append" ex_tag ex_tagcore false
              ex_ack_flag_only ex_changed_flag_only ex_new_has_id
              eq_refl eq_refl ex_tagcore_NoDup)
    as (added & H1 & H2 & _).
  exists added. split; [exact H1|exact H2].
Defined.

(** With the sort, and nothing selected, the tag comes to [c], [a], [b]. *)
Lemma sync_sorted_witness :
  ex_id <$> Tag.stories
              (Tag.sync ex_id ex_story_eq ex_story_lt ex_Story_new
                 (ex_is_sel None) ex_ack_changes ex_changed
                 "maintain" ex_tag ex_tagcore false).1.1
  = ["c"; "a"; "b"].
Proof.
  apply (sync_sorted ex_id ex_story_eq ex_story_lt ex_Story_new
           (ex_is_sel None) ex_ack_changes ex_changed
           "maintain" ex_tag ex_tagcore false
           ex_ack_flag_only ex_changed_flag_only ex_new_has_id
           eq_refl eq_refl ex_tagcore_NoDup ex_tag_NoDup ex_no_undead).
Defined.

(** The selected story [x] is gone from the tagcore and stays in the
    tag. *)
Lemma sync_spares_kept_witness :
  (1%nat, "x") ∈
    Tag.stories
      (Tag.sync ex_id ex_story_eq ex_story_lt ex_Story_new
         (ex_is_sel (Some (1%nat, "x"))) ex_ack_changes ex_changed
         "maintain" ex_tag ex_tagcore false).1.1.
Proof.
  apply (sync_spares_kept ex_id ex_story_eq ex_story_lt ex_Story_new
           (ex_is_sel (Some (1%nat, "x"))) ex_ack_changes ex_changed
           "maintain" ex_tag ex_tagcore false (1%nat, "x")
           ex_ack_flag_only ex_changed_flag_only ex_story_eq_refl).
  - right. left.
  - reflexivity.
Defined.

(** The identifier [b] is new to the tag. *)
Lemma sync_then_get_id_witness :
  ∃ s, Tag.get_id ex_id
         (Tag.sync ex_id ex_story_eq ex_story_lt ex_Story_new
            (ex_is_sel None) ex_ack_changes ex_changed
            "maintain" ex_tag ex_tagcore false).1.1 "b" = Some s ∧
       ex_id s = "b".
Proof.
  apply (sync_then_get_id ex_id ex_story_eq ex_story_lt ex_Story_new
           (ex_is_sel None) ex_ack_changes ex_changed
           "maintain" ex_tag ex_tagcore false "b"
           ex_ack_flag_only ex_changed_flag_only ex_new_has_id eq_refl).
  right. right. left.
Defined.
